(** * FreeSASA: neighbour lists (nb.c) and the Lee & Richards slice
    integrator (sasa_lr.c), embedded over the real numbers.

    Conventions of the embedding.
    - A C [double] is a real number ([R]); arithmetic is exact.  The only
      operation of the two files that can leave the reals is the division
      by [2*ri*d] in [sasa_exposed_arcs]; its result is an [option R], with
      [None] standing for the NaN that C produces for [0.0/0.0].
    - A C [int] is an integer without wrap-around: [Z] where the code
      subtracts or compares signed quantities, [nat] for array positions
      and loop counters.
    - A C array is a list; [a[i]] is [nth i a default].
    - [assert] is kept: a failed assertion is the outcome [AssertFail].
    - Loops whose termination depends on the data carry a fuel argument and
      yield [OutOfFuel] when it is exhausted.
    - [malloc] and [realloc] succeed, and the arrays that the code keeps on
      the stack fit.

    Range of the embedding.  Rounding, overflow and underflow of doubles
    and the wrap-around of ints are not modelled, so the embedding and the
    code can part where they occur: a contact test on a knife edge, a loop
    [z += delta] or [bj -= 2*PI] whose step is absorbed by rounding, a
    number of cells beyond the range of [int], a square that underflows.
    The theorems are stated accordingly.
    - Where the truth of a statement depends on the value of an arithmetic
      result, the statement carries hypotheses under which the doubles of
      the code compute that value without rounding ([fixed],
      [exact_slices], [exact_input]) or within the range in which the
      loops of the code advance (centres in [-PI, PI], radii away from
      underflow and overflow).
    - A statement on the result of a call that can fail where the
      embedding succeeds is made for every result that the call returns.
    - The other statements are identities between a stored value and the
      expression that the code evaluates for it, or concern the structure
      of lists and counters, and hold whatever the arithmetic returns. *)

From Stdlib Require Import Reals Lra Lia List ZArith Bool Arith.
From Equations Require Import Equations.
Import ListNotations.

Open Scope R_scope.

(** ** Outcomes of a call *)

Inductive outcome (A : Type) : Type :=
| Ok (a : A)
| AssertFail
| OutOfFuel.

Arguments Ok {A} a.
Arguments AssertFail {A}.
Arguments OutOfFuel {A}.

Definition bind {A B : Type} (m : outcome A) (k : A -> outcome B) : outcome B :=
  match m with
  | Ok a => k a
  | AssertFail => AssertFail
  | OutOfFuel => OutOfFuel
  end.

Notation "x <- m ;; k" := (bind m (fun x => k))
  (at level 61, m at next level, right associativity).

Definition assert (b : bool) : outcome unit :=
  if b then Ok tt else AssertFail.

(** Monadic left fold: the body of a [for] loop run over the values of its
    counter. *)
Fixpoint foldM {A S : Type} (f : A -> S -> outcome S) (l : list A) (s : S)
  : outcome S :=
  match l with
  | [] => Ok s
  | x :: l' => s' <- f x s ;; foldM f l' s'
  end.

(** ** Comparisons of doubles as booleans *)

Definition Rltb (x y : R) : bool := if Rlt_dec x y then true else false.
Definition Rgtb (x y : R) : bool := Rltb y x.
Definition Rleb (x y : R) : bool := if Rle_dec x y then true else false.
Definition Rgeb (x y : R) : bool := Rleb y x.

(** ** Arrays *)

(** [upd i v l] is the array [l] after [l[i] = v]. *)
Fixpoint upd {A : Type} (i : nat) (v : A) (l : list A) : list A :=
  match l, i with
  | [], _ => []
  | _ :: t, O => v :: t
  | h :: t, S i' => h :: upd i' v t
  end.

(** [alter_nth f i l] is the array [l] after [l[i] = f (l[i])]. *)
Definition alter_nth {A : Type} (f : A -> A) (d : A) (i : nat) (l : list A)
  : list A :=
  upd i (f (nth i l d)) l.

(** Integer interval [lo, lo+1, ..., hi] (empty when [hi < lo]): the values
    taken by the counter of [for (k = lo; k <= hi; ++k)]. *)
Definition zrange (lo hi : Z) : list Z :=
  map (fun k => (lo + Z.of_nat k)%Z) (seq 0 (Z.to_nat (hi - lo + 1))).

(** ** Functions of the C library *)

(** [ceil] followed by the conversion to [int]. *)
Definition Rceil (x : R) : Z := (- Int_part (- x))%Z.

(** The conversion [(int) x], which truncates toward zero. *)
Definition Rtrunc (x : R) : Z :=
  if Rle_dec 0 x then Int_part x else (- Int_part (- x))%Z.

(** [atan2 (y, x)], with values in (-PI, PI]. *)
Definition atan2 (y x : R) : R :=
  if Rlt_dec 0 x then atan (y / x)
  else if Rlt_dec x 0 then
         if Rle_dec 0 y then atan (y / x) + PI else atan (y / x) - PI
  else if Rlt_dec 0 y then PI / 2
  else if Rlt_dec y 0 then - (PI / 2)
  else 0.

(** Division of doubles where the divisor may be zero; [None] is the NaN (or
    infinity) of C. *)
Definition fdiv (x y : R) : option R :=
  if Req_dec_T y 0 then None else Some (x / y).

(** ** Numbers that doubles hold and combine without rounding *)

(** [fixed x]: [x] is a multiple of [2^-10] of magnitude at most [64].  A
    double holds such a number exactly.  Sums and differences of a few such
    numbers, products of two sums of two of them and sums of three such
    products are multiples of [2^-20] below [2^53 * 2^-20], so the doubles
    of the code compute them without rounding; a quotient of two such
    numbers that is not an integer differs from every integer by more than
    its rounding error, so [ceil] and the conversion to [int] give the same
    integer for the rounded quotient as for the exact one. *)
Definition fixed (x : R) : Prop :=
  exists m : Z, (Z.abs m <= 65536)%Z /\ x = IZR m / 1024.

Lemma fixed_bound x : fixed x -> - 64 <= x <= 64.
Proof.
  intros (m & Hm & ->).
  assert (H1 : (- 65536 <= m)%Z) by lia.
  assert (H2 : (m <= 65536)%Z) by lia.
  apply IZR_le in H1, H2. lra.
Qed.

Lemma fixed_IZR (k : Z) : (Z.abs k <= 64)%Z -> fixed (IZR k).
Proof.
  intros Hk. exists (1024 * k)%Z. split; [lia|].
  rewrite mult_IZR. lra.
Qed.

(** ** Facts on division and rounding used by the termination measures *)

Lemma up_measure_decr (x y : R) :
  0 <= x -> 1 < y -> x <= y - 2 \/ x < 1 ->
  (Z.to_nat (up x) < Z.to_nat (up y))%nat.
Proof.
  intros Hx Hy Hxy.
  destruct (archimed x) as [X1 X2], (archimed y) as [Y1 Y2].
  assert (B : (0 < up x)%Z) by (apply lt_IZR; lra).
  assert (A : (up x < up y)%Z).
  { destruct Hxy as [Hxy|Hxy].
    - apply lt_IZR. lra.
    - assert (up x < 2)%Z by (apply lt_IZR; lra).
      assert (1 < up y)%Z by (apply lt_IZR; lra).
      lia. }
  lia.
Qed.

Lemma Rdiv_le_l (x y c : R) : 0 < c -> x <= y * c -> x / c <= y.
Proof.
  intros Hc H. apply Rmult_le_reg_r with c; [assumption|].
  replace (x / c * c) with x by (field; lra). assumption.
Qed.

Lemma Rdiv_lt_l (x y c : R) : 0 < c -> x < y * c -> x / c < y.
Proof.
  intros Hc H. apply Rmult_lt_reg_r with c; [assumption|].
  replace (x / c * c) with x by (field; lra). assumption.
Qed.

Lemma Rdiv_lt_r (x y c : R) : 0 < c -> y * c < x -> y < x / c.
Proof.
  intros Hc H. apply Rmult_lt_reg_r with c; [assumption|].
  replace (x / c * c) with x by (field; lra). assumption.
Qed.

Lemma Rdiv_le_r (x y c : R) : 0 < c -> y * c <= x -> y <= x / c.
Proof.
  intros Hc H. apply Rmult_le_reg_r with c; [assumption|].
  replace (x / c * c) with x by (field; lra). assumption.
Qed.

(** ** The coordinate container *)

Module Coord.

(** Modelled from the spec: the coordinate container (coord.c / coord.h) is
    not part of the sources; the spec describes it as a flat XYZ buffer
    addressed by index.  [coord_n], [coord_all] and [coord_i] stand for
    [freesasa_coord_n] / [sasalib_coord_n], [freesasa_coord_all] /
    [sasalib_coord_all] and [freesasa_coord_i]. *)
Record coord : Type := { xyz : list R }.

Definition coord_n (c : coord) : nat := (length (xyz c) / 3)%nat.
Definition coord_all (c : coord) : list R := xyz c.
Definition coord_i (c : coord) (i : nat) : list R := skipn (3 * i) (xyz c).

End Coord.
Import Coord.

(** * sasa_lr.c *)

Module LR.

(** ** sasa_sum_angles *)

(** The loop
    [for (;;) { d = bj - bi; if (d > PI) bj -= 2*PI;
                else if (d < -PI) bj += 2*PI; else break; }]
    returns the final [(bj, d)].  It terminates because every round brings
    [|bj - bi|] down by [2*PI] or below [PI].  With doubles the step
    [bj -= 2*PI] changes nothing once [2*PI] is below half a unit in the
    last place of [bj]; the loop of the code ends as this one does for
    centres of moderate size, such as the centres in [-PI, PI] that
    [atan2] supplies, where one round suffices. *)
Definition gap_measure (bi bj : R) : nat :=
  Z.to_nat (up (Rabs (bj - bi) / PI)).

Lemma gap_measure_decr_hi bi bj :
  bj - bi > PI -> (gap_measure bi (bj - 2 * PI) < gap_measure bi bj)%nat.
Proof.
  intros H. unfold gap_measure.
  pose proof PI_RGT_0 as HPI.
  apply up_measure_decr.
  - apply Rdiv_le_r; [lra|]. pose proof (Rabs_pos (bj - 2 * PI - bi)). lra.
  - apply Rdiv_lt_r; [lra|]. rewrite Rabs_right by lra. lra.
  - rewrite (Rabs_right (bj - bi)) by lra.
    destruct (Rle_dec (2 * PI) (bj - bi)) as [Hc|Hc].
    + left. rewrite Rabs_right by lra.
      apply Rdiv_le_l; [lra|].
      replace ((bj - bi) / PI) with ((bj - bi) * / PI) by reflexivity.
      rewrite Rmult_minus_distr_r, Rmult_assoc, Rinv_l by lra. lra.
    + right. apply Rdiv_lt_l; [lra|].
      unfold Rabs. destruct (Rcase_abs (bj - 2 * PI - bi)); lra.
Qed.

Lemma gap_measure_decr_lo bi bj :
  bj - bi < - PI -> (gap_measure bi (bj + 2 * PI) < gap_measure bi bj)%nat.
Proof.
  intros H. unfold gap_measure.
  pose proof PI_RGT_0 as HPI.
  apply up_measure_decr.
  - apply Rdiv_le_r; [lra|]. pose proof (Rabs_pos (bj + 2 * PI - bi)). lra.
  - apply Rdiv_lt_r; [lra|]. rewrite Rabs_left by lra. lra.
  - rewrite (Rabs_left (bj - bi)) by lra.
    destruct (Rle_dec (2 * PI) (bi - bj)) as [Hc|Hc].
    + left. rewrite Rabs_left1 by lra.
      apply Rdiv_le_l; [lra|].
      replace (- (bj - bi) / PI) with ((bi - bj) * / PI)
        by (unfold Rdiv; f_equal; lra).
      rewrite Rmult_minus_distr_r, Rmult_assoc, Rinv_l by lra. lra.
    + right. apply Rdiv_lt_l; [lra|].
      unfold Rabs. destruct (Rcase_abs (bj + 2 * PI - bi)); lra.
Qed.

Equations normalize_gap (bi bj : R) : R * R by wf (gap_measure bi bj) lt :=
normalize_gap bi bj with Rgt_dec (bj - bi) PI := {
  | left Hhi => normalize_gap bi (bj - 2 * PI)
  | right _ with Rlt_dec (bj - bi) (- PI) := {
    | left Hlo => normalize_gap bi (bj + 2 * PI)
    | right _ => (bj, bj - bi) } }.
Next Obligation. apply gap_measure_decr_hi; assumption. Qed.
Next Obligation. apply gap_measure_decr_lo; assumption. Qed.

(** The variables of one call of [sasa_sum_angles] that its loops update. *)
Record sa_state : Type := mk_sa_state {
  sa_a : list R;
  sa_b : list R;
  sa_excluded : list bool;
  sa_n_exc : Z;
  sa_n_overlap : Z
}.

(** How the loop over [j] is left: by running to its end, by [break], or by
    [return 0] out of the function. *)
Inductive loop_exit : Type :=
| Fallthrough (st : sa_state)
| Broke (st : sa_state)
| Returned (v : R).

(** The loop [for (j = 0; j < n_buried; ++j)] for a fixed [i], over the
    values [js] of [j] still to come.  The half-width [(sup - inf) / 2] of
    a merged interval is exact here; with doubles it is rounded, and is 0
    when a half-width is absorbed by its centre in [bj - aj] and
    [bj + aj]. *)
Fixpoint sum_angles_inner (n_buried : nat) (i : nat) (js : list nat)
  (st : sa_state) : loop_exit :=
  match js with
  | [] => Fallthrough st
  | j :: js' =>
    if nth j (sa_excluded st) false then sum_angles_inner n_buried i js' st
    else if Nat.eqb i j then sum_angles_inner n_buried i js' st
    else
      let bi := nth i (sa_b st) 0 in
      let ai := nth i (sa_a st) 0 in
      let bj := nth j (sa_b st) 0 in
      let aj := nth j (sa_a st) 0 in
      let '(bj, d) := normalize_gap bi bj in
      if Rgtb (Rabs d) (ai + aj) then sum_angles_inner n_buried i js' st
      else
        let n_overlap := (sa_n_overlap st + 1)%Z in
        let inf_i := bi - ai in
        let inf_j := bj - aj in
        let sup_i := bi + ai in
        let sup_j := bj + aj in
        let inf := if Rltb inf_i inf_j then inf_i else inf_j in
        let sup := if Rgtb sup_i sup_j then sup_i else sup_j in
        let b_i := (inf + sup) / 2 in
        let a_i := (sup - inf) / 2 in
        if Rgtb a_i PI then Returned 0
        else
          let b_i := if Rgtb b_i PI then b_i - 2 * PI else b_i in
          let b_i := if Rltb b_i (- PI) then b_i + 2 * PI else b_i in
          let n_exc := (sa_n_exc st + 1)%Z in
          let st' :=
            {| sa_a := upd j 0 (upd i a_i (sa_a st));
               sa_b := upd i b_i (sa_b st);
               sa_excluded := upd j true (sa_excluded st);
               sa_n_exc := n_exc;
               sa_n_overlap := n_overlap |} in
          if (n_exc =? Z.of_nat n_buried - 1)%Z then Broke st'
          else sum_angles_inner n_buried i js' st'
  end.

(** The loop [for (i = 0; i < n_buried; ++i)]; [inr v] is [return v]. *)
Fixpoint sum_angles_outer (n_buried : nat) (ivals : list nat) (st : sa_state)
  : sa_state + R :=
  match ivals with
  | [] => inl st
  | i :: ivals' =>
    if nth i (sa_excluded st) false then sum_angles_outer n_buried ivals' st
    else
      match sum_angles_inner n_buried i (seq 0 n_buried) st with
      | Returned v => inr v
      | Fallthrough st' | Broke st' =>
        if (sa_n_exc st' =? Z.of_nat n_buried - 1)%Z then inl st'
        else sum_angles_outer n_buried ivals' st'
      end
  end.

(** The intervals that were not excluded, in order ([a2], [b2]). *)
Definition compact (n_buried : nat) (excluded : list bool) (v : list R)
  : list R :=
  fold_left
    (fun acc i => if nth i excluded false then acc else acc ++ [nth i v 0])
    (seq 0 n_buried) [].

Definition sa_init (n_buried : nat) (a b : list R) : sa_state :=
  {| sa_a := a; sa_b := b; sa_excluded := repeat false n_buried;
     sa_n_exc := 0; sa_n_overlap := 0 |}.

(** One activation of [sasa_sum_angles] up to the test [if (n_overlap)]. *)
Definition sum_angles_pass (n_buried : nat) (a b : list R) : sa_state + R :=
  sum_angles_outer n_buried (seq 0 n_buried) (sa_init n_buried a b).

(** [fuel] bounds the number of nested recursive calls. *)
Fixpoint sasa_sum_angles (fuel : nat) (n_buried : nat) (a b : list R)
  {struct fuel} : outcome R :=
  _ <- assert (forallb (fun i => Rgtb (nth i a 0) 0) (seq 0 n_buried)) ;;
  match sum_angles_pass n_buried a b with
  | inr v => Ok v
  | inl st =>
    if negb (sa_n_overlap st =? 0)%Z then
      let b2 := compact n_buried (sa_excluded st) (sa_b st) in
      let a2 := compact n_buried (sa_excluded st) (sa_a st) in
      let n := length a2 in
      match fuel with
      | O => OutOfFuel
      | S fuel' => sasa_sum_angles fuel' n a2 b2
      end
    else
      let buried_angle :=
        fold_left (fun acc i => acc + 2 * nth i (sa_a st) 0)
                  (seq 0 n_buried) 0 in
      Ok (2 * PI - buried_angle)
  end.

(** ** sasa_exposed_arcs *)

(** The half-widths gathered for one circle; an entry is [None] when the
    quotient handed to [acos] is not a number. *)
Definition all_numbers (a : list (option R)) : option (list R) :=
  fold_right
    (fun o acc => match o, acc with
                  | Some v, Some l => Some (v :: l)
                  | _, _ => None
                  end)
    (Some []) a.

(** The call [sasa_sum_angles(n_buried,a,b)]: [assert(a[i] > 0)] fails on a
    NaN. *)
Definition sum_angles_call (fuel : nat) (a : list (option R)) (b : list R)
  : outcome R :=
  match all_numbers a with
  | Some a' => sasa_sum_angles fuel (length a') a' b
  | None => AssertFail
  end.

Record arcs : Type := mk_arcs {
  ar_a : list (option R);
  ar_b : list R;
  ar_buried : list bool  (* is_completely_buried *)
}.

(** The loop over the neighbours [js] of circle [i] in the slice.  The
    three tests compare exact sums here; with doubles [d + rj] and
    [d + ri] are rounded, so that circles within a rounding error of
    tangency can be sorted into another branch. *)
Fixpoint arcs_of_neighbours (x y r : list R) (i : nat) (js : list nat)
  (st : arcs) : outcome arcs :=
  match js with
  | [] => Ok st
  | j :: js' =>
    _ <- assert (negb (Nat.eqb i j)) ;;
    let ri := nth i r 0 in
    let rj := nth j r 0 in
    let xij := nth j x 0 - nth i x 0 in
    let yij := nth j y 0 - nth i y 0 in
    let d := sqrt (xij * xij + yij * yij) in
    if Rgeb d (ri + rj) then arcs_of_neighbours x y r i js' st
    else if Rltb (d + ri) rj then
      Ok {| ar_a := ar_a st; ar_b := ar_b st;
            ar_buried := upd i true (ar_buried st) |}
    else if Rltb (d + rj) ri then
      arcs_of_neighbours x y r i js'
        {| ar_a := ar_a st; ar_b := ar_b st;
           ar_buried := upd j true (ar_buried st) |}
    else
      let alpha :=
        option_map acos (fdiv (ri * ri + d * d - rj * rj) (2 * ri * d)) in
      let beta := atan2 yij xij in
      arcs_of_neighbours x y r i js'
        {| ar_a := ar_a st ++ [alpha]; ar_b := ar_b st ++ [beta];
           ar_buried := ar_buried st |}
  end.

(** The body of the loop over the circles of the slice; the state is
    [(exposed_arc, is_completely_buried)]. *)
Definition exposed_arc_step (fuel : nat) (x y r : list R)
  (nb : list (list nat)) (nn : list nat) (i : nat)
  (st : list R * list bool) : outcome (list R * list bool) :=
  let '(exposed_arc, buried) := st in
  let exposed_arc := upd i 0 exposed_arc in
  if nth i buried false then Ok (exposed_arc, buried)
  else
    let js := map (fun ni => nth ni (nth i nb []) O) (seq 0 (nth i nn O)) in
    st' <- arcs_of_neighbours x y r i js
             {| ar_a := []; ar_b := []; ar_buried := buried |} ;;
    if negb (nth i (ar_buried st') false) then
      v <- sum_angles_call fuel (ar_a st') (ar_b st') ;;
      Ok (upd i v exposed_arc, ar_buried st')
    else Ok (exposed_arc, ar_buried st').

Definition sasa_exposed_arcs (fuel : nat) (n_slice : nat) (x y : list R)
  (z : R) (r : list R) (exposed_arc : list R) (nb : list (list nat))
  (nn : list nat) : outcome (list R) :=
  st <- foldM (exposed_arc_step fuel x y r nb nn) (seq 0 n_slice)
          (exposed_arc, repeat false n_slice) ;;
  Ok (fst st).

(** ** sasa_add_slice_area *)

(** The calculation parameters [sasa_lr_t]; the result array [sasa] that the
    struct points to is threaded through the calls instead. *)
Record sasa_lr_t : Type := mk_sasa_lr {
  n_atoms : nat;
  radii : list R;
  xyz : coord;
  nb : list (list nat);
  nn : list nat;
  delta : R;
  min_z : R;
  max_z : R
}.

(** The arrays filled by the first loop of [sasa_add_slice_area];
    [n_slice] is the length of [sl_idx].  [xdi] and [in_slice] get one
    entry per atom, in the order of the loop; [xdi[i]] is not written for
    an atom outside the slice and holds 0 here. *)
Record slice : Type := mk_slice {
  sl_x : list R;
  sl_y : list R;
  sl_r : list R;
  sl_DR : list R;
  sl_idx : list nat;
  sl_xdi : list nat;
  sl_in_slice : list bool
}.

Definition n_slice (s : slice) : nat := length (sl_idx s).

Definition slice_empty : slice :=
  {| sl_x := []; sl_y := []; sl_r := []; sl_DR := []; sl_idx := [];
     sl_xdi := []; sl_in_slice := [] |}.

(** The body of the first loop of [sasa_add_slice_area] for atom [i].
    [ri * ri - d * d] is exact here; with doubles the squares underflow
    for radii below about [1e-154] and overflow above about [1e154], and
    [r] can then be 0 or infinite. *)
Definition locate_atom (z : R) (lr : sasa_lr_t) (s : slice) (i : nat)
  : slice :=
  let v := coord_all (xyz lr) in
  let ri := nth i (radii lr) 0 in
  let d := Rabs (nth (3 * i + 2) v 0 - z) in
  if Rltb d ri then
    let r := sqrt (ri * ri - d * d) in
    let DR :=
      ri / r * (delta lr / 2 +
                (if Rltb (delta lr / 2) (ri - d) then delta lr / 2
                 else ri - d)) in
    {| sl_x := sl_x s ++ [nth (i * 3) v 0];
       sl_y := sl_y s ++ [nth (i * 3 + 1) v 0];
       sl_r := sl_r s ++ [r];
       sl_DR := sl_DR s ++ [DR];
       sl_idx := sl_idx s ++ [i];
       sl_xdi := sl_xdi s ++ [n_slice s];
       sl_in_slice := sl_in_slice s ++ [true] |}
  else
    {| sl_x := sl_x s; sl_y := sl_y s; sl_r := sl_r s; sl_DR := sl_DR s;
       sl_idx := sl_idx s;
       sl_xdi := sl_xdi s ++ [O];
       sl_in_slice := sl_in_slice s ++ [false] |}.

Definition locate_atoms (z : R) (lr : sasa_lr_t) : slice :=
  fold_left (locate_atom z lr) (seq 0 (n_atoms lr)) slice_empty.

(** [nb_slice[i]] for the slice atom with index [i2] in the structure. *)
Definition slice_neighbours (lr : sasa_lr_t) (s : slice) (i2 : nat)
  : list nat :=
  fold_left
    (fun acc j =>
       let j2 := nth j (nth i2 (nb lr) []) O in
       if nth j2 (sl_in_slice s) false then acc ++ [nth j2 (sl_xdi s) O]
       else acc)
    (seq 0 (nth i2 (nn lr) O)) [].

Definition accumulate (s : slice) (exposed_arc : list R) (sasa : list R)
  : list R :=
  fold_left
    (fun sasa i =>
       let k := nth i (sl_idx s) O in
       upd k (nth k sasa 0
              + nth i exposed_arc 0 * nth i (sl_r s) 0 * nth i (sl_DR s) 0)
           sasa)
    (seq 0 (n_slice s)) sasa.

Definition sasa_add_slice_area (fuel : nat) (z : R) (lr : sasa_lr_t)
  (sasa : list R) : outcome (list R) :=
  let s := locate_atoms z lr in
  let nb_slice := map (slice_neighbours lr s) (sl_idx s) in
  let nn_slice := map (@length nat) nb_slice in
  let exposed_arc := repeat 0 (n_slice s) in
  exposed_arc <- sasa_exposed_arcs fuel (n_slice s) (sl_x s) (sl_y s) z
                   (sl_r s) exposed_arc nb_slice nn_slice ;;
  Ok (accumulate s exposed_arc sasa).

(** ** sasa_get_contacts *)

(** The body of the loop over [j]; the state is [(nb, nn)].  The contact
    test compares exact squares here; the doubles of the code decide alike
    when the squares and their sum are computed without rounding, as they
    are for [fixed] coordinates and radii, and can decide otherwise for a
    pair within a rounding error of contact. *)
Definition contact_step (v radii : list R) (i : nat)
  (st : list (list nat) * list nat) (j : nat) : list (list nat) * list nat :=
  let '(nb, nn) := st in
  let ri := nth i radii 0 in
  let xi := nth (i * 3) v 0 in
  let yi := nth (i * 3 + 1) v 0 in
  let zi := nth (i * 3 + 2) v 0 in
  let rj := nth j radii 0 in
  let cut2 := (ri + rj) * (ri + rj) in
  let xj := nth (j * 3) v 0 in
  let yj := nth (j * 3 + 1) v 0 in
  let zj := nth (j * 3 + 2) v 0 in
  if Rgtb ((xj - xi) * (xj - xi)) cut2
     || Rgtb ((yj - yi) * (yj - yi)) cut2
     || Rgtb ((zj - zi) * (zj - zi)) cut2
  then (nb, nn)
  else
    let dx := xj - xi in
    let dy := yj - yi in
    let dz := zj - zi in
    if Rltb (dx * dx + dy * dy + dz * dz) cut2 then
      let nn := alter_nth S O j (alter_nth S O i nn) in
      let nb := alter_nth (fun l => l ++ [j]) [] i nb in
      let nb := alter_nth (fun l => l ++ [i]) [] j nb in
      (nb, nn)
    else (nb, nn).

Definition sasa_get_contacts (xyz : coord) (radii : list R)
  : list (list nat) * list nat :=
  let n_atoms := coord_n xyz in
  let v := coord_all xyz in
  fold_left
    (fun st i =>
       fold_left (contact_step v radii i) (seq (i + 1) (n_atoms - (i + 1))) st)
    (seq 0 n_atoms)
    (repeat [] n_atoms, repeat O n_atoms).

(** ** sasalib_lee_richards *)

Inductive status : Type := SASALIB_SUCCESS | SASALIB_WARN.

(** Modelled from the spec: [sasalib_warn] (not part of the sources) is the
    warning channel; it reports and returns the warning status. *)
Definition sasalib_warn : status := SASALIB_WARN.

(** The loop [for (double z = min_z; z < max_z; z += delta) body(z)].
    [z + delta] is exact here; with doubles it is rounded, so that the
    centres and their number can differ from [min_z + k * delta], and the
    loop does not advance when [delta] is below half a unit in the last
    place of [z].  Neither happens when [min_z] and [delta] are [fixed]. *)
Fixpoint slice_loop {S : Type} (body : R -> S -> outcome S) (fuel : nat)
  (z max_z delta : R) (s : S) {struct fuel} : outcome S :=
  if Rltb z max_z then
    match fuel with
    | O => OutOfFuel
    | S fuel' =>
      s' <- body z s ;; slice_loop body fuel' (z + delta) max_z delta s'
    end
  else Ok s.

(** The variables of the first loop of [sasalib_lee_richards]. *)
Record range : Type := mk_range {
  rg_max_z : R;
  rg_min_z : R;
  rg_max_r : R;
  rg_radii : list R;
  rg_sasa : list R
}.

Definition range_step (v atom_radii : list R) (probe_radius : R)
  (st : range) (i : nat) : range :=
  let radius := nth i atom_radii 0 + probe_radius in
  let z := nth (3 * i + 2) v 0 in
  let r := radius in
  {| rg_max_z := if Rgtb z (rg_max_z st) then z else rg_max_z st;
     rg_min_z := if Rltb z (rg_min_z st) then z else rg_min_z st;
     rg_max_r := if Rgtb r (rg_max_r st) then r else rg_max_r st;
     rg_radii := rg_radii st ++ [radius];
     rg_sasa := upd i 0 (rg_sasa st) |}.

Definition slice_range (sasa : list R) (xyz : coord) (atom_radii : list R)
  (probe_radius : R) : range :=
  fold_left (range_step (coord_all xyz) atom_radii probe_radius)
    (seq 0 (coord_n xyz))
    {| rg_max_z := - 1e50; rg_min_z := 1e50; rg_max_r := 0;
       rg_radii := []; rg_sasa := sasa |}.

(** The parameters handed to the slice loop. *)
Definition lr_params (sasa : list R) (xyz : coord) (atom_radii : list R)
  (probe_radius delta : R) : sasa_lr_t :=
  let rg := slice_range sasa xyz atom_radii probe_radius in
  let min_z := rg_min_z rg - rg_max_r rg in
  let max_z := rg_max_z rg + rg_max_r rg in
  let min_z := min_z + 0.5 * delta in
  let contacts := sasa_get_contacts xyz (rg_radii rg) in
  {| n_atoms := coord_n xyz; radii := rg_radii rg; xyz := xyz;
     nb := fst contacts; nn := snd contacts; delta := delta;
     min_z := min_z; max_z := max_z |}.

(** The single-threaded build (HAVE_LIBPTHREAD undefined): a request for
    several threads is answered by a warning and one thread.  The result is
    the returned status and the final contents of [sasa]. *)
Definition sasalib_lee_richards (fuel : nat) (sasa : list R) (xyz : coord)
  (atom_radii : list R) (probe_radius delta : R) (n_threads : Z)
  : outcome (status * list R) :=
  let n_atoms := coord_n xyz in
  let return_value := SASALIB_SUCCESS in
  if Nat.eqb n_atoms 0 then Ok (sasalib_warn, sasa)
  else
    let rg := slice_range sasa xyz atom_radii probe_radius in
    let lr := lr_params sasa xyz atom_radii probe_radius delta in
    let return_value :=
      if (n_threads >? 1)%Z then sasalib_warn else return_value in
    let n_threads := if (n_threads >? 1)%Z then 1%Z else n_threads in
    if (n_threads =? 1)%Z then
      sasa <- slice_loop (fun z => sasa_add_slice_area fuel z lr) fuel
                (min_z lr) (max_z lr) delta (rg_sasa rg) ;;
      Ok (return_value, sasa)
    else Ok (return_value, rg_sasa rg).

End LR.

(** * nb.c *)

Module NB.

Definition NB_CHUNK : nat := 32.

(** A cell of the Verlet list.  A pointer to a cell is its index in the
    array [cell] of the cell list; [n_nb] and [n_atoms] are the lengths of
    [c_nb] and [c_atom]. *)
Record cell : Type := mk_cell {
  c_nb : list nat;    (* forward neighbours, self included *)
  c_atom : list nat   (* indices of the atoms in the cell *)
}.

Record cell_list : Type := mk_cell_list {
  cl_cell : list cell;
  cl_n : Z;
  cl_nx : Z; cl_ny : Z; cl_nz : Z;
  cl_d : R;
  cl_x_max : R; cl_x_min : R;
  cl_y_max : R; cl_y_min : R;
  cl_z_max : R; cl_z_min : R
}.

(** Modelled from the spec: [struct freesasa_nb] is declared in nb.h, which
    is not part of the sources; the fields are those that nb.c uses.  Each
    of [nb[i]], [nb_xyd[i]], [nb_xd[i]], [nb_yd[i]] holds the entries written
    so far; the allocated size is [capacity[i]]. *)
Record freesasa_nb : Type := mk_nb {
  n : nat;
  nn : list nat;
  nb : list (list nat);
  nb_xyd : list (list R);
  nb_xd : list (list R);
  nb_yd : list (list R);
  capacity : list nat
}.

(** The running bounds of [cell_list_bounds]: [(x, X, y, Y, z, Z)]. *)
Definition bounds_step (coord : coord) (st : R * R * R * R * R * R)
  (i : nat) : R * R * R * R * R * R :=
  let '(x, X, y, Y, z, Z) := st in
  let v := coord_i coord i in
  (Rmin (nth 0 v 0) x, Rmax (nth 0 v 0) X,
   Rmin (nth 1 v 0) y, Rmax (nth 1 v 0) Y,
   Rmin (nth 2 v 0) z, Rmax (nth 2 v 0) Z).

(** [nx], [ny], [nz] and [n] are integers without bound here; in the code
    they are ints converted from the double that [ceil] returns, so that
    the code and the embedding agree when the extent of the coordinates is
    a moderate number of cells and the padding [d/2] is not absorbed by
    the coordinates, as for [fixed] coordinates and a cell size of at
    least 2. *)
Definition cell_list_bounds (c : cell_list) (coord : coord) : cell_list :=
  let n := coord_n coord in
  let d := cl_d c in
  let v := coord_i coord 0 in
  let '(x, X, y, Y, z, Z) :=
    fold_left (bounds_step coord) (seq 1 (n - 1))
      (nth 0 v 0, nth 0 v 0, nth 1 v 0, nth 1 v 0, nth 2 v 0, nth 2 v 0) in
  let x_min := x - d / 2 in
  let x_max := X + d / 2 in
  let y_min := y - d / 2 in
  let y_max := Y + d / 2 in
  let z_min := z - d / 2 in
  let z_max := Z + d / 2 in
  let nx := Rceil ((x_max - x_min) / d) in
  let ny := Rceil ((y_max - y_min) / d) in
  let nz := Rceil ((z_max - z_min) / d) in
  {| cl_cell := cl_cell c;
     cl_n := (nx * ny * nz)%Z;
     cl_nx := nx; cl_ny := ny; cl_nz := nz;
     cl_d := d;
     cl_x_max := x_max; cl_x_min := x_min;
     cl_y_max := y_max; cl_y_min := y_min;
     cl_z_max := z_max; cl_z_min := z_min |}.

Definition cell_index (c : cell_list) (ix iy iz : Z) : outcome Z :=
  _ <- assert ((0 <=? ix)%Z && (ix <? cl_nx c)%Z) ;;
  _ <- assert ((0 <=? iy)%Z && (iy <? cl_ny c)%Z) ;;
  Ok (ix + cl_nx c * (iy + cl_ny c * iz))%Z.

Definition set_cells (c : cell_list) (cells : list cell) : cell_list :=
  {| cl_cell := cells;
     cl_n := cl_n c;
     cl_nx := cl_nx c; cl_ny := cl_ny c; cl_nz := cl_nz c;
     cl_d := cl_d c;
     cl_x_max := cl_x_max c; cl_x_min := cl_x_min c;
     cl_y_max := cl_y_max c; cl_y_min := cl_y_min c;
     cl_z_max := cl_z_max c; cl_z_min := cl_z_min c |}.

(** The innermost statement of [fill_nb]: the forward test and the store
    into [cell->nb[n]]; the state is the list [cell->nb[0..n)]. *)
Definition fill_nb_step (c : cell_list) (ix iy iz : Z) (i j k : Z)
  (nbs : list nat) : outcome (list nat) :=
  if (i - ix + j - iy + k - iz >=? 0)%Z then
    idx <- cell_index c i j k ;;
    Ok (nbs ++ [Z.to_nat idx])
  else Ok nbs.

Definition fill_nb (c : cell_list) (ix iy iz : Z) : outcome cell_list :=
  self <- cell_index c ix iy iz ;;
  let xmin := if (ix >? 0)%Z then (ix - 1)%Z else 0%Z in
  let xmax := if (ix <? cl_nx c - 1)%Z then (ix + 1)%Z else ix in
  let ymin := if (iy >? 0)%Z then (iy - 1)%Z else 0%Z in
  let ymax := if (iy <? cl_ny c - 1)%Z then (iy + 1)%Z else iy in
  let zmin := if (iz >? 0)%Z then (iz - 1)%Z else 0%Z in
  let zmax := if (iz <? cl_nz c - 1)%Z then (iz + 1)%Z else iz in
  nbs <- foldM
           (fun i => foldM
              (fun j => foldM
                 (fun k => fill_nb_step c ix iy iz i j k)
                 (zrange zmin zmax))
              (zrange ymin ymax))
           (zrange xmin xmax) [] ;;
  _ <- assert (0 <? length nbs)%nat ;;
  Ok (set_cells c
        (alter_nth (fun cl => {| c_nb := nbs; c_atom := c_atom cl |})
           (mk_cell [] []) (Z.to_nat self) (cl_cell c))).

Definition get_nb (c : cell_list) : outcome cell_list :=
  foldM
    (fun ix => foldM
       (fun iy => foldM
          (fun iz c => fill_nb c ix iy iz)
          (zrange 0 (cl_nz c - 1)))
       (zrange 0 (cl_ny c - 1)))
    (zrange 0 (cl_nx c - 1)) c.

Definition coord2cell_index (c : cell_list) (xyz : list R) : outcome Z :=
  let d := cl_d c in
  let ix := Rtrunc ((nth 0 xyz 0 - cl_x_min c) / d) in
  let iy := Rtrunc ((nth 1 xyz 0 - cl_y_min c) / d) in
  let iz := Rtrunc ((nth 2 xyz 0 - cl_z_min c) / d) in
  cell_index c ix iy iz.

(** On entry every [cell[i].atom] is NULL; the first loop sets every
    [n_atoms] to 0, the second appends each atom to its cell. *)
Definition fill_cells (c : cell_list) (coord : coord) : outcome cell_list :=
  let cells0 := map (fun cl => {| c_nb := c_nb cl; c_atom := [] |})
                    (cl_cell c) in
  cells <- foldM
             (fun i cells =>
                let v := coord_i coord i in
                idx <- coord2cell_index c v ;;
                Ok (alter_nth
                      (fun cl => {| c_nb := c_nb cl;
                                    c_atom := c_atom cl ++ [i] |})
                      (mk_cell [] []) (Z.to_nat idx) cells))
             (seq 0 (coord_n coord)) cells0 ;;
  Ok (set_cells c cells).

Definition cell_list_new (cell_size : R) (coord : option coord)
  : outcome cell_list :=
  _ <- assert (Rgtb cell_size 0) ;;
  match coord with
  | None => AssertFail
  | Some coord =>
    let c := {| cl_cell := []; cl_n := 0;
                cl_nx := 0; cl_ny := 0; cl_nz := 0;
                cl_d := cell_size;
                cl_x_max := 0; cl_x_min := 0;
                cl_y_max := 0; cl_y_min := 0;
                cl_z_max := 0; cl_z_min := 0 |} in
    let c := cell_list_bounds c coord in
    let c := set_cells c (repeat (mk_cell [] []) (Z.to_nat (cl_n c))) in
    c <- fill_cells c coord ;;
    get_nb c
  end.

Definition max_array (a : list R) (n : nat) : R :=
  fold_left (fun max i => Rmax (nth i a 0) max) (seq 0 n) 0.

Definition freesasa_nb_alloc (n : nat) : outcome freesasa_nb :=
  _ <- assert (0 <? n)%nat ;;
  Ok {| n := n;
        nn := repeat O n;
        nb := repeat [] n;
        nb_xyd := repeat [] n;
        nb_xd := repeat [] n;
        nb_yd := repeat [] n;
        capacity := repeat NB_CHUNK n |}.

(** [chunk_up] on the capacity; the reallocation keeps the contents. *)
Definition chunk_up (capacity : nat) (nni : nat) : nat :=
  if (capacity <? nni)%nat then (capacity + NB_CHUNK)%nat else capacity.

Definition nb_add_pair (adj : freesasa_nb) (i j : nat) (dx dy : R)
  : outcome freesasa_nb :=
  _ <- assert (negb (Nat.eqb i j)) ;;
  let nn := alter_nth S O j (alter_nth S O i (nn adj)) in
  let capacity :=
    alter_nth (fun c => chunk_up c (nth i nn O)) O i (capacity adj) in
  let capacity :=
    alter_nth (fun c => chunk_up c (nth j nn O)) O j capacity in
  let nb := alter_nth (fun l => l ++ [j]) [] i (nb adj) in
  let nb := alter_nth (fun l => l ++ [i]) [] j nb in
  let d := sqrt (dx * dx + dy * dy) in
  let nb_xyd := alter_nth (fun l => l ++ [d]) [] i (nb_xyd adj) in
  let nb_xyd := alter_nth (fun l => l ++ [d]) [] j nb_xyd in
  let nb_xd := alter_nth (fun l => l ++ [dx]) [] i (nb_xd adj) in
  let nb_xd := alter_nth (fun l => l ++ [- dx]) [] j nb_xd in
  let nb_yd := alter_nth (fun l => l ++ [dy]) [] i (nb_yd adj) in
  let nb_yd := alter_nth (fun l => l ++ [- dy]) [] j nb_yd in
  Ok {| n := n adj; nn := nn; nb := nb; nb_xyd := nb_xyd;
        nb_xd := nb_xd; nb_yd := nb_yd; capacity := capacity |}.

(** The body of the inner loop of [nb_calc_cell_pair] for the atoms at
    positions [i] of cell [ci] and [j] of cell [cj].  The contact test is
    that of [sasa_get_contacts] and is exact here in the same way. *)
Definition cell_pair_step (v radii : list R) (ci cj : cell) (i j : nat)
  (adj : freesasa_nb) : outcome freesasa_nb :=
  let ia := nth i (c_atom ci) O in
  let ri := nth ia radii 0 in
  let xi := nth (ia * 3) v 0 in
  let yi := nth (ia * 3 + 1) v 0 in
  let zi := nth (ia * 3 + 2) v 0 in
  let ja := nth j (c_atom cj) O in
  _ <- assert (negb (Nat.eqb ia ja)) ;;
  let rj := nth ja radii 0 in
  let xj := nth (ja * 3) v 0 in
  let yj := nth (ja * 3 + 1) v 0 in
  let zj := nth (ja * 3 + 2) v 0 in
  let cut2 := (ri + rj) * (ri + rj) in
  if Rgtb ((xj - xi) * (xj - xi)) cut2
     || Rgtb ((yj - yi) * (yj - yi)) cut2
     || Rgtb ((zj - zi) * (zj - zi)) cut2
  then Ok adj
  else
    let dx := xj - xi in
    let dy := yj - yi in
    let dz := zj - zi in
    if Rltb (dx * dx + dy * dy + dz * dz) cut2 then nb_add_pair adj ia ja dx dy
    else Ok adj.

(** [ci] and [cj] are pointers into [cells]. *)
Definition nb_calc_cell_pair (adj : freesasa_nb) (coord : coord)
  (radii : list R) (cells : list cell) (ci cj : nat) : outcome freesasa_nb :=
  let v := coord_all coord in
  let celli := nth ci cells (mk_cell [] []) in
  let cellj := nth cj cells (mk_cell [] []) in
  foldM
    (fun i =>
       let j0 := if Nat.eqb ci cj then (i + 1)%nat else O in
       foldM (cell_pair_step v radii celli cellj i)
             (seq j0 (length (c_atom cellj) - j0)))
    (seq 0 (length (c_atom celli))) adj.

Definition nb_fill_list (adj : freesasa_nb) (c : cell_list) (coord : coord)
  (radii : list R) : outcome freesasa_nb :=
  let nc := Z.to_nat (cl_n c) in
  foldM
    (fun ic =>
       let ci := nth ic (cl_cell c) (mk_cell [] []) in
       foldM
         (fun jc adj =>
            let cj := nth jc (c_nb ci) O in
            nb_calc_cell_pair adj coord radii (cl_cell c) ic cj)
         (seq 0 (length (c_nb ci))))
    (seq 0 nc) adj.

(** [None] is the NULL pointer, as an argument and as the result. *)
Definition freesasa_nb_new (coord : option coord) (radii : option (list R))
  : outcome (option freesasa_nb) :=
  match coord, radii with
  | Some crd, Some rad =>
    let n := coord_n crd in
    adj <- freesasa_nb_alloc n ;;
    let cell_size := 2 * max_array rad n in
    _ <- assert (Rgtb cell_size 0) ;;
    c <- cell_list_new cell_size coord ;;
    adj <- nb_fill_list adj c crd rad ;;
    Ok (Some adj)
  | _, _ => Ok None
  end.

Definition freesasa_nb_contact (adj : freesasa_nb) (i j : nat)
  : outcome Z :=
  _ <- assert (i <? n adj)%nat ;;
  _ <- assert (j <? n adj)%nat ;;
  Ok (if existsb (fun k => Nat.eqb (nth k (nth i (nb adj) []) O) j)
                 (seq 0 (nth i (nn adj) O))
      then 1%Z else 0%Z).

End NB.

(** * Properties *)

(** ** Booleans, arrays, folds *)

Lemma Rltb_true x y : Rltb x y = true <-> x < y.
Proof. unfold Rltb. destruct (Rlt_dec x y); split; intros; try easy. Qed.

Lemma Rltb_false x y : Rltb x y = false <-> y <= x.
Proof.
  unfold Rltb. destruct (Rlt_dec x y); split; intros; try easy; lra.
Qed.

Lemma Rleb_true x y : Rleb x y = true <-> x <= y.
Proof. unfold Rleb. destruct (Rle_dec x y); split; intros; try easy. Qed.

Lemma Rleb_false x y : Rleb x y = false <-> y < x.
Proof.
  unfold Rleb. destruct (Rle_dec x y); split; intros; try easy; lra.
Qed.

Lemma Rgtb_true x y : Rgtb x y = true <-> x > y.
Proof. unfold Rgtb. rewrite Rltb_true. lra. Qed.

Lemma Rgtb_false x y : Rgtb x y = false <-> x <= y.
Proof. unfold Rgtb. rewrite Rltb_false. lra. Qed.

Lemma Rgeb_true x y : Rgeb x y = true <-> x >= y.
Proof. unfold Rgeb. rewrite Rleb_true. lra. Qed.

Lemma Rgeb_false x y : Rgeb x y = false <-> x < y.
Proof. unfold Rgeb. rewrite Rleb_false. lra. Qed.

Lemma upd_length {A} i (v : A) l : length (upd i v l) = length l.
Proof.
  revert i; induction l as [|h t IH]; intros [|i]; simpl; auto.
Qed.

Lemma nth_upd_same {A} i (v d : A) l :
  (i < length l)%nat -> nth i (upd i v l) d = v.
Proof.
  revert i; induction l as [|h t IH]; intros [|i] H; simpl in *;
    try lia; auto.
  apply IH; lia.
Qed.

Lemma nth_upd_other {A} i j (v d : A) l :
  i <> j -> nth j (upd i v l) d = nth j l d.
Proof.
  revert i j; induction l as [|h t IH]; intros [|i] [|j] H; simpl;
    try congruence; auto.
Qed.

Lemma nth_upd {A} i j (v d : A) l :
  nth j (upd i v l) d =
  if Nat.eqb i j && (i <? length l)%nat then v else nth j l d.
Proof.
  destruct (Nat.eqb_spec i j) as [->|Hne]; simpl.
  - destruct (Nat.ltb_spec j (length l)).
    + apply nth_upd_same; assumption.
    + rewrite !nth_overflow; rewrite ?upd_length; auto.
  - apply nth_upd_other; assumption.
Qed.

Lemma foldM_inv {A S : Type} (P : S -> Prop) (f : A -> S -> outcome S) l :
  forall s s',
  (forall x s s', In x l -> P s -> f x s = Ok s' -> P s') ->
  P s -> foldM f l s = Ok s' -> P s'.
Proof.
  induction l as [|x l IH]; intros s s' Hf Hs Hr; simpl in Hr.
  - inversion Hr; subst; assumption.
  - destruct (f x s) as [s1| |] eqn:E; simpl in Hr; try discriminate.
    apply (IH s1 s'); auto.
    + intros y t t' Hy. apply Hf. right; assumption.
    + apply (Hf x s s1); auto. left; reflexivity.
Qed.

Lemma foldM_app {A S : Type} (f : A -> S -> outcome S) l1 l2 s :
  foldM f (l1 ++ l2) s = (s' <- foldM f l1 s ;; foldM f l2 s').
Proof.
  revert s; induction l1 as [|x l1 IH]; intros s; simpl; [reflexivity|].
  destruct (f x s); simpl; auto.
Qed.

Lemma Forall_upd {A} (P : A -> Prop) i v l :
  P v -> Forall P l -> Forall P (upd i v l).
Proof.
  intros Hv Hl. revert i.
  induction Hl as [|h t Hh Ht IH]; intros [|i]; simpl; constructor; auto.
Qed.

Lemma Forall_nth_default {A} (P : A -> Prop) l d i :
  P d -> Forall P l -> P (nth i l d).
Proof.
  intros Hd Hl. destruct (Nat.lt_ge_cases i (length l)).
  - rewrite Forall_forall in Hl. apply Hl. apply nth_In. assumption.
  - rewrite nth_overflow by assumption. assumption.
Qed.

Lemma foldM_no_fuel_loss {A S : Type} (f : A -> S -> outcome S) l :
  (forall x s, In x l -> f x s <> OutOfFuel) ->
  forall s, foldM f l s <> OutOfFuel.
Proof.
  induction l as [|x l IH]; intros Hf s; simpl; [discriminate|].
  destruct (f x s) as [s'| |] eqn:E; simpl.
  - apply IH. intros y t Hy. apply Hf. right; assumption.
  - discriminate.
  - exfalso. apply (Hf x s); [left; reflexivity | assumption].
Qed.

Lemma foldM_ext {A S : Type} (f g : A -> S -> outcome S) l :
  (forall x s, In x l -> f x s = g x s) ->
  forall s, foldM f l s = foldM g l s.
Proof.
  induction l as [|x l IH]; intros H s; simpl; [reflexivity|].
  rewrite (H x s) by (left; reflexivity).
  destruct (g x s); simpl; auto.
  apply IH. intros y t Hy. apply H. right; assumption.
Qed.

(** ** ceil and truncation *)

Lemma Rceil_spec x : IZR (Rceil x) - 1 < x <= IZR (Rceil x).
Proof.
  unfold Rceil. rewrite opp_IZR.
  destruct (base_Int_part (- x)). lra.
Qed.

Lemma Rceil_lt x (k : Z) : (k < Rceil x)%Z <-> IZR k < x.
Proof.
  pose proof (Rceil_spec x) as [H1 H2]. split; intros H.
  - assert (k <= Rceil x - 1)%Z as H3 by lia.
    apply IZR_le in H3. rewrite minus_IZR in H3. lra.
  - apply lt_IZR. lra.
Qed.

Lemma Rtrunc_nonneg x : 0 <= x -> IZR (Rtrunc x) <= x < IZR (Rtrunc x) + 1.
Proof.
  intros H. unfold Rtrunc. destruct (Rle_dec 0 x); [|lra].
  destruct (base_Int_part x). lra.
Qed.

(** ** sasa_sum_angles: the normalisation of the gap *)

Module LRFacts.
Import LR.

Lemma normalize_gap_spec bi bj :
  exists k : Z,
    normalize_gap bi bj = (bj + 2 * PI * IZR k, bj + 2 * PI * IZR k - bi)
    /\ - PI <= bj + 2 * PI * IZR k - bi <= PI.
Proof.
  funelim (normalize_gap bi bj).
  - destruct H as [k [E B]]. exists (k - 1)%Z.
    rewrite minus_IZR. rewrite E. split; [f_equal; lra | lra].
  - destruct H as [k [E B]]. exists (k + 1)%Z.
    rewrite plus_IZR. rewrite E. split; [f_equal; lra | lra].
  - exists 0%Z. split; [f_equal; lra | lra].
Qed.

(** ** sasa_sum_angles: counters and compaction *)

(** Number of intervals among the first [n] that are marked excluded. *)
Definition n_excl (n : nat) (excl : list bool) : nat :=
  length (filter (fun i => nth i excl false) (seq 0 n)).

Lemma n_excl_S n excl :
  n_excl (S n) excl
  = (n_excl n excl + if nth n excl false then 1 else 0)%nat.
Proof.
  unfold n_excl. rewrite seq_S, filter_app, length_app. simpl.
  destruct (nth n excl false); reflexivity.
Qed.

Lemma n_excl_le n excl : (n_excl n excl <= n)%nat.
Proof.
  unfold n_excl.
  pose proof (filter_length_le (fun i => nth i excl false) (seq 0 n)) as H.
  rewrite length_seq in H. exact H.
Qed.

Lemma n_excl_repeat n m : n_excl n (repeat false m) = O.
Proof.
  induction n as [|n IH]; [reflexivity|].
  rewrite n_excl_S, IH.
  replace (nth n (repeat false m) false) with false; [reflexivity|].
  symmetry. destruct (Nat.lt_ge_cases n m).
  - apply nth_repeat_lt; assumption.
  - apply nth_overflow. rewrite repeat_length. assumption.
Qed.

Lemma n_excl_upd n j excl :
  (j < n)%nat -> (n <= length excl)%nat -> nth j excl false = false ->
  n_excl n (upd j true excl) = S (n_excl n excl).
Proof.
  induction n as [|n IH]; intros Hj Hn Hf; [lia|].
  rewrite !n_excl_S.
  destruct (Nat.eq_dec j n) as [->|Hne].
  - rewrite nth_upd_same by lia. rewrite Hf.
    assert (E : n_excl n (upd n true excl) = n_excl n excl).
    { unfold n_excl. apply f_equal. apply filter_ext_in.
      intros i Hi. apply in_seq in Hi. apply nth_upd_other. lia. }
    rewrite E. simpl. lia.
  - rewrite nth_upd_other by assumption.
    rewrite IH; [|lia|lia|assumption]. simpl. lia.
Qed.

Lemma n_excl_lt n i excl :
  (i < n)%nat -> nth i excl false = false -> (n_excl n excl < n)%nat.
Proof.
  induction n as [|n IH]; intros Hi Hf; [lia|].
  rewrite n_excl_S.
  destruct (Nat.eq_dec i n) as [->|Hne].
  - rewrite Hf. pose proof (n_excl_le n excl). lia.
  - assert (n_excl n excl < n)%nat by (apply IH; [lia|assumption]).
    destruct (nth n excl false); lia.
Qed.

Lemma compact_S n excl v :
  compact (S n) excl v
  = if nth n excl false then compact n excl v
    else compact n excl v ++ [nth n v 0].
Proof.
  unfold compact. rewrite seq_S, fold_left_app. reflexivity.
Qed.

Lemma compact_length n excl v :
  (length (compact n excl v) + n_excl n excl = n)%nat.
Proof.
  induction n as [|n IH]; [reflexivity|].
  rewrite compact_S, n_excl_S.
  destruct (nth n excl false); [|rewrite length_app; simpl]; lia.
Qed.

Lemma compact_Forall (P : R -> Prop) n excl v :
  (forall i, (i < n)%nat -> nth i excl false = false -> P (nth i v 0)) ->
  Forall P (compact n excl v).
Proof.
  induction n as [|n IH]; intros H; [constructor|].
  rewrite compact_S.
  assert (Forall P (compact n excl v)) by (apply IH; intros; apply H; auto).
  destruct (nth n excl false) eqn:E; [assumption|].
  apply Forall_app. split; [assumption|].
  constructor; [|constructor]. apply H; auto.
Qed.

(** The sum computed by the last loop of [sasa_sum_angles]. *)
Fixpoint sumn (f : nat -> R) (n : nat) : R :=
  match n with
  | O => 0
  | S k => sumn f k + f k
  end.

Lemma buried_angle_sumn (a : list R) n :
  fold_left (fun acc i => acc + 2 * nth i a 0) (seq 0 n) 0
  = sumn (fun i => 2 * nth i a 0) n.
Proof.
  induction n as [|n IH]; [reflexivity|].
  rewrite seq_S, fold_left_app. simpl. rewrite IH. reflexivity.
Qed.

(** ** sasa_sum_angles: what a pass preserves *)

Definition sa_inv (n : nat) (st : sa_state) : Prop :=
  length (sa_a st) = n /\ length (sa_b st) = n
  /\ length (sa_excluded st) = n
  /\ sa_n_exc st = Z.of_nat (n_excl n (sa_excluded st))
  /\ sa_n_overlap st = sa_n_exc st.

(** The intervals still active have a half-width in (0, PI] and a centre
    in [-PI, PI]. *)
Definition sa_range (n : nat) (st : sa_state) : Prop :=
  forall i, (i < n)%nat -> nth i (sa_excluded st) false = false ->
    0 < nth i (sa_a st) 0 <= PI /\ - PI <= nth i (sa_b st) 0 <= PI.

Lemma sa_init_inv n a b :
  length a = n -> length b = n -> sa_inv n (sa_init n a b).
Proof.
  intros Ha Hb. unfold sa_inv, sa_init; simpl.
  rewrite repeat_length, n_excl_repeat. auto.
Qed.

(** The joint interval of two overlapping intervals, as the inner loop
    computes it. *)
Definition joint_inf (bi ai bj aj : R) : R :=
  if Rltb (bi - ai) (bj - aj) then bi - ai else bj - aj.

Definition joint_sup (bi ai bj aj : R) : R :=
  if Rgtb (bi + ai) (bj + aj) then bi + ai else bj + aj.

Definition joint_a (bi ai bj aj : R) : R :=
  (joint_sup bi ai bj aj - joint_inf bi ai bj aj) / 2.

Definition wrap_b (x : R) : R :=
  let x := if Rgtb x PI then x - 2 * PI else x in
  if Rltb x (- PI) then x + 2 * PI else x.

Definition joint_b (bi ai bj aj : R) : R :=
  wrap_b ((joint_inf bi ai bj aj + joint_sup bi ai bj aj) / 2).

(** The state after interval [j] (with its centre moved to [bj]) has been
    merged into interval [i]. *)
Definition merge_state (st : sa_state) (i j : nat) (bj : R) : sa_state :=
  let bi := nth i (sa_b st) 0 in
  let ai := nth i (sa_a st) 0 in
  let aj := nth j (sa_a st) 0 in
  {| sa_a := upd j 0 (upd i (joint_a bi ai bj aj) (sa_a st));
     sa_b := upd i (joint_b bi ai bj aj) (sa_b st);
     sa_excluded := upd j true (sa_excluded st);
     sa_n_exc := (sa_n_exc st + 1)%Z;
     sa_n_overlap := (sa_n_overlap st + 1)%Z |}.

Lemma inner_cons n i j js st :
  sum_angles_inner n i (j :: js) st =
  if nth j (sa_excluded st) false then sum_angles_inner n i js st
  else if Nat.eqb i j then sum_angles_inner n i js st
  else
    let bi := nth i (sa_b st) 0 in
    let ai := nth i (sa_a st) 0 in
    let aj := nth j (sa_a st) 0 in
    let gap := normalize_gap bi (nth j (sa_b st) 0) in
    if Rgtb (Rabs (snd gap)) (ai + aj) then sum_angles_inner n i js st
    else if Rgtb (joint_a bi ai (fst gap) aj) PI then Returned 0
    else if (sa_n_exc st + 1 =? Z.of_nat n - 1)%Z
         then Broke (merge_state st i j (fst gap))
         else sum_angles_inner n i js (merge_state st i j (fst gap)).
Proof.
  simpl. destruct (normalize_gap _ _) as [bj d]. reflexivity.
Qed.

Lemma joint_a_ge bi ai bj aj : ai <= joint_a bi ai bj aj.
Proof.
  unfold joint_a, joint_inf, joint_sup, Rgtb, Rltb.
  destruct (Rlt_dec _ _), (Rlt_dec _ _); lra.
Qed.

Lemma joint_b_range bi ai bj aj :
  0 <= ai -> - PI <= bi <= PI -> joint_a bi ai bj aj <= PI ->
  - PI <= joint_b bi ai bj aj <= PI.
Proof.
  pose proof PI_RGT_0.
  unfold joint_b, wrap_b, joint_a, joint_inf, joint_sup, Rgtb, Rltb.
  intros Ha Hb.
  destruct (Rlt_dec (bi - ai) (bj - aj)), (Rlt_dec (bj + aj) (bi + ai));
    intros Hj;
    repeat match goal with
           | |- context [Rlt_dec ?x ?y] => destruct (Rlt_dec x y)
           end; lra.
Qed.

Lemma inner_n_exc_mono n i js : forall st,
  match sum_angles_inner n i js st with
  | Fallthrough st' | Broke st' => (sa_n_exc st <= sa_n_exc st')%Z
  | Returned _ => True
  end.
Proof.
  induction js as [|j js IH]; intros st; [simpl; lia|].
  rewrite inner_cons.
  destruct (nth j (sa_excluded st) false); [apply IH|].
  destruct (Nat.eqb i j); [apply IH|].
  cbv zeta.
  destruct (Rgtb (Rabs _) _); [apply IH|].
  destruct (Rgtb (joint_a _ _ _ _) PI); [exact I|].
  destruct (Z.eqb _ _).
  - simpl. lia.
  - match goal with
    | |- context [sum_angles_inner n i js ?s] => specialize (IH s)
    end.
    destruct (sum_angles_inner n i js _); simpl in *; try lia; exact I.
Qed.

(** The inner loop keeps the invariants; a [return] is [return 0]; a
    [break] happens exactly when [n_exc] has reached [n_buried - 1]. *)
Lemma inner_inv n i js : forall st,
  sa_inv n st -> (i < n)%nat -> nth i (sa_excluded st) false = false ->
  Forall (fun j => (j < n)%nat) js ->
  match sum_angles_inner n i js st with
  | Fallthrough st' | Broke st' =>
    sa_inv n st' /\ nth i (sa_excluded st') false = false
    /\ (sa_range n st -> sa_range n st')
  | Returned v => v = 0
  end.
Proof.
  induction js as [|j js IH]; intros st Hinv Hi Hex Hjs; [simpl; auto|].
  rewrite inner_cons.
  inversion Hjs as [|j' js' Hj Hjs']; subst.
  destruct (nth j (sa_excluded st) false) eqn:Ej; [apply IH; auto|].
  destruct (Nat.eqb_spec i j) as [Heq|Hne]; [apply IH; auto|].
  cbv zeta.
  destruct (normalize_gap_spec (nth i (sa_b st) 0) (nth j (sa_b st) 0))
    as [k [Egap Bgap]].
  rewrite Egap. cbn [fst snd].
  set (bj := nth j (sa_b st) 0 + 2 * PI * IZR k) in *.
  destruct (Rgtb (Rabs _) _); [apply IH; auto|].
  destruct (Rgtb (joint_a _ _ _ _) PI) eqn:Ea; [reflexivity|].
  apply Rgtb_false in Ea.
  destruct Hinv as (La & Lb & Le & Hn & Ho).
  assert (Hinv' : sa_inv n (merge_state st i j bj)).
  { unfold sa_inv, merge_state; cbn [sa_a sa_b sa_excluded sa_n_exc
                                      sa_n_overlap].
    rewrite !upd_length. repeat split; auto.
    - rewrite n_excl_upd by (auto; lia). rewrite Hn. lia.
    - lia. }
  assert (Hex' : nth i (sa_excluded (merge_state st i j bj)) false = false).
  { unfold merge_state; cbn [sa_excluded].
    rewrite nth_upd_other by auto. assumption. }
  assert (Hrg : sa_range n st -> sa_range n (merge_state st i j bj)).
  { intros Hr m Hm. unfold merge_state; cbn [sa_a sa_b sa_excluded].
    destruct (Nat.eq_dec j m) as [->|Hjm].
    - rewrite nth_upd_same by lia. discriminate.
    - rewrite (nth_upd_other j m) by assumption.
      rewrite (nth_upd_other j m) by assumption.
      intros Hexm.
      destruct (Nat.eq_dec i m) as [->|Him].
      + rewrite !nth_upd_same by lia.
        destruct (Hr m Hm Hexm) as [[A1 A2] B].
        pose proof (joint_a_ge (nth m (sa_b st) 0) (nth m (sa_a st) 0) bj
                      (nth j (sa_a st) 0)).
        split; [lra|].
        apply joint_b_range; lra.
      + rewrite !nth_upd_other by assumption. apply Hr; assumption. }
  destruct (Z.eqb _ _); [auto|].
  specialize (IH (merge_state st i j bj) Hinv' Hi Hex' Hjs').
  destruct (sum_angles_inner n i js _); auto.
  - destruct IH as (I1 & I2 & I3). auto.
  - destruct IH as (I1 & I2 & I3). auto.
Qed.

Lemma outer_inv n ivals : forall st,
  sa_inv n st -> Forall (fun i => (i < n)%nat) ivals ->
  match sum_angles_outer n ivals st with
  | inl st' => sa_inv n st' /\ (sa_range n st -> sa_range n st')
  | inr v => v = 0
  end.
Proof.
  induction ivals as [|i ivals IH]; intros st Hinv Hiv; [simpl; auto|].
  inversion Hiv as [|i' iv' Hi Hiv']; subst. simpl.
  destruct (nth i (sa_excluded st) false) eqn:Ei; [apply IH; auto|].
  pose proof (inner_inv n i (seq 0 n) st Hinv Hi Ei) as Hin.
  assert (Hseq : Forall (fun j => (j < n)%nat) (seq 0 n)).
  { apply Forall_forall. intros j Hj. apply in_seq in Hj. lia. }
  specialize (Hin Hseq).
  destruct (sum_angles_inner n i (seq 0 n) st) as [st'|st'|v];
    [| |assumption].
  - destruct Hin as (I1 & I2 & I3).
    destruct (Z.eqb _ _); [auto|].
    specialize (IH st' I1 Hiv').
    destruct (sum_angles_outer n ivals st'); [|assumption].
    destruct IH; auto.
  - destruct Hin as (I1 & I2 & I3).
    destruct (Z.eqb _ _); [auto|].
    specialize (IH st' I1 Hiv').
    destruct (sum_angles_outer n ivals st'); [|assumption].
    destruct IH; auto.
Qed.

Lemma pass_inv n a b :
  length a = n -> length b = n ->
  match sum_angles_pass n a b with
  | inl st => sa_inv n st /\
              (sa_range n (sa_init n a b) -> sa_range n st)
  | inr v => v = 0
  end.
Proof.
  intros Ha Hb. unfold sum_angles_pass.
  apply outer_inv; [apply sa_init_inv; assumption|].
  apply Forall_forall. intros j Hj. apply in_seq in Hj. lia.
Qed.

(** After a pass that merged something, strictly fewer intervals are
    handed to the recursive call, and [a2] and [b2] have the same length. *)
Lemma pass_shrinks n a b st :
  length a = n -> length b = n ->
  sum_angles_pass n a b = inl st -> sa_n_overlap st <> 0%Z ->
  (length (compact n (sa_excluded st) (sa_a st)) < n)%nat
  /\ length (compact n (sa_excluded st) (sa_b st))
     = length (compact n (sa_excluded st) (sa_a st)).
Proof.
  intros Ha Hb Hp Hov.
  pose proof (pass_inv n a b Ha Hb) as H. rewrite Hp in H.
  destruct H as [(La & Lb & Le & Hn & Ho) _].
  pose proof (compact_length n (sa_excluded st) (sa_a st)).
  pose proof (compact_length n (sa_excluded st) (sa_b st)).
  split; lia.
Qed.

Lemma sasa_sum_angles_eq fuel n a b :
  sasa_sum_angles fuel n a b =
  (_ <- assert (forallb (fun i => Rgtb (nth i a 0) 0) (seq 0 n)) ;;
   match sum_angles_pass n a b with
   | inr v => Ok v
   | inl st =>
     if negb (sa_n_overlap st =? 0)%Z then
       match fuel with
       | O => OutOfFuel
       | S fuel' =>
         sasa_sum_angles fuel'
           (length (compact n (sa_excluded st) (sa_a st)))
           (compact n (sa_excluded st) (sa_a st))
           (compact n (sa_excluded st) (sa_b st))
       end
     else Ok (2 * PI - sumn (fun i => 2 * nth i (sa_a st) 0) n)
   end).
Proof.
  destruct fuel; simpl;
    (destruct (assert _) as [[]| |]; simpl; try reflexivity);
    (destruct (sum_angles_pass n a b); try reflexivity);
    (destruct (negb _); try reflexivity);
    rewrite buried_angle_sumn; reflexivity.
Qed.

Lemma sum_angles_terminates fuel : forall n a b,
  length a = n -> length b = n -> (n <= fuel)%nat ->
  sasa_sum_angles fuel n a b <> OutOfFuel.
Proof.
  induction fuel as [|fuel IH]; intros n a b Ha Hb Hn;
    rewrite sasa_sum_angles_eq;
    (unfold assert; destruct (forallb _ _); simpl; [|discriminate]);
    destruct (sum_angles_pass n a b) as [st|v] eqn:Hp; try discriminate;
    destruct (Z.eqb_spec (sa_n_overlap st) 0) as [Hz|Hnz]; simpl;
      try discriminate.
  - destruct (pass_shrinks n a b st Ha Hb Hp Hnz). lia.
  - destruct (pass_shrinks n a b st Ha Hb Hp Hnz) as [Hlt Hlen].
    apply IH; [reflexivity | assumption | lia].
Qed.

Lemma sum_angles_fuel_mono fuel : forall fuel' n a b,
  (fuel <= fuel')%nat -> sasa_sum_angles fuel n a b <> OutOfFuel ->
  sasa_sum_angles fuel' n a b = sasa_sum_angles fuel n a b.
Proof.
  induction fuel as [|fuel IH]; intros fuel' n a b Hle;
    rewrite (sasa_sum_angles_eq fuel'), (sasa_sum_angles_eq _ n a b);
    (unfold assert; destruct (forallb _ _); simpl; [|reflexivity]);
    (destruct (sum_angles_pass n a b) as [st|v]; [|reflexivity]);
    (destruct (negb _); [|reflexivity]).
  - intros H; contradiction.
  - destruct fuel' as [|fuel']; [lia|].
    intros H. apply IH; [lia|assumption].
Qed.

(** ** sasa_sum_angles: a pass without overlap leaves separated arcs *)

(** The test of the inner loop finds no overlap between [i] and [j]. *)
Definition separated (a b : list R) (i j : nat) : Prop :=
  Rabs (snd (normalize_gap (nth i b 0) (nth j b 0)))
  > nth i a 0 + nth j a 0.

Definition exit_state (e : loop_exit) : option sa_state :=
  match e with
  | Fallthrough st | Broke st => Some st
  | Returned _ => None
  end.

Lemma inner_no_merge n i js : forall st st',
  exit_state (sum_angles_inner n i js st) = Some st' ->
  sa_n_exc st' = sa_n_exc st ->
  st' = st /\
  forall j, In j js -> j <> i -> nth j (sa_excluded st) false = false ->
    separated (sa_a st) (sa_b st) i j.
Proof.
  induction js as [|j js IH]; intros st st' He Hn.
  - simpl in He. inversion He. split; [reflexivity|]. intros j [].
  - rewrite inner_cons in He.
    destruct (nth j (sa_excluded st) false) eqn:Ej.
    { destruct (IH st st' He Hn) as [E S]. split; [assumption|].
      intros m [<-|Hm] Hmi Hex; [congruence|auto]. }
    destruct (Nat.eqb_spec i j) as [Heq|Hne].
    { destruct (IH st st' He Hn) as [E S]. split; [assumption|].
      intros m [<-|Hm] Hmi Hex; [congruence|auto]. }
    cbv zeta in He.
    destruct (Rgtb (Rabs _) _) eqn:Eg.
    { apply Rgtb_true in Eg.
      destruct (IH st st' He Hn) as [E S]. split; [assumption|].
      intros m [<-|Hm] Hmi Hex; [exact Eg|auto]. }
    destruct (Rgtb (joint_a _ _ _ _) PI); [discriminate|].
    exfalso.
    destruct (Z.eqb _ _).
    + simpl in He. inversion He; subst st'. simpl in Hn. lia.
    + match type of He with
      | context [sum_angles_inner n i js ?s] =>
        pose proof (inner_n_exc_mono n i js s) as Hm
      end.
      destruct (sum_angles_inner n i js _); simpl in He;
        inversion He; subst; simpl in Hm; lia.
Qed.

Lemma outer_n_exc_mono n ivals : forall st,
  match sum_angles_outer n ivals st with
  | inl st' => (sa_n_exc st <= sa_n_exc st')%Z
  | inr _ => True
  end.
Proof.
  induction ivals as [|i ivals IH]; intros st; simpl; [lia|].
  destruct (nth i (sa_excluded st) false); [apply IH|].
  pose proof (inner_n_exc_mono n i (seq 0 n) st) as Hm.
  destruct (sum_angles_inner n i (seq 0 n) st) as [st1|st1|v];
    [| |exact I];
    (destruct (Z.eqb _ _); [assumption|]);
    specialize (IH st1);
    (destruct (sum_angles_outer n ivals st1); [lia|exact I]).
Qed.

Lemma outer_no_merge n ivals : forall st st',
  sum_angles_outer n ivals st = inl st' ->
  sa_n_exc st' = sa_n_exc st ->
  sa_n_exc st <> (Z.of_nat n - 1)%Z ->
  st' = st /\
  forall i, In i ivals -> nth i (sa_excluded st) false = false ->
    forall j, (j < n)%nat -> j <> i ->
      nth j (sa_excluded st) false = false ->
      separated (sa_a st) (sa_b st) i j.
Proof.
  induction ivals as [|i ivals IH]; intros st st' Ho Hn Hne.
  - simpl in Ho. inversion Ho. split; [reflexivity|]. intros i [].
  - simpl in Ho.
    destruct (nth i (sa_excluded st) false) eqn:Ei.
    { destruct (IH st st' Ho Hn Hne) as [E S]. split; [assumption|].
      intros m [<-|Hm] Hex; [congruence|auto]. }
    pose proof (inner_n_exc_mono n i (seq 0 n) st) as Hm1.
    pose proof (inner_no_merge n i (seq 0 n) st) as Hnm.
    destruct (sum_angles_inner n i (seq 0 n) st) as [st1|st1|v];
      [| |discriminate].
    + destruct (Z.eqb_spec (sa_n_exc st1) (Z.of_nat n - 1)) as [Hb|Hb].
      { inversion Ho; subst st1. congruence. }
      pose proof (outer_n_exc_mono n ivals st1) as Hm2.
      rewrite Ho in Hm2.
      assert (Heq : sa_n_exc st1 = sa_n_exc st) by lia.
      destruct (Hnm st1 eq_refl Heq) as [E1 S1]. subst st1.
      destruct (IH st st' Ho Hn Hne) as [E S]. split; [assumption|].
      intros m [<-|Hm] Hex j Hj Hjm Hexj; [|eauto].
      apply S1; auto. apply in_seq. lia.
    + destruct (Z.eqb_spec (sa_n_exc st1) (Z.of_nat n - 1)) as [Hb|Hb].
      { inversion Ho; subst st1. congruence. }
      pose proof (outer_n_exc_mono n ivals st1) as Hm2.
      rewrite Ho in Hm2.
      assert (Heq : sa_n_exc st1 = sa_n_exc st) by lia.
      destruct (Hnm st1 eq_refl Heq) as [E1 S1]. subst st1.
      destruct (IH st st' Ho Hn Hne) as [E S]. split; [assumption|].
      intros m [<-|Hm] Hex j Hj Hjm Hexj; [|eauto].
      apply S1; auto. apply in_seq. lia.
Qed.

(** A pass that counts no overlap changes nothing and, for two intervals
    or more, has compared every pair. *)
Lemma pass_no_overlap n a b st :
  length a = n -> length b = n ->
  sum_angles_pass n a b = inl st -> sa_n_overlap st = 0%Z ->
  st = sa_init n a b /\
  (n <> 1%nat ->
   forall i j, (i < n)%nat -> (j < n)%nat -> j <> i -> separated a b i j).
Proof.
  intros Ha Hb Hp Hz.
  pose proof (pass_inv n a b Ha Hb) as Hi. rewrite Hp in Hi.
  destruct Hi as [(_ & _ & _ & _ & Ho) _].
  unfold sum_angles_pass in Hp.
  assert (Hn : sa_n_exc st = sa_n_exc (sa_init n a b)).
  { simpl. lia. }
  destruct (Nat.eq_dec n 1) as [->|Hn1].
  - split; [|congruence].
    simpl in Hp. inversion Hp. reflexivity.
  - destruct (outer_no_merge n (seq 0 n) _ _ Hp Hn) as [E S].
    { simpl. lia. }
    split; [assumption|]. intros _ i j Hi Hj Hji.
    apply (S i); auto.
    + apply in_seq. lia.
    + simpl. apply nth_repeat_lt. assumption.
    + simpl. apply nth_repeat_lt. assumption.
Qed.

(** ** Pairwise separated arcs on the circle do not add up to a full turn *)

(** An arc is a pair (centre, half-width).  Two arcs with centres in
    [-PI, PI] are apart when they leave a gap on both ways round. *)
Definition apart (x y : R * R) : Prop :=
  Rabs (fst y - fst x) > snd x + snd y
  /\ 2 * PI - Rabs (fst y - fst x) > snd x + snd y.

Lemma apart_sym x y : apart x y -> apart y x.
Proof.
  unfold apart. rewrite (Rabs_minus_sym (fst x) (fst y)). lra.
Qed.

Lemma separated_apart bi ai bj aj :
  - PI <= bi <= PI -> - PI <= bj <= PI ->
  Rabs (snd (normalize_gap bi bj)) > ai + aj ->
  apart (bi, ai) (bj, aj).
Proof.
  intros Hi Hj. pose proof PI_RGT_0 as HPI.
  destruct (normalize_gap_spec bi bj) as [k [E B]]. rewrite E.
  cbn [fst snd]. unfold apart; cbn [fst snd].
  assert (Hk : (k = -1 \/ k = 0 \/ k = 1)%Z).
  { destruct (Z_le_gt_dec k (-2)) as [H1|H1].
    - apply IZR_le in H1. exfalso.
      assert (2 * PI * IZR k <= 2 * PI * -2).
      { apply Rmult_le_compat_l; lra. }
      lra.
    - destruct (Z_le_gt_dec 2 k) as [H2|H2]; [|lia].
      apply IZR_le in H2. exfalso.
      assert (2 * PI * 2 <= 2 * PI * IZR k).
      { apply Rmult_le_compat_l; lra. }
      lra. }
  destruct Hk as [->|[->| ->]]; intros H; revert B H;
    unfold Rabs; repeat destruct (Rcase_abs _); lra.
Qed.

Fixpoint sum_arcs (l : list (R * R)) : R :=
  match l with
  | [] => 0
  | x :: l' => 2 * snd x + sum_arcs l'
  end.

Fixpoint insert_arc (x : R * R) (l : list (R * R)) : list (R * R) :=
  match l with
  | [] => [x]
  | y :: l' => if Rle_dec (fst x) (fst y) then x :: y :: l'
               else y :: insert_arc x l'
  end.

Fixpoint sort_arcs (l : list (R * R)) : list (R * R) :=
  match l with
  | [] => []
  | x :: l' => insert_arc x (sort_arcs l')
  end.

Fixpoint ascending (l : list (R * R)) : Prop :=
  match l with
  | x :: ((y :: _) as t) => fst x <= fst y /\ ascending t
  | _ => True
  end.

Lemma sum_arcs_insert x l : sum_arcs (insert_arc x l) = 2 * snd x + sum_arcs l.
Proof.
  induction l as [|y l IH]; simpl; [reflexivity|].
  destruct (Rle_dec _ _); simpl; [reflexivity|]. rewrite IH. lra.
Qed.

Lemma sum_arcs_sort l : sum_arcs (sort_arcs l) = sum_arcs l.
Proof.
  induction l as [|x l IH]; simpl; [reflexivity|].
  rewrite sum_arcs_insert, IH. reflexivity.
Qed.

Lemma insert_arc_In x y l : In y (insert_arc x l) <-> y = x \/ In y l.
Proof.
  induction l as [|z l IH]; simpl.
  - intuition.
  - destruct (Rle_dec _ _); simpl; [intuition|]. rewrite IH. intuition.
Qed.

Lemma sort_arcs_In y l : In y (sort_arcs l) <-> In y l.
Proof.
  induction l as [|x l IH]; simpl; [reflexivity|].
  rewrite insert_arc_In, IH. intuition.
Qed.

Lemma sort_arcs_length l : length (sort_arcs l) = length l.
Proof.
  assert (H : forall x l, length (insert_arc x l) = S (length l)).
  { intros x m. induction m as [|z m IH]; simpl; [reflexivity|].
    destruct (Rle_dec _ _); simpl; [reflexivity|]. rewrite IH. reflexivity. }
  induction l as [|x l IH]; simpl; [reflexivity|].
  rewrite H, IH. reflexivity.
Qed.

Lemma insert_arc_ascending x l : ascending l -> ascending (insert_arc x l).
Proof.
  induction l as [|y l IH]; intros Hs; simpl; [exact I|].
  destruct (Rle_dec (fst x) (fst y)) as [Hle|Hgt].
  - split; assumption.
  - destruct l as [|z l]; simpl in *.
    + split; [lra|exact I].
    + destruct Hs as [Hyz Hs].
      destruct (Rle_dec (fst x) (fst z)).
      * split; [lra|]. split; assumption.
      * split; [assumption|]. apply IH. assumption.
Qed.

Lemma sort_arcs_ascending l : ascending (sort_arcs l).
Proof.
  induction l as [|x l IH]; simpl; [exact I|].
  apply insert_arc_ascending. assumption.
Qed.

Lemma insert_arc_apart x l :
  Forall (apart x) l -> ForallOrdPairs apart l ->
  ForallOrdPairs apart (insert_arc x l).
Proof.
  induction l as [|y l IH]; intros Hx Hl; simpl.
  - constructor; constructor.
  - destruct (Rle_dec _ _); [constructor; assumption|].
    inversion Hx as [|y' l' Hxy Hxl]; subst.
    inversion Hl as [|y' l' Hyl Hl']; subst.
    constructor.
    + apply Forall_forall. intros z Hz. apply insert_arc_In in Hz.
      destruct Hz as [->|Hz]; [apply apart_sym; assumption|].
      rewrite Forall_forall in Hyl. auto.
    + apply IH; assumption.
Qed.

Lemma sort_arcs_apart l :
  ForallOrdPairs apart l -> ForallOrdPairs apart (sort_arcs l).
Proof.
  induction l as [|x l IH]; intros H; simpl; [constructor|].
  inversion H as [|x' l' Hx Hl]; subst.
  apply insert_arc_apart; [|apply IH; assumption].
  apply Forall_forall. intros z Hz.
  apply (proj1 (sort_arcs_In z l)) in Hz.
  rewrite Forall_forall in Hx. apply Hx. assumption.
Qed.

(** Along an ascending chain of arcs that are pairwise apart, the arcs fit
    between the first and the last centre. *)
Lemma chain_bound l : forall x,
  ascending (x :: l) -> ForallOrdPairs apart (x :: l) ->
  exists y, (l = [] /\ y = x \/ In y l) /\ fst x <= fst y /\
            sum_arcs (x :: l) <= fst y - fst x + snd x + snd y.
Proof.
  induction l as [|x' l IH]; intros x Hs Hp.
  - exists x. simpl. split; [auto|]. lra.
  - destruct Hs as [Hxx' Hs].
    inversion Hp as [|x0 l0 Hx Hl]; subst.
    destruct (IH x' Hs Hl) as (y & Hy & Hle & Hsum).
    exists y. split; [|split].
    + right. destruct Hy as [[-> ->]|Hy]; simpl; auto.
    + lra.
    + inversion Hx as [|x0 l0 [Hap _] _]; subst.
      rewrite Rabs_right in Hap by lra.
      change (sum_arcs (x :: x' :: l)) with (2 * snd x + sum_arcs (x' :: l)).
      lra.
Qed.

Lemma apart_sum_lt l :
  (2 <= length l)%nat -> ForallOrdPairs apart l -> sum_arcs l < 2 * PI.
Proof.
  intros Hlen Hp.
  rewrite <- sum_arcs_sort.
  pose proof (sort_arcs_ascending l) as Hs.
  pose proof (sort_arcs_apart l Hp) as Hp'.
  pose proof (sort_arcs_length l) as Hl.
  destruct (sort_arcs l) as [|x [|x' m]]; simpl in Hl; try lia.
  destruct (chain_bound (x' :: m) x Hs Hp') as (y & Hy & Hle & Hsum).
  destruct Hy as [[Hnil _]|Hy]; [discriminate|].
  inversion Hp' as [|x0 l0 Hx _]; subst.
  rewrite Forall_forall in Hx. destruct (Hx y Hy) as [_ Hwrap].
  rewrite Rabs_right in Hwrap by lra. lra.
Qed.

Lemma sum_arcs_app l1 l2 : sum_arcs (l1 ++ l2) = sum_arcs l1 + sum_arcs l2.
Proof.
  induction l1 as [|x l1 IH]; simpl; [lra|]. rewrite IH. lra.
Qed.

Lemma sum_arcs_map_seq (g : nat -> R * R) n :
  sum_arcs (map g (seq 0 n)) = sumn (fun i => 2 * snd (g i)) n.
Proof.
  induction n as [|n IH]; [reflexivity|].
  rewrite seq_S, map_app, sum_arcs_app, IH. simpl. lra.
Qed.

Lemma apart_map_seq (g : nat -> R * R) k : forall s,
  (forall i j, (s <= i < j)%nat -> (j < s + k)%nat -> apart (g i) (g j)) ->
  ForallOrdPairs apart (map g (seq s k)).
Proof.
  induction k as [|k IH]; intros s H; simpl; constructor.
  - apply Forall_forall. intros y Hy.
    apply in_map_iff in Hy. destruct Hy as (j & <- & Hj).
    apply in_seq in Hj. apply H; lia.
  - apply IH. intros i j Hij Hj. apply H; lia.
Qed.

Lemma sumn_nonneg f n :
  (forall i, (i < n)%nat -> 0 <= f i) -> 0 <= sumn f n.
Proof.
  induction n as [|n IH]; intros H; simpl; [lra|].
  assert (0 <= sumn f n) by (apply IH; intros; apply H; lia).
  assert (0 <= f n) by (apply H; lia). lra.
Qed.

(** Separated arcs (two or more) cover less than the circle. *)
Lemma separated_sum_lt n a b :
  (2 <= n)%nat ->
  (forall i, (i < n)%nat -> - PI <= nth i b 0 <= PI) ->
  (forall i j, (i < n)%nat -> (j < n)%nat -> j <> i -> separated a b i j) ->
  sumn (fun i => 2 * nth i a 0) n < 2 * PI.
Proof.
  intros Hn Hb Hsep.
  pose (g := fun i => (nth i b 0, nth i a 0)).
  change (sumn (fun i => 2 * snd (g i)) n < 2 * PI).
  rewrite <- sum_arcs_map_seq.
  apply apart_sum_lt.
  - rewrite length_map, length_seq. assumption.
  - apply apart_map_seq. intros i j Hij Hj. unfold g.
    apply separated_apart; [apply Hb; lia | apply Hb; lia |].
    apply Hsep; lia.
Qed.

Lemma assert_positive n a :
  forallb (fun i => Rgtb (nth i a 0) 0) (seq 0 n) = true <->
  forall i, (i < n)%nat -> 0 < nth i a 0.
Proof.
  rewrite forallb_forall. split.
  - intros H i Hi. apply Rgtb_true. apply H. apply in_seq. lia.
  - intros H i Hi. apply Rgtb_true. apply in_seq in Hi.
    apply Rlt_gt. apply H. lia.
Qed.

Lemma final_value_bounds n a b :
  (forall i, (i < n)%nat ->
     0 < nth i a 0 <= PI /\ - PI <= nth i b 0 <= PI) ->
  (n <> 1%nat ->
   forall i j, (i < n)%nat -> (j < n)%nat -> j <> i -> separated a b i j) ->
  0 <= 2 * PI - sumn (fun i => 2 * nth i a 0) n <= 2 * PI.
Proof.
  intros Hr Hsep. pose proof PI_RGT_0 as HPI.
  assert (0 <= sumn (fun i => 2 * nth i a 0) n).
  { apply sumn_nonneg. intros i Hi. destruct (Hr i Hi). lra. }
  destruct (le_lt_dec 2 n) as [H2|H2].
  - assert (sumn (fun i => 2 * nth i a 0) n < 2 * PI); [|lra].
    apply (separated_sum_lt n a b H2).
    + intros i Hi. apply (Hr i Hi).
    + apply Hsep. lia.
  - destruct n as [|[|n]]; [simpl; lra | | lia].
    destruct (Hr O) as [[A1 A2] _]; [lia|]. simpl. lra.
Qed.

(** The value returned by [sasa_sum_angles] for half-widths in (0, PI]
    and centres in [-PI, PI] lies in [0, 2 PI]. *)
Lemma sum_angles_bounds : forall fuel n a b v,
  length a = n -> length b = n ->
  Forall (fun x => x <= PI) a -> Forall (fun x => - PI <= x <= PI) b ->
  sasa_sum_angles fuel n a b = Ok v -> 0 <= v <= 2 * PI.
Proof.
  pose proof PI_RGT_0 as HPI.
  assert (Step : forall fuel n a b v,
    (forall n' a' b' v', (n' < n)%nat ->
       length a' = n' -> length b' = n' ->
       Forall (fun x => x <= PI) a' ->
       Forall (fun x => - PI <= x <= PI) b' ->
       fuel <> O ->
       sasa_sum_angles (Nat.pred fuel) n' a' b' = Ok v' ->
       0 <= v' <= 2 * PI) ->
    length a = n -> length b = n ->
    Forall (fun x => x <= PI) a -> Forall (fun x => - PI <= x <= PI) b ->
    sasa_sum_angles fuel n a b = Ok v -> 0 <= v <= 2 * PI).
  { intros fuel n a b v IH Ha Hb Fa Fb.
    rewrite sasa_sum_angles_eq.
    unfold assert. destruct (forallb _ _) eqn:Hpos; simpl; [|discriminate].
    pose proof (proj1 (assert_positive n a) Hpos) as Hpos'.
    clear Hpos. rename Hpos' into Hpos.
    assert (Hr0 : sa_range n (sa_init n a b)).
    { intros i Hi _. simpl.
      rewrite Forall_forall in Fa. rewrite Forall_forall in Fb.
      split; [split|].
      - apply Hpos. assumption.
      - apply Fa. apply nth_In. lia.
      - apply Fb. apply nth_In. lia. }
    pose proof (pass_inv n a b Ha Hb) as Hinv.
    pose proof (pass_no_overlap n a b) as Hno.
    pose proof (pass_shrinks n a b) as Hsh.
    destruct (sum_angles_pass n a b) as [st|w].
    2:{ intros E; inversion E; subst; lra. }
    destruct Hinv as [Hinv Hrg]. specialize (Hrg Hr0).
    destruct (Z.eqb_spec (sa_n_overlap st) 0) as [Hz|Hnz]; simpl.
    - destruct (Hno st Ha Hb eq_refl Hz) as [-> Hsep]. simpl.
      intros E; inversion E; subst v.
      apply (final_value_bounds n a b); [|assumption].
      intros i Hi. apply (Hr0 i Hi). simpl.
      apply nth_repeat_lt. assumption.
    - destruct (Hsh st Ha Hb eq_refl Hnz) as [Hlt Hlen].
      destruct fuel as [|fuel]; [discriminate|].
      apply IH; auto.
      + apply compact_Forall. intros i Hi Hex. apply (Hrg i Hi Hex).
      + apply compact_Forall. intros i Hi Hex. apply (Hrg i Hi Hex). }
  induction fuel as [|fuel IH]; intros n a b v; apply Step.
  - intros; congruence.
  - intros n' a' b' v' _ Ha' Hb' Fa' Fb' _. simpl. apply IH; assumption.
Qed.

(** ** sasa_sum_angles on copies of one interval *)

Lemma sum_angles_single fuel alpha beta :
  0 < alpha -> sasa_sum_angles fuel 1 [alpha] [beta] = Ok (2 * PI - 2 * alpha).
Proof.
  intros Ha. rewrite sasa_sum_angles_eq.
  assert (E : forallb (fun i => Rgtb (nth i [alpha] 0) 0) (seq 0 1) = true).
  { apply assert_positive. intros [|i] Hi; [simpl; assumption|lia]. }
  rewrite E. simpl. f_equal. lra.
Qed.

Lemma normalize_gap_same beta z :
  normalize_gap (beta + 2 * PI * IZR z) beta = (beta + 2 * PI * IZR z, 0).
Proof.
  pose proof PI_RGT_0 as HPI.
  destruct (normalize_gap_spec (beta + 2 * PI * IZR z) beta) as [k [E B]].
  rewrite E.
  assert (Hk : k = z).
  { replace (beta + 2 * PI * IZR k - (beta + 2 * PI * IZR z))
      with (2 * PI * IZR (k - z)) in B by (rewrite minus_IZR; lra).
    destruct (Z_lt_le_dec (k - z) 0) as [H1|H1].
    - assert (k - z <= -1)%Z as H2 by lia. apply IZR_le in H2.
      assert (2 * PI * IZR (k - z) <= 2 * PI * -1)
        by (apply Rmult_le_compat_l; lra).
      lra.
    - destruct (Z.eq_dec (k - z) 0) as [H3|H3]; [lia|].
      assert (1 <= k - z)%Z as H2 by lia. apply IZR_le in H2.
      assert (2 * PI * 1 <= 2 * PI * IZR (k - z))
        by (apply Rmult_le_compat_l; lra).
      lra. }
  subst k. f_equal. lra.
Qed.

Lemma wrap_b_shift x : exists z : Z, wrap_b x = x + 2 * PI * IZR z.
Proof.
  unfold wrap_b, Rgtb, Rltb.
  destruct (Rlt_dec PI x).
  - destruct (Rlt_dec (x - 2 * PI) (- PI)).
    + exists 0%Z. lra.
    + exists (-1)%Z. lra.
  - destruct (Rlt_dec x (- PI)).
    + exists 1%Z. lra.
    + exists 0%Z. lra.
Qed.

Lemma joint_same b a : joint_a b a b a = a /\ exists z : Z,
  joint_b b a b a = b + 2 * PI * IZR z.
Proof.
  assert (Hi : joint_inf b a b a = b - a).
  { unfold joint_inf, Rltb. destruct (Rlt_dec _ _); reflexivity. }
  assert (Hs : joint_sup b a b a = b + a).
  { unfold joint_sup, Rgtb, Rltb. destruct (Rlt_dec _ _); reflexivity. }
  unfold joint_b, joint_a. rewrite Hi, Hs. split; [lra|].
  replace ((b - a + (b + a)) / 2) with b by lra.
  apply wrap_b_shift.
Qed.

Section Copies.

Variables (k : nat) (alpha beta : R).
Hypothesis Halpha : 0 < alpha <= PI.

(** The state of the pass while interval 0 absorbs its copies: the copies
    below [m] are excluded, those from [m] on are untouched. *)
Definition absorbing (m : nat) (st : sa_state) : Prop :=
  length (sa_a st) = k /\ length (sa_b st) = k
  /\ length (sa_excluded st) = k
  /\ nth 0 (sa_a st) 0 = alpha
  /\ (exists z : Z, nth 0 (sa_b st) 0 = beta + 2 * PI * IZR z)
  /\ nth 0 (sa_excluded st) false = false
  /\ (forall j, (m <= j < k)%nat ->
        nth j (sa_a st) 0 = alpha /\ nth j (sa_b st) 0 = beta
        /\ nth j (sa_excluded st) false = false)
  /\ (forall j, (1 <= j < m)%nat -> nth j (sa_excluded st) false = true)
  /\ sa_n_exc st = (Z.of_nat m - 1)%Z
  /\ sa_n_overlap st = (Z.of_nat m - 1)%Z.

Lemma absorb_copies cnt : forall m st,
  (m + cnt = k)%nat -> (1 <= m)%nat -> (1 <= cnt)%nat -> absorbing m st ->
  exists st', sum_angles_inner k 0 (seq m cnt) st = Broke st'
              /\ absorbing k st'.
Proof.
  induction cnt as [|cnt IH]; intros m st Hk Hm Hc Hab; [lia|].
  destruct Hab as (La & Lb & Le & A0 & [z B0] & E0 & Hrest & Hdone & Hn & Ho).
  destruct (Hrest m) as (Am & Bm & Em); [lia|].
  cbn [seq]. rewrite inner_cons. rewrite Em.
  destruct (Nat.eqb_spec 0 m) as [H0|_]; [lia|].
  cbv zeta. rewrite A0, Am, Bm, B0, normalize_gap_same. cbn [fst snd].
  destruct (joint_same (beta + 2 * PI * IZR z) alpha) as [Ja [z' Jb]].
  rewrite Ja.
  assert (G1 : Rgtb (Rabs 0) (alpha + alpha) = false).
  { apply Rgtb_false. rewrite Rabs_R0. lra. }
  assert (G2 : Rgtb alpha PI = false) by (apply Rgtb_false; lra).
  rewrite G1, G2.
  assert (Hab' : absorbing (S m)
                   (merge_state st 0 m (beta + 2 * PI * IZR z))).
  { unfold absorbing, merge_state.
    cbn [sa_a sa_b sa_excluded sa_n_exc sa_n_overlap].
    rewrite !upd_length, A0, Am, B0, Ja, Jb.
    repeat split; auto.
    - rewrite nth_upd_other by lia. apply nth_upd_same. lia.
    - exists (z + z')%Z. rewrite nth_upd_same by lia.
      rewrite plus_IZR. lra.
    - rewrite nth_upd_other by lia. assumption.
    - rewrite !nth_upd_other by lia. apply Hrest. lia.
    - rewrite !nth_upd_other by lia. apply Hrest. lia.
    - rewrite !nth_upd_other by lia. apply Hrest. lia.
    - intros j Hj. destruct (Nat.eq_dec m j) as [->|Hne].
      + apply nth_upd_same. lia.
      + rewrite nth_upd_other by assumption. apply Hdone. lia.
    - lia.
    - lia. }
  destruct (Z.eqb_spec (sa_n_exc st + 1) (Z.of_nat k - 1)) as [Hlast|Hmore].
  - eexists. split; [reflexivity|].
    assert (Hx : S m = k) by lia. rewrite Hx in Hab'. assumption.
  - apply IH; try lia. assumption.
Qed.

Lemma compact_only_first (excl : list bool) (v : list R) : forall n,
  (1 <= n)%nat -> nth 0 excl false = false ->
  (forall j, (1 <= j < n)%nat -> nth j excl false = true) ->
  compact n excl v = [nth 0 v 0].
Proof.
  induction n as [|n IH]; intros Hn H0 Hj; [lia|].
  rewrite compact_S.
  destruct (Nat.eq_dec n 0) as [->|Hne].
  - rewrite H0. reflexivity.
  - rewrite Hj by lia. apply IH; [lia|assumption|].
    intros j Hjn. apply Hj. lia.
Qed.

Lemma sum_angles_copies fuel :
  (2 <= k)%nat ->
  sasa_sum_angles (S fuel) k (repeat alpha k) (repeat beta k)
  = Ok (2 * PI - 2 * alpha).
Proof.
  intros Hk.
  assert (Hinit : absorbing 1 (sa_init k (repeat alpha k) (repeat beta k))).
  { unfold absorbing, sa_init.
    cbn [sa_a sa_b sa_excluded sa_n_exc sa_n_overlap].
    rewrite !repeat_length. repeat split; auto.
    - apply nth_repeat_lt. lia.
    - exists 0%Z. rewrite nth_repeat_lt by lia. lra.
    - apply nth_repeat_lt. lia.
    - apply nth_repeat_lt. lia.
    - apply nth_repeat_lt. lia.
    - apply nth_repeat_lt. lia.
    - intros j Hj. lia. }
  destruct (absorb_copies (k - 1) 1 _ ltac:(lia) ltac:(lia) ltac:(lia) Hinit)
    as (st' & Hin & Hab).
  assert (Hpass : sum_angles_pass k (repeat alpha k) (repeat beta k)
                  = inl st').
  { unfold sum_angles_pass.
    destruct k as [|k']; [lia|].
    cbn [seq sum_angles_outer].
    replace (nth 0 (sa_excluded (sa_init (S k') (repeat alpha (S k'))
                                   (repeat beta (S k')))) false)
      with false by reflexivity.
    rewrite inner_cons.
    replace (nth 0 (sa_excluded (sa_init (S k') (repeat alpha (S k'))
                                   (repeat beta (S k')))) false)
      with false by reflexivity.
    rewrite Nat.eqb_refl.
    replace (S k' - 1)%nat with k' in Hin by lia.
    rewrite Hin.
    destruct Hab as (_ & _ & _ & _ & _ & _ & _ & _ & Hn & _).
    rewrite Hn. rewrite Z.eqb_refl. reflexivity. }
  rewrite sasa_sum_angles_eq, Hpass.
  assert (E : forallb (fun i => Rgtb (nth i (repeat alpha k) 0) 0) (seq 0 k)
              = true).
  { apply assert_positive. intros i Hi. rewrite nth_repeat_lt by lia. lra. }
  rewrite E. cbn [assert bind].
  destruct Hab as (La & Lb & Le & A0 & [z B0] & E0 & _ & Hdone & Hn & Ho).
  rewrite Ho.
  destruct (Z.eqb_spec (Z.of_nat k - 1) 0) as [Hz|_]; [lia|].
  cbn [negb].
  rewrite !(compact_only_first _ _ k) by (auto; lia).
  rewrite A0. cbn [length]. apply sum_angles_single. lra.
Qed.

End Copies.

(** [sasa_sum_angles] on one interval of half-width [alpha], with
    [0 < alpha < PI], returns [2 PI - 2 alpha]; on [k >= 1] copies of that
    interval it returns [2 PI - 2 alpha] as well (one nested call is all
    the merging takes). *)
Lemma arcs_idempotence (fuel k : nat) (alpha beta : R) :
  0 < alpha < PI -> (1 <= k)%nat -> (1 <= fuel)%nat ->
  sasa_sum_angles fuel 1 [alpha] [beta] = Ok (2 * PI - 2 * alpha)
  /\ sasa_sum_angles fuel k (repeat alpha k) (repeat beta k)
     = Ok (2 * PI - 2 * alpha).
Proof.
  intros Ha Hk Hf. split.
  - apply sum_angles_single. lra.
  - destruct (Nat.eq_dec k 1) as [->|Hk1].
    + apply sum_angles_single. lra.
    + destruct fuel as [|fuel]; [lia|].
      apply sum_angles_copies; [lra|lia].
Qed.

(** [sasa_sum_angles] terminates on every list of intervals: a nested
    call is made only after a pass that counted an overlap; every counted
    overlap excluded one more interval; the nested call receives the
    intervals not excluded, which are fewer than [n]; hence [n] nested
    calls are never exhausted and more fuel does not change the result. *)
Lemma sum_angles_depth (n : nat) (a b : list R) :
  length a = n -> length b = n ->
  (forall st, sum_angles_pass n a b = inl st -> sa_n_overlap st <> 0%Z ->
     sa_n_overlap st = Z.of_nat (n_excl n (sa_excluded st))
     /\ (length (compact n (sa_excluded st) (sa_a st))
         + n_excl n (sa_excluded st) = n)%nat
     /\ (length (compact n (sa_excluded st) (sa_a st)) < n)%nat
     /\ length (compact n (sa_excluded st) (sa_b st))
        = length (compact n (sa_excluded st) (sa_a st)))
  /\ (forall fuel, (n <= fuel)%nat ->
        sasa_sum_angles fuel n a b <> OutOfFuel
        /\ sasa_sum_angles fuel n a b = sasa_sum_angles n n a b).
Proof.
  intros Ha Hb. split.
  - intros st Hp Hov.
    pose proof (pass_inv n a b Ha Hb) as H. rewrite Hp in H.
    destruct H as [(_ & _ & _ & Hn & Ho) _].
    destruct (pass_shrinks n a b st Ha Hb Hp Hov) as [Hlt Hlen].
    split; [congruence|]. split; [apply compact_length|]. split; assumption.
  - intros fuel Hf. split.
    + apply sum_angles_terminates; assumption.
    + apply sum_angles_fuel_mono; [assumption|].
      apply sum_angles_terminates; auto.
Qed.

(** ** sasa_exposed_arcs *)

Lemma atan2_bound y x : - PI < atan2 y x <= PI.
Proof.
  pose proof PI_RGT_0 as HPI. unfold atan2.
  destruct (Rlt_dec 0 x) as [Hx|Hx].
  { pose proof (atan_bound (y / x)). lra. }
  destruct (Rlt_dec x 0) as [Hx'|Hx'].
  - assert (Hinv : / x < 0) by (apply Rinv_lt_0_compat; assumption).
    destruct (Rle_dec 0 y) as [Hy|Hy].
    + assert (Hq : y / x <= 0).
      { unfold Rdiv. replace 0 with (y * 0) by lra.
        apply Rmult_le_compat_l; lra. }
      pose proof (atan_bound (y / x)) as Hb.
      assert (atan (y / x) <= 0).
      { destruct Hq as [Hq|Hq].
        - left. rewrite <- atan_0. apply atan_increasing. assumption.
        - rewrite Hq, atan_0. lra. }
      lra.
    + assert (Hq : 0 < y / x).
      { unfold Rdiv. replace (y * / x) with ((- y) * (- / x)) by lra.
        apply Rmult_lt_0_compat; lra. }
      pose proof (atan_bound (y / x)) as Hb.
      assert (0 < atan (y / x)).
      { rewrite <- atan_0. apply atan_increasing. assumption. }
      lra.
  - destruct (Rlt_dec 0 y); [lra|]. destruct (Rlt_dec y 0); lra.
Qed.

(** What the loop over the neighbours keeps: as many centres as
    half-widths, every half-width that is a number in [0, PI], every centre
    in [-PI, PI]. *)
Definition arcs_ok (st : arcs) : Prop :=
  length (ar_a st) = length (ar_b st)
  /\ Forall (fun o => forall v, o = Some v -> 0 <= v <= PI) (ar_a st)
  /\ Forall (fun v => - PI <= v <= PI) (ar_b st).

Lemma arcs_of_neighbours_ok x y r i js : forall st st',
  arcs_ok st -> arcs_of_neighbours x y r i js st = Ok st' -> arcs_ok st'.
Proof.
  induction js as [|j js IH]; intros st st' Hok Hr; simpl in Hr.
  - inversion Hr; subst; assumption.
  - destruct (negb (Nat.eqb i j)); simpl in Hr; [|discriminate].
    destruct (Rgeb _ _); [eapply IH; eauto|].
    destruct (Rltb _ _).
    { inversion Hr; subst. exact Hok. }
    destruct (Rltb _ _).
    { eapply IH; [|exact Hr]. exact Hok. }
    eapply IH; [|exact Hr].
    destruct Hok as (L & Fa & Fb). unfold arcs_ok; cbn [ar_a ar_b].
    rewrite !length_app, L. split; [reflexivity|]. split.
    + apply Forall_app. split; [assumption|].
      constructor; [|constructor].
      intros v Hv. destruct (fdiv _ _); simpl in Hv; inversion Hv.
      apply acos_bound.
    + apply Forall_app. split; [assumption|].
      constructor; [|constructor].
      pose proof (atan2_bound (nth j y 0 - nth i y 0)
                    (nth j x 0 - nth i x 0)). lra.
Qed.

Lemma all_numbers_some a a' :
  all_numbers a = Some a' -> a = map Some a'.
Proof.
  revert a'; induction a as [|o a IH]; intros a' H; simpl in H.
  - inversion H; reflexivity.
  - destruct o as [v|]; [|discriminate].
    destruct (all_numbers a) as [l|]; [|discriminate].
    inversion H; subst. simpl. rewrite (IH l); reflexivity.
Qed.

Lemma sum_angles_call_bounds fuel st v :
  arcs_ok st -> sum_angles_call fuel (ar_a st) (ar_b st) = Ok v ->
  0 <= v <= 2 * PI.
Proof.
  intros (L & Fa & Fb) H. unfold sum_angles_call in H.
  destruct (all_numbers (ar_a st)) as [a'|] eqn:E; [|discriminate].
  apply all_numbers_some in E.
  apply (sum_angles_bounds fuel (length a') a' (ar_b st) v); auto.
  - rewrite <- L, E, length_map. reflexivity.
  - rewrite E in Fa. apply Forall_forall. intros w Hw.
    rewrite Forall_forall in Fa.
    apply (Fa (Some w)); [apply in_map; assumption | reflexivity].
Qed.

Lemma exposed_arcs_bounds fuel n x y z r ea nb nn ea' :
  Forall (fun v => 0 <= v <= 2 * PI) ea ->
  sasa_exposed_arcs fuel n x y z r ea nb nn = Ok ea' ->
  Forall (fun v => 0 <= v <= 2 * PI) ea'.
Proof.
  pose proof PI_RGT_0 as HPI.
  intros Hea H. unfold sasa_exposed_arcs in H.
  destruct (foldM _ _ _) as [st| |] eqn:E; simpl in H; try discriminate.
  inversion H; subst ea'.
  apply (foldM_inv (fun st => Forall (fun v => 0 <= v <= 2 * PI) (fst st))
           (exposed_arc_step fuel x y r nb nn) (seq 0 n)
           (ea, repeat false n) st); [|exact Hea|exact E].
  intros i [e bur] s' _. simpl. intros He Hs.
  assert (He0 : Forall (fun v => 0 <= v <= 2 * PI) (upd i 0 e)).
  { apply Forall_upd; [lra|assumption]. }
  destruct (nth i bur false).
  { inversion Hs; subst. assumption. }
  destruct (arcs_of_neighbours _ _ _ _ _ _) as [st'| |] eqn:En;
    simpl in Hs; try discriminate.
  assert (Hok : arcs_ok st').
  { eapply arcs_of_neighbours_ok; [|exact En].
    unfold arcs_ok; simpl. repeat split; constructor. }
  destruct (negb _).
  - destruct (sum_angles_call _ _ _) as [v| |] eqn:Ev; simpl in Hs;
      try discriminate.
    inversion Hs; subst. simpl.
    apply Forall_upd; [|assumption].
    eapply sum_angles_call_bounds; eauto.
  - inversion Hs; subst. assumption.
Qed.

(** ** sasa_add_slice_area: the atoms of a slice *)

Section Slice.

Variables (z : R) (lr : sasa_lr_t).

Definition atom_z (i : nat) : R := nth (3 * i + 2) (coord_all (xyz lr)) 0.
Definition atom_R (i : nat) : R := nth i (radii lr) 0.
Definition atom_d (i : nat) : R := Rabs (atom_z i - z).

Definition in_slice_b (i : nat) : bool := Rltb (atom_d i) (atom_R i).

Definition slice_r (i : nat) : R :=
  sqrt (atom_R i * atom_R i - atom_d i * atom_d i).

Definition slice_DR (i : nat) : R :=
  atom_R i / slice_r i * (delta lr / 2 + Rmin (delta lr / 2) (atom_R i - atom_d i)).

Definition locate_upto (n : nat) : slice :=
  fold_left (locate_atom z lr) (seq 0 n) slice_empty.

Lemma locate_upto_S n :
  locate_upto (S n) = locate_atom z lr (locate_upto n) n.
Proof. unfold locate_upto. rewrite seq_S, fold_left_app. reflexivity. Qed.

Lemma Rmin_if x y : (if Rltb x y then x else y) = Rmin x y.
Proof.
  unfold Rltb, Rmin. destruct (Rlt_dec x y), (Rle_dec x y); lra.
Qed.

Lemma locate_atom_in s i :
  in_slice_b i = true ->
  locate_atom z lr s i =
  {| sl_x := sl_x s ++ [nth (i * 3) (coord_all (xyz lr)) 0];
     sl_y := sl_y s ++ [nth (i * 3 + 1) (coord_all (xyz lr)) 0];
     sl_r := sl_r s ++ [slice_r i];
     sl_DR := sl_DR s ++ [slice_DR i];
     sl_idx := sl_idx s ++ [i];
     sl_xdi := sl_xdi s ++ [n_slice s];
     sl_in_slice := sl_in_slice s ++ [true] |}.
Proof.
  intros H. unfold locate_atom.
  change (Rltb (Rabs (nth (3 * i + 2) (coord_all (xyz lr)) 0 - z))
            (nth i (radii lr) 0)) with (in_slice_b i).
  rewrite H. rewrite Rmin_if. reflexivity.
Qed.

Lemma locate_atom_out s i :
  in_slice_b i = false ->
  locate_atom z lr s i =
  {| sl_x := sl_x s; sl_y := sl_y s; sl_r := sl_r s; sl_DR := sl_DR s;
     sl_idx := sl_idx s;
     sl_xdi := sl_xdi s ++ [O];
     sl_in_slice := sl_in_slice s ++ [false] |}.
Proof.
  intros H. unfold locate_atom.
  change (Rltb (Rabs (nth (3 * i + 2) (coord_all (xyz lr)) 0 - z))
            (nth i (radii lr) 0)) with (in_slice_b i).
  rewrite H. reflexivity.
Qed.

(** The arrays filled by the first loop, described atom by atom. *)
Definition slice_ok (n : nat) (s : slice) : Prop :=
  sl_idx s = filter in_slice_b (seq 0 n)
  /\ sl_r s = map slice_r (sl_idx s)
  /\ sl_DR s = map slice_DR (sl_idx s)
  /\ sl_x s = map (fun i => nth (i * 3) (coord_all (xyz lr)) 0) (sl_idx s)
  /\ sl_y s = map (fun i => nth (i * 3 + 1) (coord_all (xyz lr)) 0) (sl_idx s)
  /\ sl_in_slice s = map in_slice_b (seq 0 n)
  /\ length (sl_xdi s) = n
  /\ (forall i, (i < n)%nat -> in_slice_b i = true ->
        (nth i (sl_xdi s) O < n_slice s)%nat
        /\ nth (nth i (sl_xdi s) O) (sl_idx s) O = i).

Lemma locate_upto_ok n : slice_ok n (locate_upto n).
Proof.
  induction n as [|n IH].
  - unfold slice_ok, locate_upto; simpl. repeat split; auto; intros; lia.
  - rewrite locate_upto_S.
    destruct IH as (Hidx & Hr & HDR & Hx & Hy & Hin & Lx & Hxdi).
    unfold slice_ok. rewrite seq_S, filter_app, map_app. cbn [filter map].
    rewrite !Nat.add_0_l.
    destruct (in_slice_b n) eqn:E.
    + rewrite locate_atom_in by assumption.
      unfold n_slice.
      cbn [sl_x sl_y sl_r sl_DR sl_idx sl_xdi sl_in_slice].
      rewrite !map_app, !length_app. cbn [map length].
      rewrite <- Hidx, <- Hr, <- HDR, <- Hx, <- Hy, <- Hin, Lx.
      do 7 (split; [first [reflexivity | lia]|]).
      intros i Hi Hp.
      destruct (Nat.eq_dec i n) as [->|Hne].
      * rewrite (app_nth2 (sl_xdi _)) by lia.
        rewrite Lx, Nat.sub_diag. cbn [nth].
        split; [lia|].
        rewrite app_nth2 by lia. rewrite Nat.sub_diag. reflexivity.
      * rewrite (app_nth1 (sl_xdi _)) by lia.
        destruct (Hxdi i) as [A B]; [lia|assumption|].
        unfold n_slice in A. split; [lia|].
        rewrite app_nth1 by lia. assumption.
    + rewrite locate_atom_out by assumption.
      unfold n_slice.
      cbn [sl_x sl_y sl_r sl_DR sl_idx sl_xdi sl_in_slice].
      rewrite !length_app, app_nil_r. cbn [length].
      rewrite <- Hin, Lx.
      do 7 (split; [first [assumption | reflexivity | lia]|]).
      intros i Hi Hp.
      destruct (Nat.eq_dec i n) as [->|Hne]; [congruence|].
      rewrite app_nth1 by lia.
      apply Hxdi; [lia|assumption].
Qed.

Lemma locate_atoms_ok : slice_ok (n_atoms lr) (locate_atoms z lr).
Proof. apply locate_upto_ok. Qed.

Lemma in_slice_b_true i : in_slice_b i = true <-> atom_d i < atom_R i.
Proof. apply Rltb_true. Qed.

Lemma slice_r_pos i : atom_d i < atom_R i -> 0 < slice_r i.
Proof.
  intros H. unfold slice_r. apply sqrt_lt_R0.
  assert (0 <= atom_d i) by apply Rabs_pos.
  nra.
Qed.

Lemma slice_DR_nonneg i :
  0 <= delta lr -> atom_d i < atom_R i -> 0 <= slice_DR i.
Proof.
  intros Hd H. unfold slice_DR.
  pose proof (slice_r_pos i H) as Hr.
  assert (0 <= atom_d i) by apply Rabs_pos.
  apply Rmult_le_pos.
  - apply Rmult_le_pos; [lra|]. left. apply Rinv_0_lt_compat. assumption.
  - unfold Rmin. destruct (Rle_dec _ _); lra.
Qed.

(** Every entry of the slice belongs to an atom that passed the test. *)
Lemma slice_entry k :
  (k < n_slice (locate_atoms z lr))%nat ->
  let s := locate_atoms z lr in
  let i := nth k (sl_idx s) O in
  (i < n_atoms lr)%nat /\ atom_d i < atom_R i
  /\ nth k (sl_r s) 0 = slice_r i /\ nth k (sl_DR s) 0 = slice_DR i
  /\ nth i (sl_xdi s) O = k.
Proof.
  intros Hk s i.
  destruct locate_atoms_ok as (Hidx & Hr & HDR & Hx & Hy & Hin & Lx & Hxdi).
  fold s in Hidx, Hr, HDR, Hxdi.
  assert (Hi : In i (sl_idx s)) by (apply nth_In; exact Hk).
  rewrite Hidx in Hi. apply filter_In in Hi. destruct Hi as [Hi1 Hi2].
  apply in_seq in Hi1.
  split; [lia|]. split; [apply in_slice_b_true; assumption|].
  split; [|split].
  - rewrite Hr. rewrite (nth_indep _ 0 (slice_r O))
      by (rewrite length_map; exact Hk).
    rewrite map_nth. reflexivity.
  - rewrite HDR. rewrite (nth_indep _ 0 (slice_DR O))
      by (rewrite length_map; exact Hk).
    rewrite map_nth. reflexivity.
  - destruct (Hxdi i) as [A B]; [lia|assumption|].
    assert (Hnd : NoDup (sl_idx s)).
    { rewrite Hidx. apply NoDup_filter. apply seq_NoDup. }
    apply (proj1 (NoDup_nth (sl_idx s) O) Hnd); auto.
Qed.

End Slice.

(** ** sasa_add_slice_area: the accumulation *)

Lemma sumn_zero f n : (forall k, (k < n)%nat -> f k = 0) -> sumn f n = 0.
Proof.
  induction n as [|n IH]; intros H; simpl; [reflexivity|].
  rewrite IH by (intros; apply H; lia). rewrite H by lia. lra.
Qed.

Lemma sumn_single f n k0 :
  (k0 < n)%nat -> (forall k, (k < n)%nat -> k <> k0 -> f k = 0) ->
  sumn f n = f k0.
Proof.
  induction n as [|n IH]; intros Hk H; [lia|]. simpl.
  destruct (Nat.eq_dec k0 n) as [->|Hne].
  - rewrite sumn_zero by (intros; apply H; lia). lra.
  - rewrite IH by (try lia; intros; apply H; lia).
    rewrite (H n) by lia. lra.
Qed.

Section Accumulate.

Variables (s : slice) (exposed_arc : list R) (sasa : list R).

Definition term (k : nat) : R :=
  nth k exposed_arc 0 * nth k (sl_r s) 0 * nth k (sl_DR s) 0.

Definition accumulate_upto (m : nat) : list R :=
  fold_left
    (fun sasa i =>
       let k := nth i (sl_idx s) O in
       upd k (nth k sasa 0
              + nth i exposed_arc 0 * nth i (sl_r s) 0 * nth i (sl_DR s) 0)
           sasa)
    (seq 0 m) sasa.

Lemma accumulate_upto_spec m :
  (forall k, (k < m)%nat -> (nth k (sl_idx s) O < length sasa)%nat) ->
  length (accumulate_upto m) = length sasa
  /\ forall i, nth i (accumulate_upto m) 0
              = nth i sasa 0
                + sumn (fun k => if Nat.eqb (nth k (sl_idx s) O) i
                                 then term k else 0) m.
Proof.
  induction m as [|m IH]; intros H.
  - split; [reflexivity|]. intros i. unfold accumulate_upto. simpl. lra.
  - destruct IH as [L N]; [intros; apply H; lia|].
    unfold accumulate_upto. rewrite seq_S, fold_left_app.
    fold (accumulate_upto m). cbn [fold_left Nat.add].
    split; [rewrite upd_length; assumption|].
    intros i. rewrite nth_upd.
    assert (Hlt : (nth m (sl_idx s) O <? length (accumulate_upto m))%nat
                  = true).
    { apply Nat.ltb_lt. rewrite L. apply H. lia. }
    rewrite Hlt, andb_true_r. cbn [sumn].
    destruct (Nat.eqb_spec (nth m (sl_idx s) O) i) as [->|Hne].
    + rewrite N. unfold term. lra.
    + rewrite N. lra.
Qed.

End Accumulate.

(** The entry of atom [i] after the slice at [z] has been added: the
    contribution of its circle if [i] is in the slice, nothing otherwise. *)
Lemma accumulate_spec z lr exposed_arc sasa i :
  (n_atoms lr <= length sasa)%nat -> (i < n_atoms lr)%nat ->
  let s := locate_atoms z lr in
  nth i (accumulate s exposed_arc sasa) 0
  = nth i sasa 0
    + if in_slice_b z lr i
      then nth (nth i (sl_xdi s) O) exposed_arc 0
           * slice_r z lr i * slice_DR z lr i
      else 0.
Proof.
  intros Hlen Hi s.
  change (accumulate s exposed_arc sasa)
    with (accumulate_upto s exposed_arc sasa (n_slice s)).
  destruct (accumulate_upto_spec s exposed_arc sasa (n_slice s)) as [_ N].
  { intros k Hk. destruct (slice_entry z lr k Hk) as (A & _). fold s in A.
    lia. }
  rewrite N. f_equal.
  destruct (locate_atoms_ok z lr)
    as (Hidx & _ & _ & _ & _ & _ & _ & Hxdi).
  fold s in Hidx, Hxdi.
  destruct (in_slice_b z lr i) eqn:E.
  - destruct (Hxdi i Hi E) as [A B].
    rewrite (sumn_single _ _ (nth i (sl_xdi s) O) A).
    + rewrite B, Nat.eqb_refl. unfold term.
      destruct (slice_entry z lr _ A) as (_ & _ & Er & EDR & _).
      fold s in Er, EDR. rewrite B in Er, EDR. rewrite Er, EDR.
      reflexivity.
    + intros k Hk Hne.
      destruct (Nat.eqb_spec (nth k (sl_idx s) O) i) as [Heq|]; [|reflexivity].
      exfalso. apply Hne.
      destruct (slice_entry z lr k Hk) as (_ & _ & _ & _ & Ex).
      fold s in Ex. rewrite Heq in Ex. congruence.
  - apply sumn_zero. intros k Hk.
    destruct (Nat.eqb_spec (nth k (sl_idx s) O) i) as [Heq|]; [|reflexivity].
    exfalso.
    destruct (slice_entry z lr k Hk) as (_ & Hd & _). fold s in Hd.
    rewrite Heq in Hd. apply in_slice_b_true in Hd. congruence.
Qed.

(** Every atom admitted to the slice by the test [d < ri] has a
    strictly positive in-slice radius: the divisor [r[n_slice]] in the
    computation of [DR] is never zero. *)
Lemma slice_radius_positive (z : R) (lr : sasa_lr_t) (k : nat) :
  let s := locate_atoms z lr in
  (k < n_slice s)%nat ->
  let i := nth k (sl_idx s) O in
  let ri := nth i (radii lr) 0 in
  let d := Rabs (nth (3 * i + 2) (coord_all (xyz lr)) 0 - z) in
  d < ri /\ 0 < ri
  /\ nth k (sl_r s) 0 = sqrt (ri * ri - d * d)
  /\ 0 < nth k (sl_r s) 0
  /\ nth k (sl_DR s) 0
     = ri / nth k (sl_r s) 0 * (delta lr / 2 + Rmin (delta lr / 2) (ri - d)).
Proof.
  intros s Hk i ri d.
  destruct (slice_entry z lr k Hk) as (Hi & Hd & Er & EDR & _).
  fold s in Hd, Er, EDR. fold i in Hd, Er, EDR.
  assert (0 <= d) by apply Rabs_pos.
  split; [exact Hd|]. split; [unfold atom_d, atom_R, atom_z in Hd; fold d ri in Hd; lra|].
  split; [exact Er|]. split.
  - rewrite Er. apply slice_r_pos. exact Hd.
  - rewrite EDR, Er. reflexivity.
Qed.

Lemma add_slice_area_inv fuel z lr sasa sasa' :
  sasa_add_slice_area fuel z lr sasa = Ok sasa' ->
  let s := locate_atoms z lr in
  exists theta,
    sasa_exposed_arcs fuel (n_slice s) (sl_x s) (sl_y s) z (sl_r s)
      (repeat 0 (n_slice s)) (map (slice_neighbours lr s) (sl_idx s))
      (map (@length nat) (map (slice_neighbours lr s) (sl_idx s)))
    = Ok theta
    /\ sasa' = accumulate s theta sasa
    /\ Forall (fun v => 0 <= v <= 2 * PI) theta.
Proof.
  intros H s. unfold sasa_add_slice_area in H. fold s in H.
  destruct (sasa_exposed_arcs _ _ _ _ _ _ _ _ _) as [theta| |] eqn:E;
    simpl in H; try discriminate.
  exists theta. split; [reflexivity|]. split; [congruence|].
  refine (exposed_arcs_bounds _ _ _ _ _ _ _ _ _ _ _ E).
  pose proof PI_RGT_0.
  apply Forall_forall. intros v Hv. apply repeat_spec in Hv. subst. lra.
Qed.


(** A slice never lowers an entry of [sasa]. *)
Lemma add_slice_area_mono fuel z lr sasa sasa' :
  0 <= delta lr -> (n_atoms lr <= length sasa)%nat ->
  sasa_add_slice_area fuel z lr sasa = Ok sasa' ->
  length sasa' = length sasa
  /\ forall i, (i < n_atoms lr)%nat -> nth i sasa 0 <= nth i sasa' 0.
Proof.
  intros Hdelta Hlen H.
  destruct (add_slice_area_inv fuel z lr sasa sasa' H)
    as (theta & E & -> & Hth).
  split.
  - change (accumulate (locate_atoms z lr) theta sasa)
      with (accumulate_upto (locate_atoms z lr) theta sasa
              (n_slice (locate_atoms z lr))).
    apply accumulate_upto_spec.
    intros k Hk. destruct (slice_entry z lr k Hk) as (A & _). lia.
  - intros i Hi.
    rewrite (accumulate_spec z lr theta sasa i Hlen Hi).
    destruct (in_slice_b z lr i) eqn:Ei; [|lra].
    apply in_slice_b_true in Ei.
    pose proof (slice_r_pos z lr i Ei).
    pose proof (slice_DR_nonneg z lr i Hdelta Ei).
    assert (0 <= nth (nth i (sl_xdi (locate_atoms z lr)) O) theta 0).
    { pose proof PI_RGT_0.
      apply (Forall_nth_default (fun v => 0 <= v <= 2 * PI)); [lra|].
      assumption. }
    assert (0 <= nth (nth i (sl_xdi (locate_atoms z lr)) O) theta 0
                 * slice_r z lr i * slice_DR z lr i).
    { apply Rmult_le_pos; [apply Rmult_le_pos|]; lra. }
    lra.
Qed.

(** ** sasalib_lee_richards: the slice loop *)

(** The centres [z0, z0 + delta, ..., z0 + (K-1) delta]. *)
Definition centres (z0 delta : R) (K : nat) : list R :=
  map (fun k => z0 + INR k * delta) (seq 0 K).

Lemma centres_S z0 delta K :
  centres z0 delta (S K) = z0 :: centres (z0 + delta) delta K.
Proof.
  unfold centres. cbn [seq map]. f_equal; [simpl; lra|].
  rewrite <- seq_shift, map_map. apply map_ext.
  intros k. rewrite S_INR. lra.
Qed.

Lemma slice_loop_centres {St : Type} (body : R -> St -> outcome St) delta zmax :
  forall K fuel z s,
  (K <= fuel)%nat ->
  (forall k, (k < K)%nat -> z + INR k * delta < zmax) ->
  zmax <= z + INR K * delta ->
  slice_loop body fuel z zmax delta s = foldM body (centres z delta K) s.
Proof.
  induction K as [|K IH]; intros fuel z s Hf Hin Hout.
  - simpl in Hout.
    assert (E : Rltb z zmax = false) by (apply Rltb_false; lra).
    destruct fuel; simpl; rewrite E; reflexivity.
  - destruct fuel as [|fuel]; [lia|].
    assert (E : Rltb z zmax = true).
    { apply Rltb_true. specialize (Hin O). simpl in Hin.
      assert (0 < S K)%nat by lia. specialize (Hin H). lra. }
    rewrite centres_S. simpl. rewrite E.
    destruct (body z s) as [s'| |]; simpl; try reflexivity.
    apply IH; [lia| |].
    + intros k Hk. specialize (Hin (S k)). rewrite S_INR in Hin.
      assert (S k < S K)%nat by lia. specialize (Hin H). lra.
    + rewrite S_INR in Hout. lra.
Qed.

(** The number of slices between [z0] and [zmax]. *)
Definition n_slices (z0 zmax delta : R) : nat :=
  Z.to_nat (Rceil ((zmax - z0) / delta)).

Lemma n_slices_spec z0 zmax delta k :
  0 < delta ->
  (k < n_slices z0 zmax delta)%nat <-> z0 + INR k * delta < zmax.
Proof.
  intros Hd. unfold n_slices.
  assert (Hq : IZR (Z.of_nat k) < (zmax - z0) / delta
               <-> z0 + INR k * delta < zmax).
  { rewrite <- INR_IZR_INZ. split; intros H.
    - assert (INR k * delta < zmax - z0); [|lra].
      apply Rmult_lt_reg_r with (/ delta);
        [apply Rinv_0_lt_compat; assumption|].
      rewrite Rmult_assoc, Rinv_r by lra. unfold Rdiv in H. lra.
    - apply Rdiv_lt_r; [assumption|lra]. }
  rewrite <- Hq, <- Rceil_lt. lia.
Qed.

Lemma slice_loop_spec {St : Type} (body : R -> St -> outcome St)
  z0 zmax delta fuel s :
  0 < delta -> (n_slices z0 zmax delta <= fuel)%nat ->
  slice_loop body fuel z0 zmax delta s
  = foldM body (centres z0 delta (n_slices z0 zmax delta)) s.
Proof.
  intros Hd Hf. apply slice_loop_centres; [assumption| |].
  - intros k Hk. apply n_slices_spec; assumption.
  - destruct (Rle_dec zmax (z0 + INR (n_slices z0 zmax delta) * delta))
      as [H|H]; [assumption|].
    exfalso. apply Rnot_le_lt in H.
    apply n_slices_spec in H; [lia|assumption].
Qed.

(** ** sasalib_lee_richards: the slice range *)

Definition is_min (f : nat -> R) (n : nat) (m : R) : Prop :=
  (forall i, (i < n)%nat -> m <= f i) /\ exists i, (i < n)%nat /\ m = f i.

Definition is_max (f : nat -> R) (n : nat) (m : R) : Prop :=
  (forall i, (i < n)%nat -> f i <= m) /\ exists i, (i < n)%nat /\ m = f i.

Section Range.

Variables (sasa : list R) (xyz : coord) (atom_radii : list R)
          (probe_radius : R).

Definition coord_z (i : nat) : R := nth (3 * i + 2) (coord_all xyz) 0.
Definition contact_radius (i : nat) : R := nth i atom_radii 0 + probe_radius.

Definition range_upto (m : nat) : range :=
  fold_left (range_step (coord_all xyz) atom_radii probe_radius) (seq 0 m)
    {| rg_max_z := - 1e50; rg_min_z := 1e50; rg_max_r := 0;
       rg_radii := []; rg_sasa := sasa |}.

Lemma range_upto_S m :
  range_upto (S m)
  = range_step (coord_all xyz) atom_radii probe_radius (range_upto m) m.
Proof. unfold range_upto. rewrite seq_S, fold_left_app. reflexivity. Qed.

Lemma range_upto_spec m :
  let rg := range_upto m in
  rg_radii rg = map contact_radius (seq 0 m)
  /\ (rg_min_z rg <= 1e50
      /\ (forall i, (i < m)%nat -> rg_min_z rg <= coord_z i)
      /\ (rg_min_z rg = 1e50
          \/ exists i, (i < m)%nat /\ rg_min_z rg = coord_z i))
  /\ (- 1e50 <= rg_max_z rg
      /\ (forall i, (i < m)%nat -> coord_z i <= rg_max_z rg)
      /\ (rg_max_z rg = - 1e50
          \/ exists i, (i < m)%nat /\ rg_max_z rg = coord_z i))
  /\ (0 <= rg_max_r rg
      /\ (forall i, (i < m)%nat -> contact_radius i <= rg_max_r rg)
      /\ (rg_max_r rg = 0
          \/ exists i, (i < m)%nat /\ rg_max_r rg = contact_radius i))
  /\ length (rg_sasa rg) = length sasa
  /\ (forall i, (i < m)%nat -> nth i (rg_sasa rg) 0 = 0).
Proof.
  induction m as [|m IH].
  - unfold range_upto; simpl.
    repeat split; try lra; try (intros; lia); auto.
  - rewrite range_upto_S. cbv zeta in IH.
    destruct IH as (Hr & (N1 & N2 & N3) & (X1 & X2 & X3)
                    & (R1 & R2 & R3) & L & Z0).
    unfold range_step.
    fold (coord_z m). fold (contact_radius m).
    cbn [rg_max_z rg_min_z rg_max_r rg_radii rg_sasa].
    split; [rewrite seq_S, map_app, Hr; reflexivity|].
    split; [|split; [|split; [|split]]].
    + unfold Rltb. destruct (Rlt_dec _ _) as [Hlt|Hge].
      * split; [lra|]. split.
        -- intros i Hi. destruct (Nat.eq_dec i m) as [->|]; [lra|].
           specialize (N2 i). assert (i < m)%nat by lia. specialize (N2 H).
           lra.
        -- right. exists m. split; [lia|reflexivity].
      * split; [lra|]. split.
        -- intros i Hi. destruct (Nat.eq_dec i m) as [->|]; [lra|].
           apply N2. lia.
        -- destruct N3 as [N3|(i & Hi & N3)]; [left; assumption|].
           right. exists i. split; [lia|assumption].
    + unfold Rgtb, Rltb. destruct (Rlt_dec _ _) as [Hlt|Hge].
      * split; [lra|]. split.
        -- intros i Hi. destruct (Nat.eq_dec i m) as [->|]; [lra|].
           specialize (X2 i). assert (i < m)%nat by lia. specialize (X2 H).
           lra.
        -- right. exists m. split; [lia|reflexivity].
      * split; [lra|]. split.
        -- intros i Hi. destruct (Nat.eq_dec i m) as [->|]; [lra|].
           apply X2. lia.
        -- destruct X3 as [X3|(i & Hi & X3)]; [left; assumption|].
           right. exists i. split; [lia|assumption].
    + unfold Rgtb, Rltb. destruct (Rlt_dec _ _) as [Hlt|Hge].
      * split; [lra|]. split.
        -- intros i Hi. destruct (Nat.eq_dec i m) as [->|]; [lra|].
           specialize (R2 i). assert (i < m)%nat by lia. specialize (R2 H).
           lra.
        -- right. exists m. split; [lia|reflexivity].
      * split; [lra|]. split.
        -- intros i Hi. destruct (Nat.eq_dec i m) as [->|]; [lra|].
           apply R2. lia.
        -- destruct R3 as [R3|(i & Hi & R3)]; [left; assumption|].
           right. exists i. split; [lia|assumption].
    + rewrite upd_length. assumption.
    + intros i Hi. rewrite nth_upd.
      destruct (Nat.eqb_spec m i) as [->|Hne]; simpl.
      * destruct (Nat.ltb_spec i (length (rg_sasa (range_upto i))));
          [reflexivity|].
        apply nth_overflow. assumption.
      * apply Z0. lia.
Qed.

Lemma slice_range_upto :
  slice_range sasa xyz atom_radii probe_radius = range_upto (coord_n xyz).
Proof. reflexivity. Qed.

(** With at least one atom, coordinates within the sentinels and some
    non-negative radius, the loop finds the extreme [z] and the largest
    contact radius. *)
Lemma slice_range_extremes :
  (1 <= coord_n xyz)%nat ->
  (forall i, (i < coord_n xyz)%nat -> - 1e50 <= coord_z i <= 1e50) ->
  (exists i, (i < coord_n xyz)%nat /\ 0 <= contact_radius i) ->
  let rg := slice_range sasa xyz atom_radii probe_radius in
  is_min coord_z (coord_n xyz) (rg_min_z rg)
  /\ is_max coord_z (coord_n xyz) (rg_max_z rg)
  /\ is_max contact_radius (coord_n xyz) (rg_max_r rg).
Proof.
  intros Hn Hz (i0 & Hi0 & Hr0) rg. unfold rg. rewrite slice_range_upto.
  destruct (range_upto_spec (coord_n xyz))
    as (_ & (N1 & N2 & N3) & (X1 & X2 & X3) & (R1 & R2 & R3) & _).
  split; [|split]; (split; [assumption|]).
  - destruct N3 as [N3|N3]; [|assumption].
    exists O. split; [lia|].
    specialize (N2 O Hn). specialize (Hz O Hn). lra.
  - destruct X3 as [X3|X3]; [|assumption].
    exists O. split; [lia|].
    specialize (X2 O Hn). specialize (Hz O Hn). lra.
  - destruct R3 as [R3|R3]; [|assumption].
    exists i0. split; [assumption|].
    specialize (R2 i0 Hi0). lra.
Qed.

End Range.

Lemma lr_params_range sasa xyz atom_radii probe_radius delta :
  let rg := slice_range sasa xyz atom_radii probe_radius in
  let lr := lr_params sasa xyz atom_radii probe_radius delta in
  min_z lr = rg_min_z rg - rg_max_r rg + delta / 2
  /\ max_z lr = rg_max_z rg + rg_max_r rg
  /\ LR.delta lr = delta /\ n_atoms lr = coord_n xyz.
Proof.
  unfold lr_params; cbn [min_z max_z LR.delta n_atoms].
  repeat split; lra.
Qed.

Lemma lee_richards_loop fuel sasa xyz atom_radii probe_radius delta n_threads :
  coord_n xyz <> O -> (1 <= n_threads)%Z ->
  let rg := slice_range sasa xyz atom_radii probe_radius in
  let lr := lr_params sasa xyz atom_radii probe_radius delta in
  sasalib_lee_richards fuel sasa xyz atom_radii probe_radius delta n_threads
  = (sasa' <- slice_loop (fun z => sasa_add_slice_area fuel z lr) fuel
                (min_z lr) (max_z lr) delta (rg_sasa rg) ;;
     Ok (if (n_threads >? 1)%Z then sasalib_warn else SASALIB_SUCCESS,
         sasa')).
Proof.
  intros Hn Ht rg lr. unfold sasalib_lee_richards.
  destruct (Nat.eqb_spec (coord_n xyz) 0) as [|_]; [contradiction|].
  fold rg. fold lr.
  destruct (n_threads >? 1)%Z eqn:E.
  - reflexivity.
  - assert (n_threads = 1%Z) as -> by lia. reflexivity.
Qed.

(** The slices of a run: [min_z] and [max_z] are the extreme [z]
    coordinates moved outwards by the largest contact radius, [min_z] then
    moved up by half a slice; the loop runs its body at the centres
    [min_z + k * delta] below [max_z], in this order, and so does
    [sasalib_lee_richards] with [sasa_add_slice_area]. *)
Definition slice_schedule (sasa : list R) (xyz : coord)
  (atom_radii : list R) (probe_radius delta : R) (n_threads : Z) : Prop :=
  let n := coord_n xyz in
  let lr := lr_params sasa xyz atom_radii probe_radius delta in
  exists zlo zhi rmax,
    is_min (coord_z xyz) n zlo /\ is_max (coord_z xyz) n zhi
    /\ is_max (contact_radius atom_radii probe_radius) n rmax
    /\ min_z lr = zlo - rmax + delta / 2
    /\ max_z lr = zhi + rmax
    /\ let K := n_slices (min_z lr) (max_z lr) delta in
       (forall k, (k < K)%nat <-> min_z lr + INR k * delta < max_z lr)
       /\ (forall (St : Type) (body : R -> St -> outcome St) fuel s0,
             (K <= fuel)%nat ->
             slice_loop body fuel (min_z lr) (max_z lr) delta s0
             = foldM body (centres (min_z lr) delta K) s0)
       /\ (forall fuel, (K <= fuel)%nat ->
             sasalib_lee_richards fuel sasa xyz atom_radii probe_radius
               delta n_threads
             = (sasa' <- foldM (fun z => sasa_add_slice_area fuel z lr)
                           (centres (min_z lr) delta K)
                           (rg_sasa (slice_range sasa xyz atom_radii
                                       probe_radius)) ;;
                Ok (if (n_threads >? 1)%Z then sasalib_warn
                    else SASALIB_SUCCESS, sasa'))).

(** For a non-empty point cloud whose [z] coordinates lie
    within the sentinels [-1e50, 1e50], with some non-negative contact
    radius, [delta > 0] and at least one thread requested,
    [sasalib_lee_richards] runs its slice body exactly at the centres
    [z_min, z_min + delta, ...] that are below [z_max], in this order, where
    [z_min = min_i z_i - max_i R_i + delta/2] and
    [z_max = max_i z_i + max_i R_i], with [R_i] the probe-augmented radius
    of atom [i]. *)
Lemma slice_centres (sasa : list R) (xyz : coord) (atom_radii : list R)
  (probe_radius delta : R) (n_threads : Z) :
  let n := coord_n xyz in
  (1 <= n)%nat -> 0 < delta -> (1 <= n_threads)%Z ->
  (forall i, (i < n)%nat -> - 1e50 <= coord_z xyz i <= 1e50) ->
  (exists i, (i < n)%nat /\ 0 <= contact_radius atom_radii probe_radius i) ->
  slice_schedule sasa xyz atom_radii probe_radius delta n_threads.
Proof.
  intros n Hn Hd Ht Hz Hr. unfold slice_schedule. cbv zeta.
  destruct (slice_range_extremes sasa xyz atom_radii probe_radius Hn Hz Hr)
    as (Hmin & Hmax & Hrad).
  destruct (lr_params_range sasa xyz atom_radii probe_radius delta)
    as (E1 & E2 & _).
  exists (rg_min_z (slice_range sasa xyz atom_radii probe_radius)),
         (rg_max_z (slice_range sasa xyz atom_radii probe_radius)),
         (rg_max_r (slice_range sasa xyz atom_radii probe_radius)).
  do 5 (split; [assumption|]).
  split; [|split].
  - intros k. apply n_slices_spec. assumption.
  - intros St body fuel s0 Hf. apply slice_loop_spec; assumption.
  - intros fuel Hf.
    rewrite lee_richards_loop by (fold n; lia).
    cbv zeta.
    rewrite slice_loop_spec by assumption. reflexivity.
Qed.

(** Two atoms on the [z] axis: radius 1 at height 0, radius 3 at height
    10. *)
Definition two_atoms : coord := {| Coord.xyz := [0; 0; 0; 0; 0; 10] |}.

Lemma two_atoms_z :
  coord_z two_atoms 0 = 0 /\ coord_z two_atoms 1 = 10.
Proof. split; reflexivity. Qed.

Lemma two_atoms_R :
  contact_radius [1; 3] 0 0 = 1 /\ contact_radius [1; 3] 0 1 = 3.
Proof. unfold contact_radius; simpl. split; lra. Qed.

Lemma two_atoms_valid :
  (1 <= coord_n two_atoms)%nat
  /\ (forall i, (i < coord_n two_atoms)%nat ->
        - 1e50 <= coord_z two_atoms i <= 1e50)
  /\ (exists i, (i < coord_n two_atoms)%nat
                /\ 0 <= contact_radius [1; 3] 0 i).
Proof.
  destruct two_atoms_z as [Z0 Z1]. destruct two_atoms_R as [R0 R1].
  change (coord_n two_atoms) with 2%nat.
  split; [lia|]. split.
  - intros [|[|i]] Hi; [rewrite Z0; lra | rewrite Z1; lra | lia].
  - exists O. split; [lia|]. rewrite R0. lra.
Qed.

(** The slice body that only records the centre it is run at. *)
Definition record_centre (z : R) (tr : list R) : outcome (list R) :=
  Ok (tr ++ [z]).

Lemma record_extends fuel : forall z zmax delta acc tr,
  slice_loop record_centre fuel z zmax delta acc = Ok tr ->
  exists tl, tr = acc ++ tl.
Proof.
  induction fuel as [|fuel IH]; intros z zmax delta acc tr H; simpl in H.
  - destruct (Rltb z zmax); [discriminate|].
    inversion H. exists []. rewrite app_nil_r. reflexivity.
  - destruct (Rltb z zmax).
    + unfold record_centre in H at 1. simpl in H.
      destruct (IH _ _ _ _ _ H) as [tl ->].
      exists (z :: tl). rewrite <- app_assoc. reflexivity.
    + inversion H. exists []. rewrite app_nil_r. reflexivity.
Qed.

Lemma record_first fuel z zmax delta tr :
  z < zmax -> slice_loop record_centre fuel z zmax delta [] = Ok tr ->
  exists tl, tr = z :: tl.
Proof.
  intros Hz H. apply Rltb_true in Hz.
  destruct fuel as [|fuel]; simpl in H; rewrite Hz in H; [discriminate|].
  unfold record_centre in H at 1. simpl in H.
  apply record_extends in H. exact H.
Qed.

(** C3 as stated fails.  For the two atoms above and [delta = 1], the
    smallest [z_i - R_i] is [-1] and the largest [z_i + R_i] is [13], so
    the stated centres start at [-1 + 1/2]; the code starts at
    [0 - 3 + 1/2]. *)
Lemma C3_counterexample :
  is_min (fun i => coord_z two_atoms i - contact_radius [1; 3] 0 i) 2 (-1)
  /\ is_max (fun i => coord_z two_atoms i + contact_radius [1; 3] 0 i) 2 13
  /\ forall fuel,
       slice_loop record_centre fuel
         (min_z (lr_params [0; 0] two_atoms [1; 3] 0 1))
         (max_z (lr_params [0; 0] two_atoms [1; 3] 0 1)) 1 []
       <> Ok (centres (-1 + 1 / 2) 1 (n_slices (-1 + 1 / 2) 13 1)).
Proof.
  destruct two_atoms_z as [Z0 Z1]. destruct two_atoms_R as [R0 R1].
  split; [|split].
  - split.
    + intros [|[|i]] Hi; [rewrite Z0, R0; lra | rewrite Z1, R1; lra | lia].
    + exists O. split; [lia|]. rewrite Z0, R0. lra.
  - split.
    + intros [|[|i]] Hi; [rewrite Z0, R0; lra | rewrite Z1, R1; lra | lia].
    + exists 1%nat. split; [lia|]. rewrite Z1, R1. lra.
  - intros fuel H.
    destruct two_atoms_valid as (H1 & H2 & H3).
    destruct (slice_range_extremes [0; 0] two_atoms [1; 3] 0 H1 H2 H3)
      as ((N1 & iN & HiN & N2) & (X1 & iX & HiX & X2)
          & (M1 & iM & HiM & M2)).
    destruct (lr_params_range [0; 0] two_atoms [1; 3] 0 1)
      as (E1 & E2 & _).
    change (coord_n two_atoms) with 2%nat in *.
    pose proof (N1 O ltac:(lia)) as N10. pose proof (N1 1%nat ltac:(lia)).
    pose proof (X1 O ltac:(lia)). pose proof (X1 1%nat ltac:(lia)) as X11.
    pose proof (M1 O ltac:(lia)). pose proof (M1 1%nat ltac:(lia)) as M11.
    rewrite Z0 in *. rewrite Z1 in *. rewrite R0 in *. rewrite R1 in *.
    set (rg := slice_range [0; 0] two_atoms [1; 3] 0) in *.
    assert (Emin : rg_min_z rg = 0).
    { destruct iN as [|[|iN]]; [rewrite Z0 in N2; lra
                                | rewrite Z1 in N2; lra | lia]. }
    assert (Emax : rg_max_z rg = 10).
    { destruct iX as [|[|iX]]; [rewrite Z0 in X2; lra
                                | rewrite Z1 in X2; lra | lia]. }
    assert (Erad : rg_max_r rg = 3).
    { destruct iM as [|[|iM]]; [rewrite R0 in M2; lra
                                | rewrite R1 in M2; lra | lia]. }
    rewrite E1, E2, Emin, Emax, Erad in H.
    apply record_first in H; [|lra].
    destruct H as [tl H].
    assert (Hk : (0 < n_slices (-1 + 1 / 2) 13 1)%nat).
    { apply n_slices_spec; [lra|]. simpl. lra. }
    destruct (n_slices (-1 + 1 / 2) 13 1) as [|K]; [lia|].
    rewrite centres_S in H. inversion H. lra.
Qed.

(** ** sasalib_lee_richards: the areas are not negative *)

Lemma slice_loop_inv {St : Type} (P : St -> Prop)
  (body : R -> St -> outcome St) zmax delta fuel : forall z s s',
  (forall z s s', P s -> body z s = Ok s' -> P s') ->
  P s -> slice_loop body fuel z zmax delta s = Ok s' -> P s'.
Proof.
  induction fuel as [|fuel IH]; intros z s s' Hb Hs H; simpl in H.
  - destruct (Rltb z zmax); [discriminate|]. inversion H; subst; assumption.
  - destruct (Rltb z zmax); [|inversion H; subst; assumption].
    destruct (body z s) as [s1| |] eqn:E; simpl in H; try discriminate.
    apply (IH (z + delta) s1 s'); auto. apply (Hb z s s1); assumption.
Qed.

Lemma lee_richards_nonneg fuel sasa xyz atom_radii probe_radius delta
  n_threads st sasa' :
  0 <= delta -> (coord_n xyz <= length sasa)%nat ->
  sasalib_lee_richards fuel sasa xyz atom_radii probe_radius delta n_threads
  = Ok (st, sasa') ->
  coord_n xyz <> O ->
  length sasa' = length sasa
  /\ forall i, (i < coord_n xyz)%nat -> 0 <= nth i sasa' 0.
Proof.
  intros Hd Hlen H Hn. unfold sasalib_lee_richards in H.
  destruct (Nat.eqb_spec (coord_n xyz) 0) as [|_]; [contradiction|].
  destruct (range_upto_spec sasa xyz atom_radii probe_radius (coord_n xyz))
    as (_ & _ & _ & _ & L0 & Z0).
  rewrite <- slice_range_upto in L0, Z0.
  set (rg := slice_range sasa xyz atom_radii probe_radius) in *.
  set (lr := lr_params sasa xyz atom_radii probe_radius delta) in *.
  assert (P0 : length (rg_sasa rg) = length sasa
               /\ forall i, (i < coord_n xyz)%nat -> 0 <= nth i (rg_sasa rg) 0).
  { split; [assumption|]. intros i Hi. rewrite Z0 by assumption. lra. }
  destruct ((if (n_threads >? 1)%Z then 1%Z else n_threads) =? 1)%Z.
  - destruct (slice_loop _ _ _ _ _ _) as [sasa1| |] eqn:E; simpl in H;
      try discriminate.
    inversion H; subst sasa1.
    refine (slice_loop_inv
             (fun s => length s = length sasa
                       /\ forall i, (i < coord_n xyz)%nat -> 0 <= nth i s 0)
             _ _ _ _ _ _ _ _ P0 E).
    intros z s s' [Ls Ps] Hb.
    destruct (lr_params_range sasa xyz atom_radii probe_radius delta)
      as (_ & _ & Ed & En).
    fold lr in Ed, En.
    destruct (add_slice_area_mono fuel z lr s s') as [L M];
      [rewrite Ed; assumption | rewrite En; lia | assumption |].
    rewrite En in M.
    split; [lia|]. intros i Hi.
    specialize (Ps i Hi). specialize (M i Hi). lra.
  - inversion H; subst. exact P0.
Qed.

(** *** Enough fuel *)

Lemma arcs_of_neighbours_length x y r i js : forall st st',
  arcs_of_neighbours x y r i js st = Ok st' ->
  (length (ar_a st') <= length (ar_a st) + length js)%nat.
Proof.
  induction js as [|j js IH]; intros st st' H; simpl in H.
  - inversion H; subst. lia.
  - destruct (negb (Nat.eqb i j)); simpl in H; [|discriminate].
    destruct (Rgeb _ _); [apply IH in H; simpl; lia|].
    destruct (Rltb _ _); [inversion H; subst; simpl; lia|].
    destruct (Rltb _ _); [apply IH in H; simpl in *; lia|].
    apply IH in H. cbn [ar_a] in H. rewrite length_app in H. simpl in *. lia.
Qed.

Lemma arcs_of_neighbours_no_fuel x y r i js : forall st,
  arcs_of_neighbours x y r i js st <> OutOfFuel.
Proof.
  induction js as [|j js IH]; intros st; simpl; [discriminate|].
  destruct (negb (Nat.eqb i j)); simpl; [|discriminate].
  destruct (Rgeb _ _); [apply IH|].
  destruct (Rltb _ _); [discriminate|].
  destruct (Rltb _ _); apply IH.
Qed.

Lemma sum_angles_call_no_fuel fuel st :
  arcs_ok st -> (length (ar_a st) <= fuel)%nat ->
  sum_angles_call fuel (ar_a st) (ar_b st) <> OutOfFuel.
Proof.
  intros (L & _ & _) Hf. unfold sum_angles_call.
  destruct (all_numbers (ar_a st)) as [a'|] eqn:E; [|discriminate].
  apply all_numbers_some in E.
  assert (La : length a' = length (ar_a st)).
  { rewrite E, length_map. reflexivity. }
  apply sum_angles_terminates; [reflexivity|lia|lia].
Qed.

Lemma exposed_arcs_no_fuel fuel n x y z r ea nb nn :
  (forall i, (i < n)%nat -> (nth i nn O <= fuel)%nat) ->
  sasa_exposed_arcs fuel n x y z r ea nb nn <> OutOfFuel.
Proof.
  intros Hnn. unfold sasa_exposed_arcs.
  pose proof (foldM_no_fuel_loss (exposed_arc_step fuel x y r nb nn)
                (seq 0 n)) as Hf.
  destruct (foldM _ _ _) eqn:E; simpl; try discriminate.
  exfalso. revert E. apply Hf.
  intros i [e bur] Hi. apply in_seq in Hi. unfold exposed_arc_step.
  destruct (nth i bur false); [discriminate|].
  pose proof (arcs_of_neighbours_no_fuel x y r i
    (map (fun ni => nth ni (nth i nb []) O) (seq 0 (nth i nn O)))
    {| ar_a := []; ar_b := []; ar_buried := bur |}) as Hn.
  destruct (arcs_of_neighbours _ _ _ _ _ _) as [st'| |] eqn:En; simpl;
    try discriminate; [|contradiction].
  destruct (negb _); [|discriminate].
  assert (Hok : arcs_ok st').
  { eapply arcs_of_neighbours_ok; [|exact En].
    unfold arcs_ok; simpl. repeat split; constructor. }
  apply arcs_of_neighbours_length in En.
  rewrite length_map, length_seq in En. simpl in En.
  pose proof (sum_angles_call_no_fuel fuel st' Hok) as Hs.
  destruct (sum_angles_call _ _ _); simpl; try discriminate.
  exfalso. apply Hs; [|reflexivity]. specialize (Hnn i). lia.
Qed.

Lemma slice_neighbours_length lr s i2 :
  (length (slice_neighbours lr s i2) <= nth i2 (nn lr) O)%nat.
Proof.
  unfold slice_neighbours.
  assert (G : forall l acc,
    (length (fold_left
       (fun acc j =>
          let j2 := nth j (nth i2 (nb lr) []) O in
          if nth j2 (sl_in_slice s) false then acc ++ [nth j2 (sl_xdi s) O]
          else acc) l acc) <= length acc + length l)%nat).
  { induction l as [|j l IH]; intros acc; cbn [fold_left length]; [lia|].
    destruct (nth _ (sl_in_slice s) false).
    - specialize (IH (acc ++ [nth (nth j (nth i2 (nb lr) []) O) (sl_xdi s) O])).
      rewrite length_app in IH. cbn [length] in IH.
      eapply Nat.le_trans; [exact IH | lia].
    - specialize (IH acc). eapply Nat.le_trans; [exact IH | lia]. }
  specialize (G (seq 0 (nth i2 (nn lr) O)) []).
  rewrite length_seq in G. simpl in G. exact G.
Qed.

Lemma list_max_nth l i : (nth i l O <= list_max l)%nat.
Proof.
  destruct (Nat.lt_ge_cases i (length l)) as [H|H].
  - pose proof (proj1 (list_max_le l (list_max l)) (Nat.le_refl _)) as F.
    rewrite Forall_forall in F. apply F. apply nth_In. assumption.
  - rewrite nth_overflow by assumption. lia.
Qed.

Lemma add_slice_area_no_fuel fuel z lr sasa :
  (list_max (nn lr) <= fuel)%nat ->
  sasa_add_slice_area fuel z lr sasa <> OutOfFuel.
Proof.
  intros Hf. unfold sasa_add_slice_area.
  match goal with
  | |- context [sasa_exposed_arcs ?f ?n ?x ?y ?z ?r ?ea ?nb ?nn] =>
    pose proof (exposed_arcs_no_fuel f n x y z r ea nb nn) as He
  end.
  destruct (sasa_exposed_arcs _ _ _ _ _ _ _ _ _); simpl; try discriminate.
  apply He. intros i Hi.
  rewrite map_map.
  destruct (Nat.lt_ge_cases i (length (sl_idx (locate_atoms z lr))))
    as [Hlt|Hge].
  - rewrite (nth_indep _ O (length (slice_neighbours lr (locate_atoms z lr) O)))
      by (rewrite length_map; assumption).
    rewrite (map_nth (fun x => length (slice_neighbours lr
                                        (locate_atoms z lr) x))).
    pose proof (slice_neighbours_length lr (locate_atoms z lr)
                  (nth i (sl_idx (locate_atoms z lr)) O)).
    pose proof (list_max_nth (nn lr) (nth i (sl_idx (locate_atoms z lr)) O)).
    lia.
  - rewrite nth_overflow by (rewrite length_map; assumption). lia.
Qed.

Lemma lee_richards_terminates sasa xyz atom_radii probe_radius delta
  n_threads :
  0 < delta ->
  exists fuel0, forall fuel, (fuel0 <= fuel)%nat ->
    sasalib_lee_richards fuel sasa xyz atom_radii probe_radius delta
      n_threads <> OutOfFuel.
Proof.
  intros Hd.
  set (lr := lr_params sasa xyz atom_radii probe_radius delta).
  exists (Nat.max (n_slices (min_z lr) (max_z lr) delta)
                  (list_max (nn lr))).
  intros fuel Hf. unfold sasalib_lee_richards.
  destruct (Nat.eqb _ _); [discriminate|].
  fold lr.
  destruct (_ =? 1)%Z; [|discriminate].
  rewrite slice_loop_spec by (try assumption; lia).
  pose proof (foldM_no_fuel_loss (fun z => sasa_add_slice_area fuel z lr)
                (centres (min_z lr) delta (n_slices (min_z lr) (max_z lr) delta)))
    as Hl.
  destruct (foldM _ _ _) eqn:E; simpl; try discriminate.
  exfalso. revert E. apply Hl.
  intros z s _. apply add_slice_area_no_fuel. lia.
Qed.

(** For a valid input ([delta > 0], a result array with an entry per
    atom) [sasalib_lee_richards] comes to an end, and when it returns every
    atom has [sasa[i] >= 0].  In particular the value that
    [sasa_sum_angles] returns for the intervals gathered by
    [sasa_exposed_arcs] (half-widths from [acos], centres from [atan2])
    lies in [0, 2 PI], although the code clamps nothing. *)
Lemma areas_nonnegative (sasa : list R) (xyz : coord)
  (atom_radii : list R) (probe_radius delta : R) (n_threads : Z) :
  0 < delta -> (coord_n xyz <= length sasa)%nat ->
  (exists fuel0, forall fuel, (fuel0 <= fuel)%nat ->
     sasalib_lee_richards fuel sasa xyz atom_radii probe_radius delta
       n_threads <> OutOfFuel)
  /\ (forall fuel st sasa',
        sasalib_lee_richards fuel sasa xyz atom_radii probe_radius delta
          n_threads = Ok (st, sasa') ->
        forall i, (i < coord_n xyz)%nat -> 0 <= nth i sasa' 0)
  /\ (forall fuel x y r i js buried st v,
        arcs_of_neighbours x y r i js
          {| ar_a := []; ar_b := []; ar_buried := buried |} = Ok st ->
        sum_angles_call fuel (ar_a st) (ar_b st) = Ok v ->
        0 <= v <= 2 * PI)
  /\ (forall fuel n a b v,
        length a = n -> length b = n ->
        Forall (fun x => x <= PI) a ->
        Forall (fun x => - PI <= x <= PI) b ->
        sasa_sum_angles fuel n a b = Ok v -> 0 <= v <= 2 * PI).
Proof.
  intros Hd Hlen. split; [|split; [|split]].
  - apply lee_richards_terminates. assumption.
  - intros fuel st sasa' H i Hi.
    destruct (lee_richards_nonneg fuel sasa xyz atom_radii probe_radius
                delta n_threads st sasa') as [_ N]; auto; [lra|lia].
  - intros fuel x y r i js buried st v Ha Hv.
    apply (sum_angles_call_bounds fuel st v); [|assumption].
    eapply arcs_of_neighbours_ok; [|exact Ha].
    unfold arcs_ok; simpl. repeat split; constructor.
  - apply sum_angles_bounds.
Qed.

(** ** The assertion of sasa_sum_angles on a circle tangent from inside *)

Lemma fdiv_some x y : y <> 0 -> fdiv x y = Some (x / y).
Proof. intros H. unfold fdiv. destruct (Req_dec_T y 0); congruence. Qed.

Lemma fdiv_zero x : fdiv x 0 = None.
Proof. unfold fdiv. destruct (Req_dec_T 0 0); congruence. Qed.

(** The step of the neighbour loop for circles that intersect properly, in
    the sense of the three tests of the code. *)
Lemma arcs_proper_step x y r i j js st :
  i <> j ->
  let ri := nth i r 0 in
  let rj := nth j r 0 in
  let xij := nth j x 0 - nth i x 0 in
  let yij := nth j y 0 - nth i y 0 in
  let d := sqrt (xij * xij + yij * yij) in
  d < ri + rj -> rj <= d + ri -> ri <= d + rj ->
  arcs_of_neighbours x y r i (j :: js) st
  = arcs_of_neighbours x y r i js
      {| ar_a := ar_a st
                 ++ [option_map acos
                       (fdiv (ri * ri + d * d - rj * rj) (2 * ri * d))];
         ar_b := ar_b st ++ [atan2 yij xij];
         ar_buried := ar_buried st |}.
Proof.
  intros Hne ri rj xij yij d H1 H2 H3.
  cbn [arcs_of_neighbours].
  apply Nat.eqb_neq in Hne. rewrite Hne. cbn [negb assert bind].
  fold ri rj xij yij. fold d.
  rewrite (proj2 (Rgeb_false d (ri + rj))) by lra.
  rewrite (proj2 (Rltb_false (d + ri) rj)) by lra.
  rewrite (proj2 (Rltb_false (d + rj) ri)) by lra.
  reflexivity.
Qed.

(** A circle of radius 2 at the origin and a circle of radius 1 at
    distance 1, each the neighbour of the other: the small circle touches
    the large one from inside. *)
Lemma tangent_circles (fuel : nat) (z : R) :
  arcs_of_neighbours [0; 1] [0; 0] [2; 1] 0 [1%nat]
    {| ar_a := []; ar_b := []; ar_buried := [false; false] |}
  = Ok {| ar_a := [Some 0]; ar_b := [atan2 (0 - 0) (1 - 0)];
          ar_buried := [false; false] |}
  /\ sasa_sum_angles fuel 1 [0] [atan2 (0 - 0) (1 - 0)] = AssertFail
  /\ sasa_exposed_arcs fuel 2 [0; 1] [0; 0] z [2; 1] [0; 0]
       [[1%nat]; [0%nat]] [1%nat; 1%nat]
     = AssertFail.
Proof.
  assert (Hd : sqrt ((1 - 0) * (1 - 0) + (0 - 0) * (0 - 0)) = 1).
  { replace ((1 - 0) * (1 - 0) + (0 - 0) * (0 - 0)) with 1 by lra.
    apply sqrt_1. }
  assert (Harcs :
    arcs_of_neighbours [0; 1] [0; 0] [2; 1] 0 [1%nat]
      {| ar_a := []; ar_b := []; ar_buried := [false; false] |}
    = Ok {| ar_a := [Some 0]; ar_b := [atan2 (0 - 0) (1 - 0)];
            ar_buried := [false; false] |}).
  { rewrite arcs_proper_step; cbn [nth]; rewrite ?Hd; try lra; [|lia].
    cbn [arcs_of_neighbours ar_a ar_b ar_buried app].
    rewrite fdiv_some by lra. cbn [option_map].
    replace ((2 * 2 + 1 * 1 - 1 * 1) / (2 * 2 * 1)) with 1 by lra.
    rewrite acos_1. reflexivity. }
  assert (Hsum : sasa_sum_angles fuel 1 [0] [atan2 (0 - 0) (1 - 0)]
                 = AssertFail).
  { rewrite sasa_sum_angles_eq. cbn [seq forallb nth].
    rewrite (proj2 (Rgtb_false 0 0)) by lra. reflexivity. }
  split; [exact Harcs|]. split; [exact Hsum|].
  unfold sasa_exposed_arcs. cbn [seq foldM repeat].
  unfold exposed_arc_step at 1. cbn [upd nth map seq].
  rewrite Harcs. cbn [bind ar_buried ar_a ar_b nth negb].
  unfold sum_angles_call. cbn [all_numbers fold_right length].
  rewrite Hsum. reflexivity.
Qed.

(** Atoms of radius 2 at the origin and of radius 1 at (1, 0, 0), probe
    radius 0 and [delta = 4]: the first slice is at [z = 0]. *)
Definition tangent_atoms : coord := {| Coord.xyz := [0; 0; 0; 1; 0; 0] |}.

Ltac rcmp :=
  repeat match goal with
  | |- context [Rltb ?a ?b] =>
      first [ rewrite (proj2 (Rltb_true a b)) by lra
            | rewrite (proj2 (Rltb_false a b)) by lra ]
  | |- context [Rgtb ?a ?b] =>
      first [ rewrite (proj2 (Rgtb_true a b)) by lra
            | rewrite (proj2 (Rgtb_false a b)) by lra ]
  | |- context [Rgeb ?a ?b] =>
      first [ rewrite (proj2 (Rgeb_true a b)) by lra
            | rewrite (proj2 (Rgeb_false a b)) by lra ]
  end.

Lemma tangent_range :
  slice_range [0; 0] tangent_atoms [2; 1] 0
  = {| rg_max_z := 0; rg_min_z := 0; rg_max_r := 2;
       rg_radii := [2; 1]; rg_sasa := [0; 0] |}.
Proof.
  unfold slice_range. change (coord_n tangent_atoms) with 2%nat.
  cbn [seq fold_left]. unfold range_step.
  cbn [rg_max_z rg_min_z rg_max_r rg_radii rg_sasa coord_all tangent_atoms
       Coord.xyz nth Nat.mul Nat.add app upd].
  rcmp. cbn [rg_max_z rg_min_z rg_max_r rg_radii rg_sasa]. rcmp.
  rewrite !Rplus_0_r. reflexivity.
Qed.

Lemma tangent_contacts :
  sasa_get_contacts tangent_atoms [2; 1] = ([[1%nat]; [0%nat]], [1%nat; 1%nat]).
Proof.
  unfold sasa_get_contacts. change (coord_n tangent_atoms) with 2%nat.
  cbn [seq fold_left Nat.add Nat.sub repeat]. unfold contact_step.
  cbn [coord_all tangent_atoms Coord.xyz nth Nat.mul Nat.add].
  rcmp. cbn [orb]. rcmp. reflexivity.
Qed.

Lemma tangent_params :
  lr_params [0; 0] tangent_atoms [2; 1] 0 4
  = {| n_atoms := 2; radii := [2; 1]; xyz := tangent_atoms;
       nb := [[1%nat]; [0%nat]]; nn := [1%nat; 1%nat]; delta := 4;
       min_z := 0; max_z := 2 |}.
Proof.
  unfold lr_params. rewrite tangent_range.
  cbn [rg_max_z rg_min_z rg_max_r rg_radii rg_sasa].
  rewrite tangent_contacts. cbn [fst snd].
  change (coord_n tangent_atoms) with 2%nat.
  f_equal; lra.
Qed.

Lemma tangent_slice :
  let lr := lr_params [0; 0] tangent_atoms [2; 1] 0 4 in
  exists DR,
    locate_atoms 0 lr
    = {| sl_x := [0; 1]; sl_y := [0; 0]; sl_r := [2; 1]; sl_DR := DR;
         sl_idx := [0%nat; 1%nat]; sl_xdi := [0%nat; 1%nat];
         sl_in_slice := [true; true] |}.
Proof.
  cbv zeta. rewrite tangent_params. unfold locate_atoms.
  cbn [n_atoms seq fold_left]. unfold locate_atom.
  cbn [radii xyz delta coord_all tangent_atoms Coord.xyz nth Nat.mul Nat.add
       slice_empty sl_x sl_y sl_r sl_DR sl_idx sl_xdi sl_in_slice app
       n_slice length].
  replace (0 - 0) with 0 by lra. rewrite Rabs_R0.
  rcmp.
  cbn [sl_x sl_y sl_r sl_DR sl_idx sl_xdi sl_in_slice app n_slice length].
  replace (2 * 2 - 0 * 0) with (2 * 2) by lra.
  replace (1 * 1 - 0 * 0) with 1 by lra.
  rewrite sqrt_square by lra. rewrite sqrt_1.
  eexists. reflexivity.
Qed.

Lemma tangent_exposed_arcs fuel z :
  sasa_exposed_arcs fuel 2 [0; 1] [0; 0] z [2; 1] [0; 0]
    [[1%nat]; [0%nat]] [1%nat; 1%nat]
  = AssertFail.
Proof.
  exact (proj2 (proj2 (tangent_circles fuel z))).
Qed.

Lemma tangent_slice_area fuel sasa :
  sasa_add_slice_area fuel 0 (lr_params [0; 0] tangent_atoms [2; 1] 0 4) sasa
  = AssertFail.
Proof.
  destruct tangent_slice as [DR E]. cbv zeta in E.
  unfold sasa_add_slice_area. cbv zeta. rewrite E.
  cbn [n_slice sl_x sl_y sl_r sl_DR sl_idx sl_xdi sl_in_slice length repeat
       map].
  unfold slice_neighbours. rewrite tangent_params.
  cbn [nb nn nth seq fold_left sl_xdi sl_in_slice app length].
  rewrite tangent_exposed_arcs. reflexivity.
Qed.

Lemma tangent_lee_richards fuel :
  sasalib_lee_richards (S fuel) [0; 0] tangent_atoms [2; 1] 0 4 1
  = AssertFail.
Proof.
  rewrite lee_richards_loop;
    [|change (coord_n tangent_atoms) with 2%nat; lia | lia].
  cbv zeta. cbn [slice_loop].
  rewrite tangent_params. cbn [min_z max_z]. rcmp.
  rewrite <- tangent_params. rewrite tangent_slice_area. reflexivity.
Qed.

(** C8.  The proper-intersection branch of [sasa_exposed_arcs] is reached
    when [d < ri + rj], [d + ri >= rj] and [d + rj >= ri]; at internal
    tangency, [d + rj = ri], the half-width it inserts is [acos 1 = 0], not
    a strictly positive number, and the assertion [a[i] > 0] of
    [sasa_sum_angles] fails: for the circles of radius 2 at (0, 0) and of
    radius 1 at (1, 0) in a slice, and for the whole calculation on the
    atoms of radius 2 at the origin and of radius 1 at (1, 0, 0) with probe
    radius 0 and [delta = 4]. *)
Theorem C8_tangent_circles_fail_assertion (fuel : nat) (z : R) :
  arcs_of_neighbours [0; 1] [0; 0] [2; 1] 0 [1%nat]
    {| ar_a := []; ar_b := []; ar_buried := [false; false] |}
  = Ok {| ar_a := [Some 0]; ar_b := [atan2 (0 - 0) (1 - 0)];
          ar_buried := [false; false] |}
  /\ sasa_sum_angles fuel 1 [0] [atan2 (0 - 0) (1 - 0)] = AssertFail
  /\ sasa_exposed_arcs fuel 2 [0; 1] [0; 0] z [2; 1] [0; 0]
       [[1%nat]; [0%nat]] [1%nat; 1%nat]
     = AssertFail
  /\ sasalib_lee_richards (S fuel) [0; 0] tangent_atoms [2; 1] 0 4 1
     = AssertFail.
Proof.
  destruct (tangent_circles fuel z) as (H1 & H2 & H3).
  split; [exact H1|]. split; [exact H2|]. split; [exact H3|].
  apply tangent_lee_richards.
Qed.

(** ** One isolated atom *)

(** An atom of contact radius 1 at the origin, [delta = 1]. *)
Definition one_atom : sasa_lr_t :=
  {| n_atoms := 1; radii := [1]; xyz := {| Coord.xyz := [0; 0; 0] |};
     nb := [[]]; nn := [O]; delta := 1; min_z := - (1 / 2); max_z := 1 |}.

Lemma one_atom_in_slice : in_slice_b 0 one_atom 0 = true.
Proof.
  apply Rltb_true. unfold atom_d, atom_R, atom_z. cbn [one_atom radii xyz
    coord_all Coord.xyz nth Nat.mul Nat.add].
  replace (0 - 0) with 0 by lra. rewrite Rabs_R0. lra.
Qed.

Lemma one_atom_slice :
  locate_atoms 0 one_atom =
  {| sl_x := [0]; sl_y := [0];
     sl_r := [slice_r 0 one_atom 0];
     sl_DR := [slice_DR 0 one_atom 0];
     sl_idx := [O]; sl_xdi := [O]; sl_in_slice := [true] |}.
Proof.
  change (locate_atoms 0 one_atom) with (locate_upto 0 one_atom 1).
  rewrite locate_upto_S.
  rewrite locate_atom_in by apply one_atom_in_slice.
  reflexivity.
Qed.

Lemma sum_angles_none fuel : sasa_sum_angles fuel 0 [] [] = Ok (2 * PI - 0).
Proof. rewrite sasa_sum_angles_eq. reflexivity. Qed.

Lemma one_atom_exposed fuel :
  let s := locate_atoms 0 one_atom in
  sasa_exposed_arcs fuel (n_slice s) (sl_x s) (sl_y s) 0 (sl_r s)
    (repeat 0 (n_slice s)) (map (slice_neighbours one_atom s) (sl_idx s))
    (map (@length nat) (map (slice_neighbours one_atom s) (sl_idx s)))
  = Ok [2 * PI - 0].
Proof.
  cbv zeta. rewrite one_atom_slice.
  unfold n_slice, sasa_exposed_arcs, slice_neighbours.
  cbn [sl_idx sl_x sl_y sl_r length repeat map seq foldM one_atom nn nth
       fold_left].
  unfold exposed_arc_step.
  cbn [upd nth map seq arcs_of_neighbours bind negb ar_buried ar_a ar_b].
  unfold sum_angles_call. cbn [all_numbers fold_right length].
  rewrite sum_angles_none. reflexivity.
Qed.

Lemma one_atom_area fuel :
  sasa_add_slice_area fuel 0 one_atom [0]
  = Ok (accumulate (locate_atoms 0 one_atom) [2 * PI - 0] [0]).
Proof.
  unfold sasa_add_slice_area.
  pose proof (one_atom_exposed fuel) as E. cbv zeta in E. rewrite E.
  reflexivity.
Qed.


End LRFacts.

(** * Contacts *)

(** ** Geometry of a pair of atoms *)

Section Pair.

Variables (v radii : list R).

Definition px (i : nat) : R := nth (i * 3) v 0.
Definition py (i : nat) : R := nth (i * 3 + 1) v 0.
Definition pz (i : nat) : R := nth (i * 3 + 2) v 0.
Definition rad (i : nat) : R := nth i radii 0.

(** Squared distance between the centres of atoms [i] and [j]. *)
Definition dist2 (i j : nat) : R :=
  (px j - px i) * (px j - px i) + (py j - py i) * (py j - py i)
  + (pz j - pz i) * (pz j - pz i).

(** The centres of [i] and [j] are closer than the sum of the radii. *)
Definition in_contact (i j : nat) : Prop :=
  sqrt (dist2 i j) < rad i + rad j.

(** The test of the code on a candidate pair: not pruned on an axis, and
    squared distance below the squared cutoff. *)
Definition contact_b (i j : nat) : bool :=
  let cut2 := (rad i + rad j) * (rad i + rad j) in
  negb (Rgtb ((px j - px i) * (px j - px i)) cut2
        || Rgtb ((py j - py i) * (py j - py i)) cut2
        || Rgtb ((pz j - pz i) * (pz j - pz i)) cut2)
  && Rltb (dist2 i j) cut2.

Lemma dist2_sym i j : dist2 i j = dist2 j i.
Proof. unfold dist2. ring. Qed.

Lemma dist2_nonneg i j : 0 <= dist2 i j.
Proof.
  unfold dist2.
  pose proof (Rle_0_sqr (px j - px i)) as Hx.
  pose proof (Rle_0_sqr (py j - py i)) as Hy.
  pose proof (Rle_0_sqr (pz j - pz i)) as Hz.
  unfold Rsqr in Hx, Hy, Hz. lra.
Qed.

Lemma contact_b_spec i j :
  contact_b i j = true <-> dist2 i j < (rad i + rad j) * (rad i + rad j).
Proof.
  unfold contact_b. cbv zeta. rewrite andb_true_iff, negb_true_iff.
  rewrite !orb_false_iff, !Rgtb_false, Rltb_true.
  split; [intros [_ H]; exact H|]. intros H. split; [|exact H].
  unfold dist2 in H.
  pose proof (Rle_0_sqr (px j - px i)) as Hx.
  pose proof (Rle_0_sqr (py j - py i)) as Hy.
  pose proof (Rle_0_sqr (pz j - pz i)) as Hz.
  unfold Rsqr in Hx, Hy, Hz.
  repeat split; lra.
Qed.

Lemma in_contact_iff i j :
  0 < rad i + rad j ->
  in_contact i j <-> dist2 i j < (rad i + rad j) * (rad i + rad j).
Proof.
  intros Hr. unfold in_contact.
  pose proof (dist2_nonneg i j) as Hd.
  pose proof (sqrt_pos (dist2 i j)) as Hs.
  pose proof (sqrt_sqrt (dist2 i j) Hd) as Hq.
  split; intros H; [nra|].
  destruct (Rlt_dec (sqrt (dist2 i j)) (rad i + rad j)) as [|Hn]; [assumption|].
  apply Rnot_lt_le in Hn. nra.
Qed.

Lemma in_contact_sym i j : in_contact i j -> in_contact j i.
Proof. unfold in_contact. rewrite dist2_sym. lra. Qed.

Lemma contact_b_sym i j : contact_b i j = contact_b j i.
Proof.
  destruct (contact_b i j) eqn:E1, (contact_b j i) eqn:E2; auto.
  - apply contact_b_spec in E1. rewrite dist2_sym in E1.
    replace ((rad i + rad j) * (rad i + rad j))
      with ((rad j + rad i) * (rad j + rad i)) in E1 by ring.
    apply contact_b_spec in E1. congruence.
  - apply contact_b_spec in E2. rewrite dist2_sym in E2.
    replace ((rad j + rad i) * (rad j + rad i))
      with ((rad i + rad j) * (rad i + rad j)) in E2 by ring.
    apply contact_b_spec in E2. congruence.
Qed.

End Pair.

(** ** Adjacency lists built from a sequence of recorded pairs *)

(** What the pairs [E], recorded in this order, append to the list of
    atom [m]: the partner of [m] in every pair that holds [m]. *)
Definition neighbours_of (m : nat) (E : list (nat * nat)) : list nat :=
  flat_map
    (fun p => (if Nat.eqb (fst p) m then [snd p] else [])
              ++ (if Nat.eqb (snd p) m then [fst p] else []))
    E.

Lemma neighbours_of_In m j E :
  In j (neighbours_of m E) <-> In (m, j) E \/ In (j, m) E.
Proof.
  unfold neighbours_of. rewrite in_flat_map. split.
  - intros ([a b] & Hp & Hj). simpl in Hj. apply in_app_or in Hj.
    destruct Hj as [Hj|Hj].
    + destruct (Nat.eqb_spec a m); [|contradiction].
      destruct Hj as [<-|[]]. subst. left; assumption.
    + destruct (Nat.eqb_spec b m); [|contradiction].
      destruct Hj as [<-|[]]. subst. right; assumption.
  - intros [H|H].
    + exists (m, j). split; [assumption|]. simpl.
      rewrite Nat.eqb_refl. left; reflexivity.
    + exists (j, m). split; [assumption|]. simpl.
      rewrite Nat.eqb_refl. apply in_or_app. right. left; reflexivity.
Qed.

Lemma neighbours_of_app m E1 E2 :
  neighbours_of m (E1 ++ E2) = neighbours_of m E1 ++ neighbours_of m E2.
Proof. unfold neighbours_of. apply flat_map_app. Qed.

Lemma nth_alter_nth {A} (f : A -> A) d i l m :
  nth m (alter_nth f d i l) d
  = if Nat.eqb i m && (i <? length l)%nat then f (nth i l d) else nth m l d.
Proof. unfold alter_nth. apply nth_upd. Qed.

Lemma alter_nth_length {A} (f : A -> A) d i l :
  length (alter_nth f d i l) = length l.
Proof. unfold alter_nth. apply upd_length. Qed.

(** Appending [j] to the list of [i] and [i] to the list of [j]. *)
Lemma nth_add_pair (nb : list (list nat)) i j m :
  (i < length nb)%nat -> (j < length nb)%nat -> i <> j ->
  nth m (alter_nth (fun l => l ++ [i]) [] j
           (alter_nth (fun l => l ++ [j]) [] i nb)) []
  = nth m nb [] ++ neighbours_of m [(i, j)].
Proof.
  intros Hi Hj Hne. rewrite !nth_alter_nth, !alter_nth_length.
  rewrite (proj2 (Nat.ltb_lt i (length nb)) Hi).
  rewrite (proj2 (Nat.ltb_lt j (length nb)) Hj).
  rewrite !andb_true_r. unfold neighbours_of. simpl.
  rewrite (proj2 (Nat.eqb_neq i j) Hne).
  destruct (Nat.eqb_spec j m) as [->|Hjm];
    destruct (Nat.eqb_spec i m) as [->|Him]; simpl;
    rewrite ?app_nil_r; try reflexivity; congruence.
Qed.

Lemma fold_left_pairs {A B St : Type} (f : A -> St -> B -> St)
  (g : A -> list B) l : forall st,
  fold_left (fun st x => fold_left (f x) (g x) st) l st
  = fold_left (fun st p => f (fst p) st (snd p))
      (flat_map (fun x => map (pair x) (g x)) l) st.
Proof.
  induction l as [|x l IH]; intros st; simpl; [reflexivity|].
  rewrite fold_left_app, <- IH. f_equal.
  generalize (g x) st. clear.
  intros lb. induction lb as [|y lb IH]; intros st; simpl; auto.
Qed.

(** ** sasa_get_contacts *)

Module LRContacts.
Import LR.

(** The pairs [(i, j)] with [i < j < n], in the order of the two loops. *)
Definition upper_pairs (n : nat) : list (nat * nat) :=
  flat_map (fun i => map (pair i) (seq (i + 1) (n - (i + 1)))) (seq 0 n).

Lemma upper_pairs_In n i j : In (i, j) (upper_pairs n) <-> (i < j < n)%nat.
Proof.
  unfold upper_pairs. rewrite in_flat_map. split.
  - intros (x & Hx & Hp). apply in_map_iff in Hp.
    destruct Hp as (y & E & Hy). inversion E; subst.
    apply in_seq in Hx. apply in_seq in Hy. lia.
  - intros H. exists i. split; [apply in_seq; lia|].
    apply in_map. apply in_seq. lia.
Qed.

Definition add_contact (st : list (list nat) * list nat) (i j : nat)
  : list (list nat) * list nat :=
  (alter_nth (fun l => l ++ [i]) [] j
     (alter_nth (fun l => l ++ [j]) [] i (fst st)),
   alter_nth S O j (alter_nth S O i (snd st))).

Lemma contact_step_eq v radii i st j :
  contact_step v radii i st j
  = if contact_b v radii i j then add_contact st i j else st.
Proof.
  unfold contact_step, contact_b, add_contact, dist2, px, py, pz, rad.
  destruct st as [nb nn]. cbv zeta.
  destruct (Rgtb _ _ || Rgtb _ _ || Rgtb _ _); simpl; [reflexivity|].
  destruct (Rltb _ _); reflexivity.
Qed.

Lemma get_contacts_fold xyz radii :
  sasa_get_contacts xyz radii
  = fold_left
      (fun st p => contact_step (coord_all xyz) radii (fst p) st (snd p))
      (upper_pairs (coord_n xyz))
      (repeat [] (coord_n xyz), repeat O (coord_n xyz)).
Proof.
  unfold sasa_get_contacts, upper_pairs. cbv zeta.
  apply (fold_left_pairs
           (fun i st j => contact_step (coord_all xyz) radii i st j)).
Qed.

Lemma nth_S_pair (nn : list nat) i j m :
  (i < length nn)%nat -> (j < length nn)%nat -> i <> j ->
  nth m (alter_nth S O j (alter_nth S O i nn)) O
  = (nth m nn O + length (neighbours_of m [(i, j)]))%nat.
Proof.
  intros Hi Hj Hne. rewrite !nth_alter_nth, !alter_nth_length.
  rewrite (proj2 (Nat.ltb_lt i (length nn)) Hi).
  rewrite (proj2 (Nat.ltb_lt j (length nn)) Hj).
  rewrite !andb_true_r. unfold neighbours_of. simpl.
  rewrite (proj2 (Nat.eqb_neq i j) Hne).
  destruct (Nat.eqb_spec j m) as [->|Hjm];
    destruct (Nat.eqb_spec i m) as [->|Him]; simpl; try lia; congruence.
Qed.

Lemma fold_contacts v radii n P : forall st,
  (forall p, In p P -> (fst p < n)%nat /\ (snd p < n)%nat /\ fst p <> snd p) ->
  length (fst st) = n -> length (snd st) = n ->
  let st' :=
    fold_left (fun st p => contact_step v radii (fst p) st (snd p)) P st in
  let E := filter (fun p => contact_b v radii (fst p) (snd p)) P in
  length (fst st') = n /\ length (snd st') = n
  /\ forall m,
       nth m (fst st') [] = nth m (fst st) [] ++ neighbours_of m E
       /\ nth m (snd st') O
          = (nth m (snd st) O + length (neighbours_of m E))%nat.
Proof.
  induction P as [|[i j] P IH]; intros st HP L1 L2; cbn [fold_left filter].
  - split; [assumption|]. split; [assumption|]. intros m. simpl.
    rewrite app_nil_r. split; [reflexivity | lia].
  - destruct (HP (i, j) (or_introl eq_refl)) as (Hi & Hj & Hne).
    cbn [fst snd] in *.
    rewrite contact_step_eq.
    assert (HP' : forall p, In p P ->
                    (fst p < n)%nat /\ (snd p < n)%nat /\ fst p <> snd p).
    { intros p Hp. apply HP. right; assumption. }
    destruct (contact_b v radii i j) eqn:Ec.
    + specialize (IH (add_contact st i j) HP').
      unfold add_contact in *. cbn [fst snd] in IH.
      rewrite !alter_nth_length in IH.
      destruct (IH L1 L2) as (A & B & C).
      split; [exact A|]. split; [exact B|].
      intros m. destruct (C m) as [C1 C2].
      rewrite nth_add_pair in C1 by (rewrite ?L1; auto).
      rewrite nth_S_pair in C2 by (rewrite ?L2; auto).
      change ((i, j) :: filter (fun p => contact_b v radii (fst p) (snd p)) P)
        with ([(i, j)]
              ++ filter (fun p => contact_b v radii (fst p) (snd p)) P).
      rewrite neighbours_of_app, length_app.
      split; [rewrite C1, app_assoc; reflexivity | rewrite C2; lia].
    + apply IH; assumption.
Qed.

(** The lists and counts returned by [sasa_get_contacts]. *)
Lemma get_contacts_spec xyz radii :
  let n := coord_n xyz in
  let E := filter (fun p => contact_b (coord_all xyz) radii (fst p) (snd p))
             (upper_pairs n) in
  let nb := fst (sasa_get_contacts xyz radii) in
  let nn := snd (sasa_get_contacts xyz radii) in
  length nb = n /\ length nn = n
  /\ forall m, (m < n)%nat ->
       nth m nb [] = neighbours_of m E
       /\ nth m nn O = length (nth m nb []).
Proof.
  intros n E nb nn. unfold nb, nn. rewrite get_contacts_fold.
  destruct (fold_contacts (coord_all xyz) radii n (upper_pairs n)
              (repeat [] n, repeat O n)) as (A & B & C).
  - intros [i j] Hp. apply upper_pairs_In in Hp. simpl. lia.
  - simpl. apply repeat_length.
  - simpl. apply repeat_length.
  - fold n. split; [exact A|]. split; [exact B|].
    intros m Hm. destruct (C m) as [C1 C2]. cbn [fst snd] in C1, C2.
    rewrite nth_repeat_lt in C1 by assumption.
    rewrite nth_repeat_lt in C2 by assumption.
    simpl in C1, C2. fold E in C1, C2.
    split; [exact C1|]. rewrite C2, C1. reflexivity.
Qed.

(** Contact correctness for the quadratic search. *)
Lemma get_contacts_correct xyz radii i j :
  let n := coord_n xyz in
  Forall (fun r => 0 < r) radii -> length radii = n ->
  (i < n)%nat -> (j < n)%nat -> i <> j ->
  In j (nth i (fst (sasa_get_contacts xyz radii)) [])
  <-> in_contact (coord_all xyz) radii i j.
Proof.
  intros n Hr Hl Hi Hj Hne.
  destruct (get_contacts_spec xyz radii) as (_ & _ & C).
  destruct (C i Hi) as [C1 _]. rewrite C1.
  rewrite neighbours_of_In, !filter_In, !upper_pairs_In. cbn [fst snd].
  assert (Hpos : 0 < rad radii i + rad radii j).
  { unfold rad. rewrite Forall_forall in Hr.
    assert (0 < nth i radii 0) by (apply Hr, nth_In; lia).
    assert (0 < nth j radii 0) by (apply Hr, nth_In; lia). lra. }
  rewrite (in_contact_iff _ _ _ _ Hpos), <- contact_b_spec.
  rewrite (contact_b_sym _ _ j i).
  fold n. split.
  - intros [[_ H]|[_ H]]; exact H.
  - intros H. destruct (Nat.lt_ge_cases i j); [left|right]; (split; [lia|auto]).
Qed.

End LRContacts.

(** * nb.c *)

Lemma foldM_pairs {A B St : Type} (f : A -> B -> St -> outcome St)
  (g : A -> list B) l : forall s,
  foldM (fun x s => foldM (f x) (g x) s) l s
  = foldM (fun p s => f (fst p) (snd p) s)
      (flat_map (fun x => map (pair x) (g x)) l) s.
Proof.
  induction l as [|x l IH]; intros s; simpl; [reflexivity|].
  rewrite foldM_app.
  assert (E : forall lb s,
    foldM (f x) lb s
    = foldM (fun p s => f (fst p) (snd p) s) (map (pair x) lb) s).
  { induction lb as [|y lb IHb]; intros t; simpl; [reflexivity|].
    destruct (f x y t); simpl; auto. }
  rewrite <- E. destruct (foldM (f x) (g x) s); simpl; auto.
Qed.

(** A loop whose body appends to a list. *)
Lemma foldM_collect {A B : Type} (f : A -> list B -> outcome (list B))
  (g : A -> list B) l :
  (forall x acc, In x l -> f x acc = Ok (acc ++ g x)) ->
  forall acc, foldM f l acc = Ok (acc ++ flat_map g l).
Proof.
  induction l as [|x l IH]; intros H acc; simpl.
  - rewrite app_nil_r. reflexivity.
  - rewrite (H x acc) by (left; reflexivity). simpl.
    rewrite IH by (intros; apply H; right; assumption).
    rewrite app_assoc. reflexivity.
Qed.

Lemma nth_append_pair {A} (l : list (list A)) i j (a b : A) m :
  (i < length l)%nat -> (j < length l)%nat -> i <> j ->
  nth m (alter_nth (fun t => t ++ [b]) [] j
           (alter_nth (fun t => t ++ [a]) [] i l)) []
  = nth m l [] ++ (if Nat.eqb i m then [a] else [])
               ++ (if Nat.eqb j m then [b] else []).
Proof.
  intros Hi Hj Hne. rewrite !nth_alter_nth, !alter_nth_length.
  rewrite (proj2 (Nat.ltb_lt i (length l)) Hi).
  rewrite (proj2 (Nat.ltb_lt j (length l)) Hj).
  rewrite !andb_true_r.
  rewrite (proj2 (Nat.eqb_neq i j) Hne).
  destruct (Nat.eqb_spec j m) as [->|Hjm];
    destruct (Nat.eqb_spec i m) as [->|Him]; simpl;
    rewrite ?app_nil_r; try reflexivity; congruence.
Qed.

Lemma neighbours_of_one m i j :
  neighbours_of m [(i, j)]
  = (if Nat.eqb i m then [j] else []) ++ (if Nat.eqb j m then [i] else []).
Proof. unfold neighbours_of. simpl. rewrite app_nil_r. reflexivity. Qed.

(** A loop whose every round establishes a fact that later rounds keep. *)
Lemma foldM_establish {A St : Type} (f : A -> St -> outcome St)
  (I : St -> Prop) (ext : St -> St -> Prop) (E : A -> St -> Prop) l :
  (forall s, ext s s) ->
  (forall s1 s2 s3, ext s1 s2 -> ext s2 s3 -> ext s1 s3) ->
  (forall x s s', E x s -> ext s s' -> E x s') ->
  (forall x s, In x l -> I s ->
     exists s', f x s = Ok s' /\ I s' /\ ext s s' /\ E x s') ->
  forall s, I s ->
    exists s', foldM f l s = Ok s' /\ I s' /\ ext s s'
               /\ forall x, In x l -> E x s'.
Proof.
  intros Hrefl Htrans Hmono.
  induction l as [|x l IH]; intros Hstep s Hs.
  - exists s. simpl. repeat split; auto. intros x [].
  - destruct (Hstep x s (or_introl eq_refl) Hs) as (s1 & E1 & I1 & X1 & R1).
    destruct (IH (fun y t Hy => Hstep y t (or_intror Hy)) s1 I1)
      as (s' & E2 & I2 & X2 & R2).
    exists s'. simpl. rewrite E1. simpl.
    split; [exact E2|]. split; [exact I2|]. split; [eauto|].
    intros y [<-|Hy]; [eapply Hmono; eauto | auto].
Qed.

Lemma zrange_In lo hi k : In k (zrange lo hi) <-> (lo <= k <= hi)%Z.
Proof.
  unfold zrange. rewrite in_map_iff. split.
  - intros (m & <- & Hm). apply in_seq in Hm. lia.
  - intros H. exists (Z.to_nat (k - lo)). split; [lia|].
    apply in_seq. lia.
Qed.

Lemma foldM_flat_map {A B St : Type} (f : B -> St -> outcome St)
  (g : A -> list B) l : forall s,
  foldM f (flat_map g l) s = foldM (fun x s => foldM f (g x) s) l s.
Proof.
  induction l as [|x l IH]; intros s; simpl; [reflexivity|].
  rewrite foldM_app. destruct (foldM f (g x) s); simpl; auto.
Qed.

Lemma foldM_map {A B St : Type} (f : B -> St -> outcome St) (h : A -> B) l :
  forall s, foldM f (map h l) s = foldM (fun x s => f (h x) s) l s.
Proof.
  induction l as [|x l IH]; intros s; simpl; [reflexivity|].
  destruct (f (h x) s); simpl; auto.
Qed.

Lemma map_nth_seq {A} (l : list A) d :
  map (fun k => nth k l d) (seq 0 (length l)) = l.
Proof.
  induction l as [|x l IH]; simpl; [reflexivity|].
  f_equal. rewrite <- seq_shift, map_map. exact IH.
Qed.

Module NBFacts.
Import NB.

(** ** The adjacency after a sequence of calls of nb_add_pair *)

Section Adjacency.

Variables (v : list R) (N : nat).

Definition xd_of (m j : nat) : R := px v j - px v m.
Definition yd_of (m j : nat) : R := py v j - py v m.
Definition xyd_of (m j : nat) : R :=
  sqrt (xd_of m j * xd_of m j + yd_of m j * yd_of m j).

(** [adj] is what the pairs [E], each recorded with its coordinate
    differences, make of the freshly allocated adjacency. *)
Definition adj_of (E : list (nat * nat)) (adj : freesasa_nb) : Prop :=
  n adj = N
  /\ length (nn adj) = N /\ length (nb adj) = N
  /\ length (nb_xyd adj) = N /\ length (nb_xd adj) = N
  /\ length (nb_yd adj) = N /\ length (capacity adj) = N
  /\ forall m, (m < N)%nat ->
       nth m (nb adj) [] = neighbours_of m E
       /\ nth m (nn adj) O = length (neighbours_of m E)
       /\ nth m (nb_xd adj) [] = map (xd_of m) (neighbours_of m E)
       /\ nth m (nb_yd adj) [] = map (yd_of m) (neighbours_of m E)
       /\ nth m (nb_xyd adj) [] = map (xyd_of m) (neighbours_of m E)
       /\ (nth m (nn adj) O <= nth m (capacity adj) O)%nat.

Lemma alloc_adj_of :
  (0 < N)%nat ->
  exists adj, freesasa_nb_alloc N = Ok adj /\ adj_of [] adj.
Proof.
  intros HN. unfold freesasa_nb_alloc.
  rewrite (proj2 (Nat.ltb_lt 0 N) HN). simpl.
  eexists. split; [reflexivity|].
  unfold adj_of. cbn [n nn nb nb_xyd nb_xd nb_yd capacity].
  rewrite !repeat_length. do 7 (split; [reflexivity|]).
  intros m Hm. rewrite !nth_repeat_lt by assumption. simpl.
  unfold NB_CHUNK. repeat split; lia.
Qed.

Lemma xyd_of_sym m j : xyd_of m j = xyd_of j m.
Proof. unfold xyd_of, xd_of, yd_of. f_equal. ring. Qed.

Lemma add_pair_adj_of E adj i j :
  adj_of E adj -> (i < N)%nat -> (j < N)%nat -> i <> j ->
  exists adj',
    nb_add_pair adj i j (xd_of i j) (yd_of i j) = Ok adj'
    /\ adj_of (E ++ [(i, j)]) adj'.
Proof.
  intros (Hn & L1 & L2 & L3 & L4 & L5 & L6 & H) Hi Hj Hne.
  unfold nb_add_pair.
  rewrite (proj2 (Nat.eqb_neq i j) Hne). cbn [negb assert bind].
  eexists. split; [reflexivity|].
  unfold adj_of. cbn [n nn nb nb_xyd nb_xd nb_yd capacity].
  rewrite !alter_nth_length.
  do 7 (split; [assumption|]).
  intros m Hm. destruct (H m Hm) as (A1 & A2 & A3 & A4 & A5 & A6).
  rewrite neighbours_of_app, neighbours_of_one, !map_app, length_app.
  rewrite !nth_append_pair by (rewrite ?L2, ?L3, ?L4, ?L5; auto).
  rewrite A1, A3, A4, A5.
  assert (Hnn : nth m (alter_nth S O j (alter_nth S O i (nn adj))) O
                = (nth m (nn adj) O
                   + length ((if Nat.eqb i m then [j] else [])
                             ++ (if Nat.eqb j m then [i] else [])))%nat).
  { rewrite <- neighbours_of_one.
    apply LRContacts.nth_S_pair; rewrite ?L1; auto. }
  split; [reflexivity|].
  split; [rewrite Hnn, A2; reflexivity|].
  split; [|split; [|split]].
  - f_equal.
    destruct (Nat.eqb_spec i m) as [->|]; destruct (Nat.eqb_spec j m) as [->|];
      simpl; try reflexivity; try congruence.
    unfold xd_of. f_equal. lra.
  - f_equal.
    destruct (Nat.eqb_spec i m) as [->|]; destruct (Nat.eqb_spec j m) as [->|];
      simpl; try reflexivity; try congruence.
    unfold yd_of. f_equal. lra.
  - f_equal.
    destruct (Nat.eqb_spec i m) as [->|]; destruct (Nat.eqb_spec j m) as [->|];
      simpl; try reflexivity; try congruence.
    f_equal. apply xyd_of_sym.
  - rewrite !nth_alter_nth, !alter_nth_length, L6.
    rewrite (proj2 (Nat.ltb_lt i N) Hi), (proj2 (Nat.ltb_lt j N) Hj).
    rewrite !andb_true_r, L1.
    rewrite (proj2 (Nat.ltb_lt i N) Hi), (proj2 (Nat.ltb_lt j N) Hj).
    rewrite !andb_true_r, !Nat.eqb_refl.
    rewrite (proj2 (Nat.eqb_neq i j) Hne).
    rewrite (proj2 (Nat.eqb_neq j i)) by auto.
    destruct (H i Hi) as (_ & _ & _ & _ & _ & Ci).
    destruct (H j Hj) as (_ & _ & _ & _ & _ & Cj).
    unfold chunk_up, NB_CHUNK.
    destruct (Nat.eqb_spec j m) as [->|Hjm];
      destruct (Nat.eqb_spec i m) as [->|Him]; try congruence;
      repeat match goal with
             | |- context [(?a <? ?b)%nat] =>
               destruct (Nat.ltb_spec a b)
             end; lia.
Qed.

End Adjacency.

(** ** cell_list_bounds *)

Lemma coord_i_xyz crd i :
  nth 0 (coord_i crd i) 0 = px (coord_all crd) i
  /\ nth 1 (coord_i crd i) 0 = py (coord_all crd) i
  /\ nth 2 (coord_i crd i) 0 = pz (coord_all crd) i.
Proof.
  unfold coord_i, coord_all, px, py, pz. rewrite !nth_skipn.
  repeat split; f_equal; lia.
Qed.

Definition is_min := LRFacts.is_min.
Definition is_max := LRFacts.is_max.

Lemma is_min_step f m x :
  is_min f (S m) x -> is_min f (S (S m)) (Rmin (f (S m)) x).
Proof.
  intros [Hlb (i & Hi & Hx)]. split.
  - intros k Hk. destruct (Nat.eq_dec k (S m)) as [->|Hne].
    + apply Rmin_l.
    + eapply Rle_trans; [apply Rmin_r|]. apply Hlb. lia.
  - apply Rmin_case.
    + exists (S m). split; [lia|reflexivity].
    + exists i. split; [lia|assumption].
Qed.

Lemma is_max_step f m x :
  is_max f (S m) x -> is_max f (S (S m)) (Rmax (f (S m)) x).
Proof.
  intros [Hub (i & Hi & Hx)]. split.
  - intros k Hk. destruct (Nat.eq_dec k (S m)) as [->|Hne].
    + apply Rmax_l.
    + eapply Rle_trans; [|apply Rmax_r]. apply Hub. lia.
  - apply Rmax_case.
    + exists (S m). split; [lia|reflexivity].
    + exists i. split; [lia|assumption].
Qed.

Lemma bounds_fold crd m :
  let v := coord_all crd in
  let u := coord_i crd 0 in
  exists x X y Y z Z,
    fold_left (bounds_step crd) (seq 1 m)
      (nth 0 u 0, nth 0 u 0, nth 1 u 0, nth 1 u 0, nth 2 u 0, nth 2 u 0)
    = (x, X, y, Y, z, Z)
    /\ is_min (px v) (S m) x /\ is_max (px v) (S m) X
    /\ is_min (py v) (S m) y /\ is_max (py v) (S m) Y
    /\ is_min (pz v) (S m) z /\ is_max (pz v) (S m) Z.
Proof.
  intros v u. induction m as [|m IH].
  - destruct (coord_i_xyz crd 0) as (Ex & Ey & Ez). fold u v in Ex, Ey, Ez.
    exists (nth 0 u 0), (nth 0 u 0), (nth 1 u 0), (nth 1 u 0),
           (nth 2 u 0), (nth 2 u 0).
    split; [reflexivity|].
    rewrite Ex, Ey, Ez.
    repeat split; try (intros k Hk; assert (k = O) as -> by lia; lra);
      exists O; (split; [lia|reflexivity]).
  - destruct IH as (x & X & y & Y & z & Z & E & Hx & HX & Hy & HY & Hz & HZ).
    rewrite seq_S, fold_left_app, E. cbn [fold_left bounds_step Nat.add].
    destruct (coord_i_xyz crd (S m)) as (Ex & Ey & Ez). fold v in Ex, Ey, Ez.
    rewrite Ex, Ey, Ez.
    do 6 eexists. split; [reflexivity|].
    repeat split;
      first [ apply (is_min_step _ _ _ Hx) | apply (is_max_step _ _ _ HX)
            | apply (is_min_step _ _ _ Hy) | apply (is_max_step _ _ _ HY)
            | apply (is_min_step _ _ _ Hz) | apply (is_max_step _ _ _ HZ) ].
Qed.

(** The geometry of the grid, relative to [n] atoms with coordinates [v]:
    every atom is at least half a cell inside the box, and the numbers of
    cells along the axes are the rounded-up extents. *)
Definition geom_ok (v : list R) (n : nat) (c : cell_list) : Prop :=
  0 < cl_d c
  /\ (forall a, (a < n)%nat ->
        cl_x_min c + cl_d c / 2 <= px v a <= cl_x_max c - cl_d c / 2
        /\ cl_y_min c + cl_d c / 2 <= py v a <= cl_y_max c - cl_d c / 2
        /\ cl_z_min c + cl_d c / 2 <= pz v a <= cl_z_max c - cl_d c / 2)
  /\ cl_nx c = Rceil ((cl_x_max c - cl_x_min c) / cl_d c)
  /\ cl_ny c = Rceil ((cl_y_max c - cl_y_min c) / cl_d c)
  /\ cl_nz c = Rceil ((cl_z_max c - cl_z_min c) / cl_d c)
  /\ cl_n c = (cl_nx c * cl_ny c * cl_nz c)%Z.

Lemma cell_list_bounds_geom c crd :
  (1 <= coord_n crd)%nat -> 0 < cl_d c ->
  geom_ok (coord_all crd) (coord_n crd) (cell_list_bounds c crd)
  /\ cl_cell (cell_list_bounds c crd) = cl_cell c
  /\ cl_d (cell_list_bounds c crd) = cl_d c
  /\ exists x X y Y z Z,
       is_min (px (coord_all crd)) (coord_n crd) x
       /\ is_max (px (coord_all crd)) (coord_n crd) X
       /\ is_min (py (coord_all crd)) (coord_n crd) y
       /\ is_max (py (coord_all crd)) (coord_n crd) Y
       /\ is_min (pz (coord_all crd)) (coord_n crd) z
       /\ is_max (pz (coord_all crd)) (coord_n crd) Z
       /\ cl_x_min (cell_list_bounds c crd) = x - cl_d c / 2
       /\ cl_x_max (cell_list_bounds c crd) = X + cl_d c / 2
       /\ cl_y_min (cell_list_bounds c crd) = y - cl_d c / 2
       /\ cl_y_max (cell_list_bounds c crd) = Y + cl_d c / 2
       /\ cl_z_min (cell_list_bounds c crd) = z - cl_d c / 2
       /\ cl_z_max (cell_list_bounds c crd) = Z + cl_d c / 2.
Proof.
  intros Hn Hd. unfold cell_list_bounds.
  destruct (bounds_fold crd (coord_n crd - 1))
    as (x & X & y & Y & z & Z & E & Hx & HX & Hy & HY & Hz & HZ).
  cbv zeta in E. rewrite E.
  replace (S (coord_n crd - 1)) with (coord_n crd) in * by lia.
  cbn [cl_cell cl_d cl_x_min cl_x_max cl_y_min cl_y_max cl_z_min cl_z_max
       cl_nx cl_ny cl_nz cl_n].
  split; [|split; [reflexivity|split; [reflexivity|]]].
  - unfold geom_ok.
    cbn [cl_cell cl_d cl_x_min cl_x_max cl_y_min cl_y_max cl_z_min cl_z_max
         cl_nx cl_ny cl_nz cl_n].
    split; [assumption|]. split; [|repeat split; reflexivity].
    intros a Ha.
    pose proof (proj1 Hx a Ha). pose proof (proj1 HX a Ha).
    pose proof (proj1 Hy a Ha). pose proof (proj1 HY a Ha).
    pose proof (proj1 Hz a Ha). pose proof (proj1 HZ a Ha).
    repeat split; lra.
  - exists x, X, y, Y, z, Z. do 6 (split; [assumption|]).
    do 5 (split; [reflexivity|]). reflexivity.
Qed.

(** ** Cells of the atoms *)

Section Grid.

Variables (crd : coord) (c : cell_list).

Let v := coord_all crd.
Let n := coord_n crd.

Hypothesis Hg : geom_ok v n c.

Definition cell_x (a : nat) : Z := Rtrunc ((px v a - cl_x_min c) / cl_d c).
Definition cell_y (a : nat) : Z := Rtrunc ((py v a - cl_y_min c) / cl_d c).
Definition cell_z (a : nat) : Z := Rtrunc ((pz v a - cl_z_min c) / cl_d c).

(** The index of the cell with grid coordinates [(ix, iy, iz)]. *)
Definition idx3 (ix iy iz : Z) : Z := (ix + cl_nx c * (iy + cl_ny c * iz))%Z.

Definition cell_of (a : nat) : nat :=
  Z.to_nat (idx3 (cell_x a) (cell_y a) (cell_z a)).

Definition in_grid (ix iy iz : Z) : Prop :=
  (0 <= ix < cl_nx c)%Z /\ (0 <= iy < cl_ny c)%Z /\ (0 <= iz < cl_nz c)%Z.

Lemma trunc_in_range p lo hi d :
  0 < d -> lo + d / 2 <= p <= hi - d / 2 ->
  (0 <= Rtrunc ((p - lo) / d) < Rceil ((hi - lo) / d))%Z.
Proof.
  intros Hd Hp.
  assert (Ht : 1 / 2 <= (p - lo) / d).
  { apply Rdiv_le_r; [assumption|]. lra. }
  assert (Hu : (p - lo) / d < (hi - lo) / d).
  { unfold Rdiv. apply Rmult_lt_compat_r;
      [apply Rinv_0_lt_compat; assumption | lra]. }
  destruct (Rtrunc_nonneg ((p - lo) / d)) as [T1 T2]; [lra|].
  split.
  - assert (-1 < Rtrunc ((p - lo) / d))%Z; [|lia].
    apply lt_IZR. lra.
  - apply Rceil_lt. lra.
Qed.

Lemma cell_in_grid a :
  (a < n)%nat -> in_grid (cell_x a) (cell_y a) (cell_z a).
Proof.
  intros Ha. destruct Hg as (Hd & Hb & Ex & Ey & Ez & _).
  destruct (Hb a Ha) as (Bx & By & Bz).
  unfold in_grid, cell_x, cell_y, cell_z. rewrite Ex, Ey, Ez.
  split; [|split]; apply trunc_in_range; assumption.
Qed.

Lemma idx3_range ix iy iz :
  in_grid ix iy iz -> (0 <= idx3 ix iy iz < cl_n c)%Z.
Proof.
  intros (Hx & Hy & Hz). destruct Hg as (_ & _ & _ & _ & _ & En).
  rewrite En. unfold idx3.
  assert (A : (0 <= cl_ny c * iz)%Z) by (apply Z.mul_nonneg_nonneg; lia).
  assert (B : (cl_ny c * iz <= cl_ny c * (cl_nz c - 1))%Z)
    by (apply Z.mul_le_mono_nonneg_l; lia).
  assert (C : (0 <= cl_nx c * (iy + cl_ny c * iz))%Z)
    by (apply Z.mul_nonneg_nonneg; lia).
  assert (D : (cl_nx c * (iy + cl_ny c * iz)
               <= cl_nx c * (cl_ny c * cl_nz c - 1))%Z).
  { apply Z.mul_le_mono_nonneg_l; [lia|].
    rewrite Z.mul_sub_distr_l in B. lia. }
  rewrite Z.mul_sub_distr_l, Z.mul_assoc in D. lia.
Qed.

Lemma idx3_inj ix iy iz ix' iy' iz' :
  in_grid ix iy iz -> in_grid ix' iy' iz' ->
  idx3 ix iy iz = idx3 ix' iy' iz' -> ix = ix' /\ iy = iy' /\ iz = iz'.
Proof.
  intros (Hx & Hy & Hz) (Hx' & Hy' & Hz') E. unfold idx3 in E.
  assert (Huniq : forall m a b a' b',
            (0 <= a < m)%Z -> (0 <= a' < m)%Z ->
            (a + m * b = a' + m * b')%Z -> a = a' /\ b = b').
  { intros m a b a' b' Ha Ha' Hab.
    assert (b = b').
    { destruct (Z_lt_le_dec b b') as [H|H].
      - assert (m * (b + 1) <= m * b')%Z
          by (apply Z.mul_le_mono_nonneg_l; lia).
        rewrite Z.mul_add_distr_l in H0. lia.
      - destruct (Z_lt_le_dec b' b) as [H'|H']; [|lia].
        assert (m * (b' + 1) <= m * b)%Z
          by (apply Z.mul_le_mono_nonneg_l; lia).
        rewrite Z.mul_add_distr_l in H0. lia. }
    subst. split; [lia|reflexivity]. }
  destruct (Huniq _ _ _ _ _ Hx Hx' E) as [E1 E2].
  destruct (Huniq _ _ _ _ _ Hy Hy' E2) as [E3 E4].
  auto.
Qed.

Lemma cell_of_lt a : (a < n)%nat -> (cell_of a < Z.to_nat (cl_n c))%nat.
Proof.
  intros Ha. unfold cell_of.
  pose proof (idx3_range _ _ _ (cell_in_grid a Ha)). lia.
Qed.

Lemma coord2cell_index_ok a :
  (a < n)%nat ->
  coord2cell_index c (coord_i crd a)
  = Ok (idx3 (cell_x a) (cell_y a) (cell_z a)).
Proof.
  intros Ha. unfold coord2cell_index. cbv zeta.
  destruct (coord_i_xyz crd a) as (Ex & Ey & Ez).
  rewrite Ex, Ey, Ez. fold v. fold (cell_x a) (cell_y a) (cell_z a).
  destruct (cell_in_grid a Ha) as (Hx & Hy & Hz).
  unfold cell_index.
  rewrite (proj2 (Z.leb_le 0 (cell_x a))) by lia.
  rewrite (proj2 (Z.ltb_lt (cell_x a) (cl_nx c))) by lia.
  rewrite (proj2 (Z.leb_le 0 (cell_y a))) by lia.
  rewrite (proj2 (Z.ltb_lt (cell_y a) (cl_ny c))) by lia.
  reflexivity.
Qed.

End Grid.

(** ** fill_cells *)

Definition blank_cell : cell := mk_cell [] [].

Section Cells.

Variables (crd : coord) (c : cell_list).

Let v := coord_all crd.
Let n := coord_n crd.

Hypothesis Hg : geom_ok v n c.
Hypothesis Hlen : length (cl_cell c) = Z.to_nat (cl_n c).

(** The atoms of cell [k] among the first [m]: those whose coordinates
    fall into it, in increasing order. *)
Definition atoms_in (m k : nat) : list nat :=
  filter (fun a => Nat.eqb (cell_of crd c a) k) (seq 0 m).

Definition fill_step (i : nat) (cells : list cell) : outcome (list cell) :=
  let u := coord_i crd i in
  idx <- coord2cell_index c u ;;
  Ok (alter_nth
        (fun cl => {| c_nb := c_nb cl; c_atom := c_atom cl ++ [i] |})
        (mk_cell [] []) (Z.to_nat idx) cells).

Lemma fill_cells_upto m :
  (m <= n)%nat ->
  exists cells,
    foldM fill_step (seq 0 m)
      (map (fun cl => {| c_nb := c_nb cl; c_atom := [] |}) (cl_cell c))
    = Ok cells
    /\ length cells = Z.to_nat (cl_n c)
    /\ forall k, (k < Z.to_nat (cl_n c))%nat ->
         nth k cells blank_cell
         = {| c_nb := c_nb (nth k (cl_cell c) blank_cell);
              c_atom := atoms_in m k |}.
Proof.
  induction m as [|m IH]; intros Hm.
  - eexists. split; [reflexivity|]. rewrite length_map.
    split; [assumption|]. intros k Hk.
    change blank_cell
      with ((fun cl => {| c_nb := c_nb cl; c_atom := [] |}) blank_cell) at 1.
    rewrite map_nth. reflexivity.
  - destruct IH as (cells & E & L & H); [lia|].
    rewrite seq_S, foldM_app, E. cbn [bind foldM Nat.add].
    unfold fill_step at 1. cbv zeta.
    rewrite (coord2cell_index_ok crd c Hg m) by (fold n; lia).
    cbn [bind].
    eexists. split; [reflexivity|].
    rewrite alter_nth_length. split; [assumption|].
    intros k Hk. rewrite nth_alter_nth.
    fold (cell_of crd c m).
    assert (Hc : (cell_of crd c m < length cells)%nat).
    { rewrite L. apply (cell_of_lt crd c Hg). fold n. lia. }
    rewrite (proj2 (Nat.ltb_lt _ _) Hc), andb_true_r.
    unfold atoms_in. rewrite seq_S, filter_app. cbn [filter Nat.add].
    destruct (Nat.eqb_spec (cell_of crd c m) k) as [->|Hne].
    + rewrite (H k Hk). reflexivity.
    + rewrite (H k Hk), app_nil_r. reflexivity.
Qed.

Lemma fill_cells_ok :
  exists cells,
    fill_cells c crd = Ok (set_cells c cells)
    /\ length cells = Z.to_nat (cl_n c)
    /\ forall k, (k < Z.to_nat (cl_n c))%nat ->
         nth k cells blank_cell
         = {| c_nb := c_nb (nth k (cl_cell c) blank_cell);
              c_atom := atoms_in n k |}.
Proof.
  destruct (fill_cells_upto n (Nat.le_refl n)) as (cells & E & L & H).
  exists cells. split; [|split; assumption].
  unfold fill_cells. cbv zeta. fold n.
  change (foldM fill_step (seq 0 n)
            (map (fun cl => {| c_nb := c_nb cl; c_atom := [] |}) (cl_cell c))
          = Ok cells) in E.
  unfold fill_step in E. cbv zeta in E. rewrite E. reflexivity.
Qed.

End Cells.

(** ** fill_nb and get_nb *)

Section Forward.

Variable c : cell_list.

Definition x_lo (ix : Z) : Z := if (ix >? 0)%Z then (ix - 1)%Z else 0%Z.
Definition x_hi (nx ix : Z) : Z := if (ix <? nx - 1)%Z then (ix + 1)%Z else ix.

(** The forward neighbours stored for the cell [(ix, iy, iz)], in the
    order of the three loops. *)
Definition fwd_nb (ix iy iz : Z) : list nat :=
  flat_map
    (fun i => flat_map
       (fun j => flat_map
          (fun k => if (i - ix + j - iy + k - iz >=? 0)%Z
                    then [Z.to_nat (idx3 c i j k)] else [])
          (zrange (x_lo iz) (x_hi (cl_nz c) iz)))
       (zrange (x_lo iy) (x_hi (cl_ny c) iy)))
    (zrange (x_lo ix) (x_hi (cl_nx c) ix)).

Lemma cell_index_ok ix iy iz :
  in_grid c ix iy iz -> cell_index c ix iy iz = Ok (idx3 c ix iy iz).
Proof.
  intros (Hx & Hy & Hz). unfold cell_index.
  rewrite (proj2 (Z.leb_le 0 ix)) by lia.
  rewrite (proj2 (Z.ltb_lt ix (cl_nx c))) by lia.
  rewrite (proj2 (Z.leb_le 0 iy)) by lia.
  rewrite (proj2 (Z.ltb_lt iy (cl_ny c))) by lia.
  reflexivity.
Qed.

Lemma near_range nx ix i :
  (0 <= ix < nx)%Z ->
  In i (zrange (x_lo ix) (x_hi nx ix))
  <-> (0 <= i < nx /\ ix - 1 <= i <= ix + 1)%Z.
Proof.
  intros H. rewrite zrange_In. unfold x_lo, x_hi.
  destruct (Z.gtb_spec ix 0), (Z.ltb_spec ix (nx - 1)); lia.
Qed.

Lemma fwd_nb_In ix iy iz m :
  in_grid c ix iy iz ->
  In m (fwd_nb ix iy iz) <->
  exists i j k,
    in_grid c i j k
    /\ (ix - 1 <= i <= ix + 1)%Z /\ (iy - 1 <= j <= iy + 1)%Z
    /\ (iz - 1 <= k <= iz + 1)%Z
    /\ (0 <= i - ix + j - iy + k - iz)%Z
    /\ m = Z.to_nat (idx3 c i j k).
Proof.
  intros (Hx & Hy & Hz). unfold fwd_nb. rewrite in_flat_map. split.
  - intros (i & Hi & H). rewrite in_flat_map in H.
    destruct H as (j & Hj & H). rewrite in_flat_map in H.
    destruct H as (k & Hk & H).
    apply (near_range _ _ _ Hx) in Hi. apply (near_range _ _ _ Hy) in Hj.
    apply (near_range _ _ _ Hz) in Hk.
    destruct (Z.geb_spec (i - ix + j - iy + k - iz) 0) as [Hs|Hs];
      [|destruct H].
    destruct H as [<-|[]].
    exists i, j, k. unfold in_grid. repeat split; lia.
  - intros (i & j & k & (Gx & Gy & Gz) & Nx & Ny & Nz & Hs & ->).
    exists i. split; [apply (near_range _ _ _ Hx); lia|].
    rewrite in_flat_map. exists j.
    split; [apply (near_range _ _ _ Hy); lia|].
    rewrite in_flat_map. exists k.
    split; [apply (near_range _ _ _ Hz); lia|].
    destruct (Z.geb_spec (i - ix + j - iy + k - iz) 0) as [_|Hn]; [|lia].
    left; reflexivity.
Qed.

Lemma fwd_nb_self ix iy iz :
  in_grid c ix iy iz -> In (Z.to_nat (idx3 c ix iy iz)) (fwd_nb ix iy iz).
Proof.
  intros H. apply (fwd_nb_In _ _ _ _ H).
  exists ix, iy, iz. repeat split; try apply H; lia.
Qed.

Lemma fill_nb_ok ix iy iz :
  in_grid c ix iy iz ->
  fill_nb c ix iy iz
  = Ok (set_cells c
          (alter_nth
             (fun cl => {| c_nb := fwd_nb ix iy iz; c_atom := c_atom cl |})
             (mk_cell [] []) (Z.to_nat (idx3 c ix iy iz)) (cl_cell c))).
Proof.
  intros Hin. pose proof Hin as (Hx & Hy & Hz). unfold fill_nb.
  rewrite (cell_index_ok ix iy iz Hin). cbn [bind].
  fold (x_lo ix) (x_lo iy) (x_lo iz).
  fold (x_hi (cl_nx c) ix) (x_hi (cl_ny c) iy) (x_hi (cl_nz c) iz).
  assert (E : foldM
    (fun i => foldM
       (fun j => foldM (fun k => fill_nb_step c ix iy iz i j k)
                       (zrange (x_lo iz) (x_hi (cl_nz c) iz)))
       (zrange (x_lo iy) (x_hi (cl_ny c) iy)))
    (zrange (x_lo ix) (x_hi (cl_nx c) ix)) []
    = Ok ([] ++ fwd_nb ix iy iz)).
  { unfold fwd_nb. apply foldM_collect. intros i acc Hi.
    apply foldM_collect. intros j acc' Hj.
    apply foldM_collect. intros k acc'' Hk.
    apply (near_range _ _ _ Hx) in Hi. apply (near_range _ _ _ Hy) in Hj.
    apply (near_range _ _ _ Hz) in Hk.
    unfold fill_nb_step.
    destruct (i - ix + j - iy + k - iz >=? 0)%Z.
    - rewrite cell_index_ok by (unfold in_grid; lia). reflexivity.
    - rewrite app_nil_r. reflexivity. }
  rewrite E. cbn [app bind].
  assert (Hpos : (0 <? length (fwd_nb ix iy iz))%nat = true).
  { apply Nat.ltb_lt. pose proof (fwd_nb_self ix iy iz Hin) as Hs.
    destruct (fwd_nb ix iy iz); [destruct Hs | simpl; lia]. }
  rewrite Hpos. reflexivity.
Qed.

End Forward.

Section GetNb.

Variables (crd : coord) (c : cell_list).

Let v := coord_all crd.
Let n := coord_n crd.

Hypothesis Hg : geom_ok v n c.
Hypothesis Hlen : length (cl_cell c) = Z.to_nat (cl_n c).

(** The states of the loops of [get_nb]: the grid of [c] with its cells
    replaced, as many cells as before holding the same atoms. *)
Definition nb_state (s : cell_list) : Prop :=
  exists cells,
    s = set_cells c cells /\ length cells = Z.to_nat (cl_n c)
    /\ forall k, c_atom (nth k cells blank_cell)
                 = c_atom (nth k (cl_cell c) blank_cell).

(** The cell [(ix, iy, iz)] holds its forward neighbours. *)
Definition nb_set (t : Z * Z * Z) (s : cell_list) : Prop :=
  let '(ix, iy, iz) := t in
  in_grid c ix iy iz ->
  c_nb (nth (Z.to_nat (idx3 c ix iy iz)) (cl_cell s) blank_cell)
  = fwd_nb c ix iy iz.

Definition nb_kept (s s' : cell_list) : Prop :=
  forall t, nb_set t s -> nb_set t s'.

Lemma fill_nb_step_ok ix iy iz s :
  in_grid c ix iy iz -> nb_state s ->
  exists s', fill_nb s ix iy iz = Ok s' /\ nb_state s' /\ nb_kept s s'
             /\ nb_set (ix, iy, iz) s'.
Proof.
  intros Hin (cells & -> & L & Hat).
  pose proof (idx3_range crd c Hg ix iy iz Hin) as Hr.
  assert (Hlt : (Z.to_nat (idx3 c ix iy iz) <? length cells)%nat = true).
  { apply Nat.ltb_lt. lia. }
  rewrite (fill_nb_ok (set_cells c cells) ix iy iz Hin).
  eexists. split; [reflexivity|].
  change (cl_cell (set_cells c cells)) with cells.
  change (idx3 (set_cells c cells) ix iy iz) with (idx3 c ix iy iz).
  change (fwd_nb (set_cells c cells) ix iy iz) with (fwd_nb c ix iy iz).
  split; [|split].
  - eexists. split; [reflexivity|].
    rewrite alter_nth_length. split; [assumption|].
    intros k. rewrite nth_alter_nth. fold blank_cell.
    destruct (Nat.eqb_spec (Z.to_nat (idx3 c ix iy iz)) k) as [<-|];
      simpl; [|apply Hat].
    rewrite Hlt. simpl. apply Hat.
  - intros [[jx jy] jz] Hset Hj. cbn [cl_cell set_cells].
    rewrite nth_alter_nth. fold blank_cell.
    destruct (Nat.eqb_spec (Z.to_nat (idx3 c ix iy iz))
                (Z.to_nat (idx3 c jx jy jz))) as [Heq|Hne]; simpl.
    + rewrite Hlt. simpl.
      pose proof (idx3_range crd c Hg jx jy jz Hj) as Hrj.
      assert (Heq' : idx3 c ix iy iz = idx3 c jx jy jz) by lia.
      destruct (idx3_inj crd c _ _ _ _ _ _ Hin Hj Heq') as (-> & -> & ->).
      reflexivity.
    + apply (Hset Hj).
  - intros _. cbn [cl_cell set_cells].
    rewrite nth_alter_nth, Nat.eqb_refl, Hlt. reflexivity.
Qed.

Lemma nb_kept_refl s : nb_kept s s.
Proof. intros t H. exact H. Qed.

Lemma nb_kept_trans s1 s2 s3 : nb_kept s1 s2 -> nb_kept s2 s3 -> nb_kept s1 s3.
Proof. intros H1 H2 t H. apply H2, H1, H. Qed.

Lemma get_nb_ok :
  exists cells,
    get_nb c = Ok (set_cells c cells)
    /\ length cells = Z.to_nat (cl_n c)
    /\ (forall k, c_atom (nth k cells blank_cell)
                  = c_atom (nth k (cl_cell c) blank_cell))
    /\ forall ix iy iz, in_grid c ix iy iz ->
         c_nb (nth (Z.to_nat (idx3 c ix iy iz)) cells blank_cell)
         = fwd_nb c ix iy iz.
Proof.
  assert (H0 : nb_state c).
  { exists (cl_cell c). split; [destruct c; reflexivity|]. auto. }
  assert (Hmain : exists s',
    foldM (fun ix => foldM
             (fun iy => foldM (fun iz s => fill_nb s ix iy iz)
                              (zrange 0 (cl_nz c - 1)))
             (zrange 0 (cl_ny c - 1)))
          (zrange 0 (cl_nx c - 1)) c = Ok s'
    /\ nb_state s' /\ nb_kept c s'
    /\ forall ix, In ix (zrange 0 (cl_nx c - 1)) ->
         forall iy, In iy (zrange 0 (cl_ny c - 1)) ->
           forall iz, In iz (zrange 0 (cl_nz c - 1)) ->
             nb_set (ix, iy, iz) s').
  { apply (foldM_establish
      (fun ix => foldM
         (fun iy => foldM (fun iz s => fill_nb s ix iy iz)
                          (zrange 0 (cl_nz c - 1)))
         (zrange 0 (cl_ny c - 1)))
      nb_state nb_kept
      (fun ix s => forall iy, In iy (zrange 0 (cl_ny c - 1)) ->
                     forall iz, In iz (zrange 0 (cl_nz c - 1)) ->
                       nb_set (ix, iy, iz) s)
      (zrange 0 (cl_nx c - 1)) nb_kept_refl nb_kept_trans);
      [ | | exact H0].
    - intros ix s s' H Hk iy Hy iz Hz. apply Hk, H; assumption.
    - intros ix s Hx Hs.
      apply (foldM_establish
        (fun iy => foldM (fun iz s => fill_nb s ix iy iz)
                         (zrange 0 (cl_nz c - 1)))
        nb_state nb_kept
        (fun iy s => forall iz, In iz (zrange 0 (cl_nz c - 1)) ->
                       nb_set (ix, iy, iz) s)
        (zrange 0 (cl_ny c - 1)) nb_kept_refl nb_kept_trans);
        [ | | exact Hs].
      + intros iy s1 s2 H Hk iz Hz. apply Hk, H; assumption.
      + intros iy s1 Hy Hs1.
        apply (foldM_establish
          (fun iz s => fill_nb s ix iy iz)
          nb_state nb_kept
          (fun iz s => nb_set (ix, iy, iz) s)
          (zrange 0 (cl_nz c - 1)) nb_kept_refl nb_kept_trans);
          [ | | exact Hs1].
        * intros iz s2 s3 H Hk. apply Hk, H.
        * intros iz s2 Hz Hs2. apply fill_nb_step_ok; [|assumption].
          apply zrange_In in Hx. apply zrange_In in Hy.
          apply zrange_In in Hz.
          unfold in_grid. lia. }
  destruct Hmain as (s' & E & (cells & -> & L & Hat) & _ & Hall).
  exists cells. split; [exact E|]. split; [exact L|]. split; [exact Hat|].
  intros ix iy iz Hin. pose proof Hin as (Hx & Hy & Hz).
  apply (Hall ix); try (apply zrange_In; lia). exact Hin.
Qed.

End GetNb.

(** ** cell_list_new *)

(** A cell list as [cell_list_new] returns it for the atoms of [crd]. *)
Definition grid_ok (crd : coord) (c : cell_list) : Prop :=
  geom_ok (coord_all crd) (coord_n crd) c
  /\ length (cl_cell c) = Z.to_nat (cl_n c)
  /\ (forall k, (k < Z.to_nat (cl_n c))%nat ->
        c_atom (nth k (cl_cell c) blank_cell)
        = atoms_in crd c (coord_n crd) k)
  /\ forall ix iy iz, in_grid c ix iy iz ->
       c_nb (nth (Z.to_nat (idx3 c ix iy iz)) (cl_cell c) blank_cell)
       = fwd_nb c ix iy iz.

(** The box of the grid: the extreme coordinates, widened by half a cell. *)
Definition box_ok (crd : coord) (c : cell_list) : Prop :=
  exists x X y Y z Z,
    is_min (px (coord_all crd)) (coord_n crd) x
    /\ is_max (px (coord_all crd)) (coord_n crd) X
    /\ is_min (py (coord_all crd)) (coord_n crd) y
    /\ is_max (py (coord_all crd)) (coord_n crd) Y
    /\ is_min (pz (coord_all crd)) (coord_n crd) z
    /\ is_max (pz (coord_all crd)) (coord_n crd) Z
    /\ cl_x_min c = x - cl_d c / 2 /\ cl_x_max c = X + cl_d c / 2
    /\ cl_y_min c = y - cl_d c / 2 /\ cl_y_max c = Y + cl_d c / 2
    /\ cl_z_min c = z - cl_d c / 2 /\ cl_z_max c = Z + cl_d c / 2.

Lemma cell_list_new_ok d crd :
  0 < d -> (1 <= coord_n crd)%nat ->
  exists c, cell_list_new d (Some crd) = Ok c
            /\ grid_ok crd c /\ cl_d c = d /\ box_ok crd c.
Proof.
  intros Hd Hn. unfold cell_list_new.
  rewrite (proj2 (Rgtb_true d 0)) by lra. cbn [assert bind].
  set (c0 := {| cl_cell := []; cl_n := 0; cl_nx := 0; cl_ny := 0;
                cl_nz := 0; cl_d := d; cl_x_max := 0; cl_x_min := 0;
                cl_y_max := 0; cl_y_min := 0; cl_z_max := 0;
                cl_z_min := 0 |}).
  destruct (cell_list_bounds_geom c0 crd Hn Hd) as (Hg & _ & Ed & Hbox).
  set (c1 := cell_list_bounds c0 crd) in *.
  set (c2 := set_cells c1 (repeat (mk_cell [] []) (Z.to_nat (cl_n c1)))).
  assert (Hg2 : geom_ok (coord_all crd) (coord_n crd) c2) by exact Hg.
  assert (L2 : length (cl_cell c2) = Z.to_nat (cl_n c2)).
  { unfold c2. cbn [cl_cell cl_n set_cells]. apply repeat_length. }
  destruct (fill_cells_ok crd c2 Hg2 L2) as (cells3 & E3 & L3 & H3).
  rewrite E3. cbn [bind].
  set (c3 := set_cells c2 cells3).
  assert (Hg3 : geom_ok (coord_all crd) (coord_n crd) c3) by exact Hg.
  assert (L3' : length (cl_cell c3) = Z.to_nat (cl_n c3)) by exact L3.
  destruct (get_nb_ok crd c3 Hg3 L3') as (cells4 & E4 & L4 & A4 & N4).
  exists (set_cells c3 cells4). split; [exact E4|].
  split; [|split; [exact Ed | rewrite <- Ed in Hbox; exact Hbox]].
  unfold grid_ok. split; [exact Hg|]. split; [exact L4|]. split.
  - intros k Hk. cbn [cl_cell set_cells].
    rewrite A4. cbn [cl_cell c3 set_cells].
    rewrite (H3 k Hk). reflexivity.
  - intros ix iy iz Hin. apply (N4 ix iy iz Hin).
Qed.

(** ** nb_fill_list as a run over the candidate pairs *)

Section Candidates.

Variables (crd : coord) (radii : list R).

Let v := coord_all crd.

(** The body of the innermost loop on a pair of atoms. *)
Definition pair_step (p : nat * nat) (adj : freesasa_nb)
  : outcome freesasa_nb :=
  _ <- assert (negb (Nat.eqb (fst p) (snd p))) ;;
  if contact_b v radii (fst p) (snd p)
  then nb_add_pair adj (fst p) (snd p)
         (xd_of v (fst p) (snd p)) (yd_of v (fst p) (snd p))
  else Ok adj.

Lemma cell_pair_step_eq ci cj i j adj :
  cell_pair_step v radii ci cj i j adj
  = pair_step (nth i (c_atom ci) O, nth j (c_atom cj) O) adj.
Proof.
  unfold cell_pair_step, pair_step, contact_b, dist2, xd_of, yd_of,
    px, py, pz, rad.
  cbv zeta. cbn [fst snd].
  destruct (negb _); simpl; [|reflexivity].
  destruct (Rgtb _ _ || Rgtb _ _ || Rgtb _ _); simpl; [reflexivity|].
  destruct (Rltb _ _); reflexivity.
Qed.

(** The pairs of atoms compared for the cells [ci] and [cj]. *)
Definition cell_cands (cells : list cell) (ci cj : nat) : list (nat * nat) :=
  let celli := nth ci cells blank_cell in
  let cellj := nth cj cells blank_cell in
  flat_map
    (fun i =>
       let j0 := if Nat.eqb ci cj then (i + 1)%nat else O in
       map (fun j => (nth i (c_atom celli) O, nth j (c_atom cellj) O))
           (seq j0 (length (c_atom cellj) - j0)))
    (seq 0 (length (c_atom celli))).

Lemma calc_cell_pair_eq adj cells ci cj :
  nb_calc_cell_pair adj crd radii cells ci cj
  = foldM pair_step (cell_cands cells ci cj) adj.
Proof.
  unfold nb_calc_cell_pair, cell_cands. cbv zeta. fold v. fold blank_cell.
  rewrite foldM_flat_map. apply foldM_ext. intros i s _.
  rewrite foldM_map. apply foldM_ext. intros j t _.
  apply cell_pair_step_eq.
Qed.

(** All the pairs compared by [nb_fill_list], in order. *)
Definition all_cands (c : cell_list) : list (nat * nat) :=
  flat_map
    (fun ic =>
       flat_map (fun cj => cell_cands (cl_cell c) ic cj)
                (c_nb (nth ic (cl_cell c) blank_cell)))
    (seq 0 (Z.to_nat (cl_n c))).

Lemma nb_fill_list_eq adj c :
  nb_fill_list adj c crd radii = foldM pair_step (all_cands c) adj.
Proof.
  unfold nb_fill_list, all_cands. cbv zeta. fold blank_cell.
  rewrite foldM_flat_map. apply foldM_ext. intros ic s _.
  rewrite foldM_flat_map.
  rewrite <- (map_nth_seq (c_nb (nth ic (cl_cell c) blank_cell)) O) at 2.
  rewrite foldM_map. apply foldM_ext. intros jc t _.
  apply calc_cell_pair_eq.
Qed.

(** Running the candidates records the pairs in contact. *)
Lemma run_candidates N cands : forall E adj,
  adj_of v N E adj ->
  (forall p, In p cands ->
     (fst p < N)%nat /\ (snd p < N)%nat /\ fst p <> snd p) ->
  exists adj',
    foldM pair_step cands adj = Ok adj'
    /\ adj_of v N
         (E ++ filter (fun p => contact_b v radii (fst p) (snd p)) cands)
         adj'.
Proof.
  induction cands as [|[a b] cands IH]; intros E adj Hadj Hc.
  - exists adj. simpl. rewrite app_nil_r. auto.
  - destruct (Hc (a, b) (or_introl eq_refl)) as (Ha & Hb & Hne).
    cbn [fst snd] in Ha, Hb, Hne.
    cbn [foldM filter fst snd]. unfold pair_step at 1. cbn [fst snd].
    rewrite (proj2 (Nat.eqb_neq a b) Hne). cbn [negb assert bind].
    destruct (contact_b v radii a b).
    + destruct (add_pair_adj_of v N E adj a b Hadj Ha Hb Hne)
        as (adj1 & E1 & H1).
      rewrite E1. cbn [bind].
      destruct (IH (E ++ [(a, b)]) adj1 H1) as (adj' & E' & H').
      { intros p Hp. apply Hc. right; assumption. }
      exists adj'. split; [exact E'|].
      rewrite <- app_assoc in H'. exact H'.
    + cbn [bind]. apply IH; [assumption|].
      intros p Hp. apply Hc. right; assumption.
Qed.

End Candidates.

(** ** Which pairs are compared *)

Section Compared.

Variables (crd : coord) (c : cell_list).

Let v := coord_all crd.
Let n := coord_n crd.

Hypothesis Hgrid : grid_ok crd c.

Lemma atoms_in_In a k :
  In a (atoms_in crd c n k) <-> (a < n)%nat /\ cell_of crd c a = k.
Proof.
  unfold atoms_in. rewrite filter_In, in_seq, Nat.eqb_eq. lia.
Qed.

Lemma atoms_in_NoDup k : NoDup (atoms_in crd c n k).
Proof. unfold atoms_in. apply NoDup_filter, seq_NoDup. Qed.

Lemma cell_atoms a :
  (a < n)%nat ->
  c_atom (nth (cell_of crd c a) (cl_cell c) blank_cell)
  = atoms_in crd c n (cell_of crd c a).
Proof.
  intros Ha. destruct Hgrid as (Hg & _ & Hat & _).
  apply Hat. apply (cell_of_lt crd c Hg). exact Ha.
Qed.

Lemma cell_nb a :
  (a < n)%nat ->
  c_nb (nth (cell_of crd c a) (cl_cell c) blank_cell)
  = fwd_nb c (cell_x crd c a) (cell_y crd c a) (cell_z crd c a).
Proof.
  intros Ha. destruct Hgrid as (Hg & _ & _ & Hnb).
  apply Hnb. apply (cell_in_grid crd c Hg). exact Ha.
Qed.

Lemma cell_cands_In a b ci cj :
  In (a, b) (cell_cands (cl_cell c) ci cj) <->
  exists i j,
    (i < length (c_atom (nth ci (cl_cell c) blank_cell)))%nat
    /\ (j < length (c_atom (nth cj (cl_cell c) blank_cell)))%nat
    /\ (ci = cj -> (i < j)%nat)
    /\ a = nth i (c_atom (nth ci (cl_cell c) blank_cell)) O
    /\ b = nth j (c_atom (nth cj (cl_cell c) blank_cell)) O.
Proof.
  unfold cell_cands. cbv zeta. rewrite in_flat_map. split.
  - intros (i & Hi & H). apply in_map_iff in H.
    destruct H as (j & E & Hj). inversion E; subst.
    apply in_seq in Hi. apply in_seq in Hj.
    exists i, j. repeat split; try lia.
    intros ->. rewrite Nat.eqb_refl in Hj. lia.
  - intros (i & j & Hi & Hj & Ho & -> & ->).
    exists i. split; [apply in_seq; lia|].
    apply in_map_iff. exists j. split; [reflexivity|].
    apply in_seq.
    destruct (Nat.eqb_spec ci cj) as [E|_]; [specialize (Ho E)|]; lia.
Qed.

Lemma all_cands_In a b :
  In (a, b) (all_cands c) <->
  exists ic cj,
    (ic < Z.to_nat (cl_n c))%nat
    /\ In cj (c_nb (nth ic (cl_cell c) blank_cell))
    /\ In (a, b) (cell_cands (cl_cell c) ic cj).
Proof.
  unfold all_cands. rewrite in_flat_map. split.
  - intros (ic & Hic & H). rewrite in_flat_map in H.
    destruct H as (cj & Hcj & H). apply in_seq in Hic.
    exists ic, cj. repeat split; auto; lia.
  - intros (ic & cj & Hic & Hcj & H).
    exists ic. split; [apply in_seq; lia|].
    rewrite in_flat_map. exists cj. split; assumption.
Qed.

(** Every compared pair consists of two different atoms. *)
Lemma all_cands_valid p :
  In p (all_cands c) ->
  (fst p < n)%nat /\ (snd p < n)%nat /\ fst p <> snd p.
Proof.
  destruct p as [a b]. intros H. cbn [fst snd].
  apply all_cands_In in H. destruct H as (ic & cj & Hic & Hcj & H).
  apply cell_cands_In in H.
  destruct H as (i & j & Hi & Hj & Ho & Ea & Eb).
  destruct Hgrid as (Hg & L & Hat & Hnb). fold n in Hat.
  assert (Ha : In a (atoms_in crd c n ic)).
  { rewrite <- (Hat ic Hic), Ea. apply nth_In. exact Hi. }
  apply atoms_in_In in Ha. destruct Ha as [Ha Hca].
  rewrite <- Hca in Hcj. rewrite (cell_nb a Ha) in Hcj.
  apply (fwd_nb_In c _ _ _ _ (cell_in_grid crd c Hg a Ha)) in Hcj.
  destruct Hcj as (jx & jy & jz & Hin & _ & _ & _ & _ & Ecj).
  pose proof (idx3_range crd c Hg jx jy jz Hin) as Hr.
  assert (Hcjlt : (cj < Z.to_nat (cl_n c))%nat) by lia.
  assert (Hb : In b (atoms_in crd c n cj)).
  { rewrite <- (Hat cj Hcjlt), Eb. apply nth_In. exact Hj. }
  apply atoms_in_In in Hb. destruct Hb as [Hb Hcb].
  split; [exact Ha|]. split; [exact Hb|].
  intros Hab.
  assert (Hsame : ic = cj) by congruence.
  specialize (Ho Hsame). rewrite <- Hsame in Eb, Hj.
  rewrite (Hat ic Hic) in Ea, Eb, Hi, Hj.
  assert (Enth : nth i (atoms_in crd c n ic) O
                 = nth j (atoms_in crd c n ic) O) by congruence.
  apply (proj1 (NoDup_nth (atoms_in crd c n ic) O) (atoms_in_NoDup ic))
    in Enth; lia.
Qed.

(** Atoms of two different cells, the second cell a forward neighbour of
    the first. *)
Lemma cands_cross a b :
  (a < n)%nat -> (b < n)%nat -> cell_of crd c a <> cell_of crd c b ->
  (cell_x crd c a - 1 <= cell_x crd c b <= cell_x crd c a + 1)%Z ->
  (cell_y crd c a - 1 <= cell_y crd c b <= cell_y crd c a + 1)%Z ->
  (cell_z crd c a - 1 <= cell_z crd c b <= cell_z crd c a + 1)%Z ->
  (0 <= cell_x crd c b - cell_x crd c a + cell_y crd c b - cell_y crd c a
        + cell_z crd c b - cell_z crd c a)%Z ->
  In (a, b) (all_cands c).
Proof.
  intros Ha Hb Hne Nx Ny Nz Hs.
  destruct Hgrid as (Hg & L & Hat & Hnb). fold n in Hat.
  apply all_cands_In. exists (cell_of crd c a), (cell_of crd c b).
  split; [apply (cell_of_lt crd c Hg); exact Ha|]. split.
  - rewrite (cell_nb a Ha).
    apply (fwd_nb_In c _ _ _ _ (cell_in_grid crd c Hg a Ha)).
    exists (cell_x crd c b), (cell_y crd c b), (cell_z crd c b).
    split; [apply (cell_in_grid crd c Hg b Hb)|].
    repeat split; try lia.
  - apply cell_cands_In.
    assert (Ia : In a (atoms_in crd c n (cell_of crd c a)))
      by (apply atoms_in_In; auto).
    assert (Ib : In b (atoms_in crd c n (cell_of crd c b)))
      by (apply atoms_in_In; auto).
    rewrite <- (cell_atoms a Ha) in Ia. rewrite <- (cell_atoms b Hb) in Ib.
    destruct (In_nth _ _ O Ia) as (i & Hi & Ei).
    destruct (In_nth _ _ O Ib) as (j & Hj & Ej).
    exists i, j. repeat split; auto. intros E. contradiction.
Qed.

(** Two atoms of one cell are compared, in one order or the other. *)
Lemma cands_same a b :
  (a < n)%nat -> (b < n)%nat -> a <> b ->
  cell_of crd c a = cell_of crd c b ->
  In (a, b) (all_cands c) \/ In (b, a) (all_cands c).
Proof.
  intros Ha Hb Hne Hc.
  destruct Hgrid as (Hg & L & Hat & Hnb). fold n in Hat.
  assert (Ia : In a (atoms_in crd c n (cell_of crd c a)))
    by (apply atoms_in_In; auto).
  assert (Ib : In b (atoms_in crd c n (cell_of crd c a)))
    by (apply atoms_in_In; auto).
  rewrite <- (cell_atoms a Ha) in Ia, Ib.
  destruct (In_nth _ _ O Ia) as (i & Hi & Ei).
  destruct (In_nth _ _ O Ib) as (j & Hj & Ej).
  assert (Hself : In (cell_of crd c a)
                    (c_nb (nth (cell_of crd c a) (cl_cell c) blank_cell))).
  { rewrite (cell_nb a Ha).
    apply (fwd_nb_self c _ _ _ (cell_in_grid crd c Hg a Ha)). }
  assert (Hij : i <> j) by (intros ->; congruence).
  destruct (Nat.lt_ge_cases i j) as [Hlt|Hge]; [left|right];
    apply all_cands_In;
    exists (cell_of crd c a), (cell_of crd c a);
    (split; [apply (cell_of_lt crd c Hg); exact Ha|]);
    (split; [exact Hself|]);
    apply cell_cands_In.
  - exists i, j. repeat split; auto.
  - exists j, i. repeat split; auto. intros _. lia.
Qed.

End Compared.

(** ** Atoms in contact sit in neighbouring cells *)

Lemma trunc_near t t' :
  0 <= t -> 0 <= t' -> Rabs (t' - t) < 1 ->
  (Rtrunc t - 1 <= Rtrunc t' <= Rtrunc t + 1)%Z.
Proof.
  intros Ht Ht' Habs.
  destruct (Rtrunc_nonneg t Ht) as [A1 A2].
  destruct (Rtrunc_nonneg t' Ht') as [B1 B2].
  assert (Hd : -1 < t' - t < 1).
  { revert Habs. unfold Rabs. destruct (Rcase_abs _); lra. }
  split.
  - assert (Rtrunc t - 2 < Rtrunc t')%Z; [|lia].
    apply lt_IZR. rewrite minus_IZR. lra.
  - assert (Rtrunc t' < Rtrunc t + 2)%Z; [|lia].
    apply lt_IZR. rewrite plus_IZR. lra.
Qed.

Lemma max_array_S a m :
  max_array a (S m) = Rmax (nth m a 0) (max_array a m).
Proof. unfold max_array. rewrite seq_S, fold_left_app. reflexivity. Qed.

Lemma max_array_spec a m :
  0 <= max_array a m
  /\ (forall i, (i < m)%nat -> nth i a 0 <= max_array a m)
  /\ (max_array a m = 0 \/ exists i, (i < m)%nat /\ max_array a m = nth i a 0).
Proof.
  induction m as [|m (H0 & Hub & Hat)].
  - unfold max_array; simpl. split; [lra|]. split; [intros; lia|]. auto.
  - rewrite max_array_S. split; [|split].
    + eapply Rle_trans; [exact H0|apply Rmax_r].
    + intros i Hi. destruct (Nat.eq_dec i m) as [->|Hne]; [apply Rmax_l|].
      eapply Rle_trans; [apply Hub; lia|apply Rmax_r].
    + apply Rmax_case.
      * right. exists m. split; [lia|reflexivity].
      * destruct Hat as [Hat|(i & Hi & Hat)]; [left; assumption|].
        right. exists i. split; [lia|assumption].
Qed.

Section Near.

Variables (crd : coord) (radii : list R) (c : cell_list).

Let v := coord_all crd.
Let n := coord_n crd.

Hypothesis Hg : geom_ok v n c.
Hypothesis Hrad : forall i, (i < n)%nat -> 0 < rad radii i <= cl_d c / 2.

Lemma axis_near (p q lo : R) :
  lo + cl_d c / 2 <= p -> lo + cl_d c / 2 <= q ->
  (q - p) * (q - p) < cl_d c * cl_d c ->
  (Rtrunc ((p - lo) / cl_d c) - 1 <= Rtrunc ((q - lo) / cl_d c)
   <= Rtrunc ((p - lo) / cl_d c) + 1)%Z.
Proof.
  intros Hp Hq Hpq. destruct Hg as (Hd & _).
  assert (Hinv : 0 < / cl_d c) by (apply Rinv_0_lt_compat; assumption).
  apply trunc_near.
  - apply Rdiv_le_r; [assumption|]. lra.
  - apply Rdiv_le_r; [assumption|]. lra.
  - replace ((q - lo) / cl_d c - (p - lo) / cl_d c)
      with ((q - p) / cl_d c) by (unfold Rdiv; ring).
    assert (Hlt : - cl_d c < q - p < cl_d c) by nra.
    unfold Rabs. destruct (Rcase_abs _) as [Hneg|Hpos].
    + apply Rmult_lt_reg_r with (cl_d c); [assumption|].
      unfold Rdiv. rewrite Ropp_mult_distr_l, Rmult_assoc, Rinv_l by lra.
      lra.
    + apply Rdiv_lt_l; [assumption|]. lra.
Qed.

Lemma contact_cells_near a b :
  (a < n)%nat -> (b < n)%nat -> in_contact v radii a b ->
  (cell_x crd c a - 1 <= cell_x crd c b <= cell_x crd c a + 1)%Z
  /\ (cell_y crd c a - 1 <= cell_y crd c b <= cell_y crd c a + 1)%Z
  /\ (cell_z crd c a - 1 <= cell_z crd c b <= cell_z crd c a + 1)%Z.
Proof.
  intros Ha Hb Hc.
  pose proof (Hrad a Ha) as Ra. pose proof (Hrad b Hb) as Rb.
  apply in_contact_iff in Hc; [|lra].
  destruct Hg as (Hd & Hbox & _).
  destruct (Hbox a Ha) as (Ax & Ay & Az).
  destruct (Hbox b Hb) as (Bx & By & Bz).
  fold v in Ax, Ay, Az, Bx, By, Bz.
  assert (Hcut : (rad radii a + rad radii b) * (rad radii a + rad radii b)
                 <= cl_d c * cl_d c) by nra.
  unfold dist2 in Hc.
  pose proof (Rle_0_sqr (px v b - px v a)) as Hx.
  pose proof (Rle_0_sqr (py v b - py v a)) as Hy.
  pose proof (Rle_0_sqr (pz v b - pz v a)) as Hz.
  unfold Rsqr in Hx, Hy, Hz.
  unfold cell_x, cell_y, cell_z. fold v.
  split; [|split]; apply axis_near; lra.
Qed.

End Near.

(** ** freesasa_nb_new *)

Section New.

Variables (crd : coord) (radii : list R).

Let v := coord_all crd.
Let n := coord_n crd.

Hypothesis Hn : (1 <= n)%nat.
Hypothesis Hlen : length radii = n.
Hypothesis Hpos : Forall (fun r => 0 < r) radii.

Lemma rad_pos i : (i < n)%nat -> 0 < rad radii i.
Proof.
  intros Hi. unfold rad. rewrite Forall_forall in Hpos.
  apply Hpos, nth_In. lia.
Qed.

(** The pairs recorded by [nb_fill_list] on the grid [c]. *)
Definition recorded (c : cell_list) : list (nat * nat) :=
  filter (fun p => contact_b v radii (fst p) (snd p)) (all_cands c).

Lemma nb_new_ok :
  exists adj c,
    freesasa_nb_new (Some crd) (Some radii) = Ok (Some adj)
    /\ grid_ok crd c /\ cl_d c = 2 * max_array radii n /\ box_ok crd c
    /\ adj_of v n (recorded c) adj.
Proof.
  unfold freesasa_nb_new. fold n.
  destruct (alloc_adj_of v n) as (adj0 & E0 & H0); [lia|].
  rewrite E0. cbn [bind].
  destruct (max_array_spec radii n) as (M0 & Mub & _).
  assert (HM : 0 < max_array radii n).
  { pose proof (rad_pos O ltac:(lia)) as H. specialize (Mub O ltac:(lia)).
    unfold rad in H. lra. }
  rewrite (proj2 (Rgtb_true (2 * max_array radii n) 0)) by lra.
  cbn [assert bind].
  destruct (cell_list_new_ok (2 * max_array radii n) crd)
    as (c & Ec & Hgrid & Ed & Hbox); [lra|exact Hn|].
  rewrite Ec. cbn [bind].
  rewrite nb_fill_list_eq.
  destruct (run_candidates crd radii n (all_cands c) [] adj0 H0)
    as (adj & Ea & Ha).
  { apply (all_cands_valid crd c Hgrid). }
  fold v in Ea. rewrite Ea. cbn [bind].
  exists adj, c. split; [reflexivity|]. split; [exact Hgrid|].
  split; [exact Ed|]. split; [exact Hbox | exact Ha].
Qed.

Lemma recorded_In c a b :
  In (a, b) (recorded c)
  <-> In (a, b) (all_cands c) /\ contact_b v radii a b = true.
Proof. unfold recorded. rewrite filter_In. reflexivity. Qed.

Lemma recorded_contact c a b :
  grid_ok crd c -> In (a, b) (recorded c) ->
  (a < n)%nat /\ (b < n)%nat /\ a <> b /\ in_contact v radii a b.
Proof.
  intros Hgrid H. apply recorded_In in H. destruct H as [Hc Hb].
  destruct (all_cands_valid crd c Hgrid (a, b) Hc) as (Ha & Hb' & Hne).
  cbn [fst snd] in *. repeat split; auto.
  apply in_contact_iff.
  - pose proof (rad_pos a Ha). pose proof (rad_pos b Hb'). lra.
  - apply contact_b_spec. exact Hb.
Qed.

(** Every pair in contact is recorded, in one order or the other. *)
Lemma contact_recorded c a b :
  grid_ok crd c -> cl_d c = 2 * max_array radii n ->
  (a < n)%nat -> (b < n)%nat -> a <> b -> in_contact v radii a b ->
  In (a, b) (recorded c) \/ In (b, a) (recorded c).
Proof.
  intros Hgrid Ed Ha Hb Hne Hc.
  assert (Hrad : forall i, (i < n)%nat -> 0 < rad radii i <= cl_d c / 2).
  { intros i Hi. split; [apply rad_pos; assumption|].
    destruct (max_array_spec radii n) as (_ & Mub & _).
    specialize (Mub i Hi). unfold rad. rewrite Ed. lra. }
  pose proof Hgrid as (Hg & _).
  destruct (contact_cells_near crd radii c Hg Hrad a b Ha Hb Hc)
    as (Nx & Ny & Nz).
  assert (Hcb : contact_b v radii a b = true).
  { apply contact_b_spec. apply in_contact_iff; [|exact Hc].
    pose proof (rad_pos a Ha). pose proof (rad_pos b Hb). lra. }
  assert (Hcb' : contact_b v radii b a = true)
    by (rewrite contact_b_sym; exact Hcb).
  destruct (Nat.eq_dec (cell_of crd c a) (cell_of crd c b)) as [Hsame|Hdiff].
  - destruct (cands_same crd c Hgrid a b Ha Hb Hne Hsame) as [H|H];
      [left|right]; apply recorded_In; auto.
  - destruct (Z_le_gt_dec 0
                (cell_x crd c b - cell_x crd c a + cell_y crd c b
                 - cell_y crd c a + cell_z crd c b - cell_z crd c a))
      as [Hs|Hs].
    + left. apply recorded_In. split; [|exact Hcb].
      apply (cands_cross crd c Hgrid a b); auto.
    + right. apply recorded_In. split; [|exact Hcb'].
      apply (cands_cross crd c Hgrid b a); auto; lia.
Qed.

(** Contact correctness of the cell-list search. *)
Lemma nb_new_contact c adj i j :
  grid_ok crd c -> cl_d c = 2 * max_array radii n ->
  adj_of v n (recorded c) adj ->
  (i < n)%nat -> (j < n)%nat -> i <> j ->
  In j (nth i (nb adj) []) <-> in_contact v radii i j.
Proof.
  intros Hgrid Ed Hadj Hi Hj Hne.
  destruct Hadj as (_ & _ & _ & _ & _ & _ & _ & H).
  destruct (H i Hi) as (E & _). rewrite E, neighbours_of_In. split.
  - intros [Hr|Hr].
    + apply (recorded_contact c i j Hgrid Hr).
    + apply in_contact_sym. apply (recorded_contact c j i Hgrid Hr).
  - intros Hc.
    destruct (contact_recorded c i j Hgrid Ed Hi Hj Hne Hc); auto.
Qed.

End New.

(** ** The claims on the neighbour list *)

Lemma existsb_nth_In (l : list nat) j :
  existsb (fun k => Nat.eqb (nth k l O) j) (seq 0 (length l)) = true
  <-> In j l.
Proof.
  rewrite existsb_exists. split.
  - intros (k & Hk & E). apply in_seq in Hk. apply Nat.eqb_eq in E.
    subst j. apply nth_In. lia.
  - intros H. destruct (In_nth _ _ O H) as (k & Hk & E).
    exists k. split; [apply in_seq; lia|]. apply Nat.eqb_eq. exact E.
Qed.

Lemma nth_map_lt {A} (f : nat -> A) (l : list nat) (d : A) k :
  (k < length l)%nat -> nth k (map f l) d = f (nth k l O).
Proof.
  intros H. rewrite (nth_indep _ d (f O)) by (rewrite length_map; exact H).
  apply map_nth.
Qed.

(** For [N >= 1] atoms with strictly positive contact radii, the list
    built by [freesasa_nb_new] and the list built by [sasa_get_contacts]
    hold [j] in [nb[i]], for [i <> j], exactly when the distance between
    the centres of [i] and [j] is strictly less than [R_i + R_j]. *)
Lemma contact_correctness (crd : coord) (radii : list R) :
  let n := coord_n crd in
  let v := coord_all crd in
  (1 <= n)%nat -> length radii = n -> Forall (fun r => 0 < r) radii ->
  (exists adj,
     freesasa_nb_new (Some crd) (Some radii) = Ok (Some adj)
     /\ forall i j, (i < n)%nat -> (j < n)%nat -> i <> j ->
          (In j (nth i (nb adj) []) <-> in_contact v radii i j)
          /\ (freesasa_nb_contact adj i j = Ok 1%Z
              <-> in_contact v radii i j))
  /\ (forall i j, (i < n)%nat -> (j < n)%nat -> i <> j ->
        In j (nth i (fst (LR.sasa_get_contacts crd radii)) [])
        <-> in_contact v radii i j).
Proof.
  intros n v Hn Hlen Hpos. subst n v. split.
  - destruct (nb_new_ok crd radii Hn Hlen Hpos)
      as (adj & c & E & Hgrid & Ed & _ & Hadj).
    exists adj. split; [exact E|]. intros i j Hi Hj Hne.
    pose proof (nb_new_contact crd radii Hn Hlen Hpos c adj i j Hgrid Ed
                  Hadj Hi Hj Hne) as Hin.
    split; [exact Hin|]. rewrite <- Hin.
    destruct Hadj as (En & _ & _ & _ & _ & _ & _ & H).
    destruct (H i Hi) as (Enb & Enn & _).
    unfold freesasa_nb_contact. rewrite En.
    rewrite (proj2 (Nat.ltb_lt i (coord_n crd)) Hi).
    rewrite (proj2 (Nat.ltb_lt j (coord_n crd)) Hj).
    cbn [assert bind].
    rewrite Enn, <- Enb.
    pose proof (existsb_nth_In (nth i (nb adj) []) j) as Hex.
    destruct (existsb _ _).
    + split; [intros _; apply Hex; reflexivity | reflexivity].
    + split; [discriminate|]. intros Hj'. apply Hex in Hj'. discriminate.
  - intros i j Hi Hj Hne.
    apply LRContacts.get_contacts_correct; assumption.
Qed.

(** One call of [nb_add_pair] appends to the lists of both atoms. *)
Lemma add_pair_appends adj i j dx dy :
  i <> j ->
  (i < length (nb adj))%nat -> (j < length (nb adj))%nat ->
  length (nb_xd adj) = length (nb adj) ->
  length (nb_yd adj) = length (nb adj) ->
  length (nb_xyd adj) = length (nb adj) ->
  exists adj',
    nb_add_pair adj i j dx dy = Ok adj'
    /\ nth i (nb adj') [] = nth i (nb adj) [] ++ [j]
    /\ nth j (nb adj') [] = nth j (nb adj) [] ++ [i]
    /\ nth i (nb_xd adj') [] = nth i (nb_xd adj) [] ++ [dx]
    /\ nth j (nb_xd adj') [] = nth j (nb_xd adj) [] ++ [- dx]
    /\ nth i (nb_yd adj') [] = nth i (nb_yd adj) [] ++ [dy]
    /\ nth j (nb_yd adj') [] = nth j (nb_yd adj) [] ++ [- dy]
    /\ nth i (nb_xyd adj') [] = nth i (nb_xyd adj) []
                                 ++ [sqrt (dx * dx + dy * dy)]
    /\ nth j (nb_xyd adj') [] = nth j (nb_xyd adj) []
                                 ++ [sqrt (dx * dx + dy * dy)].
Proof.
  intros Hne Hi Hj L1 L2 L3. unfold nb_add_pair.
  rewrite (proj2 (Nat.eqb_neq i j) Hne). cbn [negb assert bind].
  eexists. split; [reflexivity|].
  cbn [n nn nb nb_xyd nb_xd nb_yd capacity].
  rewrite !nth_append_pair by (rewrite ?L1, ?L2, ?L3; auto).
  rewrite !Nat.eqb_refl.
  rewrite (proj2 (Nat.eqb_neq i j) Hne).
  assert (Hne' : j <> i) by congruence.
  rewrite (proj2 (Nat.eqb_neq j i) Hne').
  rewrite ?app_nil_r. repeat split; reflexivity.
Qed.

(** What an adjacency described by [adj_of] holds at a position. *)
Lemma adj_of_entry v N E adj i k :
  adj_of v N E adj -> (i < N)%nat -> (k < nth i (nn adj) O)%nat ->
  let j := nth k (nth i (nb adj) []) O in
  In j (nth i (nb adj) [])
  /\ nth k (nth i (nb_xd adj) []) 0 = xd_of v i j
  /\ nth k (nth i (nb_yd adj) []) 0 = yd_of v i j
  /\ nth k (nth i (nb_xyd adj) []) 0 = xyd_of v i j.
Proof.
  intros (_ & _ & _ & _ & _ & _ & _ & H) Hi Hk j.
  destruct (H i Hi) as (A1 & A2 & A3 & A4 & A5 & _).
  subst j. rewrite A2 in Hk. rewrite A1, A3, A4, A5.
  rewrite !nth_map_lt by exact Hk.
  split; [apply nth_In; exact Hk|]. repeat split; reflexivity.
Qed.

Lemma adj_of_lengths v N E adj i :
  adj_of v N E adj -> (i < N)%nat ->
  length (nth i (nb adj) []) = nth i (nn adj) O
  /\ length (nth i (nb_xd adj) []) = nth i (nn adj) O
  /\ length (nth i (nb_yd adj) []) = nth i (nn adj) O
  /\ length (nth i (nb_xyd adj) []) = nth i (nn adj) O.
Proof.
  intros (_ & _ & _ & _ & _ & _ & _ & H) Hi.
  destruct (H i Hi) as (A1 & A2 & A3 & A4 & A5 & _).
  rewrite A1, A2, A3, A4, A5, !length_map. repeat split; reflexivity.
Qed.

Lemma adj_of_sym v N E adj i j :
  adj_of v N E adj -> (i < N)%nat -> (j < N)%nat ->
  In j (nth i (nb adj) []) <-> In i (nth j (nb adj) []).
Proof.
  intros (_ & _ & _ & _ & _ & _ & _ & H) Hi Hj.
  destruct (H i Hi) as (A1 & _). destruct (H j Hj) as (B1 & _).
  rewrite A1, B1, !neighbours_of_In. tauto.
Qed.

(** One call of [nb_add_pair] appends [j] to the list of [i] and [i]
    to the list of [j], with [dx], [dy] on the side of [i], [-dx], [-dy] on
    the side of [j] and the same [sqrt (dx^2 + dy^2)] on both sides.  In
    the list built by [freesasa_nb_new]: [j] is in [nb[i]] exactly when
    [i] is in [nb[j]], no atom is its own neighbour, the parallel arrays
    have [nn[i]] entries, every entry has a reciprocal one, and at
    reciprocal positions [k], [k'] the entries of [nb_xd] and of [nb_yd]
    are opposite while those of [nb_xyd] are equal, to
    [sqrt (nb_xd[i][k]^2 + nb_yd[i][k]^2)]. *)
Lemma adjacency_symmetry (crd : coord) (radii : list R) :
  let n := coord_n crd in
  (1 <= n)%nat -> length radii = n -> Forall (fun r => 0 < r) radii ->
  (forall adj i j dx dy,
     i <> j ->
     (i < length (nb adj))%nat -> (j < length (nb adj))%nat ->
     length (nb_xd adj) = length (nb adj) ->
     length (nb_yd adj) = length (nb adj) ->
     length (nb_xyd adj) = length (nb adj) ->
     exists adj',
       nb_add_pair adj i j dx dy = Ok adj'
       /\ nth i (nb adj') [] = nth i (nb adj) [] ++ [j]
       /\ nth j (nb adj') [] = nth j (nb adj) [] ++ [i]
       /\ nth i (nb_xd adj') [] = nth i (nb_xd adj) [] ++ [dx]
       /\ nth j (nb_xd adj') [] = nth j (nb_xd adj) [] ++ [- dx]
       /\ nth i (nb_yd adj') [] = nth i (nb_yd adj) [] ++ [dy]
       /\ nth j (nb_yd adj') [] = nth j (nb_yd adj) [] ++ [- dy]
       /\ nth i (nb_xyd adj') [] = nth i (nb_xyd adj) []
                                    ++ [sqrt (dx * dx + dy * dy)]
       /\ nth j (nb_xyd adj') [] = nth j (nb_xyd adj) []
                                    ++ [sqrt (dx * dx + dy * dy)])
  /\ exists adj,
       freesasa_nb_new (Some crd) (Some radii) = Ok (Some adj)
       /\ forall i, (i < n)%nat ->
            ~ In i (nth i (nb adj) [])
            /\ length (nth i (nb adj) []) = nth i (nn adj) O
            /\ length (nth i (nb_xd adj) []) = nth i (nn adj) O
            /\ length (nth i (nb_yd adj) []) = nth i (nn adj) O
            /\ length (nth i (nb_xyd adj) []) = nth i (nn adj) O
            /\ forall j, (j < n)%nat ->
                 (In j (nth i (nb adj) []) <-> In i (nth j (nb adj) []))
                 /\ forall k, (k < nth i (nn adj) O)%nat ->
                      nth k (nth i (nb adj) []) O = j ->
                      let xd := nth k (nth i (nb_xd adj) []) 0 in
                      let yd := nth k (nth i (nb_yd adj) []) 0 in
                      let xyd := nth k (nth i (nb_xyd adj) []) 0 in
                      xyd = sqrt (xd * xd + yd * yd)
                      /\ (exists k', (k' < nth j (nn adj) O)%nat
                                     /\ nth k' (nth j (nb adj) []) O = i)
                      /\ forall k', (k' < nth j (nn adj) O)%nat ->
                           nth k' (nth j (nb adj) []) O = i ->
                           xd = - nth k' (nth j (nb_xd adj) []) 0
                           /\ yd = - nth k' (nth j (nb_yd adj) []) 0
                           /\ xyd = nth k' (nth j (nb_xyd adj) []) 0.
Proof.
  intros n Hn Hlen Hpos. subst n. split.
  - intros adj i j dx dy. apply add_pair_appends.
  - destruct (nb_new_ok crd radii Hn Hlen Hpos)
      as (adj & c & E & Hgrid & _ & _ & Hadj).
    exists adj. split; [exact E|]. intros i Hi.
    split.
    { intros Hin. destruct Hadj as (_ & _ & _ & _ & _ & _ & _ & H).
      destruct (H i Hi) as (A1 & _). rewrite A1 in Hin.
      apply neighbours_of_In in Hin.
      assert (Hii : In (i, i) (recorded crd radii c)) by tauto.
      destruct (recorded_contact crd radii Hn Hlen Hpos c i i Hgrid Hii)
        as (_ & _ & Hne & _).
      apply Hne. reflexivity. }
    destruct (adj_of_lengths _ _ _ _ i Hadj Hi) as (L1 & L2 & L3 & L4).
    do 4 (split; [assumption|]).
    intros j Hj. split; [apply (adj_of_sym _ _ _ _ i j Hadj Hi Hj)|].
    intros k Hk Ek.
    destruct (adj_of_entry _ _ _ _ i k Hadj Hi Hk) as (Hin & X & Y & XY).
    rewrite Ek in Hin, X, Y, XY. cbv zeta. rewrite X, Y, XY.
    split; [reflexivity|]. split.
    + apply (adj_of_sym _ _ _ _ i j Hadj Hi Hj) in Hin.
      destruct (In_nth _ _ O Hin) as (k' & Hk' & Ek').
      destruct (adj_of_lengths _ _ _ _ j Hadj Hj) as (M1 & _).
      exists k'. split; [rewrite <- M1; exact Hk' | exact Ek'].
    + intros k' Hk' Ek'.
      destruct (adj_of_entry _ _ _ _ j k' Hadj Hj Hk') as (_ & X' & Y' & XY').
      rewrite Ek' in X', Y', XY'. rewrite X', Y', XY'.
      split; [unfold xd_of; lra|].
      split; [unfold yd_of; lra | apply xyd_of_sym].
Qed.

(** ** A pair of cells that see each other in both directions *)

Lemma Rtrunc_eq x k : (0 <= k)%Z -> IZR k <= x < IZR k + 1 -> Rtrunc x = k.
Proof.
  intros Hk [H1 H2].
  assert (Hx : 0 <= x) by (apply IZR_le in Hk; lra).
  destruct (Rtrunc_nonneg x Hx) as [A1 A2].
  assert (B1 : (Rtrunc x < k + 1)%Z)
    by (apply lt_IZR; rewrite plus_IZR; lra).
  assert (B2 : (k < Rtrunc x + 1)%Z)
    by (apply lt_IZR; rewrite plus_IZR; lra).
  lia.
Qed.

Lemma neighbours_of_count_pos m j E :
  In (m, j) E \/ In (j, m) E ->
  (1 <= count_occ Nat.eq_dec (neighbours_of m E) j)%nat.
Proof.
  intros H. apply neighbours_of_In in H.
  apply (count_occ_In Nat.eq_dec) in H. lia.
Qed.

(** A pair recorded in both orders stands twice in the list of each of
    its atoms. *)
Lemma neighbours_of_count_twice m j E :
  m <> j -> In (m, j) E -> In (j, m) E ->
  (2 <= count_occ Nat.eq_dec (neighbours_of m E) j)%nat.
Proof.
  intros Hne H1 H2.
  destruct (in_split _ _ H1) as (E1 & E2 & ->).
  change (E1 ++ (m, j) :: E2) with (E1 ++ [(m, j)] ++ E2) in *.
  rewrite !neighbours_of_app, !count_occ_app.
  assert (Hmid : (1 <= count_occ Nat.eq_dec (neighbours_of m [(m, j)]) j)%nat)
    by (apply neighbours_of_count_pos; left; left; reflexivity).
  apply in_app_or in H2. destruct H2 as [H2|H2].
  - pose proof (neighbours_of_count_pos m j E1 (or_intror H2)). lia.
  - apply in_app_or in H2. destruct H2 as [H2|H2].
    + destruct H2 as [H2|[]]. congruence.
    + pose proof (neighbours_of_count_pos m j E2 (or_intror H2)). lia.
Qed.

(** Two atoms of radius 1 at (0, 1, 0) and (1, 0, 0): the cells are 2 wide,
    the grid has 2 x 2 x 1 cells, atom 0 lies in the cell (0, 1, 0) and
    atom 1 in the cell (1, 0, 0). *)
Definition skew_atoms : coord := {| Coord.xyz := [0; 1; 0; 1; 0; 0] |}.

Lemma skew_atoms_n : coord_n skew_atoms = 2%nat.
Proof. reflexivity. Qed.

Lemma skew_atoms_xyz :
  let v := coord_all skew_atoms in
  (px v 0 = 0 /\ py v 0 = 1 /\ pz v 0 = 0)
  /\ (px v 1 = 1 /\ py v 1 = 0 /\ pz v 1 = 0).
Proof. repeat split; reflexivity. Qed.

Lemma skew_atoms_contact : in_contact (coord_all skew_atoms) [1; 1] 0 1.
Proof.
  apply in_contact_iff.
  - unfold rad; simpl; lra.
  - unfold dist2, px, py, pz, rad; simpl. lra.
Qed.

Lemma two_cases (P : nat -> Prop) : P 0%nat -> P 1%nat ->
  forall i, (i < 2)%nat -> P i.
Proof.
  intros H0 H1 i Hi. destruct i as [|[|i]]; [assumption|assumption|lia].
Qed.

(** The cells of the two atoms of [skew_atoms]. *)
Lemma skew_atoms_cells c :
  cl_d c = 2 * max_array [1; 1] (coord_n skew_atoms) ->
  box_ok skew_atoms c ->
  (cell_x skew_atoms c 0 = 0 /\ cell_y skew_atoms c 0 = 1
   /\ cell_z skew_atoms c 0 = 0)%Z
  /\ (cell_x skew_atoms c 1 = 1 /\ cell_y skew_atoms c 1 = 0
      /\ cell_z skew_atoms c 1 = 0)%Z.
Proof.
  intros Ed Hbox.
  assert (Em : max_array [1; 1] (coord_n skew_atoms) = 1).
  { unfold max_array. simpl. unfold Rmax.
    repeat (destruct (Rle_dec _ _)); lra. }
  rewrite Em in Ed.
  destruct Hbox as (x & X & y & Y & z & Z & Hx & _ & Hy & _ & Hz & _
                    & Ex & _ & Ey & _ & Ez & _).
  rewrite skew_atoms_n in Hx, Hy, Hz.
  destruct skew_atoms_xyz as ((X0 & Y0 & Z0) & (X1 & Y1 & Z1)).
  cbv zeta in X0, Y0, Z0, X1, Y1, Z1.
  assert (Hx0 : x = 0).
  { destruct Hx as [Hlb (i & Hi & E)].
    pose proof (Hlb 0%nat ltac:(lia)) as L0. rewrite X0 in L0.
    revert E. pattern i. apply two_cases; [| |exact Hi];
      rewrite ?X0, ?X1; lra. }
  assert (Hy0 : y = 0).
  { destruct Hy as [Hlb (i & Hi & E)].
    pose proof (Hlb 1%nat ltac:(lia)) as L0. rewrite Y1 in L0.
    revert E. pattern i. apply two_cases; [| |exact Hi];
      rewrite ?Y0, ?Y1; lra. }
  assert (Hz0 : z = 0).
  { destruct Hz as [Hlb (i & Hi & E)].
    pose proof (Hlb 0%nat ltac:(lia)) as L0. rewrite Z0 in L0.
    revert E. pattern i. apply two_cases; [| |exact Hi];
      rewrite ?Z0, ?Z1; lra. }
  unfold cell_x, cell_y, cell_z.
  rewrite Ex, Ey, Ez, Ed, Hx0, Hy0, Hz0, X0, Y0, Z0, X1, Y1, Z1.
  repeat split; apply Rtrunc_eq; try lia; simpl; lra.
Qed.

(** C2.  The forward test of [fill_nb] lets two cells whose offsets sum to
    zero see each other in both directions: for the atoms (0, 1, 0) and
    (1, 0, 0) of radius 1, which are in contact, [freesasa_nb_new] succeeds
    and atom 1 stands at least twice in [nb[0]], and [nn[0]] is at least 2
    although atom 0 has a single neighbour.  The pair is not recorded
    exactly once. *)
Theorem C2_pair_recorded_twice :
  exists adj,
    freesasa_nb_new (Some skew_atoms) (Some [1; 1]) = Ok (Some adj)
    /\ in_contact (coord_all skew_atoms) [1; 1] 0 1
    /\ (2 <= count_occ Nat.eq_dec (nth 0 (nb adj) []) 1)%nat
    /\ (2 <= nth 0 (nn adj) O)%nat.
Proof.
  assert (H1 : (1 <= coord_n skew_atoms)%nat)
    by (rewrite skew_atoms_n; lia).
  assert (H2 : length [1; 1] = coord_n skew_atoms) by reflexivity.
  assert (H3 : Forall (fun r => 0 < r) [1; 1])
    by (repeat constructor; lra).
  destruct (nb_new_ok skew_atoms [1; 1] H1 H2 H3)
    as (adj & c & E & Hgrid & Ed & Hbox & Hadj).
  exists adj. split; [exact E|]. split; [exact skew_atoms_contact|].
  destruct (skew_atoms_cells c Ed Hbox)
    as ((CX0 & CY0 & CZ0) & (CX1 & CY1 & CZ1)).
  assert (Hg : geom_ok (coord_all skew_atoms) (coord_n skew_atoms) c)
    by exact (proj1 Hgrid).
  assert (L0 : (0 < coord_n skew_atoms)%nat) by (rewrite skew_atoms_n; lia).
  assert (L1 : (1 < coord_n skew_atoms)%nat) by (rewrite skew_atoms_n; lia).
  assert (Hne : cell_of skew_atoms c 0 <> cell_of skew_atoms c 1).
  { intros Heq. unfold cell_of in Heq.
    pose proof (cell_in_grid skew_atoms c Hg 0%nat L0) as G0.
    pose proof (cell_in_grid skew_atoms c Hg 1%nat L1) as G1.
    pose proof (idx3_range skew_atoms c Hg _ _ _ G0) as R0.
    pose proof (idx3_range skew_atoms c Hg _ _ _ G1) as R1.
    apply Z2Nat.inj in Heq; [|lia|lia].
    destruct (idx3_inj skew_atoms c _ _ _ _ _ _ G0 G1 Heq) as (Hx & _).
    rewrite CX0, CX1 in Hx. discriminate. }
  assert (C01 : In (0%nat, 1%nat) (all_cands c)).
  { apply (cands_cross skew_atoms c Hgrid 0%nat 1%nat L0 L1 Hne);
      rewrite ?CX0, ?CY0, ?CZ0, ?CX1, ?CY1, ?CZ1; lia. }
  assert (C10 : In (1%nat, 0%nat) (all_cands c)).
  { apply (cands_cross skew_atoms c Hgrid 1%nat 0%nat L1 L0);
      [congruence| | | |];
      rewrite ?CX0, ?CY0, ?CZ0, ?CX1, ?CY1, ?CZ1; lia. }
  assert (B01 : contact_b (coord_all skew_atoms) [1; 1] 0 1 = true).
  { apply contact_b_spec. unfold dist2, px, py, pz, rad; simpl. lra. }
  assert (B10 : contact_b (coord_all skew_atoms) [1; 1] 1 0 = true).
  { apply contact_b_spec. unfold dist2, px, py, pz, rad; simpl. lra. }
  assert (R01 : In (0%nat, 1%nat) (recorded skew_atoms [1; 1] c))
    by (apply recorded_In; split; assumption).
  assert (R10 : In (1%nat, 0%nat) (recorded skew_atoms [1; 1] c))
    by (apply recorded_In; split; assumption).
  destruct Hadj as (_ & _ & _ & _ & _ & _ & _ & H).
  destruct (H 0%nat L0) as (A1 & A2 & _).
  assert (Hc : (2 <= count_occ Nat.eq_dec
                       (neighbours_of 0 (recorded skew_atoms [1; 1]%R c))
                       1)%nat)
    by (apply neighbours_of_count_twice; [lia|assumption|assumption]).
  split; [rewrite A1; exact Hc|].
  rewrite A2. eapply Nat.le_trans; [exact Hc|]. apply count_occ_bound.
Qed.

End NBFacts.


(** * Further properties *)

(** ** Lists without repetition, counting *)

Lemma NoDup_flat_map {A B} (f : A -> list B) l :
  NoDup l -> (forall x, In x l -> NoDup (f x)) ->
  (forall x y b, In x l -> In y l -> In b (f x) -> In b (f y) -> x = y) ->
  NoDup (flat_map f l).
Proof.
  induction l as [|x l IH]; intros Hl Hf Hd; simpl; [constructor|].
  inversion Hl as [|x' l' Hx Hl']; subst.
  apply NoDup_app.
  - apply Hf. left; reflexivity.
  - apply IH; [exact Hl'| |].
    + intros y Hy. apply Hf. right; exact Hy.
    + intros y z b Hy Hz. apply Hd; right; assumption.
  - intros b Hb Hb'. apply in_flat_map in Hb'. destruct Hb' as (y & Hy & Hby).
    assert (x = y) by (apply (Hd x y b); auto; [left; reflexivity | right; exact Hy]).
    subst y. contradiction.
Qed.

Definition pair_dec (p q : nat * nat) : {p = q} + {p <> q}.
Proof. decide equality; apply Nat.eq_dec. Defined.

(** An atom stands in the list of [m] once for every recorded pair that
    holds both. *)
Lemma neighbours_of_count m j E :
  m <> j ->
  count_occ Nat.eq_dec (neighbours_of m E) j
  = (count_occ pair_dec E (m, j) + count_occ pair_dec E (j, m))%nat.
Proof.
  intros Hne. induction E as [|[a b] E IH]; [reflexivity|].
  change ((a, b) :: E) with ([(a, b)] ++ E).
  rewrite neighbours_of_app, !count_occ_app, IH, neighbours_of_one.
  assert (H1 : count_occ pair_dec [(a, b)] (m, j)
               = if Nat.eqb a m && Nat.eqb b j then 1%nat else 0%nat).
  { destruct (pair_dec (a, b) (m, j)) as [E1|E1].
    - rewrite (count_occ_cons_eq pair_dec _ E1).
      injection E1 as -> ->. rewrite !Nat.eqb_refl. reflexivity.
    - rewrite (count_occ_cons_neq pair_dec _ E1).
      destruct (Nat.eqb_spec a m); destruct (Nat.eqb_spec b j);
        try reflexivity. subst. contradiction. }
  assert (H2 : count_occ pair_dec [(a, b)] (j, m)
               = if Nat.eqb a j && Nat.eqb b m then 1%nat else 0%nat).
  { destruct (pair_dec (a, b) (j, m)) as [E1|E1].
    - rewrite (count_occ_cons_eq pair_dec _ E1).
      injection E1 as -> ->. rewrite !Nat.eqb_refl. reflexivity.
    - rewrite (count_occ_cons_neq pair_dec _ E1).
      destruct (Nat.eqb_spec a j); destruct (Nat.eqb_spec b m);
        try reflexivity. subst. contradiction. }
  rewrite H1, H2.
  destruct (Nat.eqb_spec a m); destruct (Nat.eqb_spec b m);
    destruct (Nat.eqb_spec a j); destruct (Nat.eqb_spec b j);
    subst; simpl; try contradiction;
    repeat (destruct (Nat.eq_dec _ _)); try contradiction; try lia.
Qed.

Lemma NoDup_count_In (E : list (nat * nat)) p :
  NoDup E -> count_occ pair_dec E p = if in_dec pair_dec p E then 1%nat else 0%nat.
Proof.
  intros HE. destruct (in_dec pair_dec p E) as [Hin|Hout].
  - apply (proj1 (NoDup_count_occ' pair_dec E) HE). exact Hin.
  - apply count_occ_not_In. exact Hout.
Qed.

(** * Further properties of nb.c *)

Module NBMore.
Import NB NBFacts.

(** ** When [freesasa_nb_new] succeeds *)

(** The run of [freesasa_nb_new] when the largest of the first [n] radii is
    positive: no assertion fails, whatever the other radii are. *)
Lemma nb_new_runs (crd : coord) (radii : list R) :
  let n := coord_n crd in
  (1 <= n)%nat -> 0 < max_array radii n ->
  exists adj0 adj c,
    freesasa_nb_alloc n = Ok adj0
    /\ cell_list_new (2 * max_array radii n) (Some crd) = Ok c
    /\ foldM (pair_step crd radii) (all_cands c) adj0 = Ok adj
    /\ freesasa_nb_new (Some crd) (Some radii) = Ok (Some adj)
    /\ grid_ok crd c /\ cl_d c = 2 * max_array radii n /\ box_ok crd c
    /\ adj_of (coord_all crd) n (recorded crd radii c) adj.
Proof.
  intros n Hn HM. unfold freesasa_nb_new. fold n.
  destruct (alloc_adj_of (coord_all crd) n) as (adj0 & E0 & H0); [lia|].
  rewrite E0. cbn [bind].
  rewrite (proj2 (Rgtb_true (2 * max_array radii n) 0)) by lra.
  cbn [assert bind].
  destruct (cell_list_new_ok (2 * max_array radii n) crd)
    as (c & Ec & Hgrid & Ed & Hbox); [lra|exact Hn|].
  rewrite Ec. cbn [bind].
  rewrite nb_fill_list_eq.
  destruct (run_candidates crd radii n (all_cands c) [] adj0 H0)
    as (adj & Ea & Ha).
  { apply (all_cands_valid crd c Hgrid). }
  rewrite Ea. cbn [bind].
  exists adj0, adj, c. split; [reflexivity|]. split; [reflexivity|].
  split; [exact Ea|]. split; [reflexivity|].
  split; [exact Hgrid|]. split; [exact Ed|]. split; [exact Hbox | exact Ha].
Qed.

(** The same for radii that are all positive. *)
Lemma nb_new_valid (crd : coord) (radii : list R) :
  let n := coord_n crd in
  (1 <= n)%nat -> length radii = n -> Forall (fun r => 0 < r) radii ->
  0 < max_array radii n.
Proof.
  intros n Hn Hlen Hpos.
  destruct (max_array_spec radii n) as (_ & Mub & _).
  specialize (Mub O ltac:(lia)).
  pose proof (rad_pos crd radii Hn Hlen Hpos O ltac:(fold n; lia)) as H.
  unfold rad in H. lra.
Qed.

Lemma max_array_pos radii n :
  0 < max_array radii n <-> exists i, (i < n)%nat /\ 0 < nth i radii 0.
Proof.
  destruct (max_array_spec radii n) as (M0 & Mub & Mat). split.
  - intros H. destruct Mat as [Mz|(i & Hi & E)]; [lra|].
    exists i. split; [exact Hi|]. rewrite <- E. exact H.
  - intros (i & Hi & H). specialize (Mub i Hi). lra.
Qed.

(** For non-null arguments, [freesasa_nb_new] returns a list (never NULL),
    with an entry for each atom, when one of the radii is positive; when
    none is (in particular when there is no atom) it fails an assertion:
    [n > 0] in [freesasa_nb_alloc] or [cell_size > 0]. *)
Lemma nb_new_cases (crd : coord) (radii : list R) :
  ((exists i, (i < coord_n crd)%nat /\ 0 < nth i radii 0) ->
   exists adj,
     freesasa_nb_new (Some crd) (Some radii) = Ok (Some adj)
     /\ n adj = coord_n crd /\ length (nb adj) = coord_n crd
     /\ length (nn adj) = coord_n crd)
  /\ ((forall i, (i < coord_n crd)%nat -> nth i radii 0 <= 0) ->
      freesasa_nb_new (Some crd) (Some radii) = AssertFail).
Proof.
  split.
  - intros Hex.
    assert (Hn : (1 <= coord_n crd)%nat) by (destruct Hex as (i & Hi & _); lia).
    apply max_array_pos in Hex.
    destruct (nb_new_runs crd radii Hn Hex)
      as (adj0 & adj & c & _ & _ & _ & E & _ & _ & _ & Hadj).
    exists adj. split; [exact E|].
    destruct Hadj as (A1 & A2 & A3 & _). auto.
  - intros Hall. unfold freesasa_nb_new.
    destruct (Nat.eq_dec (coord_n crd) 0) as [Hz|Hnz].
    + rewrite Hz. reflexivity.
    + assert (HM : max_array radii (coord_n crd) = 0).
      { destruct (max_array_spec radii (coord_n crd)) as (M0 & _ & Mat).
        destruct Mat as [Mz|(i & Hi & E)]; [exact Mz|].
        specialize (Hall i Hi). lra. }
      destruct (alloc_adj_of (coord_all crd) (coord_n crd))
        as (adj0 & E0 & _); [lia|].
      rewrite E0. cbn [bind]. rewrite HM.
      rewrite (proj2 (Rgtb_false (2 * 0) 0)) by lra. reflexivity.
Qed.

(** ** What the entries of the lists are *)

Lemma xy_le_dist v i j :
  sqrt ((px v j - px v i) * (px v j - px v i)
        + (py v j - py v i) * (py v j - py v i))
  <= sqrt (dist2 v i j).
Proof.
  apply sqrt_le_1_alt. unfold dist2.
  pose proof (Rle_0_sqr (pz v j - pz v i)) as H. unfold Rsqr in H. lra.
Qed.

(** Every entry [j = nb[i][k]] of the list built by [freesasa_nb_new] is
    the index of another atom that is in contact with [i]; [nb_xd[i][k]]
    and [nb_yd[i][k]] are the coordinate differences [x_j - x_i] and
    [y_j - y_i], and [nb_xyd[i][k]] is the distance of the two centres in
    the xy-plane, which is less than [R_i + R_j]. *)
Lemma nb_entries_valid (crd : coord) (radii : list R) :
  let n := coord_n crd in
  let v := coord_all crd in
  (1 <= n)%nat -> length radii = n -> Forall (fun r => 0 < r) radii ->
  exists adj,
    freesasa_nb_new (Some crd) (Some radii) = Ok (Some adj)
    /\ forall i k, (i < n)%nat -> (k < nth i (nn adj) O)%nat ->
         let j := nth k (nth i (nb adj) []) O in
         (j < n)%nat /\ j <> i /\ in_contact v radii i j
         /\ nth k (nth i (nb_xd adj) []) 0 = px v j - px v i
         /\ nth k (nth i (nb_yd adj) []) 0 = py v j - py v i
         /\ nth k (nth i (nb_xyd adj) []) 0
            = sqrt ((px v j - px v i) * (px v j - px v i)
                    + (py v j - py v i) * (py v j - py v i))
         /\ nth k (nth i (nb_xyd adj) []) 0 < rad radii i + rad radii j.
Proof.
  intros n v Hn Hlen Hpos. subst n v.
  destruct (nb_new_runs crd radii Hn (nb_new_valid crd radii Hn Hlen Hpos))
    as (adj0 & adj & c & _ & _ & _ & E & Hgrid & _ & _ & Hadj).
  exists adj. split; [exact E|]. intros i k Hi Hk.
  destruct (adj_of_entry _ _ _ _ i k Hadj Hi Hk) as (Hin & X & Y & XY).
  cbv zeta. set (j := nth k (nth i (nb adj) []) O) in *.
  assert (Hc : (j < coord_n crd)%nat /\ j <> i
               /\ in_contact (coord_all crd) radii i j).
  { destruct Hadj as (_ & _ & _ & _ & _ & _ & _ & H).
    destruct (H i Hi) as (A1 & _). rewrite A1 in Hin.
    apply neighbours_of_In in Hin. destruct Hin as [Hr|Hr].
    - destruct (recorded_contact crd radii Hn Hlen Hpos c i j Hgrid Hr)
        as (_ & Hj & Hne & Hct). auto.
    - destruct (recorded_contact crd radii Hn Hlen Hpos c j i Hgrid Hr)
        as (Hj & _ & Hne & Hct).
      split; [exact Hj|]. split; [exact Hne|].
      apply in_contact_sym. exact Hct. }
  destruct Hc as (Hj & Hne & Hct).
  split; [exact Hj|]. split; [exact Hne|]. split; [exact Hct|].
  split; [exact X|]. split; [exact Y|]. split; [exact XY|].
  rewrite XY. unfold xyd_of, xd_of, yd_of.
  eapply Rle_lt_trans; [apply xy_le_dist|]. exact Hct.
Qed.

(** ** The allocated sizes *)

(** [capacity] is the least positive multiple of [NB_CHUNK] that holds
    [count] entries. *)
Definition cap_ok (count capacity : nat) : Prop :=
  (count <= capacity)%nat
  /\ (exists q, (1 <= q)%nat /\ capacity = (q * NB_CHUNK)%nat)
  /\ ((capacity < count + NB_CHUNK)%nat \/ capacity = NB_CHUNK).

Lemma chunk_up_ok count capacity :
  cap_ok count capacity -> cap_ok (S count) (chunk_up capacity (S count)).
Proof.
  unfold cap_ok, chunk_up, NB_CHUNK. intros (H1 & (q & Hq & E) & H3).
  destruct (Nat.ltb_spec capacity (S count)) as [Hlt|Hge].
  - split; [lia|]. split; [exists (S q); lia | lia].
  - split; [lia|]. split; [exists q; lia | lia].
Qed.

Definition caps_ok (N : nat) (adj : freesasa_nb) : Prop :=
  length (nn adj) = N /\ length (capacity adj) = N
  /\ forall m, (m < N)%nat ->
       cap_ok (nth m (nn adj) O) (nth m (capacity adj) O).

Lemma alloc_caps_ok N adj :
  freesasa_nb_alloc N = Ok adj -> caps_ok N adj.
Proof.
  unfold freesasa_nb_alloc. destruct (0 <? N)%nat; [|discriminate].
  cbn [assert bind]. intros E. injection E as <-.
  unfold caps_ok. cbn [nn capacity]. rewrite !repeat_length.
  split; [reflexivity|]. split; [reflexivity|].
  intros m Hm. rewrite !nth_repeat_lt by assumption.
  unfold cap_ok, NB_CHUNK. split; [lia|]. split; [exists 1%nat; lia | lia].
Qed.

Lemma add_pair_caps_ok N adj adj' i j dx dy :
  caps_ok N adj -> (i < N)%nat -> (j < N)%nat ->
  nb_add_pair adj i j dx dy = Ok adj' -> caps_ok N adj'.
Proof.
  intros (L1 & L2 & H) Hi Hj. unfold nb_add_pair.
  destruct (Nat.eqb_spec i j) as [|Hne]; [discriminate|].
  cbn [negb assert bind]. intros E. injection E as <-.
  unfold caps_ok. cbn [nn capacity]. rewrite !alter_nth_length.
  split; [exact L1|]. split; [exact L2|].
  intros m Hm. rewrite !nth_alter_nth, !alter_nth_length.
  rewrite L1, L2.
  rewrite (proj2 (Nat.ltb_lt i N) Hi), (proj2 (Nat.ltb_lt j N) Hj).
  rewrite !andb_true_r, !Nat.eqb_refl.
  rewrite (proj2 (Nat.eqb_neq i j) Hne).
  assert (Hne' : j <> i) by congruence.
  rewrite (proj2 (Nat.eqb_neq j i) Hne').
  destruct (Nat.eqb_spec j m) as [->|Hjm].
  - apply chunk_up_ok. apply H. exact Hm.
  - destruct (Nat.eqb_spec i m) as [->|Him].
    + apply chunk_up_ok. apply H. exact Hm.
    + apply H. exact Hm.
Qed.

(** In the list built by [freesasa_nb_new], every atom has [nn[i]] entries
    in [nb[i]], and [capacity[i]], the allocated size, is the least positive
    multiple of [NB_CHUNK] that holds them: no entry was written beyond the
    allocation. *)
Lemma nb_capacity_chunks (crd : coord) (radii : list R) :
  (exists i, (i < coord_n crd)%nat /\ 0 < nth i radii 0) ->
  exists adj,
    freesasa_nb_new (Some crd) (Some radii) = Ok (Some adj)
    /\ forall i, (i < coord_n crd)%nat ->
         length (nth i (nb adj) []) = nth i (nn adj) O
         /\ (nth i (nn adj) O <= nth i (capacity adj) O)%nat
         /\ (exists q, (1 <= q)%nat
                       /\ nth i (capacity adj) O = (q * NB_CHUNK)%nat)
         /\ ((nth i (capacity adj) O < nth i (nn adj) O + NB_CHUNK)%nat
             \/ nth i (capacity adj) O = NB_CHUNK).
Proof.
  intros Hex.
  assert (Hn : (1 <= coord_n crd)%nat) by (destruct Hex as (i & Hi & _); lia).
  apply max_array_pos in Hex.
  destruct (nb_new_runs crd radii Hn Hex)
    as (adj0 & adj & c & E0 & _ & Ef & E & Hgrid & _ & _ & Hadj).
  exists adj. split; [exact E|].
  assert (Hcaps : caps_ok (coord_n crd) adj).
  { apply (foldM_inv (caps_ok (coord_n crd)) (pair_step crd radii)
             (all_cands c) adj0 adj); [| |exact Ef].
    - intros p s s' Hp Hs. unfold pair_step.
      destruct (all_cands_valid crd c Hgrid p Hp) as (P1 & P2 & P3).
      rewrite (proj2 (Nat.eqb_neq _ _) P3). cbn [negb assert bind].
      destruct (contact_b _ _ _ _).
      + apply add_pair_caps_ok; assumption.
      + intros Es. injection Es as <-. exact Hs.
    - apply alloc_caps_ok. exact E0. }
  intros i Hi.
  destruct (adj_of_lengths _ _ _ _ i Hadj Hi) as (L & _).
  destruct Hcaps as (_ & _ & H). destruct (H i Hi) as (C1 & C2 & C3).
  split; [exact L|]. split; [exact C1|]. split; [exact C2 | exact C3].
Qed.

(** ** The contact query *)

(** On the list built by [freesasa_nb_new], [freesasa_nb_contact] is
    symmetric in its two atoms, answers 0 or 1 for valid indices, 0 for an
    atom and itself, and fails its assertion exactly when an index is out
    of range. *)
Lemma nb_contact_query (crd : coord) (radii : list R) :
  let n := coord_n crd in
  (1 <= n)%nat -> length radii = n -> Forall (fun r => 0 < r) radii ->
  exists adj,
    freesasa_nb_new (Some crd) (Some radii) = Ok (Some adj)
    /\ forall i j,
         freesasa_nb_contact adj i j = freesasa_nb_contact adj j i
         /\ ((i < n)%nat /\ (j < n)%nat ->
             freesasa_nb_contact adj i j = Ok 0%Z
             \/ freesasa_nb_contact adj i j = Ok 1%Z)
         /\ ((i < n)%nat -> freesasa_nb_contact adj i i = Ok 0%Z)
         /\ (~ ((i < n)%nat /\ (j < n)%nat) ->
             freesasa_nb_contact adj i j = AssertFail).
Proof.
  intros n Hn Hlen Hpos. subst n.
  destruct (nb_new_runs crd radii Hn (nb_new_valid crd radii Hn Hlen Hpos))
    as (adj0 & adj & c & _ & _ & _ & E & Hgrid & _ & _ & Hadj).
  exists adj. split; [exact E|].
  assert (Hq : forall i j, (i < coord_n crd)%nat -> (j < coord_n crd)%nat ->
            freesasa_nb_contact adj i j
            = Ok (if in_dec Nat.eq_dec j (nth i (nb adj) [])
                  then 1%Z else 0%Z)).
  { intros i j Hi Hj. unfold freesasa_nb_contact.
    destruct Hadj as (En & _ & _ & _ & _ & _ & _ & H).
    destruct (H i Hi) as (Enb & Enn & _). rewrite En.
    rewrite (proj2 (Nat.ltb_lt i (coord_n crd)) Hi).
    rewrite (proj2 (Nat.ltb_lt j (coord_n crd)) Hj).
    cbn [assert bind]. rewrite Enn, <- Enb.
    pose proof (existsb_nth_In (nth i (nb adj) []) j) as Hex.
    destruct (existsb _ _); destruct (in_dec _ _ _) as [Hin|Hout];
      try reflexivity.
    - exfalso. apply Hout. apply Hex. reflexivity.
    - apply Hex in Hin. discriminate. }
  assert (Hout : forall i j,
            ~ ((i < coord_n crd)%nat /\ (j < coord_n crd)%nat) ->
            freesasa_nb_contact adj i j = AssertFail).
  { intros i j Hno. unfold freesasa_nb_contact.
    destruct Hadj as (En & _). rewrite En.
    destruct (Nat.ltb_spec i (coord_n crd)) as [Hi|Hi]; [|reflexivity].
    destruct (Nat.ltb_spec j (coord_n crd)) as [Hj|Hj]; [|reflexivity].
    exfalso. apply Hno. split; assumption. }
  intros i j. split; [|split; [|split]].
  - destruct (lt_dec i (coord_n crd)) as [Hi|Hi];
      [destruct (lt_dec j (coord_n crd)) as [Hj|Hj]|].
    + rewrite (Hq i j Hi Hj), (Hq j i Hj Hi).
      pose proof (adj_of_sym _ _ _ _ i j Hadj Hi Hj) as Hs.
      destruct (in_dec _ _ _) as [H1|H1]; destruct (in_dec _ _ _) as [H2|H2];
        try reflexivity; exfalso; tauto.
    + rewrite !Hout by tauto. reflexivity.
    + rewrite !Hout by tauto. reflexivity.
  - intros [Hi Hj]. rewrite (Hq i j Hi Hj).
    destruct (in_dec _ _ _); auto.
  - intros Hi. rewrite (Hq i i Hi Hi).
    destruct (in_dec _ _ _) as [Hin|]; [|reflexivity].
    exfalso.
    destruct Hadj as (_ & _ & _ & _ & _ & _ & _ & H).
    destruct (H i Hi) as (A1 & _). rewrite A1 in Hin.
    apply neighbours_of_In in Hin.
    assert (Hii : In (i, i) (recorded crd radii c)) by tauto.
    destruct (recorded_contact crd radii Hn Hlen Hpos c i i Hgrid Hii)
      as (_ & _ & Hne & _).
    apply Hne. reflexivity.
  - apply Hout.
Qed.

(** ** The forward neighbours of a cell *)

Lemma flat_map_map {A B C} (f : B -> list C) (g : A -> B) l :
  flat_map f (map g l) = flat_map (fun x => f (g x)) l.
Proof. induction l as [|x l IH]; simpl; [reflexivity|]. rewrite IH. reflexivity. Qed.

(** The offsets [i - ix] that the loop of [fill_nb] runs over on one axis:
    [-1] is left out in the first cell, [1] in the last. *)
Definition offs (nx ix : Z) : list Z :=
  (if (ix >? 0)%Z then [(-1)%Z] else [])
  ++ [0%Z] ++ (if (ix <? nx - 1)%Z then [1%Z] else []).

Lemma zrange_offs nx ix :
  (0 <= ix)%Z ->
  zrange (x_lo ix) (x_hi nx ix) = map (fun d => (ix + d)%Z) (offs nx ix).
Proof.
  intros Hix. unfold zrange, x_lo, x_hi, offs.
  destruct (Z.gtb_spec ix 0) as [H0|H0];
    destruct (Z.ltb_spec ix (nx - 1)) as [H1|H1].
  - replace (ix + 1 - (ix - 1) + 1)%Z with 3%Z by lia.
    simpl. repeat (apply (f_equal2 (@cons Z)); [lia|]). reflexivity.
  - replace (ix - (ix - 1) + 1)%Z with 2%Z by lia.
    simpl. repeat (apply (f_equal2 (@cons Z)); [lia|]). reflexivity.
  - replace (ix + 1 - 0 + 1)%Z with 2%Z by lia.
    simpl. repeat (apply (f_equal2 (@cons Z)); [lia|]). reflexivity.
  - replace (ix - 0 + 1)%Z with 1%Z by lia.
    simpl. repeat (apply (f_equal2 (@cons Z)); [lia|]). reflexivity.
Qed.

Lemma offs_In nx ix d :
  In d (offs nx ix) <->
  (d = (-1)%Z /\ (0 < ix)%Z) \/ d = 0%Z \/ (d = 1%Z /\ (ix < nx - 1)%Z).
Proof.
  unfold offs.
  destruct (Z.gtb_spec ix 0) as [H0|H0];
    destruct (Z.ltb_spec ix (nx - 1)) as [H1|H1]; simpl; lia.
Qed.

Lemma offs_NoDup nx ix : NoDup (offs nx ix).
Proof.
  unfold offs. destruct (ix >? 0)%Z; destruct (ix <? nx - 1)%Z; simpl;
    repeat (constructor; [simpl; lia|]); constructor.
Qed.

(** The list of [fill_nb] in terms of offsets. *)
Definition fwd_gen {A} (g : Z -> Z -> Z -> A) (ox oy oz : list Z) : list A :=
  flat_map
    (fun di => flat_map
       (fun dj => flat_map
          (fun dk => if (di + dj + dk >=? 0)%Z then [g di dj dk] else [])
          oz)
       oy)
    ox.

Lemma fwd_nb_offs c ix iy iz :
  in_grid c ix iy iz ->
  fwd_nb c ix iy iz
  = fwd_gen (fun di dj dk => Z.to_nat (idx3 c (ix + di) (iy + dj) (iz + dk)))
      (offs (cl_nx c) ix) (offs (cl_ny c) iy) (offs (cl_nz c) iz).
Proof.
  intros (Hx & Hy & Hz). unfold fwd_nb, fwd_gen.
  rewrite !zrange_offs by lia. rewrite flat_map_map.
  apply flat_map_ext. intros di. rewrite flat_map_map.
  apply flat_map_ext. intros dj. rewrite flat_map_map.
  apply flat_map_ext. intros dk.
  replace (ix + di - ix + (iy + dj) - iy + (iz + dk) - iz)%Z
    with (di + dj + dk)%Z by lia.
  reflexivity.
Qed.

(** At most 17 of the 27 offsets pass the forward test: the array
    [nb[17]] of a cell is large enough. *)
Lemma fwd_gen_length {A} (g : Z -> Z -> Z -> A) nx ny nz ix iy iz :
  (length (fwd_gen g (offs nx ix) (offs ny iy) (offs nz iz)) <= 17)%nat.
Proof.
  unfold fwd_gen, offs.
  destruct (ix >? 0)%Z; destruct (ix <? nx - 1)%Z;
    destruct (iy >? 0)%Z; destruct (iy <? ny - 1)%Z;
      destruct (iz >? 0)%Z; destruct (iz <? nz - 1)%Z;
        simpl; lia.
Qed.

Lemma fwd_gen_In {A} (g : Z -> Z -> Z -> A) ox oy oz b :
  In b (fwd_gen g ox oy oz) <->
  exists di dj dk, In di ox /\ In dj oy /\ In dk oz
                   /\ (0 <= di + dj + dk)%Z /\ b = g di dj dk.
Proof.
  unfold fwd_gen. rewrite in_flat_map. split.
  - intros (di & Hi & H). apply in_flat_map in H. destruct H as (dj & Hj & H).
    apply in_flat_map in H. destruct H as (dk & Hk & H).
    destruct (Z.geb_spec (di + dj + dk) 0) as [Hs|Hs]; [|destruct H].
    destruct H as [<-|[]]. exists di, dj, dk. repeat split; auto; lia.
  - intros (di & dj & dk & Hi & Hj & Hk & Hs & ->).
    exists di. split; [exact Hi|]. apply in_flat_map.
    exists dj. split; [exact Hj|]. apply in_flat_map.
    exists dk. split; [exact Hk|].
    destruct (Z.geb_spec (di + dj + dk) 0) as [_|Hn]; [left; reflexivity|lia].
Qed.

Lemma fwd_gen_NoDup {A} (g : Z -> Z -> Z -> A) ox oy oz :
  NoDup ox -> NoDup oy -> NoDup oz ->
  (forall di dj dk di' dj' dk',
     In di ox -> In dj oy -> In dk oz -> In di' ox -> In dj' oy -> In dk' oz ->
     g di dj dk = g di' dj' dk' -> di = di' /\ dj = dj' /\ dk = dk') ->
  NoDup (fwd_gen g ox oy oz).
Proof.
  intros Hx Hy Hz Hinj. unfold fwd_gen.
  apply NoDup_flat_map; [exact Hx| |].
  - intros di Hi. apply NoDup_flat_map; [exact Hy| |].
    + intros dj Hj. apply NoDup_flat_map; [exact Hz| |].
      * intros dk Hk.
        destruct (_ >=? _)%Z; [constructor; [intros []|constructor] | constructor].
      * intros dk dk' b Hk Hk' Hb Hb'.
        destruct (di + dj + dk >=? 0)%Z; [|destruct Hb].
        destruct (di + dj + dk' >=? 0)%Z; [|destruct Hb'].
        destruct Hb as [<-|[]]. destruct Hb' as [E|[]].
        symmetry in E.
        destruct (Hinj di dj dk di dj dk' Hi Hj Hk Hi Hj Hk' E) as (_ & _ & H).
        exact H.
    + intros dj dj' b Hj Hj' Hb Hb'.
      apply in_flat_map in Hb. destruct Hb as (dk & Hk & Hb).
      apply in_flat_map in Hb'. destruct Hb' as (dk' & Hk' & Hb').
      destruct (di + dj + dk >=? 0)%Z; [|destruct Hb].
      destruct (di + dj' + dk' >=? 0)%Z; [|destruct Hb'].
      destruct Hb as [<-|[]]. destruct Hb' as [E|[]].
      symmetry in E.
      destruct (Hinj di dj dk di dj' dk' Hi Hj Hk Hi Hj' Hk' E) as (_ & H & _).
      exact H.
  - intros di di' b Hi Hi' Hb Hb'.
    apply in_flat_map in Hb. destruct Hb as (dj & Hj & Hb).
    apply in_flat_map in Hb. destruct Hb as (dk & Hk & Hb).
    apply in_flat_map in Hb'. destruct Hb' as (dj' & Hj' & Hb').
    apply in_flat_map in Hb'. destruct Hb' as (dk' & Hk' & Hb').
    destruct (di + dj + dk >=? 0)%Z; [|destruct Hb].
    destruct (di' + dj' + dk' >=? 0)%Z; [|destruct Hb'].
    destruct Hb as [<-|[]]. destruct Hb' as [E|[]].
    symmetry in E.
    destruct (Hinj di dj dk di' dj' dk' Hi Hj Hk Hi' Hj' Hk' E) as (H & _ & _).
    exact H.
Qed.

Lemma fwd_nb_length c ix iy iz :
  in_grid c ix iy iz -> (1 <= length (fwd_nb c ix iy iz) <= 17)%nat.
Proof.
  intros Hin. split.
  - pose proof (fwd_nb_self c ix iy iz Hin) as H.
    destruct (fwd_nb c ix iy iz); [destruct H | simpl; lia].
  - rewrite (fwd_nb_offs c ix iy iz Hin). apply fwd_gen_length.
Qed.

Lemma fwd_nb_NoDup crd c ix iy iz :
  geom_ok (coord_all crd) (coord_n crd) c ->
  in_grid c ix iy iz -> NoDup (fwd_nb c ix iy iz).
Proof.
  intros Hg Hin. rewrite (fwd_nb_offs c ix iy iz Hin).
  destruct Hin as (Hx & Hy & Hz).
  apply fwd_gen_NoDup; try apply offs_NoDup.
  intros di dj dk di' dj' dk' Hi Hj Hk Hi' Hj' Hk' E.
  apply offs_In in Hi, Hj, Hk, Hi', Hj', Hk'.
  assert (G : in_grid c (ix + di) (iy + dj) (iz + dk))
    by (unfold in_grid; lia).
  assert (G' : in_grid c (ix + di') (iy + dj') (iz + dk'))
    by (unfold in_grid; lia).
  pose proof (idx3_range crd c Hg _ _ _ G) as R.
  pose proof (idx3_range crd c Hg _ _ _ G') as R'.
  apply Z2Nat.inj in E; [|lia|lia].
  destruct (idx3_inj crd c _ _ _ _ _ _ G G' E) as (E1 & E2 & E3). lia.
Qed.

(** Every cell index is the index of a cell of the grid. *)
Lemma idx3_surj c k :
  (0 < cl_nx c)%Z -> (0 < cl_ny c)%Z ->
  cl_n c = (cl_nx c * cl_ny c * cl_nz c)%Z ->
  (0 <= k < cl_n c)%Z ->
  exists ix iy iz, in_grid c ix iy iz /\ idx3 c ix iy iz = k.
Proof.
  intros Hx Hy En Hk.
  set (q := (k / cl_nx c)%Z).
  exists (k mod cl_nx c)%Z, (q mod cl_ny c)%Z, (q / cl_ny c)%Z.
  pose proof (Z.mod_pos_bound k (cl_nx c) Hx) as Mx.
  pose proof (Z.mod_pos_bound q (cl_ny c) Hy) as My.
  assert (Hq0 : (0 <= q)%Z) by (apply Z.div_pos; lia).
  assert (Hq : (q < cl_ny c * cl_nz c)%Z).
  { apply Z.div_lt_upper_bound; [lia|]. rewrite En in Hk.
    rewrite Z.mul_assoc. lia. }
  split.
  - split; [exact Mx|]. split; [exact My|]. split.
    + apply Z.div_pos; lia.
    + apply Z.div_lt_upper_bound; [lia|]. exact Hq.
  - unfold idx3.
    rewrite (Z.mul_comm (cl_ny c) (q / cl_ny c)), (Z.add_comm (q mod cl_ny c)).
    rewrite (Z.mul_comm (q / cl_ny c)), <- (Z.div_mod q (cl_ny c)) by lia.
    unfold q. rewrite (Z.add_comm (k mod cl_nx c)).
    rewrite <- (Z.div_mod k (cl_nx c)) by lia. reflexivity.
Qed.

Lemma grid_dims crd c :
  (1 <= coord_n crd)%nat -> geom_ok (coord_all crd) (coord_n crd) c ->
  (1 <= cl_nx c)%Z /\ (1 <= cl_ny c)%Z /\ (1 <= cl_nz c)%Z.
Proof.
  intros Hn Hg.
  destruct (cell_in_grid crd c Hg O ltac:(lia)) as (Hx & Hy & Hz). lia.
Qed.

(** The cell list built by [cell_list_new] has [nx * ny * nz] cells, at
    least one along each axis.  The list of forward neighbours of each cell
    has between 1 and 17 entries, so that the array [nb[17]] is never
    overrun and [assert(n > 0)] holds; the entries are indices of cells of
    the grid, no cell occurs twice among them, and the cell itself is one of
    them. *)
Lemma cell_neighbours_grid (d : R) (crd : coord) :
  0 < d -> (1 <= coord_n crd)%nat ->
  exists c,
    cell_list_new d (Some crd) = Ok c
    /\ ((1 <= cl_nx c)%Z /\ (1 <= cl_ny c)%Z /\ (1 <= cl_nz c)%Z)
    /\ cl_n c = (cl_nx c * cl_ny c * cl_nz c)%Z
    /\ length (cl_cell c) = Z.to_nat (cl_n c)
    /\ forall k, (k < Z.to_nat (cl_n c))%nat ->
         let l := c_nb (nth k (cl_cell c) blank_cell) in
         (1 <= length l <= 17)%nat /\ NoDup l /\ In k l
         /\ forall m, In m l -> (m < Z.to_nat (cl_n c))%nat.
Proof.
  intros Hd Hn.
  destruct (cell_list_new_ok d crd Hd Hn) as (c & Ec & Hgrid & _ & _).
  exists c. split; [exact Ec|].
  destruct Hgrid as (Hg & Hlen & _ & Hnb).
  pose proof (grid_dims crd c Hn Hg) as (Dx & Dy & Dz).
  pose proof Hg as (_ & _ & _ & _ & _ & En).
  split; [auto|]. split; [exact En|]. split; [exact Hlen|].
  intros k Hk.
  destruct (idx3_surj c (Z.of_nat k)) as (ix & iy & iz & Hin & Eidx);
    [lia | lia | exact En | lia |].
  assert (Ek : k = Z.to_nat (idx3 c ix iy iz)) by lia.
  clear Eidx. subst k. cbv zeta. rewrite (Hnb ix iy iz Hin).
  split; [apply fwd_nb_length; exact Hin|].
  split; [apply (fwd_nb_NoDup crd); assumption|].
  split; [apply fwd_nb_self; exact Hin|].
  intros m Hm. apply (fwd_nb_In c ix iy iz m Hin) in Hm.
  destruct Hm as (i & j & l & G & _ & _ & _ & _ & ->).
  pose proof (idx3_range crd c Hg _ _ _ G). lia.
Qed.

(** ** The atoms of a cell *)

(** [cell_list_new] puts every atom into exactly one cell, the cell whose
    box of side [d] holds the centre of the atom; no cell lists an atom
    twice, and a cell lists atoms only. *)
Lemma cell_atoms_boxes (d : R) (crd : coord) :
  0 < d -> (1 <= coord_n crd)%nat ->
  let v := coord_all crd in
  exists c,
    cell_list_new d (Some crd) = Ok c /\ cl_d c = d
    /\ (forall k, (k < Z.to_nat (cl_n c))%nat ->
          NoDup (c_atom (nth k (cl_cell c) blank_cell))
          /\ forall a, In a (c_atom (nth k (cl_cell c) blank_cell)) ->
                       (a < coord_n crd)%nat)
    /\ forall a, (a < coord_n crd)%nat ->
         exists ix iy iz,
           in_grid c ix iy iz
           /\ cl_x_min c + IZR ix * d <= px v a < cl_x_min c + (IZR ix + 1) * d
           /\ cl_y_min c + IZR iy * d <= py v a < cl_y_min c + (IZR iy + 1) * d
           /\ cl_z_min c + IZR iz * d <= pz v a < cl_z_min c + (IZR iz + 1) * d
           /\ forall k, (k < Z.to_nat (cl_n c))%nat ->
                (In a (c_atom (nth k (cl_cell c) blank_cell))
                 <-> k = Z.to_nat (idx3 c ix iy iz)).
Proof.
  intros Hd Hn v. subst v.
  destruct (cell_list_new_ok d crd Hd Hn) as (c & Ec & Hgrid & Ed & _).
  exists c. split; [exact Ec|]. split; [exact Ed|].
  pose proof Hgrid as (Hg & Hlen & Hat & _).
  split.
  - intros k Hk. rewrite (Hat k Hk). split.
    + apply (atoms_in_NoDup crd c).
    + intros a Ha. apply (atoms_in_In crd c) in Ha. tauto.
  - intros a Ha.
    exists (cell_x crd c a), (cell_y crd c a), (cell_z crd c a).
    split; [apply (cell_in_grid crd c Hg a Ha)|].
    destruct Hg as (Hd' & Hb & _). destruct (Hb a Ha) as (Bx & By & Bz).
    rewrite Ed in *.
    assert (Hbox : forall p lo, lo + d / 2 <= p ->
              lo + IZR (Rtrunc ((p - lo) / d)) * d <= p
              < lo + (IZR (Rtrunc ((p - lo) / d)) + 1) * d).
    { intros p lo Hp.
      assert (H0 : 0 <= (p - lo) / d).
      { apply Rmult_le_pos; [lra|]. apply Rlt_le, Rinv_0_lt_compat. lra. }
      destruct (Rtrunc_nonneg _ H0) as [T1 T2].
      assert (E : p - lo = (p - lo) / d * d) by (field; lra).
      split.
      - apply Rmult_le_compat_r with (r := d) in T1; lra.
      - apply Rmult_lt_compat_r with (r := d) in T2; lra. }
    unfold cell_x, cell_y, cell_z. rewrite Ed.
    split; [apply Hbox; lra|]. split; [apply Hbox; lra|].
    split; [apply Hbox; lra|].
    intros k Hk. rewrite (Hat k Hk).
    rewrite (atoms_in_In crd c). unfold cell_of, cell_x, cell_y, cell_z.
    rewrite Ed. split; [intros [_ E]; symmetry; exact E | intros ->; auto].
Qed.

(** ** How often a contact is recorded *)

Lemma grid_cell_nb crd c k :
  (1 <= coord_n crd)%nat -> grid_ok crd c -> (k < Z.to_nat (cl_n c))%nat ->
  exists ix iy iz,
    in_grid c ix iy iz /\ k = Z.to_nat (idx3 c ix iy iz)
    /\ c_nb (nth k (cl_cell c) blank_cell) = fwd_nb c ix iy iz.
Proof.
  intros Hn (Hg & _ & _ & Hnb) Hk.
  pose proof (grid_dims crd c Hn Hg) as (Dx & Dy & Dz).
  pose proof Hg as (_ & _ & _ & _ & _ & En).
  destruct (idx3_surj c (Z.of_nat k)) as (ix & iy & iz & Hin & Eidx);
    [lia | lia | exact En | lia |].
  exists ix, iy, iz. split; [exact Hin|].
  assert (Ek : k = Z.to_nat (idx3 c ix iy iz)) by lia.
  split; [exact Ek|]. rewrite Ek. apply Hnb. exact Hin.
Qed.

Lemma grid_cell_nb_lt crd c k m :
  (1 <= coord_n crd)%nat -> grid_ok crd c -> (k < Z.to_nat (cl_n c))%nat ->
  In m (c_nb (nth k (cl_cell c) blank_cell)) -> (m < Z.to_nat (cl_n c))%nat.
Proof.
  intros Hn Hgrid Hk Hm.
  destruct (grid_cell_nb crd c k Hn Hgrid Hk) as (ix & iy & iz & Hin & _ & E).
  rewrite E in Hm. apply (fwd_nb_In c ix iy iz m Hin) in Hm.
  destruct Hm as (i & j & l & G & _ & _ & _ & _ & ->).
  pose proof (idx3_range crd c (proj1 Hgrid) _ _ _ G). lia.
Qed.

(** The atoms listed in a cell are those of that cell. *)
Lemma grid_cell_atom crd c k a :
  grid_ok crd c -> In a (c_atom (nth k (cl_cell c) blank_cell)) ->
  (k < Z.to_nat (cl_n c))%nat /\ (a < coord_n crd)%nat /\ cell_of crd c a = k.
Proof.
  intros (_ & Hlen & Hat & _) Ha.
  destruct (Nat.lt_ge_cases k (Z.to_nat (cl_n c))) as [Hk|Hk].
  - split; [exact Hk|]. rewrite (Hat k Hk) in Ha.
    apply (atoms_in_In crd c) in Ha. exact Ha.
  - rewrite nth_overflow in Ha by lia. destruct Ha.
Qed.

Lemma grid_cell_atom_NoDup crd c k :
  grid_ok crd c -> NoDup (c_atom (nth k (cl_cell c) blank_cell)).
Proof.
  intros (_ & Hlen & Hat & _).
  destruct (Nat.lt_ge_cases k (Z.to_nat (cl_n c))) as [Hk|Hk].
  - rewrite (Hat k Hk). apply atoms_in_NoDup.
  - rewrite nth_overflow by lia. constructor.
Qed.

Lemma cell_cands_NoDup crd c ci cj :
  grid_ok crd c -> NoDup (cell_cands (cl_cell c) ci cj).
Proof.
  intros Hgrid. unfold cell_cands. cbv zeta.
  pose proof (grid_cell_atom_NoDup crd c ci Hgrid) as Ni.
  pose proof (grid_cell_atom_NoDup crd c cj Hgrid) as Nj.
  set (la := c_atom (nth ci (cl_cell c) blank_cell)) in *.
  set (lb := c_atom (nth cj (cl_cell c) blank_cell)) in *.
  apply NoDup_flat_map; [apply seq_NoDup| |].
  - intros i Hi. apply NoDup_map_NoDup_ForallPairs; [|apply seq_NoDup].
    intros j j' Hj Hj' E. apply in_seq in Hj, Hj'.
    injection E as E.
    apply (proj1 (NoDup_nth lb O) Nj); [lia | lia | exact E].
  - intros i i' p Hi Hi' Hp Hp'. apply in_seq in Hi, Hi'.
    apply in_map_iff in Hp. destruct Hp as (j & <- & _).
    apply in_map_iff in Hp'. destruct Hp' as (j' & E & _).
    injection E as E _.
    apply (proj1 (NoDup_nth la O) Ni); [lia | lia | symmetry; exact E].
Qed.

Lemma cell_cands_atoms (crd : coord) c ci cj a b :
  In (a, b) (cell_cands (cl_cell c) ci cj) ->
  In a (c_atom (nth ci (cl_cell c) blank_cell))
  /\ In b (c_atom (nth cj (cl_cell c) blank_cell)).
Proof.
  intros H. apply (cell_cands_In crd c) in H.
  destruct H as (i & j & Hi & Hj & _ & -> & ->).
  split; apply nth_In; assumption.
Qed.

Lemma all_cands_NoDup crd c :
  (1 <= coord_n crd)%nat -> grid_ok crd c -> NoDup (all_cands c).
Proof.
  intros Hn Hgrid. unfold all_cands.
  apply NoDup_flat_map; [apply seq_NoDup| |].
  - intros ic Hic. apply in_seq in Hic.
    apply NoDup_flat_map.
    + destruct (grid_cell_nb crd c ic Hn Hgrid) as (ix & iy & iz & Hin & _ & E);
        [lia|].
      rewrite E. apply (fwd_nb_NoDup crd); [exact (proj1 Hgrid) | exact Hin].
    + intros cj _. apply (cell_cands_NoDup crd); exact Hgrid.
    + intros cj cj' [a b] _ _ Hp Hp'.
      apply (cell_cands_atoms crd) in Hp, Hp'.
      destruct (grid_cell_atom crd c cj b Hgrid (proj2 Hp)) as (_ & _ & E).
      destruct (grid_cell_atom crd c cj' b Hgrid (proj2 Hp')) as (_ & _ & E').
      congruence.
  - intros ic ic' [a b] _ _ Hp Hp'.
    apply in_flat_map in Hp. destruct Hp as (cj & _ & Hp).
    apply in_flat_map in Hp'. destruct Hp' as (cj' & _ & Hp').
    apply (cell_cands_atoms crd) in Hp, Hp'.
    destruct (grid_cell_atom crd c ic a Hgrid (proj1 Hp)) as (_ & _ & E).
    destruct (grid_cell_atom crd c ic' a Hgrid (proj1 Hp')) as (_ & _ & E').
    congruence.
Qed.

Section Direction.

Variables (crd : coord) (c : cell_list).
Hypothesis Hgrid : grid_ok crd c.

(** The sum of the offsets from the cell of [a] to the cell of [b], the
    quantity that the forward test of [fill_nb] compares with 0. *)
Definition offset_sum (a b : nat) : Z :=
  (cell_x crd c b - cell_x crd c a + cell_y crd c b - cell_y crd c a
   + cell_z crd c b - cell_z crd c a)%Z.

(** A pair that is compared was found through the list of forward
    neighbours of the cell of its first atom. *)
Lemma cands_fwd a b :
  In (a, b) (all_cands c) -> (0 <= offset_sum a b)%Z.
Proof.
  intros H. apply (all_cands_In crd) in H.
  destruct H as (ic & cj & Hic & Hcj & Hp).
  apply (cell_cands_atoms crd) in Hp. destruct Hp as [Ha Hb].
  destruct (grid_cell_atom crd c ic a Hgrid Ha) as (_ & Ha' & Ea).
  destruct (grid_cell_atom crd c cj b Hgrid Hb) as (_ & Hb' & Eb).
  subst ic. rewrite (cell_nb crd c Hgrid a Ha') in Hcj.
  pose proof (proj1 Hgrid) as Hg.
  pose proof (cell_in_grid crd c Hg a Ha') as Ga.
  pose proof (cell_in_grid crd c Hg b Hb') as Gb.
  apply (fwd_nb_In c _ _ _ cj Ga) in Hcj.
  destruct Hcj as (i & j & k & G & _ & _ & _ & Hs & E).
  rewrite <- Eb in E. unfold cell_of in E.
  pose proof (idx3_range crd c Hg _ _ _ G) as R1.
  pose proof (idx3_range crd c Hg _ _ _ Gb) as R2.
  apply Z2Nat.inj in E; [|lia|lia].
  destruct (idx3_inj crd c _ _ _ _ _ _ Gb G E) as (E1 & E2 & E3).
  unfold offset_sum. lia.
Qed.

(** Two atoms of one cell are compared in one order only. *)
Lemma cands_same_once a b :
  cell_of crd c a = cell_of crd c b ->
  In (a, b) (all_cands c) -> In (b, a) (all_cands c) -> False.
Proof.
  intros Hsame H1 H2.
  assert (Hpos : forall x y, cell_of crd c x = cell_of crd c y ->
            In (x, y) (all_cands c) ->
            exists i j, (i < j)%nat
              /\ (j < length (c_atom (nth (cell_of crd c x) (cl_cell c)
                                         blank_cell)))%nat
              /\ x = nth i (c_atom (nth (cell_of crd c x) (cl_cell c)
                                       blank_cell)) O
              /\ y = nth j (c_atom (nth (cell_of crd c x) (cl_cell c)
                                       blank_cell)) O).
  { intros x y Hxy H. apply (all_cands_In crd) in H.
    destruct H as (ic & cj & Hic & Hcj & Hp).
    pose proof (cell_cands_atoms crd c ic cj x y Hp) as [Hx Hy].
    destruct (grid_cell_atom crd c ic x Hgrid Hx) as (_ & _ & Ex).
    destruct (grid_cell_atom crd c cj y Hgrid Hy) as (_ & _ & Ey).
    apply (cell_cands_In crd) in Hp.
    destruct Hp as (i & j & Hi & Hj & Hij & Exi & Eyj).
    assert (Hc : ic = cj) by congruence.
    exists i, j. rewrite Ex. split; [apply Hij; exact Hc|].
    split; [rewrite Hc; exact Hj|]. split; [exact Exi|].
    rewrite Hc at 1. exact Eyj. }
  destruct (Hpos a b Hsame H1) as (i & j & Hij & Hj & Ea & Eb).
  destruct (Hpos b a (eq_sym Hsame) H2) as (i' & j' & Hij' & Hj' & Eb' & Ea').
  rewrite <- Hsame in *.
  set (l := c_atom (nth (cell_of crd c a) (cl_cell c) blank_cell)) in *.
  pose proof (grid_cell_atom_NoDup crd c (cell_of crd c a) Hgrid) as N.
  fold l in N.
  assert (i = j') by (apply (proj1 (NoDup_nth l O) N); [lia | lia | congruence]).
  assert (j = i') by (apply (proj1 (NoDup_nth l O) N); [lia | lia | congruence]).
  lia.
Qed.

End Direction.

(** A pair of atoms in contact is recorded once or twice, never more:
    twice exactly when the two atoms lie in different cells whose three
    offsets sum to zero, where the forward test [>= 0] of [fill_nb] holds in
    both directions.  An atom that is not in contact with [i] does not occur
    in [nb[i]]. *)
Lemma nb_multiplicity_cells (crd : coord) (radii : list R) :
  let n := coord_n crd in
  let v := coord_all crd in
  (1 <= n)%nat -> length radii = n -> Forall (fun r => 0 < r) radii ->
  exists adj c,
    cell_list_new (2 * max_array radii n) (Some crd) = Ok c
    /\ freesasa_nb_new (Some crd) (Some radii) = Ok (Some adj)
    /\ forall i j, (i < n)%nat -> (j < n)%nat -> i <> j ->
         let twice :=
           cell_of crd c i <> cell_of crd c j /\ offset_sum crd c i j = 0%Z in
         (~ in_contact v radii i j ->
          count_occ Nat.eq_dec (nth i (nb adj) []) j = 0%nat)
         /\ (in_contact v radii i j -> twice ->
             count_occ Nat.eq_dec (nth i (nb adj) []) j = 2%nat)
         /\ (in_contact v radii i j -> ~ twice ->
             count_occ Nat.eq_dec (nth i (nb adj) []) j = 1%nat).
Proof.
  intros n v Hn Hlen Hpos. subst n v.
  destruct (nb_new_runs crd radii Hn (nb_new_valid crd radii Hn Hlen Hpos))
    as (adj0 & adj & c & _ & Ec & _ & E & Hgrid & Ed & _ & Hadj).
  exists adj, c. split; [exact Ec|]. split; [exact E|].
  intros i j Hi Hj Hne. cbv zeta.
  pose proof (nb_new_contact crd radii Hn Hlen Hpos c adj i j Hgrid Ed Hadj
                Hi Hj Hne) as Hct.
  split.
  { intros Hno. apply count_occ_not_In. rewrite Hct. exact Hno. }
  assert (Enb : nth i (nb adj) [] = neighbours_of i (recorded crd radii c)).
  { destruct Hadj as (_ & _ & _ & _ & _ & _ & _ & H).
    destruct (H i Hi) as (A1 & _). exact A1. }
  assert (HND : NoDup (recorded crd radii c)).
  { unfold recorded. apply NoDup_filter.
    apply (all_cands_NoDup crd c Hn Hgrid). }
  assert (Hcount : forall (Hc : in_contact (coord_all crd) radii i j),
    count_occ Nat.eq_dec (nth i (nb adj) []) j
    = ((if in_dec pair_dec (i, j) (all_cands c) then 1 else 0)
       + (if in_dec pair_dec (j, i) (all_cands c) then 1 else 0))%nat).
  { intros Hc. rewrite Enb, (neighbours_of_count i j _ Hne).
    rewrite !(NoDup_count_In _ _ HND).
    assert (Hb : contact_b (coord_all crd) radii i j = true).
    { apply contact_b_spec. apply in_contact_iff; [|exact Hc].
      pose proof (rad_pos crd radii Hn Hlen Hpos i Hi).
      pose proof (rad_pos crd radii Hn Hlen Hpos j Hj). lra. }
    assert (Hb' : contact_b (coord_all crd) radii j i = true)
      by (rewrite contact_b_sym; exact Hb).
    f_equal.
    - destruct (in_dec pair_dec (i, j) (recorded crd radii c)) as [H|H];
        destruct (in_dec pair_dec (i, j) (all_cands c)) as [H'|H'];
        try reflexivity; exfalso.
      + apply H'. apply (recorded_In crd radii c) in H. tauto.
      + apply H. apply recorded_In. split; assumption.
    - destruct (in_dec pair_dec (j, i) (recorded crd radii c)) as [H|H];
        destruct (in_dec pair_dec (j, i) (all_cands c)) as [H'|H'];
        try reflexivity; exfalso.
      + apply H'. apply (recorded_In crd radii c) in H. tauto.
      + apply H. apply recorded_In. split; assumption. }
  assert (Hnear : in_contact (coord_all crd) radii i j ->
    (cell_x crd c i - 1 <= cell_x crd c j <= cell_x crd c i + 1)%Z
    /\ (cell_y crd c i - 1 <= cell_y crd c j <= cell_y crd c i + 1)%Z
    /\ (cell_z crd c i - 1 <= cell_z crd c j <= cell_z crd c i + 1)%Z).
  { intros Hc.
    assert (Hrad : forall m, (m < coord_n crd)%nat ->
              0 < rad radii m <= cl_d c / 2).
    { intros m Hm. split; [apply (rad_pos crd radii Hn Hlen Hpos); assumption|].
      destruct (max_array_spec radii (coord_n crd)) as (_ & Mub & _).
      specialize (Mub m Hm). unfold rad. rewrite Ed. lra. }
    apply (contact_cells_near crd radii c (proj1 Hgrid) Hrad i j Hi Hj Hc). }
  assert (Hsym : offset_sum crd c j i = (- offset_sum crd c i j)%Z)
    by (unfold offset_sum; lia).
  split.
  - intros Hc [Hdiff Hs]. rewrite (Hcount Hc).
    destruct (Hnear Hc) as (Nx & Ny & Nz).
    assert (H1 : In (i, j) (all_cands c)).
    { apply (cands_cross crd c Hgrid i j Hi Hj Hdiff Nx Ny Nz).
      unfold offset_sum in Hs. lia. }
    assert (H2 : In (j, i) (all_cands c)).
    { apply (cands_cross crd c Hgrid j i Hj Hi); [congruence|lia|lia|lia|].
      unfold offset_sum in Hs. lia. }
    destruct (in_dec pair_dec (i, j) (all_cands c)); [|contradiction].
    destruct (in_dec pair_dec (j, i) (all_cands c)); [|contradiction].
    reflexivity.
  - intros Hc Hnot. rewrite (Hcount Hc).
    destruct (Hnear Hc) as (Nx & Ny & Nz).
    destruct (in_dec pair_dec (i, j) (all_cands c)) as [H1|H1];
      destruct (in_dec pair_dec (j, i) (all_cands c)) as [H2|H2];
      try reflexivity; exfalso.
    + destruct (Nat.eq_dec (cell_of crd c i) (cell_of crd c j)) as [Hs|Hd].
      * exact (cands_same_once crd c Hgrid i j Hs H1 H2).
      * apply Hnot. split; [exact Hd|].
        pose proof (cands_fwd crd c Hgrid i j H1).
        pose proof (cands_fwd crd c Hgrid j i H2). lia.
    + destruct (Nat.eq_dec (cell_of crd c i) (cell_of crd c j)) as [Hs|Hd].
      * destruct (cands_same crd c Hgrid i j Hi Hj Hne Hs); contradiction.
      * destruct (Z_le_gt_dec 0 (offset_sum crd c i j)) as [Hge|Hlt].
        -- apply H1. apply (cands_cross crd c Hgrid i j Hi Hj Hd Nx Ny Nz).
           unfold offset_sum in Hge. lia.
        -- apply H2.
           apply (cands_cross crd c Hgrid j i Hj Hi); [congruence|lia|lia|lia|].
           unfold offset_sum in Hlt. lia.
Qed.

End NBMore.


(** * Further properties of sasa_lr.c *)

Module LRMore.
Import LR LRFacts LRContacts.

(** ** sasa_get_contacts *)

Lemma upper_pairs_NoDup n : NoDup (upper_pairs n).
Proof.
  unfold upper_pairs. apply NoDup_flat_map; [apply seq_NoDup| |].
  - intros i _. apply NoDup_map_NoDup_ForallPairs; [|apply seq_NoDup].
    intros j j' _ _ E. injection E as E. exact E.
  - intros i i' [a b] _ _ Hp Hp'.
    apply in_map_iff in Hp. destruct Hp as (j & E & _).
    apply in_map_iff in Hp'. destruct Hp' as (j' & E' & _).
    congruence.
Qed.

(** X8.  The lists of [sasa_get_contacts] have an entry per atom; [nn[i]] is the
    number of entries of [nb[i]]; no atom occurs twice in a list, nor in its
    own list; the entries are indices of atoms, and [j] is listed for [i]
    exactly when [i] is listed for [j]. *)
Theorem get_contacts_lists (xyz : coord) (radii : list R) :
  let n := coord_n xyz in
  let nb := fst (sasa_get_contacts xyz radii) in
  let nn := snd (sasa_get_contacts xyz radii) in
  length nb = n /\ length nn = n
  /\ forall i, (i < n)%nat ->
       nth i nn O = length (nth i nb [])
       /\ NoDup (nth i nb [])
       /\ forall j, In j (nth i nb []) ->
            (j < n)%nat /\ j <> i /\ In i (nth j nb []).
Proof.
  intros n nb nn.
  destruct (get_contacts_spec xyz radii) as (L1 & L2 & H).
  fold n nb nn in L1, L2, H.
  split; [exact L1|]. split; [exact L2|].
  set (E := filter (fun p => contact_b (coord_all xyz) radii (fst p) (snd p))
              (upper_pairs n)) in *.
  assert (HE : forall a b, In (a, b) E -> (a < b < n)%nat).
  { intros a b Hab. apply filter_In in Hab. destruct Hab as [Hab _].
    apply upper_pairs_In in Hab. exact Hab. }
  assert (HND : NoDup E) by (apply NoDup_filter, upper_pairs_NoDup).
  assert (Hin : forall i j, (i < n)%nat -> In j (nth i nb []) ->
            (j < n)%nat /\ j <> i /\ (In (i, j) E \/ In (j, i) E)).
  { intros i j Hi Hj. destruct (H i Hi) as [E1 _]. rewrite E1 in Hj.
    apply neighbours_of_In in Hj.
    destruct Hj as [Hj|Hj]; pose proof (HE _ _ Hj); (split; [lia|]);
      (split; [lia|]); auto. }
  intros i Hi. destruct (H i Hi) as [E1 E2].
  split; [exact E2|]. split.
  - apply (NoDup_count_occ Nat.eq_dec). intros j.
    destruct (in_dec Nat.eq_dec j (nth i nb [])) as [Hj|Hj];
      [|rewrite (proj1 (count_occ_not_In Nat.eq_dec _ _) Hj); lia].
    destruct (Hin i j Hi Hj) as (_ & Hne & _).
    rewrite E1, (neighbours_of_count i j E (not_eq_sym Hne)).
    rewrite !(NoDup_count_In _ _ HND).
    destruct (in_dec pair_dec (i, j) E) as [A|A];
      destruct (in_dec pair_dec (j, i) E) as [B|B]; try lia.
    apply HE in A. apply HE in B. lia.
  - intros j Hj. destruct (Hin i j Hi Hj) as (Hjn & Hne & Hor).
    split; [exact Hjn|]. split; [exact Hne|].
    destruct (H j Hjn) as [F1 _]. rewrite F1. apply neighbours_of_In. tauto.
Qed.

(** ** sasalib_lee_richards: the arguments [sasa] and [n_threads] *)

(** The bounds and radii found by the first loop do not depend on the
    contents of [sasa]. *)
Lemma range_upto_indep sasa1 sasa2 xyz atom_radii probe_radius m :
  let r1 := range_upto sasa1 xyz atom_radii probe_radius m in
  let r2 := range_upto sasa2 xyz atom_radii probe_radius m in
  rg_max_z r1 = rg_max_z r2 /\ rg_min_z r1 = rg_min_z r2
  /\ rg_max_r r1 = rg_max_r r2 /\ rg_radii r1 = rg_radii r2.
Proof.
  induction m as [|m IH]; cbv zeta; [repeat split; reflexivity|].
  rewrite !range_upto_S. cbv zeta in IH.
  destruct IH as (A & B & C & D).
  unfold range_step; cbn [rg_max_z rg_min_z rg_max_r rg_radii].
  rewrite A, B, C, D. repeat split; reflexivity.
Qed.

Lemma lr_params_indep sasa1 sasa2 xyz atom_radii probe_radius delta :
  lr_params sasa1 xyz atom_radii probe_radius delta
  = lr_params sasa2 xyz atom_radii probe_radius delta.
Proof.
  unfold lr_params. rewrite !slice_range_upto.
  destruct (range_upto_indep sasa1 sasa2 xyz atom_radii probe_radius
              (coord_n xyz)) as (A & B & C & D).
  cbv zeta in A, B, C, D. rewrite A, B, C, D. reflexivity.
Qed.

(** The first loop sets the first [m] entries of [sasa] to 0 and leaves
    the others. *)
Lemma range_sasa_zeroed sasa xyz atom_radii probe_radius m :
  length (rg_sasa (range_upto sasa xyz atom_radii probe_radius m))
  = length sasa
  /\ forall i,
       nth i (rg_sasa (range_upto sasa xyz atom_radii probe_radius m)) 0
       = if (i <? m)%nat then 0 else nth i sasa 0.
Proof.
  induction m as [|m (L & IH)].
  - split; [reflexivity|]. intros i. reflexivity.
  - rewrite range_upto_S. unfold range_step. cbn [rg_sasa].
    rewrite upd_length. split; [exact L|]. intros i.
    rewrite nth_upd, L, IH.
    destruct (Nat.eqb_spec m i) as [->|Hne].
    + rewrite (proj2 (Nat.ltb_lt i (S i))) by lia.
      rewrite (proj2 (Nat.ltb_ge i i)) by lia.
      destruct (Nat.ltb_spec i (length sasa)); simpl; [reflexivity|].
      apply nth_overflow. lia.
    + simpl. destruct (Nat.ltb_spec i m); destruct (Nat.ltb_spec i (S m));
        try lia; reflexivity.
Qed.

Lemma range_sasa_indep sasa1 sasa2 xyz atom_radii probe_radius :
  length sasa1 = length sasa2 ->
  (forall i, (coord_n xyz <= i)%nat -> nth i sasa1 0 = nth i sasa2 0) ->
  rg_sasa (slice_range sasa1 xyz atom_radii probe_radius)
  = rg_sasa (slice_range sasa2 xyz atom_radii probe_radius).
Proof.
  intros Hlen Htail. rewrite !slice_range_upto.
  destruct (range_sasa_zeroed sasa1 xyz atom_radii probe_radius (coord_n xyz))
    as (La & Ha).
  destruct (range_sasa_zeroed sasa2 xyz atom_radii probe_radius (coord_n xyz))
    as (Lb & Hb).
  apply (nth_ext _ _ 0 0); [lia|].
  intros i Hi. rewrite Ha, Hb.
  destruct (Nat.ltb_spec i (coord_n xyz)); [reflexivity|].
  apply Htail. assumption.
Qed.

(** X9.  [sasa] is an output of [sasalib_lee_richards]: with at least one atom,
    the result does not depend on what the first [n] entries of the array
    held on entry. *)
Theorem lee_richards_output_only (fuel : nat) (sasa1 sasa2 : list R)
  (xyz : coord) (atom_radii : list R) (probe_radius delta : R)
  (n_threads : Z) :
  (1 <= coord_n xyz)%nat ->
  length sasa1 = length sasa2 ->
  (forall i, (coord_n xyz <= i)%nat -> nth i sasa1 0 = nth i sasa2 0) ->
  sasalib_lee_richards fuel sasa1 xyz atom_radii probe_radius delta n_threads
  = sasalib_lee_richards fuel sasa2 xyz atom_radii probe_radius delta
      n_threads.
Proof.
  intros Hn Hlen Htail. unfold sasalib_lee_richards.
  destruct (Nat.eqb_spec (coord_n xyz) 0) as [Hz|_]; [lia|].
  rewrite (lr_params_indep sasa1 sasa2).
  rewrite (range_sasa_indep sasa1 sasa2 xyz atom_radii probe_radius Hlen Htail).
  reflexivity.
Qed.

Lemma lee_richards_output_only_witness :
  ((1 <= coord_n two_atoms)%nat /\ length [5; 7] = length [0; 0]
   /\ (forall i, (coord_n two_atoms <= i)%nat ->
         nth i [5; 7] 0 = nth i [0; 0] 0))
  /\ sasalib_lee_richards 20 [5; 7] two_atoms [1; 3] 0 1 1
     = sasalib_lee_richards 20 [0; 0] two_atoms [1; 3] 0 1 1.
Proof.
  assert (H1 : (1 <= coord_n two_atoms)%nat)
    by (change (coord_n two_atoms) with 2%nat; lia).
  assert (H2 : length [5; 7] = length [0; 0]) by reflexivity.
  assert (H3 : forall i, (coord_n two_atoms <= i)%nat ->
                 nth i [5; 7] 0 = nth i [0; 0] 0).
  { change (coord_n two_atoms) with 2%nat.
    intros [|[|i]] Hi; [lia|lia|]. destruct i; reflexivity. }
  split; [repeat split; assumption|].
  exact (lee_richards_output_only 20 [5; 7] [0; 0] two_atoms [1; 3] 0 1 1
           H1 H2 H3).
Defined.

(** X10.  What [n_threads] does in the single-threaded build: for more than one
    thread the areas are those of one thread and the status is the warning;
    for no thread (or a negative number) the function reports success
    without visiting a slice, and every area is 0; on empty coordinates it
    returns the warning and leaves [sasa] as it was. *)
Theorem lee_richards_threads (fuel : nat) (sasa : list R) (xyz : coord)
  (atom_radii : list R) (probe_radius delta : R) (n_threads : Z) :
  (coord_n xyz = O ->
   sasalib_lee_richards fuel sasa xyz atom_radii probe_radius delta n_threads
   = Ok (SASALIB_WARN, sasa))
  /\ (coord_n xyz <> O -> (1 < n_threads)%Z ->
      sasalib_lee_richards fuel sasa xyz atom_radii probe_radius delta
        n_threads
      = (r <- sasalib_lee_richards fuel sasa xyz atom_radii probe_radius
                delta 1 ;;
         Ok (SASALIB_WARN, snd r)))
  /\ (coord_n xyz <> O -> (n_threads <= 0)%Z ->
      exists sasa',
        sasalib_lee_richards fuel sasa xyz atom_radii probe_radius delta
          n_threads = Ok (SASALIB_SUCCESS, sasa')
        /\ length sasa' = length sasa
        /\ forall i, (i < coord_n xyz)%nat -> nth i sasa' 0 = 0).
Proof.
  split; [|split].
  - intros Hz. unfold sasalib_lee_richards. rewrite Hz. reflexivity.
  - intros Hnz Ht.
    rewrite !lee_richards_loop by (auto; lia). cbv zeta.
    destruct (slice_loop _ _ _ _ _ _) as [s| |]; cbn [bind snd];
      try reflexivity.
    destruct (Z.gtb_spec n_threads 1); [reflexivity | lia].
  - intros Hnz Ht. unfold sasalib_lee_richards.
    destruct (Nat.eqb_spec (coord_n xyz) 0) as [|_]; [contradiction|].
    cbv zeta.
    destruct (Z.gtb_spec n_threads 1) as [|_]; [lia|].
    destruct (Z.eqb_spec n_threads 1) as [|_]; [lia|].
    eexists. split; [reflexivity|].
    rewrite slice_range_upto.
    destruct (range_upto_spec sasa xyz atom_radii probe_radius (coord_n xyz))
      as (_ & _ & _ & _ & L & Hzero).
    split; [exact L | exact Hzero].
Qed.

(** ** sasa_sum_angles: the union of the arcs *)

(** The angle [t] lies on the arc with centre [b] and half-width [a] of the
    circle, angles taken modulo [2 * PI]. *)
Definition on_arc (b a t : R) : Prop :=
  exists k : Z, Rabs (t + 2 * PI * IZR k - b) <= a.

(** [t] lies on one of the first [n] arcs. *)
Definition covered (n : nat) (a b : list R) (t : R) : Prop :=
  exists i, (i < n)%nat /\ on_arc (nth i b 0) (nth i a 0) t.

(** The arcs [i] and [j] have no point in common. *)
Definition arcs_disjoint (a b : list R) (i j : nat) : Prop :=
  forall k : Z,
    Rabs (nth j b 0 + 2 * PI * IZR k - nth i b 0) > nth i a 0 + nth j a 0.

Lemma Rabs_le_iff x a : Rabs x <= a <-> - a <= x <= a.
Proof.
  unfold Rabs. destruct (Rcase_abs x); lra.
Qed.

Lemma on_arc_shift b a t (z : Z) :
  on_arc (b + 2 * PI * IZR z) a t <-> on_arc b a t.
Proof.
  unfold on_arc. split; intros [k H].
  - exists (k - z)%Z. rewrite minus_IZR.
    replace (t + 2 * PI * (IZR k - IZR z) - b)
      with (t + 2 * PI * IZR k - (b + 2 * PI * IZR z)) by lra.
    exact H.
  - exists (k + z)%Z. rewrite plus_IZR.
    replace (t + 2 * PI * (IZR k + IZR z) - (b + 2 * PI * IZR z))
      with (t + 2 * PI * IZR k - b) by lra.
    exact H.
Qed.

Lemma on_arc_interval b a t :
  on_arc b a t <-> exists k : Z, b - a <= t + 2 * PI * IZR k <= b + a.
Proof.
  unfold on_arc. split; intros [k H]; exists k.
  - apply Rabs_le_iff in H. lra.
  - apply Rabs_le_iff. lra.
Qed.

(** Two arcs that the inner loop finds overlapping have the arc that the
    loop computes as their union. *)
Lemma joint_arc bi ai bj aj t :
  0 <= ai -> 0 <= aj -> Rabs (bj - bi) <= ai + aj ->
  on_arc (joint_b bi ai bj aj) (joint_a bi ai bj aj) t
  <-> on_arc bi ai t \/ on_arc bj aj t.
Proof.
  intros Hai Haj Hov. apply Rabs_le_iff in Hov.
  unfold joint_b. destruct (wrap_b_shift
    ((joint_inf bi ai bj aj + joint_sup bi ai bj aj) / 2)) as [z ->].
  rewrite on_arc_shift, !on_arc_interval. unfold joint_a.
  set (inf := joint_inf bi ai bj aj). set (sup := joint_sup bi ai bj aj).
  assert (Hinf : inf = Rmin (bi - ai) (bj - aj)).
  { unfold inf, joint_inf, Rltb, Rmin.
    destruct (Rlt_dec _ _), (Rle_dec _ _); lra. }
  assert (Hsup : sup = Rmax (bi + ai) (bj + aj)).
  { unfold sup, joint_sup, Rgtb, Rltb, Rmax.
    destruct (Rlt_dec _ _), (Rle_dec _ _); lra. }
  assert (E1 : (inf + sup) / 2 - (sup - inf) / 2 = inf) by lra.
  assert (E2 : (inf + sup) / 2 + (sup - inf) / 2 = sup) by lra.
  rewrite E1, E2, Hinf, Hsup. unfold Rmin, Rmax.
  split.
  - intros [k H].
    destruct (Rle_dec (bi - ai) (bj - aj)), (Rle_dec (bi + ai) (bj + aj));
      destruct (Rle_dec (t + 2 * PI * IZR k) (bi + ai));
      destruct (Rle_dec (bi - ai) (t + 2 * PI * IZR k));
      try (left; exists k; lra); right; exists k; lra.
  - intros [[k H]|[k H]]; exists k;
      destruct (Rle_dec (bi - ai) (bj - aj)), (Rle_dec (bi + ai) (bj + aj));
      lra.
Qed.

(** Two overlapping arcs whose union is longer than the circle cover it. *)
Lemma joint_arc_full bi ai bj aj t :
  0 <= ai -> 0 <= aj -> Rabs (bj - bi) <= ai + aj ->
  joint_a bi ai bj aj > PI ->
  on_arc bi ai t \/ on_arc bj aj t.
Proof.
  intros Hai Haj Hov Hbig.
  apply (joint_arc bi ai bj aj t Hai Haj Hov).
  unfold joint_b. destruct (wrap_b_shift
    ((joint_inf bi ai bj aj + joint_sup bi ai bj aj) / 2)) as [z ->].
  rewrite on_arc_shift, on_arc_interval.
  unfold joint_a in *.
  set (inf := joint_inf bi ai bj aj) in *.
  set (sup := joint_sup bi ai bj aj) in *.
  pose proof PI_RGT_0 as HPI.
  set (r := (inf - t) / (2 * PI)).
  destruct (archimed r) as [U1 U2].
  exists (up r).
  assert (Er : r * (2 * PI) = inf - t) by (unfold r; field; lra).
  assert (L1 : inf - t < IZR (up r) * (2 * PI)) by nra.
  assert (L2 : IZR (up r) * (2 * PI) <= inf - t + 2 * PI) by nra.
  lra.
Qed.

(** [t] lies on one of the arcs of the state that are not excluded. *)
Definition st_covered (n : nat) (st : sa_state) (t : R) : Prop :=
  exists i, (i < n)%nat /\ nth i (sa_excluded st) false = false
            /\ on_arc (nth i (sa_b st) 0) (nth i (sa_a st) 0) t.

Definition st_positive (n : nat) (st : sa_state) : Prop :=
  forall i, (i < n)%nat -> nth i (sa_excluded st) false = false ->
    0 < nth i (sa_a st) 0.

(** A merge keeps the union of the arcs. *)
Lemma merge_covered n st i j k t :
  sa_inv n st -> st_positive n st ->
  (i < n)%nat -> (j < n)%nat -> i <> j ->
  nth i (sa_excluded st) false = false ->
  nth j (sa_excluded st) false = false ->
  let bj := nth j (sa_b st) 0 + 2 * PI * IZR k in
  Rabs (bj - nth i (sa_b st) 0) <= nth i (sa_a st) 0 + nth j (sa_a st) 0 ->
  st_positive n (merge_state st i j bj)
  /\ (st_covered n (merge_state st i j bj) t <-> st_covered n st t).
Proof.
  intros (La & Lb & Le & _) Hpos Hi Hj Hne Ei Ej bj Hov.
  pose proof (Hpos i Hi Ei) as Pi. pose proof (Hpos j Hj Ej) as Pj.
  pose proof (joint_arc (nth i (sa_b st) 0) (nth i (sa_a st) 0) bj
                (nth j (sa_a st) 0) t ltac:(lra) ltac:(lra) Hov) as Hjoint.
  assert (Hbj : on_arc bj (nth j (sa_a st) 0) t
                <-> on_arc (nth j (sa_b st) 0) (nth j (sa_a st) 0) t)
    by apply on_arc_shift.
  split.
  - intros m Hm. unfold merge_state; cbn [sa_a sa_excluded].
    destruct (Nat.eq_dec j m) as [->|Hjm].
    + rewrite nth_upd_same by lia. discriminate.
    + rewrite !(nth_upd_other j m) by assumption. intros Em.
      destruct (Nat.eq_dec i m) as [->|Him].
      * rewrite nth_upd_same by lia.
        pose proof (joint_a_ge (nth m (sa_b st) 0) (nth m (sa_a st) 0) bj
                      (nth j (sa_a st) 0)). lra.
      * rewrite nth_upd_other by assumption. apply Hpos; assumption.
  - unfold st_covered, merge_state; cbn [sa_a sa_b sa_excluded]. split.
    + intros (m & Hm & Em & Hon).
      destruct (Nat.eq_dec j m) as [->|Hjm];
        [rewrite nth_upd_same in Em by lia; discriminate|].
      rewrite (nth_upd_other j m) in Em by assumption.
      rewrite (nth_upd_other j m) in Hon by assumption.
      destruct (Nat.eq_dec i m) as [->|Him].
      * rewrite !nth_upd_same in Hon by lia.
        apply Hjoint in Hon. destruct Hon as [Hon|Hon].
        -- exists m. auto.
        -- exists j. split; [exact Hj|]. split; [exact Ej|].
           apply Hbj. exact Hon.
      * rewrite !nth_upd_other in Hon by assumption. exists m. auto.
    + intros (m & Hm & Em & Hon).
      destruct (Nat.eq_dec m i) as [->|Hmi];
        [|destruct (Nat.eq_dec m j) as [->|Hmj]].
      * exists i. split; [exact Hi|].
        rewrite (nth_upd_other j i) by auto. split; [exact Ei|].
        rewrite (nth_upd_other j i) by auto.
        rewrite !nth_upd_same by lia. apply Hjoint. left. exact Hon.
      * exists i. split; [exact Hi|].
        rewrite (nth_upd_other j i) by auto. split; [exact Ei|].
        rewrite (nth_upd_other j i) by auto.
        rewrite !nth_upd_same by lia. apply Hjoint. right.
        apply Hbj. exact Hon.
      * exists m. split; [exact Hm|].
        rewrite (nth_upd_other j m) by auto. split; [exact Em|].
        rewrite (nth_upd_other j m) by auto.
        rewrite !nth_upd_other by auto. exact Hon.
Qed.

(** The loop over [j] keeps the union of the arcs; it returns only when
    the arcs cover the circle. *)
Lemma inner_covered n i js : forall st,
  sa_inv n st -> (i < n)%nat -> nth i (sa_excluded st) false = false ->
  Forall (fun j => (j < n)%nat) js -> st_positive n st ->
  match sum_angles_inner n i js st with
  | Fallthrough st' | Broke st' =>
    st_positive n st' /\ forall t, st_covered n st' t <-> st_covered n st t
  | Returned _ => forall t, st_covered n st t
  end.
Proof.
  induction js as [|j js IH]; intros st Hinv Hi Hex Hjs Hpos;
    [simpl; split; [assumption | tauto]|].
  rewrite inner_cons.
  inversion Hjs as [|j' js' Hj Hjs']; subst.
  destruct (nth j (sa_excluded st) false) eqn:Ej; [apply IH; auto|].
  destruct (Nat.eqb_spec i j) as [Heq|Hne]; [apply IH; auto|].
  cbv zeta.
  destruct (normalize_gap_spec (nth i (sa_b st) 0) (nth j (sa_b st) 0))
    as [k [Egap Bgap]].
  rewrite Egap. cbn [fst snd].
  set (bj := nth j (sa_b st) 0 + 2 * PI * IZR k) in *.
  destruct (Rgtb (Rabs _) _) eqn:Eov; [apply IH; auto|].
  apply Rgtb_false in Eov.
  pose proof (Hpos i Hi Hex) as Pi. pose proof (Hpos j Hj Ej) as Pj.
  destruct (Rgtb (joint_a _ _ _ _) PI) eqn:Ea.
  { apply Rgtb_true in Ea. intros t.
    destruct (joint_arc_full (nth i (sa_b st) 0) (nth i (sa_a st) 0) bj
                (nth j (sa_a st) 0) t ltac:(lra) ltac:(lra) Eov Ea) as [H|H].
    - exists i. auto.
    - exists j. split; [exact Hj|]. split; [exact Ej|].
      apply (on_arc_shift _ _ _ k). exact H. }
  destruct (merge_covered n st i j k) with (t := 0) as [Hpos' _]; auto.
  assert (Hcov : forall t, st_covered n (merge_state st i j bj) t
                           <-> st_covered n st t).
  { intros t. apply (merge_covered n st i j k t); auto. }
  pose proof Hinv as (La & Lb & Le & Hn & Ho).
  assert (Hinv' : sa_inv n (merge_state st i j bj)).
  { unfold sa_inv, merge_state; cbn [sa_a sa_b sa_excluded sa_n_exc
                                      sa_n_overlap].
    rewrite !upd_length. repeat split; auto.
    - rewrite n_excl_upd by (auto; lia). rewrite Hn. lia.
    - lia. }
  assert (Hex' : nth i (sa_excluded (merge_state st i j bj)) false = false).
  { unfold merge_state; cbn [sa_excluded].
    rewrite nth_upd_other by auto. assumption. }
  destruct (Z.eqb _ _); [split; assumption|].
  specialize (IH (merge_state st i j bj) Hinv' Hi Hex' Hjs' Hpos').
  destruct (sum_angles_inner n i js _).
  - destruct IH as [I1 I2]. split; [exact I1|].
    intros t. rewrite I2. apply Hcov.
  - destruct IH as [I1 I2]. split; [exact I1|].
    intros t. rewrite I2. apply Hcov.
  - intros t. apply Hcov. apply IH.
Qed.

Lemma outer_covered n ivals : forall st,
  sa_inv n st -> Forall (fun i => (i < n)%nat) ivals -> st_positive n st ->
  match sum_angles_outer n ivals st with
  | inl st' =>
    st_positive n st' /\ forall t, st_covered n st' t <-> st_covered n st t
  | inr _ => forall t, st_covered n st t
  end.
Proof.
  induction ivals as [|i ivals IH]; intros st Hinv Hiv Hpos;
    [simpl; split; [assumption | tauto]|].
  inversion Hiv as [|i' iv' Hi Hiv']; subst. simpl.
  destruct (nth i (sa_excluded st) false) eqn:Ei; [apply IH; auto|].
  assert (Hseq : Forall (fun j => (j < n)%nat) (seq 0 n)).
  { apply Forall_forall. intros j Hj. apply in_seq in Hj. lia. }
  pose proof (inner_inv n i (seq 0 n) st Hinv Hi Ei Hseq) as Hin.
  pose proof (inner_covered n i (seq 0 n) st Hinv Hi Ei Hseq Hpos) as Hc.
  destruct (sum_angles_inner n i (seq 0 n) st) as [st'|st'|v];
    [| |exact Hc].
  - destruct Hin as (I1 & _). destruct Hc as [C1 C2].
    destruct (Z.eqb _ _); [split; assumption|].
    specialize (IH st' I1 Hiv' C1).
    destruct (sum_angles_outer n ivals st').
    + destruct IH as [J1 J2]. split; [exact J1|].
      intros t. rewrite J2. apply C2.
    + intros t. apply C2. apply IH.
  - destruct Hin as (I1 & _). destruct Hc as [C1 C2].
    destruct (Z.eqb _ _); [split; assumption|].
    specialize (IH st' I1 Hiv' C1).
    destruct (sum_angles_outer n ivals st').
    + destruct IH as [J1 J2]. split; [exact J1|].
      intros t. rewrite J2. apply C2.
    + intros t. apply C2. apply IH.
Qed.

Lemma init_covered n a b t :
  st_covered n (sa_init n a b) t <-> covered n a b t.
Proof.
  unfold st_covered, covered, sa_init; cbn [sa_a sa_b sa_excluded]. split.
  - intros (i & Hi & _ & H). exists i. auto.
  - intros (i & Hi & H). exists i. split; [exact Hi|].
    split; [apply nth_repeat_lt; exact Hi | exact H].
Qed.

(** The arcs handed to the recursive call are those that are not
    excluded. *)
Lemma compact_nth n excl v :
  compact n excl v
  = map (fun i => nth i v 0)
      (filter (fun i => negb (nth i excl false)) (seq 0 n)).
Proof.
  induction n as [|n IH]; [reflexivity|].
  rewrite compact_S, seq_S, filter_app, map_app, <- IH. simpl.
  destruct (nth n excl false); simpl; [rewrite app_nil_r|]; reflexivity.
Qed.

Lemma compact_covered n st t :
  covered (length (compact n (sa_excluded st) (sa_a st)))
    (compact n (sa_excluded st) (sa_a st))
    (compact n (sa_excluded st) (sa_b st)) t
  <-> st_covered n st t.
Proof.
  rewrite !compact_nth.
  set (idx := filter (fun i => negb (nth i (sa_excluded st) false)) (seq 0 n)).
  assert (Hidx : forall i, In i idx
            <-> (i < n)%nat /\ nth i (sa_excluded st) false = false).
  { intros i. unfold idx. rewrite filter_In, in_seq, negb_true_iff.
    split; intros [A B]; (split; [lia | exact B]). }
  rewrite length_map. unfold covered, st_covered. split.
  - intros (p & Hp & H).
    rewrite !NBFacts.nth_map_lt in H by exact Hp.
    exists (nth p idx O).
    destruct (proj1 (Hidx (nth p idx O)) (nth_In _ _ Hp)) as [A B]. auto.
  - intros (i & Hi & Ei & H).
    destruct (In_nth idx i O (proj2 (Hidx i) (conj Hi Ei))) as (p & Hp & Ep).
    exists p. split; [exact Hp|].
    rewrite !NBFacts.nth_map_lt by exact Hp. rewrite Ep. exact H.
Qed.

(** Arcs that the test of the inner loop keeps apart are disjoint. *)
Lemma separated_disjoint a b i j :
  0 <= nth i a 0 + nth j a 0 -> separated a b i j -> arcs_disjoint a b i j.
Proof.
  unfold separated, arcs_disjoint. intros Hs Hsep k.
  destruct (normalize_gap_spec (nth i b 0) (nth j b 0)) as [k0 [E B]].
  rewrite E in Hsep. cbn [snd] in Hsep.
  pose proof PI_RGT_0 as HPI.
  set (g := nth j b 0 + 2 * PI * IZR k0 - nth i b 0) in *.
  replace (nth j b 0 + 2 * PI * IZR k - nth i b 0)
    with (g + 2 * PI * IZR (k - k0))
    by (unfold g; rewrite minus_IZR; lra).
  assert (Hg : Rabs g <= PI) by (apply Rabs_le_iff; lra).
  destruct (Z.eq_dec k k0) as [->|Hk].
  - rewrite Z.sub_diag. replace (g + 2 * PI * 0) with g by lra. exact Hsep.
  - assert (Hz : (k - k0 <= -1)%Z \/ (1 <= k - k0)%Z) by lia.
    apply Rabs_le_iff in Hg.
    destruct Hz as [Hz|Hz]; apply IZR_le in Hz.
    + rewrite Rabs_left1 by nra.
      assert (PI <= - (g + 2 * PI * IZR (k - k0))) by nra.
      unfold Rabs in Hsep. destruct (Rcase_abs g); lra.
    + rewrite Rabs_right by nra.
      assert (PI <= g + 2 * PI * IZR (k - k0)) by nra.
      unfold Rabs in Hsep. destruct (Rcase_abs g); lra.
Qed.

Lemma sum_angles_cover (fuel n : nat) (a b : list R) (v : R) :
  length a = n -> length b = n ->
  sasa_sum_angles fuel n a b = Ok v ->
  (v = 0 /\ forall t, covered n a b t)
  \/ exists m a' b',
       length a' = m /\ length b' = m
       /\ (forall i, (i < m)%nat -> 0 < nth i a' 0)
       /\ (forall i j, (i < m)%nat -> (j < m)%nat -> i <> j ->
             arcs_disjoint a' b' i j)
       /\ (forall t, covered m a' b' t <-> covered n a b t)
       /\ v = 2 * PI - sumn (fun i => 2 * nth i a' 0) m.
Proof.
  revert n a b. induction fuel as [|fuel IH]; intros n a b Ha Hb;
    rewrite sasa_sum_angles_eq;
    (unfold assert; destruct (forallb _ _) eqn:Hall; cbn [bind];
     [|discriminate]);
    (pose proof (proj1 (assert_positive n a) Hall) as Hall'; clear Hall;
     rename Hall' into Hall);
    pose proof (pass_inv n a b Ha Hb) as Hpi;
    pose proof (outer_covered n (seq 0 n) (sa_init n a b)
                  (sa_init_inv n a b Ha Hb)) as Hoc;
    fold (sum_angles_pass n a b) in Hoc;
    (assert (Hseq : Forall (fun i => (i < n)%nat) (seq 0 n))
       by (apply Forall_forall; intros j Hj; apply in_seq in Hj; lia));
    (assert (Hp0 : st_positive n (sa_init n a b))
       by (intros i Hi _; apply Hall; exact Hi));
    specialize (Hoc Hseq Hp0);
    destruct (sum_angles_pass n a b) as [st|w] eqn:Hp.
  - destruct (Z.eqb_spec (sa_n_overlap st) 0) as [Hz|Hnz]; cbn [negb];
      [|discriminate].
    intros E. injection E as <-. right.
    destruct (pass_no_overlap n a b st Ha Hb Hp Hz) as [-> Hsep].
    exists n, a, b. cbn [sa_a].
    split; [exact Ha|]. split; [exact Hb|]. split; [exact Hall|].
    split; [|split; [tauto | reflexivity]].
    intros i j Hi Hj Hne. apply separated_disjoint.
    + pose proof (Hall i Hi). pose proof (Hall j Hj). lra.
    + apply Hsep; [lia | exact Hi | exact Hj | congruence].
  - intros E. injection E as <-. left.
    split; [exact Hpi|]. intros t. apply init_covered. apply Hoc.
  - destruct (Z.eqb_spec (sa_n_overlap st) 0) as [Hz|Hnz]; cbn [negb].
    + intros E. injection E as <-. right.
      destruct (pass_no_overlap n a b st Ha Hb Hp Hz) as [-> Hsep].
      exists n, a, b. cbn [sa_a].
      split; [exact Ha|]. split; [exact Hb|]. split; [exact Hall|].
      split; [|split; [tauto | reflexivity]].
      intros i j Hi Hj Hne. apply separated_disjoint.
      * pose proof (Hall i Hi). pose proof (Hall j Hj). lra.
      * apply Hsep; [lia | exact Hi | exact Hj | congruence].
    + intros E.
      destruct (pass_shrinks n a b st Ha Hb Hp Hnz) as [_ Hlen].
      destruct Hoc as [_ Hcov].
      assert (Hsame : forall t,
        covered (length (compact n (sa_excluded st) (sa_a st)))
          (compact n (sa_excluded st) (sa_a st))
          (compact n (sa_excluded st) (sa_b st)) t
        <-> covered n a b t).
      { intros t. rewrite compact_covered, Hcov. apply init_covered. }
      destruct (IH _ _ _ eq_refl Hlen E) as [[Hv Hfull]|Hfam].
      * left. split; [exact Hv|]. intros t. apply Hsame. apply Hfull.
      * right. destruct Hfam as (m & a' & b' & L1 & L2 & P & D & C & Ev).
        exists m, a', b'. repeat (split; [assumption|]).
        split; [|exact Ev]. intros t. rewrite C. apply Hsame.
  - intros E. injection E as <-. left.
    split; [exact Hpi|]. intros t. apply init_covered. apply Hoc.
Qed.

(** X11.  What [sasa_sum_angles] computes.  A call that returns has checked that
    every half-width is positive.  Either it returns 0, and the arcs cover
    the circle; or there is a family of pairwise disjoint arcs with the
    same union as the arcs given, and it returns [2 * PI] less the total
    length of that family. *)
Theorem sum_angles_union (fuel n : nat) (a b : list R) (v : R) :
  length a = n -> length b = n ->
  sasa_sum_angles fuel n a b = Ok v ->
  (forall i, (i < n)%nat -> 0 < nth i a 0)
  /\ ((v = 0 /\ forall t, covered n a b t)
      \/ exists m a' b',
           length a' = m /\ length b' = m
           /\ (forall i, (i < m)%nat -> 0 < nth i a' 0)
           /\ (forall i j, (i < m)%nat -> (j < m)%nat -> i <> j ->
                 arcs_disjoint a' b' i j)
           /\ (forall t, covered m a' b' t <-> covered n a b t)
           /\ v = 2 * PI - sumn (fun i => 2 * nth i a' 0) m).
Proof.
  intros Ha Hb H. split.
  - rewrite sasa_sum_angles_eq in H. unfold assert in H.
    destruct (forallb _ _) eqn:Hall; cbn [bind] in H; [|discriminate].
    exact (proj1 (assert_positive n a) Hall).
  - exact (sum_angles_cover fuel n a b v Ha Hb H).
Qed.

(** ** sasa_exposed_arcs: the geometry of an arc *)

Lemma cos_period_Z x (k : Z) : cos (x + 2 * PI * IZR k) = cos x.
Proof.
  destruct (Z_le_gt_dec 0 k) as [Hk|Hk].
  - rewrite <- (Z2Nat.id k Hk), <- INR_IZR_INZ.
    replace (x + 2 * PI * INR (Z.to_nat k))
      with (x + 2 * INR (Z.to_nat k) * PI) by lra.
    apply cos_period.
  - rewrite <- (cos_period (x + 2 * PI * IZR k) (Z.to_nat (- k))).
    f_equal. rewrite INR_IZR_INZ, Z2Nat.id by lia. rewrite opp_IZR. lra.
Qed.

Lemma sqrt_ratio x y :
  x <> 0 -> sqrt (1 + (y / x)²) = sqrt (x * x + y * y) / Rabs x.
Proof.
  intros Hx.
  replace (1 + (y / x)²) with ((x * x + y * y) / x²)
    by (unfold Rsqr; field; exact Hx).
  assert (0 < x²) by (apply Rlt_0_sqr; exact Hx).
  rewrite sqrt_div_alt by assumption. rewrite sqrt_Rsqr_abs. reflexivity.
Qed.

(** [atan2 y x] is the polar angle of the vector [(x, y)]. *)
Lemma atan2_polar x y :
  let d := sqrt (x * x + y * y) in
  0 < d -> x = d * cos (atan2 y x) /\ y = d * sin (atan2 y x).
Proof.
  intros d Hd. unfold atan2.
  assert (Hsq : x * x + y * y = d * d).
  { unfold d. rewrite sqrt_sqrt; [reflexivity|]. nra. }
  destruct (Rlt_dec 0 x) as [Hx|Hx].
  - rewrite cos_atan, sin_atan, sqrt_ratio by lra.
    rewrite Rabs_right by lra. fold d. split; field; lra.
  - destruct (Rlt_dec x 0) as [Hx'|Hx'].
    + destruct (Rle_dec 0 y) as [Hy|Hy].
      * rewrite neg_cos, neg_sin, cos_atan, sin_atan, sqrt_ratio by lra.
        rewrite Rabs_left by lra. fold d. split; field; lra.
      * replace (atan (y / x) - PI) with (atan (y / x) + PI - 2 * PI) by lra.
        assert (Ec : cos (atan (y / x) + PI - 2 * PI)
                     = cos (atan (y / x) + PI)).
        { rewrite <- (cos_period_Z (atan (y / x) + PI - 2 * PI) 1).
          f_equal. lra. }
        assert (Es : sin (atan (y / x) + PI - 2 * PI)
                     = sin (atan (y / x) + PI)).
        { rewrite <- (sin_period (atan (y / x) + PI - 2 * PI) 1).
          f_equal. simpl. lra. }
        rewrite Ec, Es.
        rewrite neg_cos, neg_sin, cos_atan, sin_atan, sqrt_ratio by lra.
        rewrite Rabs_left by lra. fold d. split; field; lra.
    + assert (Ex : x = 0) by lra. subst x.
      assert (Hy2 : y * y = d * d) by lra.
      destruct (Rlt_dec 0 y) as [Hy|Hy].
      * rewrite cos_PI2, sin_PI2. split; [lra|]. nra.
      * destruct (Rlt_dec y 0) as [Hy'|Hy'].
        -- rewrite cos_neg, sin_neg, cos_PI2, sin_PI2. split; [lra|]. nra.
        -- exfalso. assert (y = 0) by lra. subst y. nra.
Qed.

(** The angles whose cosine is at least [cos alpha] are those within
    [alpha] of a multiple of [2 * PI]. *)
Lemma cos_ge_arc phi alpha :
  0 <= alpha <= PI ->
  cos alpha <= cos phi <-> exists k : Z, Rabs (phi + 2 * PI * IZR k) <= alpha.
Proof.
  intros Ha. pose proof PI_RGT_0 as HPI. split.
  - intros Hc.
    set (r := (- PI - phi) / (2 * PI)).
    destruct (archimed r) as [U1 U2].
    assert (Er : r * (2 * PI) = - PI - phi) by (unfold r; field; lra).
    exists (up r).
    set (p := phi + 2 * PI * IZR (up r)).
    assert (Hp : - PI <= p <= PI) by (unfold p; nra).
    assert (Ecos : cos p = cos phi) by apply cos_period_Z.
    assert (Eabs : cos (Rabs p) = cos p).
    { unfold Rabs. destruct (Rcase_abs p); [apply cos_neg | reflexivity]. }
    assert (Habs : 0 <= Rabs p <= PI).
    { split; [apply Rabs_pos|]. apply Rabs_le_iff. lra. }
    apply (cos_decr_0 alpha (Rabs p)); try lra.
  - intros [k Hk].
    rewrite <- (cos_period_Z phi k).
    set (p := phi + 2 * PI * IZR k) in *.
    assert (Eabs : cos (Rabs p) = cos p).
    { unfold Rabs. destruct (Rcase_abs p); [apply cos_neg | reflexivity]. }
    rewrite <- Eabs. pose proof (Rabs_pos p).
    apply cos_decr_1; lra.
Qed.

Section Circles.

Variables (x y r : list R).

(** The squared distance from the point at angle [t] of circle [i] to the
    centre of circle [j]. *)
Definition circ_dist2 (i j : nat) (t : R) : R :=
  (nth i x 0 + nth i r 0 * cos t - nth j x 0)
  * (nth i x 0 + nth i r 0 * cos t - nth j x 0)
  + (nth i y 0 + nth i r 0 * sin t - nth j y 0)
    * (nth i y 0 + nth i r 0 * sin t - nth j y 0).

(** The point at angle [t] of circle [i] lies inside circle [j], or inside
    or on it. *)
Definition inside (i j : nat) (t : R) : Prop :=
  circ_dist2 i j t < nth j r 0 * nth j r 0.

Definition inside_or_on (i j : nat) (t : R) : Prop :=
  circ_dist2 i j t <= nth j r 0 * nth j r 0.

(** The distance of the centres, as the loop computes it. *)
Definition centre_dist (i j : nat) : R :=
  sqrt ((nth j x 0 - nth i x 0) * (nth j x 0 - nth i x 0)
        + (nth j y 0 - nth i y 0) * (nth j y 0 - nth i y 0)).

Lemma centre_dist_sqr i j :
  0 <= centre_dist i j
  /\ centre_dist i j * centre_dist i j
     = (nth j x 0 - nth i x 0) * (nth j x 0 - nth i x 0)
       + (nth j y 0 - nth i y 0) * (nth j y 0 - nth i y 0).
Proof.
  unfold centre_dist. split; [apply sqrt_pos|].
  apply sqrt_sqrt.
  pose proof (Rle_0_sqr (nth j x 0 - nth i x 0)) as H1.
  pose proof (Rle_0_sqr (nth j y 0 - nth i y 0)) as H2.
  unfold Rsqr in *. lra.
Qed.

Lemma circ_dist2_bounds i j t :
  let d := centre_dist i j in
  let ri := nth i r 0 in
  0 <= ri ->
  (d - ri) * (d - ri) <= circ_dist2 i j t <= (d + ri) * (d + ri).
Proof.
  intros d ri Hri. destruct (centre_dist_sqr i j) as [Hd Hsq]. fold d in Hd, Hsq.
  unfold circ_dist2. fold ri.
  set (xij := nth j x 0 - nth i x 0) in *.
  set (yij := nth j y 0 - nth i y 0) in *.
  set (c := cos t). set (s := sin t).
  assert (Hcs : s * s + c * c = 1)
    by (pose proof (sin2_cos2 t) as H; unfold Rsqr in H; exact H).
  set (u := xij * c + yij * s).
  assert (Hu : u * u <= d * d).
  { assert (E : u * u + (xij * s - yij * c) * (xij * s - yij * c)
                = (xij * xij + yij * yij) * (s * s + c * c))
      by (unfold u; ring).
    rewrite Hcs, <- Hsq in E.
    pose proof (Rle_0_sqr (xij * s - yij * c)) as H. unfold Rsqr in H. lra. }
  assert (Hu' : - d <= u <= d) by nra.
  replace ((nth i x 0 + ri * c - nth j x 0) * (nth i x 0 + ri * c - nth j x 0)
           + (nth i y 0 + ri * s - nth j y 0)
             * (nth i y 0 + ri * s - nth j y 0))
    with (ri * ri * (s * s + c * c) - 2 * ri * u + (xij * xij + yij * yij))
    by (unfold u, xij, yij; ring).
  rewrite Hcs, <- Hsq. nra.
Qed.

Lemma circ_dist2_polar i j t :
  let d := centre_dist i j in
  let ri := nth i r 0 in
  let beta := atan2 (nth j y 0 - nth i y 0) (nth j x 0 - nth i x 0) in
  0 < d ->
  circ_dist2 i j t = ri * ri + d * d - 2 * ri * d * cos (t - beta).
Proof.
  intros d ri beta Hd.
  destruct (atan2_polar (nth j x 0 - nth i x 0) (nth j y 0 - nth i y 0) Hd)
    as [Ex Ey].
  fold (centre_dist i j) in Ex, Ey. fold d beta in Ex, Ey.
  unfold circ_dist2. fold ri. rewrite cos_minus.
  set (c := cos t). set (s := sin t).
  set (cb := cos beta) in *. set (sb := sin beta) in *.
  assert (Hcs : s * s + c * c = 1)
    by (pose proof (sin2_cos2 t) as H; unfold Rsqr in H; exact H).
  assert (Hcb : sb * sb + cb * cb = 1)
    by (pose proof (sin2_cos2 beta) as H; unfold Rsqr in H; exact H).
  replace (nth i x 0 + ri * c - nth j x 0)
    with (ri * c - (nth j x 0 - nth i x 0)) by ring.
  replace (nth i y 0 + ri * s - nth j y 0)
    with (ri * s - (nth j y 0 - nth i y 0)) by ring.
  rewrite Ex, Ey.
  replace ((ri * c - d * cb) * (ri * c - d * cb)
           + (ri * s - d * sb) * (ri * s - d * sb))
    with (ri * ri * (s * s + c * c) + d * d * (sb * sb + cb * cb)
          - 2 * ri * d * (c * cb + s * sb)) by ring.
  rewrite Hcs, Hcb. ring.
Qed.

(** The arc that [sasa_exposed_arcs] records for the neighbour [j] of [i]
    is the part of circle [i] that lies inside or on circle [j]. *)
Lemma arc_is_disc i j t :
  let d := centre_dist i j in
  let ri := nth i r 0 in
  let rj := nth j r 0 in
  let alpha := acos ((ri * ri + d * d - rj * rj) / (2 * ri * d)) in
  let beta := atan2 (nth j y 0 - nth i y 0) (nth j x 0 - nth i x 0) in
  0 < ri -> 0 < d -> d < ri + rj -> rj <= d + ri -> ri <= d + rj ->
  on_arc beta alpha t <-> inside_or_on i j t.
Proof.
  intros d ri rj alpha beta Hri Hd H1 H2 H3.
  set (c := (ri * ri + d * d - rj * rj) / (2 * ri * d)) in *.
  assert (Hpos : 0 < 2 * ri * d) by nra.
  assert (Ec : c * (2 * ri * d) = ri * ri + d * d - rj * rj)
    by (unfold c; field; lra).
  assert (Hc : -1 <= c <= 1).
  { split.
    - apply Rmult_le_reg_r with (r := 2 * ri * d); [exact Hpos|]. nra.
    - apply Rmult_le_reg_r with (r := 2 * ri * d); [exact Hpos|]. nra. }
  pose proof (acos_bound c) as Hb. fold alpha in Hb.
  assert (Eca : cos alpha = c) by (apply cos_acos; exact Hc).
  unfold inside_or_on. rewrite (circ_dist2_polar i j t Hd).
  fold d ri rj beta.
  unfold on_arc.
  assert (Hiff : (exists k : Z, Rabs (t + 2 * PI * IZR k - beta) <= alpha)
                 <-> cos alpha <= cos (t - beta)).
  { rewrite (cos_ge_arc (t - beta) alpha Hb).
    split; intros [k Hk]; exists k;
      [replace (t - beta + 2 * PI * IZR k) with (t + 2 * PI * IZR k - beta)
         by lra
      |replace (t + 2 * PI * IZR k - beta) with (t - beta + 2 * PI * IZR k)
         by lra]; exact Hk. }
  rewrite Hiff, Eca. split; intros H.
  - assert (c * (2 * ri * d) <= cos (t - beta) * (2 * ri * d))
      by (apply Rmult_le_compat_r; lra).
    lra.
  - apply Rmult_le_reg_r with (r := 2 * ri * d); [exact Hpos|]. lra.
Qed.

Lemma centre_dist_sym i j : centre_dist i j = centre_dist j i.
Proof. unfold centre_dist. f_equal. ring. Qed.

(** A circle that lies inside another one, with room to spare. *)
Lemma inside_whole i j t :
  0 <= nth i r 0 -> centre_dist i j + nth i r 0 < nth j r 0 ->
  inside i j t.
Proof.
  intros Hri H. unfold inside.
  destruct (circ_dist2_bounds i j t Hri) as [_ Hub].
  destruct (centre_dist_sqr i j) as [Hd _]. nra.
Qed.

(** No point of circle [i] is inside a circle [j] that is far away or
    that lies inside circle [i]. *)
Lemma inside_none i j t :
  0 <= nth i r 0 -> 0 <= nth j r 0 ->
  centre_dist i j >= nth i r 0 + nth j r 0
  \/ centre_dist i j + nth j r 0 <= nth i r 0 ->
  ~ inside i j t.
Proof.
  intros Hri Hrj H. unfold inside.
  destruct (circ_dist2_bounds i j t Hri) as [Hlb _].
  destruct (centre_dist_sqr i j) as [Hd _].
  destruct H as [H|H]; nra.
Qed.

(** The arcs gathered so far cover [t]; an entry [None] is a half-width
    that is not a number. *)
Definition ocovered (a : list (option R)) (b : list R) (t : R) : Prop :=
  exists p al, nth_error a p = Some (Some al) /\ on_arc (nth p b 0) al t.

Lemma ocovered_snoc a b o be t :
  length a = length b ->
  ocovered (a ++ [o]) (b ++ [be]) t
  <-> ocovered a b t \/ exists al, o = Some al /\ on_arc be al t.
Proof.
  intros Hlen. unfold ocovered. split.
  - intros (p & al & Hp & Hon).
    destruct (Nat.lt_ge_cases p (length a)) as [Hlt|Hge].
    + left. exists p, al. rewrite nth_error_app1 in Hp by exact Hlt.
      rewrite app_nth1 in Hon by lia. auto.
    + right. rewrite nth_error_app2 in Hp by exact Hge.
      rewrite app_nth2 in Hon by lia.
      destruct (p - length a)%nat as [|q] eqn:Eq;
        [|destruct q; discriminate].
      simpl in Hp. injection Hp as ->.
      replace (p - length b)%nat with O in Hon by lia.
      exists al. auto.
  - intros [(p & al & Hp & Hon)|(al & -> & Hon)].
    + assert (Hlt : (p < length a)%nat)
        by (apply nth_error_Some; congruence).
      exists p, al. rewrite nth_error_app1 by exact Hlt.
      rewrite app_nth1 by lia. auto.
    + exists (length a), al.
      rewrite nth_error_app2, Nat.sub_diag by lia.
      rewrite app_nth2, Hlen, Nat.sub_diag by lia. auto.
Qed.

Lemma ocovered_numbers a' b t :
  ocovered (map Some a') b t <-> covered (length a') a' b t.
Proof.
  unfold ocovered, covered. split.
  - intros (p & al & Hp & Hon).
    rewrite nth_error_map in Hp.
    destruct (nth_error a' p) as [v|] eqn:E; [|discriminate].
    injection Hp as <-.
    exists p. split; [apply nth_error_Some; congruence|].
    rewrite (nth_error_nth _ _ 0 E). exact Hon.
  - intros (p & Hp & Hon).
    exists p, (nth p a' 0). split; [|exact Hon].
    rewrite nth_error_map, (nth_error_nth' _ 0 Hp). reflexivity.
Qed.

(** What the loop over the neighbours of circle [i] gathers. *)
Lemma arcs_geom i js : forall st st',
  0 < nth i r 0 -> (forall j, In j js -> 0 < nth j r 0) ->
  length (ar_a st) = length (ar_b st) ->
  (i < length (ar_buried st))%nat ->
  arcs_of_neighbours x y r i js st = Ok st' ->
  length (ar_a st') = length (ar_b st')
  /\ length (ar_buried st') = length (ar_buried st)
  /\ (forall m, nth m (ar_buried st') false = true ->
        nth m (ar_buried st) false = true
        \/ (In m js /\ centre_dist i m + nth m r 0 < nth i r 0)
        \/ (m = i /\ exists j, In j js
                       /\ centre_dist i j + nth i r 0 < nth j r 0))
  /\ (nth i (ar_buried st') false = false ->
      forall t,
        (ocovered (ar_a st') (ar_b st') t ->
         ocovered (ar_a st) (ar_b st) t
         \/ exists j, In j js /\ inside_or_on i j t)
        /\ (ocovered (ar_a st) (ar_b st) t
            \/ (exists j, In j js /\ inside i j t) ->
            ocovered (ar_a st') (ar_b st') t)).
Proof.
  induction js as [|j js IH]; intros st st' Hri Hr Hlen Hib H.
  - simpl in H. injection H as <-.
    split; [exact Hlen|]. split; [reflexivity|]. split; [auto|].
    intros _ t. split; [auto|]. intros [Hc|(j & [] & _)]. exact Hc.
  - cbn [arcs_of_neighbours] in H.
    destruct (Nat.eqb i j); [discriminate|]. cbn [negb assert bind] in H.
    fold (centre_dist i j) in H.
    set (d := centre_dist i j) in *.
    set (ri := nth i r 0) in *. set (rj := nth j r 0) in *.
    assert (Hrj : 0 < rj) by (apply Hr; left; reflexivity).
    assert (Hr' : forall m, In m js -> 0 < nth m r 0)
      by (intros m Hm; apply Hr; right; exact Hm).
    destruct (centre_dist_sqr i j) as [Hd0 _]. fold d in Hd0.
    destruct (Rgeb d (ri + rj)) eqn:E1.
    { apply Rgeb_true in E1.
      destruct (IH st st' Hri Hr' Hlen Hib H) as (A & B & C & D).
      split; [exact A|]. split; [exact B|]. split.
      - intros m Hm. destruct (C m Hm) as [C1|[(C1 & C2)|(C1 & k & C2 & C3)]];
          [auto | right; left; split; [right|]; auto |].
        right; right. split; [exact C1|]. exists k. split; [right|]; auto.
      - intros Hb t. destruct (D Hb t) as [D1 D2]. split.
        + intros Hc. destruct (D1 Hc) as [|(k & Hk & Hin)]; [auto|].
          right. exists k. split; [right|]; auto.
        + intros [Hc|(k & [<-|Hk] & Hin)].
          * apply D2. auto.
          * exfalso. revert Hin. apply inside_none; fold ri rj d; lra.
          * apply D2. right. exists k. auto. }
    apply Rgeb_false in E1.
    destruct (Rltb (d + ri) rj) eqn:E2.
    { apply Rltb_true in E2. injection H as <-. cbn [ar_a ar_b ar_buried].
      split; [exact Hlen|]. split; [apply upd_length|]. split.
      - intros m Hm. rewrite nth_upd in Hm.
        destruct (Nat.eqb_spec i m) as [Heq|Hne]; simpl in Hm; [|auto].
        right; right. split; [symmetry; exact Heq|]. exists j.
        split; [left; reflexivity | exact E2].
      - rewrite nth_upd_same by exact Hib. discriminate. }
    apply Rltb_false in E2.
    destruct (Rltb (d + rj) ri) eqn:E3.
    { apply Rltb_true in E3.
      assert (Hib' : (i < length (upd j true (ar_buried st)))%nat)
        by (rewrite upd_length; exact Hib).
      destruct (IH {| ar_a := ar_a st; ar_b := ar_b st;
                      ar_buried := upd j true (ar_buried st) |}
                  st' Hri Hr' Hlen Hib' H) as (A & B & C & D).
      cbn [ar_a ar_b ar_buried] in *. rewrite upd_length in B.
      split; [exact A|]. split; [exact B|]. split.
      - intros m Hm. destruct (C m Hm) as [C1|[(C1 & C2)|(C1 & k & C2 & C3)]].
        + rewrite nth_upd in C1.
          destruct (Nat.eqb_spec j m) as [Heq|Hne]; simpl in C1; [|auto].
          destruct (j <? length (ar_buried st))%nat; [|auto].
          right; left. rewrite <- Heq. split; [left; reflexivity | exact E3].
        + right; left; split; [right|]; auto.
        + right; right. split; [exact C1|]. exists k. split; [right|]; auto.
      - intros Hb t. destruct (D Hb t) as [D1 D2]. split.
        + intros Hc. destruct (D1 Hc) as [|(k & Hk & Hin)]; [auto|].
          right. exists k. split; [right|]; auto.
        + intros [Hc|(k & [<-|Hk] & Hin)].
          * apply D2. auto.
          * exfalso. revert Hin. apply inside_none; fold ri rj d; lra.
          * apply D2. right. exists k. auto. }
    apply Rltb_false in E3.
    assert (Hlen' : length (ar_a st ++ [option_map acos
                      (fdiv (ri * ri + d * d - rj * rj) (2 * ri * d))])
                    = length (ar_b st ++ [atan2 (nth j y 0 - nth i y 0)
                                            (nth j x 0 - nth i x 0)]))
      by (rewrite !length_app, Hlen; reflexivity).
    destruct (IH {| ar_a := ar_a st ++ [option_map acos
                      (fdiv (ri * ri + d * d - rj * rj) (2 * ri * d))];
                    ar_b := ar_b st ++ [atan2 (nth j y 0 - nth i y 0)
                                          (nth j x 0 - nth i x 0)];
                    ar_buried := ar_buried st |}
                st' Hri Hr' Hlen' Hib H) as (A & B & C & D).
    cbn [ar_a ar_b ar_buried] in *.
    split; [exact A|]. split; [exact B|]. split.
    + intros m Hm. destruct (C m Hm) as [C1|[(C1 & C2)|(C1 & k & C2 & C3)]];
        [auto | right; left; split; [right|]; auto |].
      right; right. split; [exact C1|]. exists k. split; [right|]; auto.
    + intros Hb t. destruct (D Hb t) as [D1 D2].
      assert (Harc : forall al,
        fdiv (ri * ri + d * d - rj * rj) (2 * ri * d) = Some al ->
        (on_arc (atan2 (nth j y 0 - nth i y 0) (nth j x 0 - nth i x 0))
           (acos al) t <-> inside_or_on i j t)).
      { intros al Hal. unfold fdiv in Hal.
        destruct (Req_dec_T (2 * ri * d) 0) as [|Hnz]; [discriminate|].
        injection Hal as <-.
        assert (Hd : 0 < d).
        { destruct (Req_dec d 0) as [Hz|Hz]; [|lra].
          exfalso. apply Hnz. rewrite Hz. ring. }
        apply (arc_is_disc i j t); fold ri rj d; lra. }
      split.
      * intros Hc. destruct (D1 Hc) as [Hc'|(k & Hk & Hin)].
        -- apply ocovered_snoc in Hc'; [|exact Hlen].
           destruct Hc' as [|(al & Eal & Hon)]; [auto|].
           right. exists j. split; [left; reflexivity|].
           destruct (fdiv _ _) as [q|] eqn:Eq; [|discriminate].
           simpl in Eal. injection Eal as <-.
           apply (Harc q eq_refl). exact Hon.
        -- right. exists k. split; [right|]; auto.
      * intros Hor. apply D2.
        destruct Hor as [Hc|(k & [<-|Hk] & Hin)].
        -- left. apply ocovered_snoc; [exact Hlen|]. auto.
        -- left. apply ocovered_snoc; [exact Hlen|]. right.
           destruct (fdiv _ _) as [q|] eqn:Eq.
           ++ exists (acos q). split; [reflexivity|].
              apply (Harc q eq_refl). unfold inside_or_on.
              unfold inside in Hin. lra.
           ++ exfalso. unfold fdiv in Eq.
              destruct (Req_dec_T (2 * ri * d) 0) as [Hz|]; [|discriminate].
              assert (d = 0) by nra.
              revert Hin. apply inside_none; fold ri rj d; lra.
        -- right. exists k. auto.
Qed.

(** The neighbours of circle [i] that the loop goes through. *)
Definition nbrs (nb : list (list nat)) (nn : list nat) (i : nat)
  : list nat :=
  map (fun ni => nth ni (nth i nb []) O) (seq 0 (nth i nn O)).

(** What the entry [v] of circle [i] says about the circle and its
    neighbours [js].  Either [v] is 0 and every point of the circle is
    inside or on a neighbour; or there are pairwise disjoint arcs that
    contain every point inside a neighbour and only points inside or on a
    neighbour, and [v] is [2 * PI] less their total length. *)
Definition exposed_part (js : list nat) (i : nat) (v : R) : Prop :=
  (v = 0 /\ forall t, exists j, In j js /\ inside_or_on i j t)
  \/ exists m a' b',
       length a' = m /\ length b' = m
       /\ (forall p, (p < m)%nat -> 0 < nth p a' 0)
       /\ (forall p q, (p < m)%nat -> (q < m)%nat -> p <> q ->
             arcs_disjoint a' b' p q)
       /\ (forall t, (exists j, In j js /\ inside i j t) ->
             covered m a' b' t)
       /\ (forall t, covered m a' b' t ->
             exists j, In j js /\ inside_or_on i j t)
       /\ v = 2 * PI - sumn (fun p => 2 * nth p a' 0) m.

(** Every mark in [is_completely_buried] is justified by a neighbour that
    contains the marked circle. *)
Definition marks_ok (nb : list (list nat)) (nn : list nat)
  (bur : list bool) : Prop :=
  forall m, nth m bur false = true ->
    exists j, In j (nbrs nb nn m)
              /\ centre_dist m j + nth m r 0 < nth j r 0.

Lemma marks_buried nb nn bur i :
  0 < nth i r 0 -> marks_ok nb nn bur -> nth i bur false = true ->
  exposed_part (nbrs nb nn i) i 0.
Proof.
  intros Hri Hm Hb. left. split; [reflexivity|]. intros t.
  destruct (Hm i Hb) as (j & Hj & Hd). exists j. split; [exact Hj|].
  assert (H : inside i j t) by (apply inside_whole; lra).
  unfold inside in H. unfold inside_or_on. lra.
Qed.

Section Neighbours.

Variables (nb : list (list nat)) (nn : list nat) (n : nat).

Hypothesis Hr : forall i, (i < n)%nat -> 0 < nth i r 0.
Hypothesis Hvalid :
  forall i j, (i < n)%nat -> In j (nbrs nb nn i) -> (j < n)%nat.
Hypothesis Hsym :
  forall i j, (i < n)%nat -> In j (nbrs nb nn i) -> In i (nbrs nb nn j).

Lemma exposed_arc_step_geom fuel i e bur e' bur' :
  (i < n)%nat -> length e = n -> length bur = n -> marks_ok nb nn bur ->
  exposed_arc_step fuel x y r nb nn i (e, bur) = Ok (e', bur') ->
  length e' = n /\ length bur' = n /\ marks_ok nb nn bur'
  /\ exposed_part (nbrs nb nn i) i (nth i e' 0)
  /\ forall k, k <> i -> nth k e' 0 = nth k e 0.
Proof.
  intros Hi He Hbur Hm H. unfold exposed_arc_step in H.
  fold (nbrs nb nn i) in H.
  assert (Hri : 0 < nth i r 0) by (apply Hr; exact Hi).
  destruct (nth i bur false) eqn:Eb.
  { injection H as <- <-. rewrite upd_length.
    split; [exact He|]. split; [exact Hbur|]. split; [exact Hm|]. split.
    - rewrite nth_upd_same by lia. eapply marks_buried; eauto.
    - intros k Hk. apply nth_upd_other. congruence. }
  destruct (arcs_of_neighbours _ _ _ _ _ _) as [st'| |] eqn:En;
    cbn [bind] in H; try discriminate.
  assert (Hrj : forall j, In j (nbrs nb nn i) -> 0 < nth j r 0)
    by (intros j Hj; apply Hr; eapply Hvalid; eauto).
  destruct (arcs_geom i (nbrs nb nn i)
              {| ar_a := []; ar_b := []; ar_buried := bur |} st'
              Hri Hrj eq_refl ltac:(cbn [ar_buried]; lia) En)
    as (A & B & C & D).
  cbn [ar_a ar_b ar_buried] in A, B, C, D.
  assert (Hm' : marks_ok nb nn (ar_buried st')).
  { intros m Hmk.
    destruct (C m Hmk) as [C1|[(C1 & C2)|(-> & j & C2 & C3)]].
    - apply Hm. exact C1.
    - exists i. split; [apply Hsym; assumption|].
      rewrite centre_dist_sym. exact C2.
    - exists j. auto. }
  assert (Hnone : forall t, ~ ocovered [] [] t).
  { intros t (p & al & Hp & _). destruct p; discriminate. }
  destruct (nth i (ar_buried st') false) eqn:Eb'; cbn [negb] in H.
  { injection H as <- <-. rewrite upd_length.
    split; [exact He|]. split; [lia|]. split; [exact Hm'|]. split.
    - rewrite nth_upd_same by lia. eapply marks_buried; eauto.
    - intros k Hk. apply nth_upd_other. congruence. }
  destruct (sum_angles_call _ _ _) as [v| |] eqn:Ev; cbn [bind] in H;
    try discriminate.
  injection H as <- <-. rewrite !upd_length.
  split; [exact He|]. split; [lia|]. split; [exact Hm'|]. split.
  - rewrite nth_upd_same by (rewrite upd_length; lia).
    unfold sum_angles_call in Ev.
    destruct (all_numbers (ar_a st')) as [a'|] eqn:Ea; [|discriminate].
    apply all_numbers_some in Ea.
    assert (Hlb : length (ar_b st') = length a')
      by (rewrite <- A, Ea, length_map; reflexivity).
    assert (Hcov : forall t,
      (covered (length a') a' (ar_b st') t ->
       exists j, In j (nbrs nb nn i) /\ inside_or_on i j t)
      /\ ((exists j, In j (nbrs nb nn i) /\ inside i j t) ->
          covered (length a') a' (ar_b st') t)).
    { intros t. destruct (D eq_refl t) as [D1 D2]. rewrite Ea in D1, D2.
      split.
      - intros Hc. apply ocovered_numbers in Hc.
        destruct (D1 Hc) as [Hf|Hj]; [|exact Hj].
        exfalso. exact (Hnone t Hf).
      - intros Hj. apply ocovered_numbers. apply D2. right. exact Hj. }
    destruct (sum_angles_cover fuel (length a') a' (ar_b st') v
                eq_refl Hlb Ev) as [[Hv Hfull]|Hfam].
    + left. split; [exact Hv|]. intros t. apply Hcov. apply Hfull.
    + right. destruct Hfam as (m & a2 & b2 & L1 & L2 & P & Dj & Cv & Evv).
      exists m, a2, b2. do 4 (split; [assumption|]).
      split; [|split; [|exact Evv]].
      * intros t Hj. apply Cv. apply Hcov. exact Hj.
      * intros t Hc. apply Hcov. apply Cv. exact Hc.
  - intros k Hk. rewrite !nth_upd_other by congruence. reflexivity.
Qed.

Lemma exposed_arcs_fold fuel ea0 : forall k st,
  (k <= n)%nat -> length ea0 = n ->
  foldM (exposed_arc_step fuel x y r nb nn) (seq 0 k)
    (ea0, repeat false n) = Ok st ->
  length (fst st) = n /\ length (snd st) = n /\ marks_ok nb nn (snd st)
  /\ forall i, (i < k)%nat ->
       exposed_part (nbrs nb nn i) i (nth i (fst st) 0).
Proof.
  induction k as [|k IH]; intros st Hk He H.
  - simpl in H. injection H as <-. cbn [fst snd].
    split; [exact He|]. split; [apply repeat_length|]. split; [|lia].
    intros m Hm. exfalso.
    destruct (Nat.lt_ge_cases m n) as [Hlt|Hge].
    + rewrite nth_repeat_lt in Hm by exact Hlt. discriminate.
    + rewrite nth_overflow in Hm by (rewrite repeat_length; exact Hge).
      discriminate.
  - rewrite seq_S, foldM_app in H. cbn [Nat.add] in H.
    destruct (foldM _ (seq 0 k) _) as [[e bur]| |] eqn:E; cbn [bind] in H;
      try discriminate.
    destruct (IH (e, bur) ltac:(lia) He eq_refl) as (L1 & L2 & M & Q).
    cbn [fst snd] in L1, L2, M, Q.
    cbn [foldM] in H.
    destruct (exposed_arc_step fuel x y r nb nn k (e, bur))
      as [[e' bur']| |] eqn:Es; cbn [bind] in H; try discriminate.
    injection H as <-. cbn [fst snd].
    destruct (exposed_arc_step_geom fuel k e bur e' bur'
                ltac:(lia) L1 L2 M Es) as (A & B & C & D & F).
    split; [exact A|]. split; [exact B|]. split; [exact C|].
    intros i Hi. destruct (Nat.eq_dec i k) as [->|Hne]; [exact D|].
    rewrite F by exact Hne. apply Q. lia.
Qed.

End Neighbours.

End Circles.


End LRMore.

(** * nb.c on inputs that doubles treat exactly *)

Module NBProps.
Import NB NBFacts NBMore.

(** ** Inputs of the neighbour list that doubles treat exactly *)

(** The coordinates and the radii are [fixed], every radius is at least 1
    and there are at most 1000 atoms.  Then the differences of
    coordinates, their squares, the sums of three squares and the squared
    cutoffs [(ri + rj)^2] are computed by the doubles of the code without
    rounding, so the contact test decides as over the reals; the cell size
    is at least 2, the bounds of the grid are exact, the quotients handed
    to [ceil] and to the conversion to [int] give the integers of the exact
    quotients, and the grid has at most [65^3] cells, far below the range
    of an [int]. *)
Definition exact_input (crd : coord) (radii : list R) : Prop :=
  Forall fixed (coord_all crd)
  /\ Forall (fun r => fixed r /\ 1 <= r) radii
  /\ (coord_n crd <= 1000)%nat.

Lemma exact_input_pos crd radii :
  exact_input crd radii -> Forall (fun r => 0 < r) radii.
Proof.
  intros (_ & Hr & _). eapply Forall_impl; [|exact Hr].
  intros r [_ H]. lra.
Qed.

Ltac fixed_num := apply fixed_IZR; simpl; lia.

Lemma skew_atoms_exact : exact_input skew_atoms [1; 1].
Proof.
  split; [|split].
  - cbn [skew_atoms coord_all Coord.xyz]. repeat constructor; fixed_num.
  - repeat constructor; try fixed_num; lra.
  - rewrite skew_atoms_n. lia.
Qed.

Lemma skew_atoms_valid :
  (1 <= coord_n skew_atoms)%nat /\ length [1; 1] = coord_n skew_atoms
  /\ Forall (fun r => 0 < r) [1; 1].
Proof.
  split; [rewrite skew_atoms_n; lia|]. split; [reflexivity|].
  repeat constructor; lra.
Qed.

(** The list of the two atoms [skew_atoms]: each atom is listed for the
    other. *)
Lemma skew_atoms_list :
  exists adj,
    freesasa_nb_new (Some skew_atoms) (Some [1; 1]) = Ok (Some adj)
    /\ In 1%nat (nth 0 (nb adj) []) /\ In 0%nat (nth 1 (nb adj) [])
    /\ freesasa_nb_contact adj 0 1 = Ok 1%Z.
Proof.
  destruct skew_atoms_valid as (H1 & H2 & H3).
  destruct (contact_correctness skew_atoms [1; 1] H1 H2 H3)
    as ((adj & E & H) & _).
  exists adj. split; [exact E|].
  assert (L0 : (0 < coord_n skew_atoms)%nat) by (rewrite skew_atoms_n; lia).
  assert (L1 : (1 < coord_n skew_atoms)%nat) by (rewrite skew_atoms_n; lia).
  pose proof skew_atoms_contact as C01.
  assert (C10 : in_contact (coord_all skew_atoms) [1; 1] 1 0)
    by (apply in_contact_sym; exact C01).
  destruct (H 0%nat 1%nat L0 L1 ltac:(lia)) as [A1 A2].
  destruct (H 1%nat 0%nat L1 L0 ltac:(lia)) as [B1 _].
  split; [apply A1; exact C01|]. split; [apply B1; exact C10|].
  apply A2. exact C01.
Qed.

(** C1.  For [N >= 1] atoms whose coordinates and contact radii doubles
    treat exactly ([exact_input]; in particular the radii are strictly
    positive), the list built by [freesasa_nb_new] and the list built by
    [sasa_get_contacts] hold [j] in [nb[i]], for [i <> j], exactly when the
    distance between the centres of [i] and [j] is strictly less than
    [R_i + R_j]. *)
Theorem C1_contact_correctness (crd : coord) (radii : list R) :
  let n := coord_n crd in
  let v := coord_all crd in
  (1 <= n)%nat -> length radii = n -> exact_input crd radii ->
  (exists adj,
     freesasa_nb_new (Some crd) (Some radii) = Ok (Some adj)
     /\ forall i j, (i < n)%nat -> (j < n)%nat -> i <> j ->
          (In j (nth i (nb adj) []) <-> in_contact v radii i j)
          /\ (freesasa_nb_contact adj i j = Ok 1%Z
              <-> in_contact v radii i j))
  /\ (forall i j, (i < n)%nat -> (j < n)%nat -> i <> j ->
        In j (nth i (fst (LR.sasa_get_contacts crd radii)) [])
        <-> in_contact v radii i j).
Proof.
  intros n v Hn Hlen Hex.
  exact (contact_correctness crd radii Hn Hlen
           (exact_input_pos crd radii Hex)).
Qed.

Lemma C1_witness :
  ((1 <= coord_n skew_atoms)%nat /\ length [1; 1] = coord_n skew_atoms
   /\ exact_input skew_atoms [1; 1])
  /\ in_contact (coord_all skew_atoms) [1; 1] 0 1
  /\ (exists adj,
        freesasa_nb_new (Some skew_atoms) (Some [1; 1]) = Ok (Some adj)
        /\ In 1%nat (nth 0 (nb adj) [])
        /\ freesasa_nb_contact adj 0 1 = Ok 1%Z)
  /\ In 1%nat (nth 0 (fst (LR.sasa_get_contacts skew_atoms [1; 1])) []).
Proof.
  destruct skew_atoms_valid as (H1 & H2 & _).
  pose proof skew_atoms_exact as H3.
  pose proof skew_atoms_contact as C01.
  assert (L0 : (0 < coord_n skew_atoms)%nat) by (rewrite skew_atoms_n; lia).
  assert (L1 : (1 < coord_n skew_atoms)%nat) by (rewrite skew_atoms_n; lia).
  split; [split; [exact H1 | split; [exact H2 | exact H3]]|].
  split; [exact C01|].
  destruct (C1_contact_correctness skew_atoms [1; 1] H1 H2 H3)
    as ((adj & E & H) & G).
  split.
  - exists adj. split; [exact E|].
    destruct (H 0%nat 1%nat L0 L1 ltac:(lia)) as [A1 A2].
    split; [apply A1 | apply A2]; exact C01.
  - apply (G 0%nat 1%nat L0 L1 ltac:(lia)). exact C01.
Defined.

(** C4.  One call of [nb_add_pair] appends [j] to the list of [i] and [i]
    to the list of [j], with [dx], [dy] on the side of [i], [-dx], [-dy] on
    the side of [j] and the same [sqrt (dx^2 + dy^2)] on both sides.  In
    every list that [freesasa_nb_new] returns: [j] is in [nb[i]] exactly
    when [i] is in [nb[j]], no atom is its own neighbour, the parallel
    arrays have [nn[i]] entries, every entry has a reciprocal one, and at
    reciprocal positions [k], [k'] the entries of [nb_xd] and of [nb_yd]
    are opposite while those of [nb_xyd] are equal, to
    [sqrt (nb_xd[i][k]^2 + nb_yd[i][k]^2)]. *)
Theorem C4_adjacency_symmetry (crd : coord) (radii : list R) :
  let n := coord_n crd in
  (1 <= n)%nat -> length radii = n -> Forall (fun r => 0 < r) radii ->
  (forall adj i j dx dy,
     i <> j ->
     (i < length (nb adj))%nat -> (j < length (nb adj))%nat ->
     length (nb_xd adj) = length (nb adj) ->
     length (nb_yd adj) = length (nb adj) ->
     length (nb_xyd adj) = length (nb adj) ->
     exists adj',
       nb_add_pair adj i j dx dy = Ok adj'
       /\ nth i (nb adj') [] = nth i (nb adj) [] ++ [j]
       /\ nth j (nb adj') [] = nth j (nb adj) [] ++ [i]
       /\ nth i (nb_xd adj') [] = nth i (nb_xd adj) [] ++ [dx]
       /\ nth j (nb_xd adj') [] = nth j (nb_xd adj) [] ++ [- dx]
       /\ nth i (nb_yd adj') [] = nth i (nb_yd adj) [] ++ [dy]
       /\ nth j (nb_yd adj') [] = nth j (nb_yd adj) [] ++ [- dy]
       /\ nth i (nb_xyd adj') [] = nth i (nb_xyd adj) []
                                    ++ [sqrt (dx * dx + dy * dy)]
       /\ nth j (nb_xyd adj') [] = nth j (nb_xyd adj) []
                                    ++ [sqrt (dx * dx + dy * dy)])
  /\ forall adj,
       freesasa_nb_new (Some crd) (Some radii) = Ok (Some adj) ->
       forall i, (i < n)%nat ->
            ~ In i (nth i (nb adj) [])
            /\ length (nth i (nb adj) []) = nth i (nn adj) O
            /\ length (nth i (nb_xd adj) []) = nth i (nn adj) O
            /\ length (nth i (nb_yd adj) []) = nth i (nn adj) O
            /\ length (nth i (nb_xyd adj) []) = nth i (nn adj) O
            /\ forall j, (j < n)%nat ->
                 (In j (nth i (nb adj) []) <-> In i (nth j (nb adj) []))
                 /\ forall k, (k < nth i (nn adj) O)%nat ->
                      nth k (nth i (nb adj) []) O = j ->
                      let xd := nth k (nth i (nb_xd adj) []) 0 in
                      let yd := nth k (nth i (nb_yd adj) []) 0 in
                      let xyd := nth k (nth i (nb_xyd adj) []) 0 in
                      xyd = sqrt (xd * xd + yd * yd)
                      /\ (exists k', (k' < nth j (nn adj) O)%nat
                                     /\ nth k' (nth j (nb adj) []) O = i)
                      /\ forall k', (k' < nth j (nn adj) O)%nat ->
                           nth k' (nth j (nb adj) []) O = i ->
                           xd = - nth k' (nth j (nb_xd adj) []) 0
                           /\ yd = - nth k' (nth j (nb_yd adj) []) 0
                           /\ xyd = nth k' (nth j (nb_xyd adj) []) 0.
Proof.
  intros n Hn Hlen Hpos.
  destruct (adjacency_symmetry crd radii Hn Hlen Hpos) as (A & adj0 & E0 & H).
  split; [exact A|]. intros adj E.
  assert (adj = adj0) as -> by congruence. exact H.
Qed.

(** For [skew_atoms] the list of atom 0 holds atom 1 at some position [k],
    the list of atom 1 holds atom 0 at some position [k'], and the
    differences stored there are opposite. *)
Lemma C4_witness :
  ((1 <= coord_n skew_atoms)%nat /\ length [1; 1] = coord_n skew_atoms
   /\ Forall (fun r => 0 < r) [1; 1])
  /\ exists adj,
       freesasa_nb_new (Some skew_atoms) (Some [1; 1]) = Ok (Some adj)
       /\ (In 1%nat (nth 0 (nb adj) []) <-> In 0%nat (nth 1 (nb adj) []))
       /\ ~ In 0%nat (nth 0 (nb adj) [])
       /\ exists k k',
            (k < nth 0 (nn adj) O)%nat /\ nth k (nth 0 (nb adj) []) O = 1%nat
            /\ (k' < nth 1 (nn adj) O)%nat
            /\ nth k' (nth 1 (nb adj) []) O = 0%nat
            /\ nth k (nth 0 (nb_xd adj) []) 0
               = - nth k' (nth 1 (nb_xd adj) []) 0
            /\ nth k (nth 0 (nb_yd adj) []) 0
               = - nth k' (nth 1 (nb_yd adj) []) 0
            /\ nth k (nth 0 (nb_xyd adj) []) 0
               = nth k' (nth 1 (nb_xyd adj) []) 0.
Proof.
  destruct skew_atoms_valid as (H1 & H2 & H3).
  split; [repeat split; assumption|].
  destruct skew_atoms_list as (adj & E & I01 & I10 & _).
  assert (L0 : (0 < coord_n skew_atoms)%nat) by (rewrite skew_atoms_n; lia).
  assert (L1 : (1 < coord_n skew_atoms)%nat) by (rewrite skew_atoms_n; lia).
  destruct (C4_adjacency_symmetry skew_atoms [1; 1] H1 H2 H3) as (_ & H).
  destruct (H adj E 0%nat L0) as (S0 & N0 & _ & _ & _ & J).
  destruct (J 1%nat L1) as (Hiff & K).
  exists adj. split; [exact E|]. split; [exact Hiff|]. split; [exact S0|].
  destruct (In_nth _ _ O I01) as (k & Hk & Ek).
  rewrite N0 in Hk.
  destruct (K k Hk Ek) as (_ & (k' & Hk' & Ek') & R).
  exists k, k'. destruct (R k' Hk' Ek') as (X & Y & XY).
  repeat split; assumption.
Defined.

(** ** Further properties of nb.c *)

(** X1.  For non-null arguments, [freesasa_nb_new] returns a list (never
    NULL), with an entry for each atom, on an input that doubles treat
    exactly ([exact_input]); when no radius is positive (in particular
    when there is no atom) it fails an assertion: [n > 0] in
    [freesasa_nb_alloc] or [cell_size > 0]. *)
Theorem nb_new_outcome (crd : coord) (radii : list R) :
  ((1 <= coord_n crd)%nat -> length radii = coord_n crd ->
   exact_input crd radii ->
   exists adj,
     freesasa_nb_new (Some crd) (Some radii) = Ok (Some adj)
     /\ n adj = coord_n crd /\ length (nb adj) = coord_n crd
     /\ length (nn adj) = coord_n crd)
  /\ ((forall i, (i < coord_n crd)%nat -> nth i radii 0 <= 0) ->
      freesasa_nb_new (Some crd) (Some radii) = AssertFail).
Proof.
  destruct (nb_new_cases crd radii) as [A B]. split; [|exact B].
  intros Hn Hlen Hex. apply A. exists O. split; [lia|].
  pose proof (exact_input_pos crd radii Hex) as Hpos.
  apply (Forall_nth_default (fun r => 0 < r) radii 1 O) in Hpos; [|lra].
  rewrite (nth_indep radii 0 1) by lia. exact Hpos.
Qed.

Lemma nb_new_outcome_witness :
  (exists adj,
     freesasa_nb_new (Some skew_atoms) (Some [1; 1]) = Ok (Some adj)
     /\ n adj = 2%nat /\ length (nb adj) = 2%nat /\ length (nn adj) = 2%nat)
  /\ freesasa_nb_new (Some skew_atoms) (Some [0; 0]) = AssertFail.
Proof.
  destruct skew_atoms_valid as (H1 & H2 & _).
  destruct (nb_new_outcome skew_atoms [1; 1]) as [A _].
  destruct (nb_new_outcome skew_atoms [0; 0]) as [_ B].
  split.
  - exact (A H1 H2 skew_atoms_exact).
  - apply B. rewrite skew_atoms_n.
    intros [|[|i]] Hi; simpl; try lra; lia.
Defined.

(** X2.  On an input that doubles treat exactly, every entry
    [j = nb[i][k]] of the list built by [freesasa_nb_new] is the index of
    another atom that is in contact with [i]; [nb_xd[i][k]] and
    [nb_yd[i][k]] are the coordinate differences [x_j - x_i] and
    [y_j - y_i], and [nb_xyd[i][k]] is the distance of the two centres in
    the xy plane, which is below [R_i + R_j]. *)
Theorem nb_entries (crd : coord) (radii : list R) :
  let n := coord_n crd in
  let v := coord_all crd in
  (1 <= n)%nat -> length radii = n -> exact_input crd radii ->
  exists adj,
    freesasa_nb_new (Some crd) (Some radii) = Ok (Some adj)
    /\ forall i k, (i < n)%nat -> (k < nth i (nn adj) O)%nat ->
         let j := nth k (nth i (nb adj) []) O in
         (j < n)%nat /\ j <> i /\ in_contact v radii i j
         /\ nth k (nth i (nb_xd adj) []) 0 = px v j - px v i
         /\ nth k (nth i (nb_yd adj) []) 0 = py v j - py v i
         /\ nth k (nth i (nb_xyd adj) []) 0
            = sqrt ((px v j - px v i) * (px v j - px v i)
                    + (py v j - py v i) * (py v j - py v i))
         /\ nth k (nth i (nb_xyd adj) []) 0 < rad radii i + rad radii j.
Proof.
  intros n v Hn Hlen Hex.
  exact (nb_entries_valid crd radii Hn Hlen (exact_input_pos crd radii Hex)).
Qed.

(** For [skew_atoms] the list of atom 0 holds atom 1 with the differences
    [1 - 0] and [0 - 1]. *)
Lemma nb_entries_witness :
  ((1 <= coord_n skew_atoms)%nat /\ length [1; 1] = coord_n skew_atoms
   /\ exact_input skew_atoms [1; 1])
  /\ exists adj k,
       freesasa_nb_new (Some skew_atoms) (Some [1; 1]) = Ok (Some adj)
       /\ (k < nth 0 (nn adj) O)%nat
       /\ nth k (nth 0 (nb adj) []) O = 1%nat
       /\ nth k (nth 0 (nb_xd adj) []) 0 = 1 - 0
       /\ nth k (nth 0 (nb_yd adj) []) 0 = 0 - 1
       /\ nth k (nth 0 (nb_xyd adj) []) 0 < 1 + 1.
Proof.
  destruct skew_atoms_valid as (H1 & H2 & H3).
  pose proof skew_atoms_exact as Hex.
  split; [split; [exact H1 | split; [exact H2 | exact Hex]]|].
  destruct (nb_entries skew_atoms [1; 1] H1 H2 Hex) as (adj & E & H).
  destruct skew_atoms_list as (adj' & E' & I01 & _).
  assert (adj' = adj) as -> by congruence.
  assert (L0 : (0 < coord_n skew_atoms)%nat) by (rewrite skew_atoms_n; lia).
  destruct (adjacency_symmetry skew_atoms [1; 1] H1 H2 H3)
    as (_ & adj' & E'' & S).
  assert (adj' = adj) as -> by congruence.
  destruct (S 0%nat L0) as (_ & N0 & _).
  destruct (In_nth _ _ O I01) as (k & Hk & Ek). rewrite N0 in Hk.
  exists adj, k. split; [exact E|]. split; [exact Hk|]. split; [exact Ek|].
  destruct (H 0%nat k L0 Hk) as (_ & _ & _ & X & Y & _ & XY).
  cbv zeta in X, Y, XY. rewrite Ek in X, Y, XY.
  split; [exact X|]. split; [exact Y|].
  unfold rad in XY. simpl in XY. exact XY.
Defined.

(** X3.  In every list that [freesasa_nb_new] returns, every atom has
    [nn[i]] entries in [nb[i]], and [capacity[i]], the allocated size, is
    the least positive multiple of [NB_CHUNK] that holds them: no entry was
    written beyond the allocation. *)
Theorem nb_capacity (crd : coord) (radii : list R) :
  (exists i, (i < coord_n crd)%nat /\ 0 < nth i radii 0) ->
  forall adj,
    freesasa_nb_new (Some crd) (Some radii) = Ok (Some adj) ->
    forall i, (i < coord_n crd)%nat ->
         length (nth i (nb adj) []) = nth i (nn adj) O
         /\ (nth i (nn adj) O <= nth i (capacity adj) O)%nat
         /\ (exists q, (1 <= q)%nat
                       /\ nth i (capacity adj) O = (q * NB_CHUNK)%nat)
         /\ ((nth i (capacity adj) O < nth i (nn adj) O + NB_CHUNK)%nat
             \/ nth i (capacity adj) O = NB_CHUNK).
Proof.
  intros Hr adj E.
  destruct (nb_capacity_chunks crd radii Hr) as (adj0 & E0 & H).
  assert (adj = adj0) as -> by congruence. exact H.
Qed.

Lemma nb_capacity_witness :
  (exists i, (i < coord_n skew_atoms)%nat /\ 0 < nth i [1; 1] 0)
  /\ exists adj,
       freesasa_nb_new (Some skew_atoms) (Some [1; 1]) = Ok (Some adj)
       /\ (1 <= nth 0 (nn adj) O)%nat
       /\ length (nth 0 (nb adj) []) = nth 0 (nn adj) O
       /\ (nth 0 (nn adj) O <= nth 0 (capacity adj) O)%nat
       /\ (exists q, (1 <= q)%nat
                     /\ nth 0 (capacity adj) O = (q * NB_CHUNK)%nat)
       /\ ((nth 0 (capacity adj) O < nth 0 (nn adj) O + NB_CHUNK)%nat
           \/ nth 0 (capacity adj) O = NB_CHUNK).
Proof.
  assert (H : exists i, (i < coord_n skew_atoms)%nat /\ 0 < nth i [1; 1] 0).
  { exists 0%nat. split; [rewrite skew_atoms_n; lia | simpl; lra]. }
  split; [exact H|].
  destruct skew_atoms_list as (adj & E & I01 & _).
  assert (L0 : (0 < coord_n skew_atoms)%nat) by (rewrite skew_atoms_n; lia).
  pose proof (nb_capacity skew_atoms [1; 1] H adj E 0%nat L0) as C.
  exists adj. split; [exact E|]. split; [|exact C].
  rewrite <- (proj1 C).
  destruct (nth 0 (nb adj) []); [destruct I01 | simpl; lia].
Defined.

(** X4.  On every list that [freesasa_nb_new] returns,
    [freesasa_nb_contact] is symmetric in its two atoms, answers 0 or 1 for
    valid indices, 0 for an atom and itself, and fails its assertion
    exactly when an index is out of range. *)
Theorem nb_contact_symmetric (crd : coord) (radii : list R) :
  let n := coord_n crd in
  (1 <= n)%nat -> length radii = n -> Forall (fun r => 0 < r) radii ->
  forall adj,
    freesasa_nb_new (Some crd) (Some radii) = Ok (Some adj) ->
    forall i j,
         freesasa_nb_contact adj i j = freesasa_nb_contact adj j i
         /\ ((i < n)%nat /\ (j < n)%nat ->
             freesasa_nb_contact adj i j = Ok 0%Z
             \/ freesasa_nb_contact adj i j = Ok 1%Z)
         /\ ((i < n)%nat -> freesasa_nb_contact adj i i = Ok 0%Z)
         /\ (~ ((i < n)%nat /\ (j < n)%nat) ->
             freesasa_nb_contact adj i j = AssertFail).
Proof.
  intros n Hn Hlen Hpos adj E.
  destruct (nb_contact_query crd radii Hn Hlen Hpos) as (adj0 & E0 & H).
  assert (adj = adj0) as -> by congruence. exact H.
Qed.

(** For [skew_atoms] the query answers 1 for the two atoms in either
    order, 0 for an atom and itself, and fails for an index out of
    range. *)
Lemma nb_contact_symmetric_witness :
  ((1 <= coord_n skew_atoms)%nat /\ length [1; 1] = coord_n skew_atoms
   /\ Forall (fun r => 0 < r) [1; 1])
  /\ exists adj,
       freesasa_nb_new (Some skew_atoms) (Some [1; 1]) = Ok (Some adj)
       /\ freesasa_nb_contact adj 0 1 = Ok 1%Z
       /\ freesasa_nb_contact adj 1 0 = Ok 1%Z
       /\ freesasa_nb_contact adj 0 0 = Ok 0%Z
       /\ freesasa_nb_contact adj 0 2 = AssertFail.
Proof.
  destruct skew_atoms_valid as (H1 & H2 & H3).
  split; [repeat split; assumption|].
  destruct skew_atoms_list as (adj & E & _ & _ & C01).
  assert (L0 : (0 < coord_n skew_atoms)%nat) by (rewrite skew_atoms_n; lia).
  pose proof (nb_contact_symmetric skew_atoms [1; 1] H1 H2 H3 adj E) as H.
  exists adj. split; [exact E|]. split; [exact C01|].
  split; [rewrite <- (proj1 (H 0%nat 1%nat)); exact C01|].
  split.
  - destruct (H 0%nat 0%nat) as (_ & _ & S & _). exact (S L0).
  - destruct (H 0%nat 2%nat) as (_ & _ & _ & F). apply F.
    rewrite skew_atoms_n. lia.
Defined.



(** X6.  For coordinates and a cell size that doubles treat exactly (the
    coordinates are [fixed], the cell size is twice a [fixed] number that
    is at least 1), [cell_list_new] puts every atom into exactly one cell,
    the cell whose box of side [d] holds the centre of the atom; no cell
    lists an atom twice, and a cell lists atoms only. *)
Theorem cell_atoms_partition (d : R) (crd : coord) :
  (exists h, fixed h /\ 1 <= h /\ d = 2 * h) ->
  Forall fixed (coord_all crd) -> (1 <= coord_n crd)%nat ->
  let v := coord_all crd in
  exists c,
    cell_list_new d (Some crd) = Ok c /\ cl_d c = d
    /\ (forall k, (k < Z.to_nat (cl_n c))%nat ->
          NoDup (c_atom (nth k (cl_cell c) blank_cell))
          /\ forall a, In a (c_atom (nth k (cl_cell c) blank_cell)) ->
                       (a < coord_n crd)%nat)
    /\ forall a, (a < coord_n crd)%nat ->
         exists ix iy iz,
           in_grid c ix iy iz
           /\ cl_x_min c + IZR ix * d <= px v a < cl_x_min c + (IZR ix + 1) * d
           /\ cl_y_min c + IZR iy * d <= py v a < cl_y_min c + (IZR iy + 1) * d
           /\ cl_z_min c + IZR iz * d <= pz v a < cl_z_min c + (IZR iz + 1) * d
           /\ forall k, (k < Z.to_nat (cl_n c))%nat ->
                (In a (c_atom (nth k (cl_cell c) blank_cell))
                 <-> k = Z.to_nat (idx3 c ix iy iz)).
Proof.
  intros (h & _ & Hh & ->) _ Hn.
  apply cell_atoms_boxes; [lra | exact Hn].
Qed.

Lemma cell_atoms_partition_witness :
  ((exists h, fixed h /\ 1 <= h /\ 2 = 2 * h)
   /\ Forall fixed (coord_all skew_atoms)
   /\ (1 <= coord_n skew_atoms)%nat)
  /\ exists c,
       cell_list_new 2 (Some skew_atoms) = Ok c
       /\ (forall k, (k < Z.to_nat (cl_n c))%nat ->
             NoDup (c_atom (nth k (cl_cell c) blank_cell)))
       /\ forall a, (a < coord_n skew_atoms)%nat ->
            exists k, (k < Z.to_nat (cl_n c))%nat
                      /\ In a (c_atom (nth k (cl_cell c) blank_cell)).
Proof.
  assert (H1 : exists h, fixed h /\ 1 <= h /\ 2 = 2 * h).
  { exists 1. split; [fixed_num|]. lra. }
  assert (H2 : Forall fixed (coord_all skew_atoms))
    by exact (proj1 skew_atoms_exact).
  assert (H3 : (1 <= coord_n skew_atoms)%nat) by (rewrite skew_atoms_n; lia).
  split; [split; [exact H1 | split; [exact H2 | exact H3]]|].
  destruct (cell_atoms_partition 2 skew_atoms H1 H2 H3)
    as (c & E & Ed & H & Hat).
  destruct (cell_list_new_ok 2 skew_atoms ltac:(lra) H3)
    as (c' & E' & Hgrid & _).
  assert (c' = c) as -> by congruence.
  exists c. split; [exact E|]. split; [intros k Hk; exact (proj1 (H k Hk))|].
  intros a Ha. destruct (Hat a Ha) as (ix & iy & iz & G & _ & _ & _ & K).
  pose proof (idx3_range skew_atoms c (proj1 Hgrid) _ _ _ G) as Rg.
  exists (Z.to_nat (idx3 c ix iy iz)).
  assert (Hk : (Z.to_nat (idx3 c ix iy iz) < Z.to_nat (cl_n c))%nat) by lia.
  split; [exact Hk|]. apply (K _ Hk). reflexivity.
Defined.

(** The two atoms [skew_atoms] lie in different cells whose offsets sum to
    zero. *)
Lemma skew_cells_differ c :
  cell_list_new (2 * max_array [1; 1] (coord_n skew_atoms)) (Some skew_atoms)
  = Ok c ->
  cell_of skew_atoms c 0 <> cell_of skew_atoms c 1
  /\ offset_sum skew_atoms c 0 1 = 0%Z.
Proof.
  intros E.
  assert (HM : 0 < 2 * max_array [1; 1] (coord_n skew_atoms)).
  { rewrite skew_atoms_n.
    destruct (max_array_spec [1; 1] 2) as (_ & Mub & _).
    specialize (Mub O ltac:(lia)). simpl in Mub. lra. }
  destruct (cell_list_new_ok _ skew_atoms HM
              ltac:(rewrite skew_atoms_n; lia))
    as (c' & E' & Hgrid & Ed & Hbox).
  assert (c' = c) as -> by congruence.
  destruct (skew_atoms_cells c Ed Hbox)
    as ((CX0 & CY0 & CZ0) & (CX1 & CY1 & CZ1)).
  assert (Hg : geom_ok (coord_all skew_atoms) (coord_n skew_atoms) c)
    by exact (proj1 Hgrid).
  assert (L0 : (0 < coord_n skew_atoms)%nat) by (rewrite skew_atoms_n; lia).
  assert (L1 : (1 < coord_n skew_atoms)%nat) by (rewrite skew_atoms_n; lia).
  split.
  - intros Heq. unfold cell_of in Heq.
    pose proof (cell_in_grid skew_atoms c Hg 0%nat L0) as G0.
    pose proof (cell_in_grid skew_atoms c Hg 1%nat L1) as G1.
    pose proof (idx3_range skew_atoms c Hg _ _ _ G0) as R0.
    pose proof (idx3_range skew_atoms c Hg _ _ _ G1) as R1.
    apply Z2Nat.inj in Heq; [|lia|lia].
    destruct (idx3_inj skew_atoms c _ _ _ _ _ _ G0 G1 Heq) as (Hx & _).
    rewrite CX0, CX1 in Hx. discriminate.
  - unfold offset_sum. rewrite CX0, CY0, CZ0, CX1, CY1, CZ1. reflexivity.
Qed.

(** X7.  On an input that doubles treat exactly, a pair of atoms in
    contact is recorded once or twice, never more: twice exactly when the
    two atoms lie in different cells whose three offsets sum to zero, where
    the forward test [>= 0] of [fill_nb] holds in both directions.  An atom
    that is not in contact with [i] does not occur in [nb[i]]. *)
Theorem nb_multiplicity (crd : coord) (radii : list R) :
  let n := coord_n crd in
  let v := coord_all crd in
  (1 <= n)%nat -> length radii = n -> exact_input crd radii ->
  exists adj c,
    cell_list_new (2 * max_array radii n) (Some crd) = Ok c
    /\ freesasa_nb_new (Some crd) (Some radii) = Ok (Some adj)
    /\ forall i j, (i < n)%nat -> (j < n)%nat -> i <> j ->
         let twice :=
           cell_of crd c i <> cell_of crd c j /\ offset_sum crd c i j = 0%Z in
         (~ in_contact v radii i j ->
          count_occ Nat.eq_dec (nth i (nb adj) []) j = 0%nat)
         /\ (in_contact v radii i j -> twice ->
             count_occ Nat.eq_dec (nth i (nb adj) []) j = 2%nat)
         /\ (in_contact v radii i j -> ~ twice ->
             count_occ Nat.eq_dec (nth i (nb adj) []) j = 1%nat).
Proof.
  intros n v Hn Hlen Hex.
  exact (nb_multiplicity_cells crd radii Hn Hlen
           (exact_input_pos crd radii Hex)).
Qed.

(** For [skew_atoms] each atom stands twice in the list of the other. *)
Lemma nb_multiplicity_witness :
  ((1 <= coord_n skew_atoms)%nat /\ length [1; 1] = coord_n skew_atoms
   /\ exact_input skew_atoms [1; 1])
  /\ exists adj,
       freesasa_nb_new (Some skew_atoms) (Some [1; 1]) = Ok (Some adj)
       /\ count_occ Nat.eq_dec (nth 0 (nb adj) []) 1%nat = 2%nat
       /\ count_occ Nat.eq_dec (nth 0 (nb adj) []) 0%nat = 0%nat.
Proof.
  destruct skew_atoms_valid as (H1 & H2 & _).
  pose proof skew_atoms_exact as H3.
  split; [split; [exact H1 | split; [exact H2 | exact H3]]|].
  destruct (nb_multiplicity skew_atoms [1; 1] H1 H2 H3)
    as (adj & c & Ec & E & H).
  exists adj. split; [exact E|].
  assert (L0 : (0 < coord_n skew_atoms)%nat) by (rewrite skew_atoms_n; lia).
  assert (L1 : (1 < coord_n skew_atoms)%nat) by (rewrite skew_atoms_n; lia).
  destruct (H 0%nat 1%nat L0 L1 ltac:(lia)) as (_ & Htw & _).
  split.
  - apply Htw; [exact skew_atoms_contact|]. apply skew_cells_differ. exact Ec.
  - apply count_occ_not_In.
    destruct (adjacency_symmetry skew_atoms [1; 1] H1 H2
                (exact_input_pos _ _ H3)) as (_ & adj' & E' & S).
    assert (adj' = adj) as -> by congruence.
    exact (proj1 (S 0%nat L0)).
Defined.

End NBProps.

(** * sasa_lr.c on inputs that doubles treat exactly *)

Module LRProps.
Import LR LRFacts LRContacts LRMore.

(** ** Arcs that overlap *)

Lemma normalize_gap_near bi bj :
  - PI <= bj - bi <= PI -> normalize_gap bi bj = (bj, bj - bi).
Proof.
  intros H. funelim (normalize_gap bi bj); try lra. reflexivity.
Qed.

Lemma PI_gt_3 : 3 < PI.
Proof. pose proof PI2_3_2. lra. Qed.

(** The arcs [[-1, 1]] and [[0, 2]]: one pass merges them into
    [[-1, 2]]. *)
Lemma overlap_pass :
  exists st,
    sum_angles_pass 2 [1; 1] [0; 1] = inl st
    /\ sa_n_overlap st = 1%Z
    /\ compact 2 (sa_excluded st) (sa_a st) = [3 / 2]
    /\ compact 2 (sa_excluded st) (sa_b st) = [1 / 2].
Proof.
  pose proof PI_gt_3 as HPI.
  unfold sum_angles_pass, sa_init.
  cbn [seq repeat sum_angles_outer sum_angles_inner sa_excluded sa_a sa_b
       sa_n_exc sa_n_overlap nth Nat.eqb].
  rewrite normalize_gap_near by lra.
  replace (Rabs (1 - 0)) with 1 by (rewrite Rabs_right; lra).
  rcmp.
  cbn [Z.add Z.of_nat Z.sub Z.eqb Pos.of_succ_nat Pos.succ Z.pos_sub Z.opp
       Pos.eqb Z.succ_double Z.pred_double Z.double Pos.pred_double].
  eexists. split; [reflexivity|].
  cbn [sa_n_overlap sa_excluded sa_a sa_b upd]. split; [reflexivity|].
  unfold compact. cbn [seq fold_left nth app].
  split; f_equal; lra.
Qed.

Lemma overlap_sum fuel :
  sasa_sum_angles (S fuel) 2 [1; 1] [0; 1] = Ok (2 * PI - 2 * (3 / 2))
  /\ sasa_sum_angles 0 2 [1; 1] [0; 1] = OutOfFuel.
Proof.
  destruct overlap_pass as (st & Ep & Eo & Ea & Eb).
  split.
  - rewrite sasa_sum_angles_eq. cbn [seq forallb nth]. rcmp.
    cbn [andb assert bind]. rewrite Ep, Eo. cbn [Z.eqb negb].
    rewrite Ea, Eb. cbn [length]. apply sum_angles_single. lra.
  - rewrite sasa_sum_angles_eq. cbn [seq forallb nth]. rcmp.
    cbn [andb assert bind]. rewrite Ep, Eo. reflexivity.
Qed.


(** One round of the loop over [j] that merges interval [j] into
    interval [i]. *)
Lemma inner_merge n i j js st bi ai bj aj :
  nth j (sa_excluded st) false = false -> i <> j ->
  nth i (sa_b st) 0 = bi -> nth i (sa_a st) 0 = ai ->
  nth j (sa_b st) 0 = bj -> nth j (sa_a st) 0 = aj ->
  - PI <= bj - bi <= PI -> Rabs (bj - bi) <= ai + aj ->
  joint_a bi ai bj aj <= PI ->
  sum_angles_inner n i (j :: js) st
  = if (sa_n_exc st + 1 =? Z.of_nat n - 1)%Z
    then Broke (merge_state st i j bj)
    else sum_angles_inner n i js (merge_state st i j bj).
Proof.
  intros He Hne Ebi Eai Ebj Eaj Hgap Hov Hj.
  rewrite inner_cons, He. apply Nat.eqb_neq in Hne. rewrite Hne.
  cbv zeta. rewrite Ebi, Eai, Ebj, Eaj.
  rewrite normalize_gap_near by exact Hgap. cbn [fst snd].
  rewrite (proj2 (Rgtb_false (Rabs (bj - bi)) (ai + aj))) by exact Hov.
  rewrite (proj2 (Rgtb_false (joint_a bi ai bj aj) PI)) by exact Hj.
  reflexivity.
Qed.

Lemma joint_first :
  joint_a 0 1 1 1 = 3 / 2 /\ joint_b 0 1 1 1 = 1 / 2.
Proof.
  pose proof PI_gt_3 as HPI.
  unfold joint_b, wrap_b, joint_a, joint_inf, joint_sup. rcmp.
  replace ((0 - 1 + (1 + 1)) / 2) with (1 / 2) by lra. rcmp.
  split; lra.
Qed.

Lemma joint_second :
  joint_a (1 / 2) (3 / 2) 2 1 = 2 /\ joint_b (1 / 2) (3 / 2) 2 1 = 1.
Proof.
  pose proof PI_gt_3 as HPI.
  unfold joint_b, wrap_b, joint_a, joint_inf, joint_sup. rcmp.
  replace ((1 / 2 - 3 / 2 + (2 + 1)) / 2) with 1 by lra. rcmp.
  split; lra.
Qed.

(** The arcs [[-1, 1]], [[0, 2]] and [[1, 3]]: the pass merges the second
    and then the third into the first, which becomes [[-1, 3]]. *)
Lemma chain_pass :
  exists st,
    sum_angles_pass 3 [1; 1; 1] [0; 1; 2] = inl st
    /\ sa_n_overlap st = 2%Z
    /\ compact 3 (sa_excluded st) (sa_a st) = [2]
    /\ compact 3 (sa_excluded st) (sa_b st) = [1].
Proof.
  pose proof PI_gt_3 as HPI.
  destruct joint_first as [A1 B1]. destruct joint_second as [A2 B2].
  unfold sum_angles_pass, sa_init.
  cbn [seq repeat]. cbn [sum_angles_outer sa_excluded nth seq].
  rewrite inner_cons. cbn [sa_excluded nth Nat.eqb].
  rewrite (inner_merge 3 0 1 [2%nat] _ 0 1 1 1); try reflexivity;
    [|lia|lra|rewrite Rabs_right; lra|rewrite A1; lra].
  cbn [sa_n_exc Z.add Z.of_nat Z.sub Z.eqb Pos.of_succ_nat Pos.succ
       Z.pos_sub Z.opp Pos.eqb Z.succ_double Z.pred_double Z.double
       Pos.pred_double].
  unfold merge_state at 1. cbn [sa_a sa_b sa_excluded sa_n_exc sa_n_overlap nth upd].
  rewrite A1, B1.
  rewrite (inner_merge 3 0 2 [] _ (1 / 2) (3 / 2) 2 1); try reflexivity;
    [|lia|lra|rewrite Rabs_right; lra|rewrite A2; lra].
  cbn [sa_n_exc Z.add Z.of_nat Z.sub Z.eqb Pos.of_succ_nat Pos.succ
       Z.pos_sub Z.opp Pos.eqb Z.succ_double Z.pred_double Z.double
       Pos.pred_double Pos.add].
  unfold merge_state. cbn [sa_a sa_b sa_excluded sa_n_exc sa_n_overlap nth upd].
  rewrite A2, B2.
  cbn [Z.add Z.of_nat Z.sub Z.eqb Pos.of_succ_nat Pos.succ
       Z.pos_sub Z.opp Pos.eqb Z.succ_double Z.pred_double Z.double
       Pos.pred_double Pos.add].
  eexists. split; [reflexivity|].
  cbn [sa_n_overlap sa_excluded sa_a sa_b]. split; [reflexivity|].
  unfold compact. cbn [seq fold_left nth app]. split; reflexivity.
Qed.

Lemma chain_sum fuel :
  sasa_sum_angles (S fuel) 3 [1; 1; 1] [0; 1; 2] = Ok (2 * PI - 2 * 2).
Proof.
  destruct chain_pass as (st & Ep & Eo & Ea & Eb).
  rewrite sasa_sum_angles_eq. cbn [seq forallb nth]. rcmp.
  cbn [andb assert bind]. rewrite Ep, Eo. cbn [Z.eqb negb].
  rewrite Ea, Eb. cbn [length]. apply sum_angles_single. lra.
Qed.

(** ** Two circles that intersect *)

Lemma acos_half_pos : 0 < acos (1 / 2).
Proof.
  destruct (acos_bound (1 / 2)) as [H _].
  destruct H as [H|H]; [exact H|].
  exfalso. assert (E : cos (acos (1 / 2)) = 1 / 2) by (apply cos_acos; lra).
  rewrite <- H, cos_0 in E. lra.
Qed.

(** Two circles of radius 1 with centres at distance 1, each the neighbour
    of the other: every circle loses the arc of half-width [acos (1/2)]
    that lies inside the other one. *)
Lemma unit_circles_arcs fuel z :
  sasa_exposed_arcs fuel 2 [0; 1] [0; 0] z [1; 1] [0; 0]
    [[1%nat]; [0%nat]] [1%nat; 1%nat]
  = Ok [2 * PI - 2 * acos (1 / 2); 2 * PI - 2 * acos (1 / 2)].
Proof.
  pose proof acos_half_pos as Hpos.
  assert (Hd : sqrt ((1 - 0) * (1 - 0) + (0 - 0) * (0 - 0)) = 1).
  { replace ((1 - 0) * (1 - 0) + (0 - 0) * (0 - 0)) with 1 by lra.
    apply sqrt_1. }
  assert (Hd' : sqrt ((0 - 1) * (0 - 1) + (0 - 0) * (0 - 0)) = 1).
  { replace ((0 - 1) * (0 - 1) + (0 - 0) * (0 - 0)) with 1 by lra.
    apply sqrt_1. }
  unfold sasa_exposed_arcs. cbn [seq foldM repeat].
  unfold exposed_arc_step at 1. cbn [upd nth map seq].
  rewrite arcs_proper_step; cbn [nth]; rewrite ?Hd; try lra; [|lia].
  cbn [arcs_of_neighbours ar_a ar_b ar_buried app bind nth negb].
  rewrite fdiv_some by lra. cbn [option_map].
  replace ((1 * 1 + 1 * 1 - 1 * 1) / (2 * 1 * 1)) with (1 / 2) by lra.
  unfold sum_angles_call. cbn [all_numbers fold_right length].
  rewrite sum_angles_single by exact Hpos. cbn [bind upd].
  unfold exposed_arc_step. cbn [upd nth map seq].
  rewrite arcs_proper_step; cbn [nth]; rewrite ?Hd'; try lra; [|lia].
  cbn [arcs_of_neighbours ar_a ar_b ar_buried app bind nth negb].
  rewrite fdiv_some by lra. cbn [option_map].
  replace ((1 * 1 + 1 * 1 - 1 * 1) / (2 * 1 * 1)) with (1 / 2) by lra.
  unfold sum_angles_call. cbn [all_numbers fold_right length].
  rewrite sum_angles_single by exact Hpos. cbn [bind upd fst]. reflexivity.
Qed.

(** Atoms of radius 1 at the origin and at (1, 0, 0), probe radius 0 and
    [delta = 2]: the only slice is at [z = 0] and cuts both atoms through
    their centres. *)
Definition unit_atoms : coord := {| Coord.xyz := [0; 0; 0; 1; 0; 0] |}.

Lemma unit_range :
  slice_range [0; 0] unit_atoms [1; 1] 0
  = {| rg_max_z := 0; rg_min_z := 0; rg_max_r := 1;
       rg_radii := [1; 1]; rg_sasa := [0; 0] |}.
Proof.
  unfold slice_range. change (coord_n unit_atoms) with 2%nat.
  cbn [seq fold_left]. unfold range_step.
  cbn [rg_max_z rg_min_z rg_max_r rg_radii rg_sasa coord_all unit_atoms
       Coord.xyz nth Nat.mul Nat.add app upd].
  rcmp. cbn [rg_max_z rg_min_z rg_max_r rg_radii rg_sasa]. rcmp.
  rewrite !Rplus_0_r. reflexivity.
Qed.

Lemma unit_contacts :
  sasa_get_contacts unit_atoms [1; 1] = ([[1%nat]; [0%nat]], [1%nat; 1%nat]).
Proof.
  unfold sasa_get_contacts. change (coord_n unit_atoms) with 2%nat.
  cbn [seq fold_left Nat.add Nat.sub repeat]. unfold contact_step.
  cbn [coord_all unit_atoms Coord.xyz nth Nat.mul Nat.add].
  rcmp. cbn [orb]. rcmp. reflexivity.
Qed.

Lemma unit_params :
  lr_params [0; 0] unit_atoms [1; 1] 0 2
  = {| n_atoms := 2; radii := [1; 1]; xyz := unit_atoms;
       nb := [[1%nat]; [0%nat]]; nn := [1%nat; 1%nat]; delta := 2;
       min_z := 0; max_z := 1 |}.
Proof.
  unfold lr_params. rewrite unit_range.
  cbn [rg_max_z rg_min_z rg_max_r rg_radii rg_sasa].
  rewrite unit_contacts. cbn [fst snd].
  change (coord_n unit_atoms) with 2%nat.
  f_equal; lra.
Qed.

Lemma unit_slice :
  locate_atoms 0 (lr_params [0; 0] unit_atoms [1; 1] 0 2)
  = {| sl_x := [0; 1]; sl_y := [0; 0]; sl_r := [1; 1]; sl_DR := [2; 2];
       sl_idx := [0%nat; 1%nat]; sl_xdi := [0%nat; 1%nat];
       sl_in_slice := [true; true] |}.
Proof.
  rewrite unit_params. unfold locate_atoms.
  cbn [n_atoms seq fold_left]. unfold locate_atom.
  cbn [radii xyz delta coord_all unit_atoms Coord.xyz nth Nat.mul Nat.add
       slice_empty sl_x sl_y sl_r sl_DR sl_idx sl_xdi sl_in_slice app
       n_slice length].
  replace (0 - 0) with 0 by lra. rewrite Rabs_R0.
  rcmp.
  cbn [sl_x sl_y sl_r sl_DR sl_idx sl_xdi sl_in_slice app n_slice length].
  replace (1 * 1 - 0 * 0) with 1 by lra.
  rewrite sqrt_1. rcmp.
  f_equal; repeat (apply (f_equal2 (@cons R)); [lra|]); reflexivity.
Qed.

Lemma unit_slice_area fuel :
  sasa_add_slice_area fuel 0 (lr_params [0; 0] unit_atoms [1; 1] 0 2) [0; 0]
  = Ok [0 + (2 * PI - 2 * acos (1 / 2)) * 1 * 2;
        0 + (2 * PI - 2 * acos (1 / 2)) * 1 * 2].
Proof.
  unfold sasa_add_slice_area. cbv zeta. rewrite unit_slice.
  cbn [n_slice sl_x sl_y sl_r sl_DR sl_idx sl_xdi sl_in_slice length repeat
       map].
  unfold slice_neighbours. rewrite unit_params.
  cbn [nb nn nth seq fold_left sl_xdi sl_in_slice app length].
  rewrite unit_circles_arcs. cbn [bind].
  unfold accumulate.
  cbn [n_slice sl_x sl_y sl_r sl_DR sl_idx length seq fold_left nth upd].
  reflexivity.
Qed.

Lemma unit_lee_richards fuel :
  sasalib_lee_richards (S fuel) [0; 0] unit_atoms [1; 1] 0 2 1
  = Ok (SASALIB_SUCCESS, [0 + (2 * PI - 2 * acos (1 / 2)) * 1 * 2;
                          0 + (2 * PI - 2 * acos (1 / 2)) * 1 * 2]).
Proof.
  rewrite lee_richards_loop;
    [|change (coord_n unit_atoms) with 2%nat; lia | lia].
  cbv zeta. cbn [slice_loop].
  rewrite unit_params. cbn [min_z max_z]. rcmp.
  rewrite <- unit_params. rewrite unit_range. cbn [rg_sasa].
  rewrite unit_slice_area. cbn [bind].
  destruct fuel; cbn [slice_loop]; rcmp; reflexivity.
Qed.

(** ** Inputs of the slice integrator that doubles treat exactly *)

(** The coordinates, the atom radii and the probe radius are [fixed], and
    [delta] is twice a positive [fixed] number: then the contact radii, the
    slice range, the slice centres [min_z + k * delta] and the distances
    [|z_i - z|] are multiples of [2^-10] of small magnitude, which the
    doubles of the code compute without rounding, and every step
    [z += delta] advances.  There are at most 1000 atoms, so that the
    arrays of the code, which live on the stack, stay small. *)
Definition exact_slices (xyz : coord) (atom_radii : list R)
  (probe_radius delta : R) : Prop :=
  Forall fixed (coord_all xyz) /\ Forall fixed atom_radii
  /\ fixed probe_radius
  /\ (exists h, fixed h /\ 0 < h /\ delta = 2 * h)
  /\ (coord_n xyz <= 1000)%nat.

Lemma exact_slices_delta xyz atom_radii probe_radius delta :
  exact_slices xyz atom_radii probe_radius delta -> 0 < delta.
Proof. intros (_ & _ & _ & (h & _ & Hh & ->) & _). lra. Qed.

Lemma exact_slices_z xyz atom_radii probe_radius delta i :
  exact_slices xyz atom_radii probe_radius delta ->
  - 1e50 <= coord_z xyz i <= 1e50.
Proof.
  intros (Hx & _). unfold coord_z.
  assert (H : - 64 <= nth (3 * i + 2) (coord_all xyz) 0 <= 64).
  { apply (Forall_nth_default (fun v => - 64 <= v <= 64)); [lra|].
    eapply Forall_impl; [|exact Hx]. intros v. apply fixed_bound. }
  lra.
Qed.

Ltac fixed_num :=
  first [ apply fixed_IZR; simpl; lia
        | match goal with
          | |- fixed (1 / 2) => exists 512%Z; split; [lia | lra]
          | |- fixed (3 / 2) => exists 1536%Z; split; [lia | lra]
          end ].

Lemma two_atoms_exact : exact_slices two_atoms [1; 3] 0 1.
Proof.
  split; [|split; [|split; [|split]]].
  - cbn [two_atoms coord_all Coord.xyz]. repeat constructor; fixed_num.
  - repeat constructor; fixed_num.
  - fixed_num.
  - exists (1 / 2). split; [fixed_num|]. lra.
  - change (coord_n two_atoms) with 2%nat. lia.
Qed.

Lemma unit_atoms_exact : exact_slices unit_atoms [1; 1] 0 2.
Proof.
  split; [|split; [|split; [|split]]].
  - cbn [unit_atoms coord_all Coord.xyz]. repeat constructor; fixed_num.
  - repeat constructor; fixed_num.
  - fixed_num.
  - exists 1. split; [fixed_num|]. lra.
  - change (coord_n unit_atoms) with 2%nat. lia.
Qed.

(** C3 (amended).  For a non-empty point cloud with some non-negative
    contact radius, at least one thread requested, and coordinates, radii
    and [delta] that doubles treat exactly ([exact_slices]),
    [sasalib_lee_richards] runs its slice body exactly at the centres
    [z_min, z_min + delta, ...] that are below [z_max], in this order, where
    [z_min = min_i z_i - max_i R_i + delta/2] and
    [z_max = max_i z_i + max_i R_i], with [R_i] the probe-augmented radius
    of atom [i]. *)
Theorem C3_slice_centres (sasa : list R) (xyz : coord) (atom_radii : list R)
  (probe_radius delta : R) (n_threads : Z) :
  let n := coord_n xyz in
  (1 <= n)%nat -> (1 <= n_threads)%Z ->
  exact_slices xyz atom_radii probe_radius delta ->
  (exists i, (i < n)%nat /\ 0 <= contact_radius atom_radii probe_radius i) ->
  slice_schedule sasa xyz atom_radii probe_radius delta n_threads.
Proof.
  intros n Hn Ht Hex Hr.
  apply slice_centres; try assumption.
  - eapply exact_slices_delta; exact Hex.
  - intros i _. eapply exact_slices_z; exact Hex.
Qed.

Lemma C3_witness :
  ((1 <= coord_n two_atoms)%nat /\ (1 <= 1)%Z
   /\ exact_slices two_atoms [1; 3] 0 1
   /\ (exists i, (i < coord_n two_atoms)%nat
                 /\ 0 <= contact_radius [1; 3] 0 i))
  /\ slice_schedule [0; 0] two_atoms [1; 3] 0 1 1.
Proof.
  destruct two_atoms_valid as (H1 & _ & H3).
  pose proof two_atoms_exact as H2.
  split.
  - split; [exact H1|]. split; [lia|]. split; assumption.
  - apply (C3_slice_centres [0; 0] two_atoms [1; 3] 0 1 1);
      [exact H1 | lia | exact H2 | exact H3].
Defined.

(** C5.  For an input that doubles treat exactly ([exact_slices]) and a
    result array with an entry per atom, [sasalib_lee_richards] comes to an
    end, and when it returns every atom has [sasa[i] >= 0].  In particular
    the value that [sasa_sum_angles] returns for the intervals gathered by
    [sasa_exposed_arcs] (half-widths from [acos], centres from [atan2])
    lies in [0, 2 PI], although the code clamps nothing. *)
Theorem C5_areas_nonnegative (sasa : list R) (xyz : coord)
  (atom_radii : list R) (probe_radius delta : R) (n_threads : Z) :
  exact_slices xyz atom_radii probe_radius delta ->
  (coord_n xyz <= length sasa)%nat ->
  (exists fuel0, forall fuel, (fuel0 <= fuel)%nat ->
     sasalib_lee_richards fuel sasa xyz atom_radii probe_radius delta
       n_threads <> OutOfFuel)
  /\ (forall fuel st sasa',
        sasalib_lee_richards fuel sasa xyz atom_radii probe_radius delta
          n_threads = Ok (st, sasa') ->
        forall i, (i < coord_n xyz)%nat -> 0 <= nth i sasa' 0)
  /\ (forall fuel x y r i js buried st v,
        arcs_of_neighbours x y r i js
          {| ar_a := []; ar_b := []; ar_buried := buried |} = Ok st ->
        sum_angles_call fuel (ar_a st) (ar_b st) = Ok v ->
        0 <= v <= 2 * PI)
  /\ (forall fuel n a b v,
        length a = n -> length b = n ->
        Forall (fun x => x <= PI) a ->
        Forall (fun x => - PI <= x <= PI) b ->
        sasa_sum_angles fuel n a b = Ok v -> 0 <= v <= 2 * PI).
Proof.
  intros Hex Hlen.
  apply areas_nonnegative; [|exact Hlen].
  eapply exact_slices_delta; exact Hex.
Qed.

Lemma C5_witness :
  (exact_slices unit_atoms [1; 1] 0 2
   /\ (coord_n unit_atoms <= length [0; 0])%nat)
  /\ sasalib_lee_richards 1 [0; 0] unit_atoms [1; 1] 0 2 1
     = Ok (SASALIB_SUCCESS, [0 + (2 * PI - 2 * acos (1 / 2)) * 1 * 2;
                             0 + (2 * PI - 2 * acos (1 / 2)) * 1 * 2])
  /\ (forall i, (i < coord_n unit_atoms)%nat ->
        0 <= nth i [0 + (2 * PI - 2 * acos (1 / 2)) * 1 * 2;
                    0 + (2 * PI - 2 * acos (1 / 2)) * 1 * 2] 0)
  /\ (exists fuel0, forall fuel, (fuel0 <= fuel)%nat ->
        sasalib_lee_richards fuel [0; 0] unit_atoms [1; 1] 0 2 1
        <> OutOfFuel).
Proof.
  pose proof unit_atoms_exact as H1.
  assert (H2 : (coord_n unit_atoms <= length [0; 0])%nat)
    by (change (coord_n unit_atoms) with 2%nat; simpl; lia).
  pose proof (unit_lee_richards 0) as Hrun.
  split; [split; assumption|].
  destruct (C5_areas_nonnegative [0; 0] unit_atoms [1; 1] 0 2 1 H1 H2)
    as (A & B & _).
  split; [exact Hrun|]. split; [exact (B _ _ _ Hrun) | exact A].
Defined.

(** C7.  [sasa_sum_angles] on one interval of half-width [alpha], with
    [0 < alpha < PI], returns [2 PI - 2 alpha]; on [k >= 1] copies of that
    interval it returns [2 PI - 2 alpha] as well (one nested call is all
    the merging takes).  The centre lies in [-PI, PI], as the centres that
    [atan2] supplies, and [alpha], [beta] are [fixed], so that the doubles
    of the code form [beta - alpha] and [beta + alpha] without rounding and
    the merged interval has half-width [alpha] again. *)
Theorem C7_union_of_arcs_idempotence (fuel k : nat) (alpha beta : R) :
  0 < alpha < PI -> - PI <= beta <= PI -> fixed alpha -> fixed beta ->
  (1 <= k)%nat -> (1 <= fuel)%nat ->
  sasa_sum_angles fuel 1 [alpha] [beta] = Ok (2 * PI - 2 * alpha)
  /\ sasa_sum_angles fuel k (repeat alpha k) (repeat beta k)
     = Ok (2 * PI - 2 * alpha).
Proof.
  intros Ha _ _ _ Hk Hf. apply arcs_idempotence; assumption.
Qed.

Lemma C7_witness :
  (0 < 1 < PI /\ - PI <= 0 <= PI /\ fixed 1 /\ fixed 0)
  /\ sasa_sum_angles 1 1 [1] [0] = Ok (2 * PI - 2 * 1)
  /\ sasa_sum_angles 1 3 (repeat 1 3) (repeat 0 3) = Ok (2 * PI - 2 * 1).
Proof.
  pose proof PI_gt_3 as H.
  assert (F1 : fixed 1) by fixed_num.
  assert (F0 : fixed 0) by fixed_num.
  split; [repeat split; try assumption; lra|].
  apply (C7_union_of_arcs_idempotence 1 3 1 0);
    [lra | lra | exact F1 | exact F0 | lia | lia].
Defined.

(** C9.  [sasa_sum_angles] terminates on every list of intervals with
    centres in [-PI, PI], the range of [atan2], in which the loop that
    brings two centres within [PI] of each other needs at most one round:
    a nested call is made only after a pass that counted an overlap; every
    counted overlap excluded one more interval; the nested call receives
    the intervals not excluded, which are fewer than [n]; hence [n] nested
    calls are never exhausted and more fuel does not change the result. *)
Theorem C9_sum_angles_terminates (n : nat) (a b : list R) :
  length a = n -> length b = n ->
  Forall (fun v => - PI <= v <= PI) b ->
  (forall st, sum_angles_pass n a b = inl st -> sa_n_overlap st <> 0%Z ->
     sa_n_overlap st = Z.of_nat (n_excl n (sa_excluded st))
     /\ (length (compact n (sa_excluded st) (sa_a st))
         + n_excl n (sa_excluded st) = n)%nat
     /\ (length (compact n (sa_excluded st) (sa_a st)) < n)%nat
     /\ length (compact n (sa_excluded st) (sa_b st))
        = length (compact n (sa_excluded st) (sa_a st)))
  /\ (forall fuel, (n <= fuel)%nat ->
        sasa_sum_angles fuel n a b <> OutOfFuel
        /\ sasa_sum_angles fuel n a b = sasa_sum_angles n n a b).
Proof.
  intros Ha Hb _. apply sum_angles_depth; assumption.
Qed.

(** The intervals [[-1, 1]] and [[0, 2]] overlap: the pass merges them,
    no fuel is not enough, and with fuel the union [[-1, 2]] is summed. *)
Lemma C9_witness :
  (length [1; 1] = 2%nat /\ length [0; 1] = 2%nat
   /\ Forall (fun v => - PI <= v <= PI) [0; 1])
  /\ (exists st, sum_angles_pass 2 [1; 1] [0; 1] = inl st
                 /\ sa_n_overlap st = 1%Z
                 /\ compact 2 (sa_excluded st) (sa_a st) = [3 / 2])
  /\ sasa_sum_angles 0 2 [1; 1] [0; 1] = OutOfFuel
  /\ sasa_sum_angles 2 2 [1; 1] [0; 1] = Ok (2 * PI - 2 * (3 / 2))
  /\ (forall st, sum_angles_pass 2 [1; 1] [0; 1] = inl st ->
        sa_n_overlap st <> 0%Z ->
        sa_n_overlap st = Z.of_nat (n_excl 2 (sa_excluded st))
        /\ (length (compact 2 (sa_excluded st) (sa_a st))
            + n_excl 2 (sa_excluded st) = 2)%nat
        /\ (length (compact 2 (sa_excluded st) (sa_a st)) < 2)%nat
        /\ length (compact 2 (sa_excluded st) (sa_b st))
           = length (compact 2 (sa_excluded st) (sa_a st)))
  /\ (forall fuel, (2 <= fuel)%nat ->
        sasa_sum_angles fuel 2 [1; 1] [0; 1] <> OutOfFuel
        /\ sasa_sum_angles fuel 2 [1; 1] [0; 1]
           = sasa_sum_angles 2 2 [1; 1] [0; 1]).
Proof.
  pose proof PI_gt_3 as HPI.
  assert (Hb : Forall (fun v => - PI <= v <= PI) [0; 1])
    by (repeat constructor; lra).
  destruct overlap_pass as (st & Ep & Eo & Ea & _).
  destruct (overlap_sum 1) as [Hs H0].
  split; [repeat split; try reflexivity; exact Hb|].
  split; [exists st; repeat split; assumption|].
  split; [exact H0|]. split; [exact Hs|].
  exact (C9_sum_angles_terminates 2 [1; 1] [0; 1] eq_refl eq_refl Hb).
Defined.

(** C10.  Every atom admitted to the slice by the test [d < ri], with a
    radius whose square neither underflows nor overflows, has a strictly
    positive in-slice radius: the divisor [r[n_slice]] in the computation
    of [DR] is never zero. *)
Theorem C10_slice_radius_positive (z : R) (lr : sasa_lr_t) (k : nat) :
  let s := locate_atoms z lr in
  (k < n_slice s)%nat ->
  let i := nth k (sl_idx s) O in
  let ri := nth i (radii lr) 0 in
  let d := Rabs (nth (3 * i + 2) (coord_all (xyz lr)) 0 - z) in
  1e-100 <= ri <= 1e100 ->
  d < ri /\ 0 < ri
  /\ nth k (sl_r s) 0 = sqrt (ri * ri - d * d)
  /\ 0 < nth k (sl_r s) 0
  /\ nth k (sl_DR s) 0
     = ri / nth k (sl_r s) 0 * (delta lr / 2 + Rmin (delta lr / 2) (ri - d)).
Proof.
  intros s Hk i ri d _. apply slice_radius_positive. exact Hk.
Qed.

Lemma C10_witness :
  ((0 < n_slice (locate_atoms 0 one_atom))%nat
   /\ 1e-100
      <= nth (nth 0 (sl_idx (locate_atoms 0 one_atom)) O) (radii one_atom) 0
      <= 1e100)
  /\ 0 < nth 0 (sl_r (locate_atoms 0 one_atom)) 0.
Proof.
  assert (H : (0 < n_slice (locate_atoms 0 one_atom))%nat).
  { rewrite one_atom_slice. unfold n_slice. simpl. lia. }
  assert (Hb : 1e-100
    <= nth (nth 0 (sl_idx (locate_atoms 0 one_atom)) O) (radii one_atom) 0
    <= 1e100).
  { rewrite one_atom_slice. cbn [sl_idx nth one_atom radii]. lra. }
  split; [split; assumption|].
  apply (C10_slice_radius_positive 0 one_atom 0 H Hb).
Defined.

(** ** Witnesses for the union of arcs and for the exposed arcs *)

Lemma sum_angles_union_witness :
  (length [1; 1; 1] = 3%nat /\ length [0; 1; 2] = 3%nat
   /\ sasa_sum_angles 1 3 [1; 1; 1] [0; 1; 2] = Ok (2 * PI - 2 * 2))
  /\ (forall i, (i < 3)%nat -> 0 < nth i [1; 1; 1] 0)
  /\ ((2 * PI - 2 * 2 = 0 /\ forall t, covered 3 [1; 1; 1] [0; 1; 2] t)
      \/ exists m a' b',
           length a' = m /\ length b' = m
           /\ (forall i, (i < m)%nat -> 0 < nth i a' 0)
           /\ (forall i j, (i < m)%nat -> (j < m)%nat -> i <> j ->
                 arcs_disjoint a' b' i j)
           /\ (forall t, covered m a' b' t <-> covered 3 [1; 1; 1] [0; 1; 2] t)
           /\ 2 * PI - 2 * 2 = 2 * PI - sumn (fun i => 2 * nth i a' 0) m).
Proof.
  pose proof (chain_sum 0) as H.
  split; [repeat split; exact H|].
  exact (sum_angles_union 1 3 [1; 1; 1] [0; 1; 2] (2 * PI - 2 * 2)
           eq_refl eq_refl H).
Defined.


End LRProps.
